(** * Portilla-Simoncelli texture statistics and pooling windows (plenoptic)

    A shallow embedding of
      - [src/plenoptic/simulate/models/portilla_simoncelli.py]
        (class [PortillaSimoncelli]) and
      - [plenoptic/simulate/canonical_computations/pooling.py]
        (class [PoolingWindows]),
    together with the properties their specification states about them.

    Conventions of the embedding.
      - A torch tensor is a shape (list of dimension sizes) and its entries
        in row-major (contiguous) order.
      - Tensor entries are idealised: floating-point numbers are read as real
        numbers ([R]); complex entries are pairs of reals.  The purely
        structural operations are polymorphic in the entry type.
      - A Python exception is a value of [exn]; code that can raise lives in
        the error monad [result].
      - An [OrderedDict] is an association list in insertion order. *)

From Stdlib Require Import String Ascii DecimalString.
From Stdlib Require Import List Arith Lia ZArith Bool.
From Stdlib Require Import Reals Lra.
Import ListNotations.

Set Implicit Arguments.

(* ===================================================================== *)
(** * Part I -- the model                                                  *)
(* ===================================================================== *)

(** ** Exceptions *)

Inductive exn : Type :=
| ValueError (msg : string)
| IndexError
| RuntimeError
| Exception (msg : string).

Definition result (T : Type) : Type := (exn + T)%type.

Definition ret {T : Type} (x : T) : result T := inr x.

Definition raise {T : Type} (e : exn) : result T := inl e.

Definition bind {T U : Type} (c : result T) (k : T -> result U) : result U :=
  match c with
  | inl e => inl e
  | inr x => k x
  end.

Declare Scope result_scope.
Delimit Scope result_scope with result.
Notation "x <- c ;; k" := (bind c (fun x => k))
  (at level 61, c at next level, right associativity) : result_scope.
Notation "' p <- c ;; k" := (bind c (fun x => match x with p => k end))
  (at level 61, p pattern, c at next level, right associativity) : result_scope.
Open Scope result_scope.

(** [mapM], for comprehensions whose body can raise. *)
Fixpoint mapM {T U : Type} (f : T -> result U) (l : list T) : result (list U) :=
  match l with
  | [] => ret []
  | x :: xs => y <- f x ;; ys <- mapM f xs ;; ret (y :: ys)
  end.

(** ** Tensors *)

Module Tensor.

Record tensor (A : Type) : Type := mk { shape : list nat; data : list A }.

Arguments mk {A} shape data.
Arguments shape {A} t.
Arguments data {A} t.

(** [np.prod] of a shape: the number of entries. *)
Definition numel (sh : list nat) : nat := fold_right Nat.mul 1 sh.

Definition ndim {A} (t : tensor A) : nat := length (shape t).

(** A tensor is well formed when it holds as many entries as its shape says. *)
Definition wf {A} (t : tensor A) : Prop := length (data t) = numel (shape t).

(** Splitting a shape into its leading dimensions and the last one;
    [None] for a 0-d tensor. *)
Definition split_last (sh : list nat) : option (list nat * nat) :=
  match rev sh with
  | [] => None
  | n :: ld => Some (rev ld, n)
  end.

(** [k] consecutive chunks of [n] entries. *)
Fixpoint chunks {A} (k n : nat) (l : list A) : list (list A) :=
  match k with
  | 0 => []
  | S k' => firstn n l :: chunks k' n (skipn n l)
  end.

(** The rows of a tensor: its entries grouped along the last dimension. *)
Definition rows {A} (t : tensor A) : list (list A) :=
  match split_last (shape t) with
  | Some (ld, n) => chunks (numel ld) n (data t)
  | None => []
  end.

(** The entry at position [i] of a row, as a list of length at most one. *)
Definition pick {A} (i : nat) (r : list A) : list A := firstn 1 (skipn i r).

(** [t.shape[-1]]; a 0-d tensor has no last dimension. *)
Definition last_dim {A} (t : tensor A) : result nat :=
  match split_last (shape t) with
  | Some (_, n) => ret n
  | None => raise IndexError
  end.

(** [t[..., i]] for [0 <= i]. *)
Definition index_last {A} (i : nat) (t : tensor A) : result (tensor A) :=
  match split_last (shape t) with
  | Some (ld, n) =>
      if i <? n then ret (mk ld (flat_map (pick i) (rows t)))
      else raise IndexError
  | None => raise IndexError
  end.

(** [t[..., a:b]] for [0 <= a] and [0 <= b]: Python slices clamp to the
    extent of the dimension and never raise. *)
Definition slice_last {A} (a b : nat) (t : tensor A) : result (tensor A) :=
  match split_last (shape t) with
  | Some (ld, n) =>
      ret (mk (ld ++ [Nat.min b n - Nat.min a n])
              (flat_map (fun r => firstn (b - a) (skipn a r)) (rows t)))
  | None => raise IndexError
  end.

(** [t.unflatten(-1, nn)]. *)
Definition unflatten_last {A} (nn : list nat) (t : tensor A) : result (tensor A) :=
  match split_last (shape t) with
  | Some (ld, n) =>
      if numel nn =? n then ret (mk (ld ++ nn) (data t))
      else raise RuntimeError
  | None => raise IndexError
  end.

(** [t.flatten(start_dim=2, end_dim=-1)]. *)
Definition flatten_from2 {A} (t : tensor A) : result (tensor A) :=
  if 3 <=? ndim t
  then ret (mk (firstn 2 (shape t) ++ [numel (skipn 2 (shape t))]) (data t))
  else raise IndexError.

(** [t.unsqueeze(-1)]. *)
Definition unsqueeze_last {A} (t : tensor A) : tensor A :=
  mk (shape t ++ [1]) (data t).

Definition shape_eqb (s1 s2 : list nat) : bool :=
  if list_eq_dec Nat.eq_dec s1 s2 then true else false.

(** [torch.stack(ts, dim=-1)]: all tensors must have the same shape. *)
Definition stack_last {A} (ts : list (tensor A)) : result (tensor A) :=
  match ts with
  | [] => raise RuntimeError
  | t0 :: _ =>
      if forallb (fun t => shape_eqb (shape t) (shape t0)) ts
      then ret (mk (shape t0 ++ [length ts])
                   (flat_map (fun p => flat_map (fun t => pick p (data t)) ts)
                             (seq 0 (numel (shape t0)))))
      else raise RuntimeError
  end.

(** [torch.cat(ts, dim=-1)] on tensors none of which is the 1-d empty
    tensor: all of them must agree on every dimension but the last. *)
Definition cat_last_nonempty {A} (ts : list (tensor A)) : result (tensor A) :=
  match ts with
  | [] => raise RuntimeError
  | t0 :: _ =>
      match split_last (shape t0) with
      | None => raise RuntimeError
      | Some (ld, _) =>
          ns <- mapM (fun t => match split_last (shape t) with
                               | Some (ld', n) =>
                                   if shape_eqb ld' ld then ret n
                                   else raise RuntimeError
                               | None => raise RuntimeError
                               end) ts ;;
          ret (mk (ld ++ [list_sum ns])
                  (flat_map (fun r => flat_map (fun t => nth r (rows t) []) ts)
                            (seq 0 (numel ld))))
      end
  end.

(** [torch.cat(ts, dim=-1)]: tensors of shape [(0,)] are skipped, whatever
    the shape of the others. *)
Definition cat_last {A} (ts : list (tensor A)) : result (tensor A) :=
  match ts with
  | [] => raise RuntimeError
  | _ :: _ =>
      match filter (fun t => negb (shape_eqb (shape t) [0])) ts with
      | [] => ret (mk [0] [])
      | ts' => cat_last_nonempty ts'
      end
  end.

(** The dtype of a 1-d tensor of positions. *)
Inductive dtype : Type := int64 | float32.

(** [torch.tensor(l)] for a list [l] of Python ints: a 1-d tensor of dtype
    [int64]; for the empty list, a tensor of the default dtype, [float32]. *)
Definition tensor_of_ints (l : list nat) : dtype * list nat :=
  match l with
  | [] => (float32, [])
  | _ :: _ => (int64, l)
  end.

(** [t.index_select(-1, ind)]: an index that is not of an integer dtype is
    refused with a [RuntimeError], a position out of range with an
    [IndexError]. *)
Definition index_select_last {A} (ind : dtype * list nat) (t : tensor A)
  : result (tensor A) :=
  match fst ind with
  | float32 => raise RuntimeError
  | int64 =>
      match split_last (shape t) with
      | Some (ld, n) =>
          if forallb (fun i => i <? n) (snd ind)
          then ret (mk (ld ++ [length (snd ind)])
                       (flat_map (fun r => flat_map (fun i => pick i r) (snd ind))
                                 (rows t)))
          else raise IndexError
      | None => raise IndexError
      end
  end.

(** *** Entries by multi-index *)

(** All multi-indices of a shape, in row-major order. *)
Fixpoint indices (sh : list nat) : list (list nat) :=
  match sh with
  | [] => [[]]
  | d :: sh' => flat_map (fun i => map (cons i) (indices sh')) (seq 0 d)
  end.

(** The tensor of shape [sh] whose entry at [idx] is [f idx]. *)
Definition tabulate {A} (sh : list nat) (f : list nat -> A) : tensor A :=
  mk sh (map f (indices sh)).

Fixpoint valid_index (sh idx : list nat) : bool :=
  match sh, idx with
  | [], [] => true
  | d :: sh', i :: idx' => (i <? d) && valid_index sh' idx'
  | _, _ => false
  end.

(** The row-major offset of a multi-index. *)
Fixpoint offset (sh idx : list nat) : nat :=
  match sh, idx with
  | _ :: sh', i :: idx' => i * numel sh' + offset sh' idx'
  | _, _ => 0
  end.

(** [t[idx]] for a full multi-index of non-negative positions. *)
Definition get {A} (t : tensor A) (idx : list nat) : option A :=
  if valid_index (shape t) idx then nth_error (data t) (offset (shape t) idx)
  else None.

(** [get] with a default, for reads that are in range by construction. *)
Definition entry {A} (d : A) (t : tensor A) (idx : list nat) : A :=
  match get t idx with
  | Some x => x
  | None => d
  end.

(** *** Broadcasting *)

(** Shapes are aligned on the right; two sizes are compatible when they are
    equal or one of them is 1.  The lists here are reversed shapes. *)
Fixpoint broadcast_rev (r1 r2 : list nat) : option (list nat) :=
  match r1, r2 with
  | [], _ => Some r2
  | _, [] => Some r1
  | d1 :: r1', d2 :: r2' =>
      match broadcast_rev r1' r2' with
      | None => None
      | Some r =>
          if d1 =? d2 then Some (d1 :: r)
          else if d1 =? 1 then Some (d2 :: r)
          else if d2 =? 1 then Some (d1 :: r)
          else None
      end
  end.

Definition broadcast_shapes (s1 s2 : list nat) : result (list nat) :=
  match broadcast_rev (rev s1) (rev s2) with
  | Some r => ret (rev r)
  | None => raise RuntimeError
  end.

(** The index an operand of shape [sh] is read at, for the index [idx] of
    the broadcast result: leading positions the operand lacks are dropped,
    and a dimension of size 1 is read at 0. *)
Definition bidx (sh idx : list nat) : list nat :=
  map (fun di => if fst di =? 1 then 0 else snd di)
      (combine sh (skipn (length idx - length sh) idx)).

(** An elementwise binary operation with broadcasting. *)
Definition broadcast2 {A B C} (f : A -> B -> C) (da : A) (db : B)
    (t1 : tensor A) (t2 : tensor B) : result (tensor C) :=
  sh <- broadcast_shapes (shape t1) (shape t2) ;;
  ret (tabulate sh (fun idx => f (entry da t1 (bidx (shape t1) idx))
                                 (entry db t2 (bidx (shape t2) idx)))).

(** An elementwise unary operation. *)
Definition map_tensor {A B} (f : A -> B) (t : tensor A) : tensor B :=
  mk (shape t) (map f (data t)).

(** The last two dimensions of a shape. *)
Definition split_last2 (sh : list nat) : option (list nat * nat * nat) :=
  match rev sh with
  | w :: h :: ld => Some (rev ld, h, w)
  | _ => None
  end.

(** A reduction over the last two dimensions ([dim=(-2, -1)]): [f] receives
    the entries of each spatial slice in row-major order. *)
Definition reduce_last2 {A B} (d : A) (f : list A -> B) (keepdim : bool)
    (t : tensor A) : result (tensor B) :=
  match split_last2 (shape t) with
  | Some (ld, h, w) =>
      ret (tabulate (ld ++ (if keepdim then [1; 1] else []))
             (fun idx => f (map (fun hw => entry d t (firstn (length ld) idx ++ hw))
                                (indices [h; w]))))
  | None => raise IndexError
  end.

(** *** Padding *)

(** The shape [nn.functional.pad(x, (0, r1, 0, r2, ...))] gives a tensor of
    shape [x]: [rs] lists the amounts added at the end of the last dimension,
    of the one before it, and so on; there cannot be more amounts than
    dimensions.  The lists of [pad_rev] are reversed shapes. *)
Fixpoint pad_rev (rx rs : list nat) : option (list nat) :=
  match rs, rx with
  | [], _ => Some rx
  | _ :: _, [] => None
  | r :: rs', d :: rx' =>
      match pad_rev rx' rs' with
      | Some l => Some (d + r :: l)
      | None => None
      end
  end.

Definition pad_shape (rs : list nat) (x : list nat) : result (list nat) :=
  match pad_rev (rev x) rs with
  | Some l => ret (rev l)
  | None => raise RuntimeError
  end.

End Tensor.

Import Tensor.

(** ** Numeric operations of torch and einops *)

Module Torch.

(** [sum] of a list of reals. *)
Definition sum_list (l : list R) : R := fold_right Rplus 0%R l.

(** [torch.mean] over the entries of a slice. *)
Definition mean_list (l : list R) : R := (sum_list l / INR (length l))%R.

(** [torch.var] over the entries of a slice.  Its default is the unbiased
    estimate (Bessel's correction): the sum of squared deviations from the
    mean is divided by [N - 1]. *)
Definition var_list (l : list R) : R :=
  (sum_list (map (fun x => (x - mean_list l) ^ 2) l) / (INR (length l) - 1))%R.

(** [torch.std], the square root of [torch.var]. *)
Definition std_list (l : list R) : R := sqrt (var_list l).

Definition min_list (l : list R) : R :=
  match l with
  | [] => 0%R
  | x :: l' => fold_left Rmin l' x
  end.

Definition max_list (l : list R) : R :=
  match l with
  | [] => 0%R
  | x :: l' => fold_left Rmax l' x
  end.

(** A Python number used where a tensor is expected: a 0-d tensor. *)
Definition scalar (x : R) : tensor R := mk [] [x].

(** [t.sum((-1, -2))] *)
Definition sum_last2 (t : tensor R) : result (tensor R) :=
  reduce_last2 0%R sum_list false t.

(** [torch.mean(t, dim=(-2, -1), keepdim=keepdim)] *)
Definition mean_last2 (keepdim : bool) (t : tensor R) : result (tensor R) :=
  reduce_last2 0%R mean_list keepdim t.

(** [torch.var(t, dim=(-2, -1))] *)
Definition var_last2 (t : tensor R) : result (tensor R) :=
  reduce_last2 0%R var_list false t.

(** [einops.reduce(t, 'b c h w -> b c', op)] for [op] one of ['min'] and
    ['max']: the input must be 4-d, and a reduction over no entries is an
    error. *)
Definition reduce_bchw (f : list R -> R) (t : tensor R) : result (tensor R) :=
  match shape t with
  | [_; _; h; w] =>
      if (h * w =? 0) then raise RuntimeError
      else reduce_last2 0%R f false t
  | _ => raise RuntimeError
  end.

(** [a - b], [a / b], [a * b] with broadcasting. *)
Definition sub (a b : tensor R) : result (tensor R) := broadcast2 Rminus 0%R 0%R a b.
Definition div (a b : tensor R) : result (tensor R) := broadcast2 Rdiv 0%R 0%R a b.
Definition mul (a b : tensor R) : result (tensor R) := broadcast2 Rmult 0%R 0%R a b.

(** [t > c] for a Python number [c]. *)
Definition gt_scalar (t : tensor R) (c : R) : tensor bool :=
  map_tensor (fun x => if Rgt_dec x c then true else false) t.

(** [torch.zeros_like(t)] and [c * torch.ones_like(t)] *)
Definition zeros_like (t : tensor R) : tensor R := map_tensor (fun _ => 0%R) t.
Definition full_like (c : R) (t : tensor R) : tensor R := map_tensor (fun _ => c) t.

(** [torch.where(cond, a, b)]: the three operands are broadcast together. *)
Definition torch_where (cond : tensor bool) (a b : tensor R) : result (tensor R) :=
  sh0 <- broadcast_shapes (shape cond) (shape a) ;;
  sh <- broadcast_shapes sh0 (shape b) ;;
  ret (tabulate sh (fun idx =>
                      if entry false cond (bidx (shape cond) idx)
                      then entry 0%R a (bidx (shape a) idx)
                      else entry 0%R b (bidx (shape b) idx))).

(** The entry of [einops.pack(ts, 'b c *')] at batch [i], channel [j] and
    packed position [p]: the tensors are flattened behind their first two
    dimensions and laid side by side. *)
Fixpoint pack_entry (ts : list (tensor R)) (c i j p : nat) : R :=
  match ts with
  | [] => 0%R
  | t :: ts' =>
      let n := numel (skipn 2 (shape t)) in
      if p <? n then nth ((i * c + j) * n + p) (data t) 0%R
      else pack_entry ts' c i j (p - n)
  end.

(** [einops.pack(ts, 'b c *')[0]]: every tensor needs at least the two
    leading dimensions, and all must agree on them. *)
Definition pack_bc (ts : list (tensor R)) : result (tensor R) :=
  match ts with
  | [] => raise RuntimeError
  | t0 :: _ =>
      match shape t0 with
      | b :: c :: _ =>
          if forallb (fun t => shape_eqb (firstn 2 (shape t)) [b; c]) ts
          then ret (tabulate [b; c; list_sum (map (fun t => numel (skipn 2 (shape t))) ts)]
                      (fun idx => match idx with
                                  | [i; j; p] => pack_entry ts c i j p
                                  | _ => 0%R
                                  end))
          else raise RuntimeError
      | _ => raise RuntimeError
      end
  end.

(** [t / c] for a Python number [c]. *)
Definition div_scalar (t : tensor R) (c : R) : tensor R :=
  map_tensor (fun v => (v / c)%R) t.

(** [t * c] for a Python number [c]. *)
Definition mul_scalar (t : tensor R) (c : R) : tensor R :=
  map_tensor (fun v => (v * c)%R) t.

(** [torch.mul] applied to the last two sizes of [t]: the number of entries
    of a spatial slice. *)
Definition num_el_last2 {A} (t : tensor A) : result nat :=
  match split_last2 (shape t) with
  | Some (_, h, w) => ret (h * w)
  | None => raise RuntimeError
  end.

(** [einops.einsum(x, y, 'b c s o1 h w, b c s o2 h w -> b c s o1 o2')] *)
Definition einsum_cross (x y : tensor R) : result (tensor R) :=
  match shape x, shape y with
  | [b; c; s; o1; h; w], [b'; c'; s'; o2; h'; w'] =>
      if shape_eqb [b; c; s; h; w] [b'; c'; s'; h'; w']
      then ret (tabulate [b; c; s; o1; o2]
                  (fun idx =>
                     match idx with
                     | [ib; ic; sc; i1; i2] =>
                         sum_list
                           (map (fun hw =>
                                   (entry 0%R x ([ib; ic; sc; i1] ++ hw)
                                    * entry 0%R y ([ib; ic; sc; i2] ++ hw))%R)
                                (indices [h; w]))
                     | _ => 0%R
                     end))
      else raise RuntimeError
  | _, _ => raise RuntimeError
  end.

(** [torch.std(t, (-3, -2, -1), keepdim=True)] *)
Definition std_last3_keepdim (t : tensor R) : result (tensor R) :=
  match rev (shape t) with
  | w :: h :: o :: rld =>
      let ld := rev rld in
      ret (tabulate (ld ++ [1; 1; 1])
             (fun idx => std_list (map (fun ohw => entry 0%R t (firstn (length ld) idx ++ ohw))
                                       (indices [o; h; w]))))
  | _ => raise IndexError
  end.

(** [t.squeeze(-1)]: a last dimension of size 1 is removed. *)
Definition squeeze_last {A} (t : tensor A) : tensor A :=
  match split_last (shape t) with
  | Some (ld, 1) => mk ld (data t)
  | _ => t
  end.

(** [einops.rearrange(t, 'b c s o1 o2 -> b c o1 o2 s')] *)
Definition rearrange_scale_last (t : tensor R) : result (tensor R) :=
  match shape t with
  | [b; c; s; o1; o2] =>
      ret (tabulate [b; c; o1; o2; s]
             (fun idx => match idx with
                         | [ib; ic; i1; i2; sc] => entry 0%R t [ib; ic; sc; i1; i2]
                         | _ => 0%R
                         end))
  | _ => raise RuntimeError
  end.

(** *** Complex tensors *)

(** A complex number, as its real and its imaginary part. *)
Definition complex : Type := (R * R)%type.

(** The modulus of a complex number. *)
Definition modulus (z : complex) : R := sqrt (fst z ^ 2 + snd z ^ 2).

(** [t.abs()], [t.real] and [t.imag] of a complex tensor, and [-t]. *)
Definition abs_complex (t : tensor complex) : tensor R := map_tensor modulus t.
Definition real (t : tensor complex) : tensor R := map_tensor fst t.
Definition imag (t : tensor complex) : tensor R := map_tensor snd t.
Definition neg (t : tensor R) : tensor R := map_tensor Ropp t.

(** [torch.atan2(y, x)]: the angle of the point [(x, y)], in [(-pi, pi]]. *)
Definition atan2 (y x : R) : R :=
  if Rlt_dec 0 x then atan (y / x)
  else if Rlt_dec x 0
       then (if Rle_dec 0 y then atan (y / x) + PI else atan (y / x) - PI)
       else if Rlt_dec 0 y then PI / 2
            else if Rlt_dec y 0 then - (PI / 2) else 0.

(** [t[:, :, a:]] for [0 <= a]: the tensor needs three dimensions, and the
    slice clamps to the extent of the third one. *)
Definition slice_dim2_from {A} (d : A) (a : nat) (t : tensor A) : result (tensor A) :=
  match shape t with
  | b :: c :: s :: tl =>
      ret (tabulate (b :: c :: (s - a) :: tl)
             (fun idx => match idx with
                         | ib :: ic :: sc :: il => entry d t (ib :: ic :: (sc + a) :: il)
                         | _ => d
                         end))
  | _ => raise IndexError
  end.

(** The view of a tensor as [b c s o h w] that the pattern ['b c s * h w']
    of einops gives it: whatever lies between the third dimension and the
    last two is flattened into one. *)
Definition view_bcsohw {A} (t : tensor A) : result (tensor A) :=
  match shape t with
  | b :: c :: s :: tl =>
      match split_last2 tl with
      | Some (mid, h, w) => ret (mk [b; c; s; numel mid; h; w] (data t))
      | None => raise RuntimeError
      end
  | _ => raise RuntimeError
  end.

(** [einops.pack([x, y], 'b c s * h w')[0]]: the two tensors are laid side
    by side along the packed dimension, and must agree on all the others. *)
Definition pack_bcs_hw (x y : tensor R) : result (tensor R) :=
  x <- view_bcsohw x ;;
  y <- view_bcsohw y ;;
  match shape x, shape y with
  | [b; c; s; o1; h; w], [b'; c'; s'; o2; h'; w'] =>
      if shape_eqb [b; c; s; h; w] [b'; c'; s'; h'; w']
      then ret (tabulate [b; c; s; o1 + o2; h; w]
                  (fun idx =>
                     match idx with
                     | [ib; ic; sc; k; i; j] =>
                         if k <? o1 then entry 0%R x [ib; ic; sc; k; i; j]
                         else entry 0%R y [ib; ic; sc; k - o1; i; j]
                     | _ => 0%R
                     end))
      else raise RuntimeError
  | _, _ => raise RuntimeError
  end.

(** *** Operations of the lowpass stitching *)

(** [x.transpose(-2, -1)] *)
Definition transpose_last2 (x : tensor R) : result (tensor R) :=
  match split_last2 (shape x) with
  | Some (ld, h, w) =>
      ret (tabulate (ld ++ [w; h])
             (fun idx => match skipn (length ld) idx with
                         | [j; i] => entry 0%R x (firstn (length ld) idx ++ [i; j])
                         | _ => 0%R
                         end))
  | None => raise IndexError
  end.

(** The position a circular shift by [shift] reads for position [i] of a
    dimension of size [n]: [(i - shift) mod n]. *)
Definition rolled (shift : Z) (n i : nat) : nat :=
  Z.to_nat ((Z.of_nat i - shift) mod Z.of_nat n).

(** [x.roll(shift, -2)] *)
Definition roll_rows (shift : Z) (x : tensor R) : result (tensor R) :=
  match split_last2 (shape x) with
  | Some (ld, h, w) =>
      ret (tabulate (ld ++ [h; w])
             (fun idx => match skipn (length ld) idx with
                         | [i; j] => entry 0%R x (firstn (length ld) idx
                                                  ++ [rolled shift h i; j])
                         | _ => 0%R
                         end))
  | None => raise IndexError
  end.

(** [x.roll(shift, -1)] *)
Definition roll_cols (shift : Z) (x : tensor R) : result (tensor R) :=
  match split_last2 (shape x) with
  | Some (ld, h, w) =>
      ret (tabulate (ld ++ [h; w])
             (fun idx => match skipn (length ld) idx with
                         | [i; j] => entry 0%R x (firstn (length ld) idx
                                                  ++ [i; rolled shift w j])
                         | _ => 0%R
                         end))
  | None => raise IndexError
  end.

(** [x @ y] for operands of at least two dimensions (a 1-d operand, which
    torch treats as a vector, is not modelled and raises here): the leading
    dimensions are broadcast and the inner sizes must agree. *)
Definition matmul (x y : tensor R) : result (tensor R) :=
  match split_last2 (shape x), split_last2 (shape y) with
  | Some (ldx, n, p), Some (ldy, p', m) =>
      if p =? p' then
        ld <- broadcast_shapes ldx ldy ;;
        ret (tabulate (ld ++ [n; m])
               (fun idx =>
                  let il := firstn (length ld) idx in
                  match skipn (length ld) idx with
                  | [i; j] =>
                      sum_list
                        (map (fun q => (entry 0%R x (bidx ldx il ++ [i; q])
                                        * entry 0%R y (bidx ldy il ++ [q; j]))%R)
                             (seq 0 p))
                  | _ => 0%R
                  end))
      else raise RuntimeError
  | _, _ => raise RuntimeError
  end.

(** [nn.functional.pad(x, (0, r1, 0, r2, ...), 'constant', 0)]: zeros are
    added at the end of the trailing dimensions. *)
Definition pad_right (rs : list nat) (x : tensor R) : result (tensor R) :=
  sh <- pad_shape rs (shape x) ;;
  ret (tabulate sh (fun idx => if valid_index (shape x) idx then entry 0%R x idx
                               else 0%R)).

(** [x.std()]: the standard deviation of all the entries of [x]. *)
Definition std_all (x : tensor R) : R := std_list (data x).

End Torch.

(** ** Signal helpers ([plenoptic.tools.signal]) *)

Module Signal.

(** Modelled from the spec: [signal.modulate_phase(x, phase_factor)], missing
    from the sources.  Every entry keeps its modulus and has its phase angle
    multiplied by [phase_factor]: [z] becomes
    [|z| exp(i phase_factor arg(z))]. *)
Definition modulate_phase_entry (phase_factor : R) (z : Torch.complex)
  : Torch.complex :=
  let angle := Torch.atan2 (snd z) (fst z) in
  let amp := Torch.modulus z in
  (amp * cos (phase_factor * angle), amp * sin (phase_factor * angle))%R.

Definition modulate_phase (x : tensor Torch.complex) (phase_factor : R)
  : tensor Torch.complex :=
  map_tensor (modulate_phase_entry phase_factor) x.

End Signal.

(** ** Moment statistics ([plenoptic.tools.stats]) *)

Module Stats.

(** Modelled from the spec: [stats.variance], missing from the sources.  The
    population variance of a slice: the sum of squared deviations from the
    mean divided by [N], not by [N - 1]. *)
Definition variance_list (l : list R) : R :=
  (Torch.sum_list (map (fun x => (x - Torch.mean_list l) ^ 2) l)
   / INR (length l))%R.

(** Modelled from the spec: [stats.skew(x, mean=mean, var=var, dim=[-2, -1])],
    missing from the sources.  The skew [E[(x-mu)^3] / sigma^3] of every
    spatial slice, with the mean [mu] and the variance [sigma^2] supplied by
    the caller. *)
Definition skew (x mean var : tensor R) : result (tensor R) :=
  d <- Torch.sub x mean ;;
  m3 <- reduce_last2 0%R (fun l => Torch.mean_list (map (fun v => v ^ 3)%R l)) false d ;;
  broadcast2 (fun m v => m / sqrt v ^ 3)%R 0%R 0%R m3 var.

(** Modelled from the spec: [stats.kurtosis(x, mean=mean, var=var,
    dim=[-2, -1])], missing from the sources.  The kurtosis
    [E[(x-mu)^4] / sigma^4] of every spatial slice, with the mean and the
    variance supplied by the caller. *)
Definition kurtosis (x mean var : tensor R) : result (tensor R) :=
  d <- Torch.sub x mean ;;
  m4 <- reduce_last2 0%R (fun l => Torch.mean_list (map (fun v => v ^ 4)%R l)) false d ;;
  broadcast2 (fun m v => m / sqrt v ^ 4)%R 0%R 0%R m4 var.

End Stats.

(** ** Ordered dictionaries *)

(** Keys of the statistics dictionaries: strings and [(scale, orientation)]
    tuples. *)
Inductive key : Type :=
| KStr (s : string)
| KBand (sc ori : nat).

Definition key_eqb (k1 k2 : key) : bool :=
  match k1, k2 with
  | KStr s1, KStr s2 => String.eqb s1 s2
  | KBand s1 o1, KBand s2 o2 => (s1 =? s2) && (o1 =? o2)
  | _, _ => false
  end.

Definition odict (V : Type) : Type := list (key * V).

(** [d[k] = v]: an existing key keeps its position, a new one goes last. *)
Fixpoint od_set {V : Type} (k : key) (v : V) (d : odict V) : odict V :=
  match d with
  | [] => [(k, v)]
  | (k', v') :: d' =>
      if key_eqb k' k then (k', v) :: d' else (k', v') :: od_set k v d'
  end.

Definition od_values {V : Type} (d : odict V) : list V := map snd d.

(** A value of the representation dictionary: a tensor or a nested
    [OrderedDict] of tensors. *)
Inductive stat (A : Type) : Type :=
| Leaf (t : tensor A)
| Nested (d : odict (tensor A)).

Arguments Leaf {A} t.
Arguments Nested {A} d.

(** ** Scale labels *)

(** [SCALES_TYPE]: an integer or a string. *)
Inductive label : Type :=
| LInt (z : Z)
| LStr (s : string).

Definition label_eqb (a b : label) : bool :=
  match a, b with
  | LInt x, LInt y => Z.eqb x y
  | LStr x, LStr y => String.eqb x y
  | _, _ => false
  end.

(** [s in scales_to_keep] *)
Definition label_in (s : label) (l : list label) : bool :=
  existsb (label_eqb s) l.

(** [k * l] for a Python list [l]. *)
Definition list_times {T : Type} (k : nat) (l : list T) : list T :=
  concat (repeat l k).

(** [enumerate] *)
Definition enumerate {T : Type} (l : list T) : list (nat * T) :=
  combine (seq 0 (length l)) l.

Definition string_of_nat (n : nat) : string :=
  NilEmpty.string_of_uint (Nat.to_uint n).

(** ** Shapes

    What every operation the forward pass uses does to the shape of its
    operands: the shape of the result, or the exception the operation raises
    when the shapes do not fit.  The entries play no part here. *)

Module ShapeOf.

(** A reduction over the last two dimensions ([x.mean((-2, -1))],
    [torch.var(x, dim=(-2, -1))], with or without [keepdim]). *)
Definition reduce_last2 (keepdim : bool) (x : list nat) : result (list nat) :=
  match split_last2 x with
  | Some (ld, _, _) => ret (ld ++ (if keepdim then [1; 1] else []))
  | None => raise IndexError
  end.

(** An elementwise operation on two tensors broadcasts them; on three
    ([torch.where]) it broadcasts all of them. *)
Definition binary (x y : list nat) : result (list nat) := broadcast_shapes x y.

Definition ternary (x y z : list nat) : result (list nat) :=
  xy <- binary x y ;; binary xy z.

(** [einops.reduce(x, 'b c h w -> b c', 'min')] (or ['max']) *)
Definition reduce_bchw (x : list nat) : result (list nat) :=
  match x with
  | [b; c; h; w] => if h * w =? 0 then raise RuntimeError else ret [b; c]
  | _ => raise RuntimeError
  end.

(** [einops.pack(xs, pattern)[0]] for a pattern with [npre] named axes before
    the star and [npost] after it: every tensor has at least these axes, all
    agree on them, and what lies between is flattened and laid side by
    side. *)
Definition pack (npre npost : nat) (xs : list (list nat)) : result (list nat) :=
  match xs with
  | [] => raise RuntimeError
  | x0 :: _ =>
      let pre := fun x : list nat => firstn npre x in
      let post := fun x : list nat => skipn (length x - npost) x in
      let mid := fun x : list nat =>
                   numel (firstn (length x - npre - npost) (skipn npre x)) in
      if forallb (fun x => (npre + npost <=? length x)
                           && shape_eqb (pre x) (pre x0)
                           && shape_eqb (post x) (post x0)) xs
      then ret (pre x0 ++ [list_sum (map mid xs)] ++ post x0)
      else raise RuntimeError
  end.

(** [x.flatten(2)] *)
Definition flatten_from2 (x : list nat) : result (list nat) :=
  if 3 <=? length x then ret (firstn 2 x ++ [numel (skipn 2 x)])
  else raise IndexError.

(** [x[..., i]] for [0 <= i] *)
Definition index_last (i : nat) (x : list nat) : result (list nat) :=
  match split_last x with
  | Some (ld, n) => if i <? n then ret ld else raise IndexError
  | None => raise IndexError
  end.

(** [x[..., -1:]] and [x[..., :1]]: at most one position of the last
    dimension is kept. *)
Definition slice_last_one (x : list nat) : result (list nat) :=
  match split_last x with
  | Some (ld, n) => ret (ld ++ [Nat.min 1 n])
  | None => raise IndexError
  end.

(** [x[:, :, i]] for [0 <= i], and [x[:, :, -1]] *)
Definition index_dim2 (i : nat) (x : list nat) : result (list nat) :=
  match x with
  | b :: c :: s :: tl => if i <? s then ret (b :: c :: tl) else raise IndexError
  | _ => raise IndexError
  end.

Definition index_dim2_last (x : list nat) : result (list nat) :=
  match x with
  | b :: c :: s :: tl => if 1 <=? s then ret (b :: c :: tl) else raise IndexError
  | _ => raise IndexError
  end.

(** [x[:, :, :-1]] and [x[:, :, 1:]] *)
Definition slice_dim2_drop_one (x : list nat) : result (list nat) :=
  match x with
  | b :: c :: s :: tl => ret (b :: c :: (s - 1) :: tl)
  | _ => raise IndexError
  end.

(** [torch.stack(xs, dim)] for [dim = -1] and [dim = 2]: the list is not
    empty and all tensors have the same shape. *)
Definition stack_last (xs : list (list nat)) : result (list nat) :=
  match xs with
  | [] => raise RuntimeError
  | x0 :: _ =>
      if forallb (fun x => shape_eqb x x0) xs then ret (x0 ++ [length xs])
      else raise RuntimeError
  end.

Definition stack_dim2 (xs : list (list nat)) : result (list nat) :=
  match xs with
  | [] => raise RuntimeError
  | x0 :: _ =>
      if forallb (fun x => shape_eqb x x0) xs
      then (if 2 <=? length x0
            then ret (firstn 2 x0 ++ [length xs] ++ skipn 2 x0)
            else raise IndexError)
      else raise RuntimeError
  end.

(** [torch.cat(xs, -1)]: tensors of shape [(0,)] are skipped; the others
    agree on every dimension but the last. *)
Definition cat_last (xs : list (list nat)) : result (list nat) :=
  match xs with
  | [] => raise RuntimeError
  | _ :: _ =>
      match filter (fun x => negb (shape_eqb x [0])) xs with
      | [] => ret [0]
      | x0 :: xs' =>
          match split_last x0 with
          | None => raise RuntimeError
          | Some (ld, _) =>
              ns <- mapM (fun x => match split_last x with
                                   | Some (ld', n) =>
                                       if shape_eqb ld' ld then ret n
                                       else raise RuntimeError
                                   | None => raise RuntimeError
                                   end) (x0 :: xs') ;;
              ret (ld ++ [list_sum ns])
          end
      end
  end.

(** [x.unsqueeze(-1)] and [x.squeeze(-1)] *)
Definition unsqueeze_last (x : list nat) : list nat := x ++ [1].

Definition squeeze_last (x : list nat) : list nat :=
  match split_last x with
  | Some (ld, 1) => ld
  | _ => x
  end.

(** [x.transpose(-2, -1)] *)
Definition transpose_last2 (x : list nat) : result (list nat) :=
  match split_last2 x with
  | Some (ld, h, w) => ret (ld ++ [w; h])
  | None => raise IndexError
  end.

(** [torch.mul] applied to the last two sizes of [x]. *)
Definition num_el_last2 (x : list nat) : result nat :=
  match split_last2 x with
  | Some (_, h, w) => ret (h * w)
  | None => raise RuntimeError
  end.

(** [x @ y] for tensors of at least two dimensions: the leading dimensions
    are broadcast and the inner sizes must agree. *)
Definition matmul (x y : list nat) : result (list nat) :=
  match split_last2 x, split_last2 y with
  | Some (ldx, n, p), Some (ldy, p', m) =>
      if p =? p' then ld <- broadcast_shapes ldx ldy ;; ret (ld ++ [n; m])
      else raise RuntimeError
  | _, _ => raise RuntimeError
  end.

(** [nn.functional.pad(x, (0, r1, 0, r2, ...), 'constant', 0)] *)
Definition pad_right (rs : list nat) (x : list nat) : result (list nat) :=
  pad_shape rs x.

(** [x.view(s)] *)
Definition view (s x : list nat) : result (list nat) :=
  if numel s =? numel x then ret s else raise RuntimeError.

(** [einops.rearrange(x, 'b (c s o) h w -> b c s o h w', s=s, o=o)] *)
Definition rearrange_split_channels (s o : nat) (x : list nat) : result (list nat) :=
  match x with
  | [b; cso; h; w] =>
      if s * o =? 0 then raise RuntimeError
      else if cso mod (s * o) =? 0 then ret [b; cso / (s * o); s; o; h; w]
           else raise RuntimeError
  | _ => raise RuntimeError
  end.

(** [einops.rearrange(x, 'b c s o h w -> b c (s o h w)')] and
    [einops.rearrange(x, 'b c s h w -> b c (s h w)')] *)
Definition rearrange_flatten (nd : nat) (x : list nat) : result (list nat) :=
  if length x =? nd then ret (firstn 2 x ++ [numel (skipn 2 x)])
  else raise RuntimeError.

(** [einops.rearrange(x, 'b c s o a1 a2 -> b c a1 a2 s o')] and
    [einops.rearrange(x, 'b c s a1 a2 -> b c a1 a2 s')] *)
Definition rearrange_bands_last (x : list nat) : result (list nat) :=
  match x with
  | [b; c; s; o; a1; a2] => ret [b; c; a1; a2; s; o]
  | [b; c; s; a1; a2] => ret [b; c; a1; a2; s]
  | _ => raise RuntimeError
  end.

(** [einops.rearrange(x, 'b c o h w -> b c (w h) o')] *)
Definition rearrange_positions_first (x : list nat) : result (list nat) :=
  match x with
  | [b; c; o; h; w] => ret [b; c; w * h; o]
  | _ => raise RuntimeError
  end.

(** [einops.einsum(x, y, 'b c s o1 h w, b c s o2 h w -> b c s o1 o2')] *)
Definition einsum_cross (x y : list nat) : result (list nat) :=
  match x, y with
  | [b; c; s; o1; h; w], [b'; c'; s'; o2; h'; w'] =>
      if shape_eqb [b; c; s; h; w] [b'; c'; s'; h'; w'] then ret [b; c; s; o1; o2]
      else raise RuntimeError
  | _, _ => raise RuntimeError
  end.

(** [torch.std(x, (-3, -2, -1), keepdim=True)] *)
Definition std_last3_keepdim (x : list nat) : result (list nat) :=
  match rev x with
  | _ :: _ :: _ :: rld => ret (rev rld ++ [1; 1; 1])
  | _ => raise IndexError
  end.

(** [einops.rearrange(x, 'b c s o1 o2 -> b c o1 o2 s')] *)
Definition rearrange_scale_last (x : list nat) : result (list nat) :=
  match x with
  | [b; c; s; o1; o2] => ret [b; c; o1; o2; s]
  | _ => raise RuntimeError
  end.

(** Modelled from the spec: [signal.autocorrelation], missing from the
    sources.  The autocorrelation of every band has the spatial extent of the
    band: the shape is unchanged. *)
Definition autocorrelation (x : list nat) : result (list nat) :=
  match split_last2 x with
  | Some _ => ret x
  | None => raise IndexError
  end.

(** Modelled from the spec: [signal.center_crop(x, k)], missing from the
    sources.  The centered [k] by [k] window of the last two dimensions; the
    spec does not say what a band smaller than the window gives, and the
    model raises there. *)
Definition center_crop (x : list nat) (k : nat) : result (list nat) :=
  match split_last2 x with
  | Some (ld, h, w) =>
      if (k <=? h) && (k <=? w) then ret (ld ++ [k; k]) else raise RuntimeError
  | None => raise IndexError
  end.

(** Modelled from the spec: [signal.shrink(x, factor)], missing from the
    sources.  The spatial grid is downsampled by [factor], which is taken to
    divide both sizes (the model raises otherwise). *)
Definition shrink (x : list nat) (factor : nat) : result (list nat) :=
  match split_last2 x with
  | Some (ld, h, w) =>
      if (factor =? 0) || negb (h mod factor =? 0) || negb (w mod factor =? 0)
      then raise (ValueError "shrink")
      else ret (ld ++ [h / factor; w / factor])
  | None => raise IndexError
  end.

End ShapeOf.

(** ** The PortillaSimoncelli model: labels and the vector/dictionary codec *)

Module PortillaSimoncelli.

Record params : Type := {
  image_shape : nat * nat;
  n_scales : nat;
  n_orientations : nat;
  spatial_corr_width : nat;
  use_true_correlations : bool
}.

Section Codec.

Variable self : params.

Let n_s := n_scales self.
Let n_o := n_orientations self.
Let width := spatial_corr_width self.

Definition pixel_statistics : label := LStr "pixel_statistics".
Definition residual_lowpass : label := LStr "residual_lowpass".
Definition residual_highpass : label := LStr "residual_highpass".

(** [max(2 * self.n_orientations, 5)] *)
Definition ori_crossed : nat := Nat.max (2 * n_o) 5.

Definition _get_representation_scales : list label :=
  let pixel_statistics := list_times 6 [pixel_statistics] in
  let scales := map (fun s => LInt (Z.of_nat s)) (seq 0 n_s) in
  let scales_with_lowpass := scales ++ [residual_lowpass] in
  let scales_by_ori := flat_map (fun s => repeat s n_o) scales in
  let magnitude_means := [residual_highpass] ++ scales_by_ori ++ [residual_lowpass] in
  let skew_reconstructed := scales_with_lowpass in
  let kurtosis_reconstructed := scales_with_lowpass in
  let std_reconstructed := scales_with_lowpass in
  let auto_corr := list_times (width ^ 2) scales_with_lowpass in
  let auto_corr_mag := list_times (width ^ 2) scales_by_ori in
  let cross_orientation_corr_mag := list_times (n_o ^ 2) scales_with_lowpass in
  let cross_orientation_corr_real := list_times (ori_crossed ^ 2) scales_with_lowpass in
  let cross_scale_corr_mag := list_times (n_o ^ 2) scales in
  let cross_scale_corr_real := list_times (2 * n_o * ori_crossed) scales in
  let var_highpass_residual := [residual_highpass] in
  if use_true_correlations self then
    pixel_statistics ++ magnitude_means ++ auto_corr_mag ++ skew_reconstructed
      ++ kurtosis_reconstructed ++ auto_corr ++ std_reconstructed
      ++ cross_orientation_corr_mag ++ cross_scale_corr_mag
      ++ cross_orientation_corr_real ++ cross_scale_corr_real
      ++ var_highpass_residual
  else
    pixel_statistics ++ magnitude_means ++ auto_corr_mag ++ skew_reconstructed
      ++ kurtosis_reconstructed ++ auto_corr
      ++ cross_orientation_corr_mag ++ cross_scale_corr_mag
      ++ cross_orientation_corr_real ++ cross_scale_corr_real
      ++ var_highpass_residual.

(** The attribute [self.representation_scales], set by [__init__]. *)
Definition representation_scales : list label := _get_representation_scales.

(** The labels the model knows: the strings and the scales [0..n_scales-1]. *)
Definition valid_label (l : label) : Prop :=
  l = pixel_statistics \/ l = residual_lowpass \/ l = residual_highpass
  \/ exists s, s < n_s /\ l = LInt (Z.of_nat s).

Section Entries.

Context {A : Type}.

(** [remove_scales] *)
Definition remove_scales (representation_vector : tensor A)
    (scales_to_keep : list label) : result (tensor A) :=
  let ind := tensor_of_ints
               (map fst (filter (fun '(i, s) => label_in s scales_to_keep)
                                (enumerate representation_scales))) in
  index_select_last ind representation_vector.

(** [convert_to_vector] *)
Definition convert_to_vector (stats_dict : odict (stat A)) : result (tensor A) :=
  list_of_stats <-
    mapM (fun val =>
            match val with
            | Nested d => stack_last (od_values d)
            | Leaf t =>
                if ndim t =? 2 then ret (unsqueeze_last t)
                else flatten_from2 t
            end) (od_values stats_dict) ;;
  cat_last list_of_stats.

Definition wrong_length_message (expected got : nat) : string :=
  ("representation vector is the wrong length (expected "
     ++ string_of_nat expected ++ " but got " ++ string_of_nat got
     ++ ")! Did you remove some of the scales? (i.e., by setting "
     ++ "scales in the forward pass)? convert_to_dict does not "
     ++ "support such vectors.")%string.

(** The keys of [rep["magnitude_means"]]. *)
Definition magnitude_means_keys : list key :=
  [KStr "residual_highpass"]
    ++ flat_map (fun sc => map (fun ori => KBand sc ori) (seq 0 n_o)) (seq 0 n_s)
    ++ [KStr "residual_lowpass"].

(** The loop [for ii, k in enumerate(keys): rep["magnitude_means"][k] =
    vec[..., n_filled + ii]]. *)
Fixpoint fill_magnitude_means (vec : tensor A) (n_filled : nat)
    (iks : list (nat * key)) (d : odict (tensor A)) : result (odict (tensor A)) :=
  match iks with
  | [] => ret d
  | (ii, k) :: rest =>
      v <- index_last (n_filled + ii) vec ;;
      fill_magnitude_means vec n_filled rest (od_set k v d)
  end.

(** [convert_to_dict] *)
Definition convert_to_dict (vec : tensor A) : result (odict (stat A)) :=
  len <- last_dim vec ;;
  if negb (len =? length representation_scales) then
    raise (ValueError (wrong_length_message (length representation_scales) len))
  else
    v_mean <- index_last 0 vec ;;
    v_var <- index_last 1 vec ;;
    v_skew <- index_last 2 vec ;;
    v_kurtosis <- index_last 3 vec ;;
    v_min <- index_last 4 vec ;;
    v_max <- index_last 5 vec ;;
    let pix :=
      od_set (KStr "max") v_max
        (od_set (KStr "min") v_min
           (od_set (KStr "kurtosis") v_kurtosis
              (od_set (KStr "skew") v_skew
                 (od_set (KStr "var") v_var
                    (od_set (KStr "mean") v_mean []))))) in
    let rep := od_set (KStr "pixel_statistics") (Nested pix) [] in
    let n_filled := 6 in
    (* magnitude_means *)
    let keys := magnitude_means_keys in
    mm <- fill_magnitude_means vec n_filled (enumerate keys) [] ;;
    let rep := od_set (KStr "magnitude_means") (Nested mm) rep in
    let n_filled := n_filled + (length keys - 1) + 1 in
    (* auto_correlation_magnitude *)
    let nn := [width; width; n_s; n_o] in
    sl <- slice_last n_filled (n_filled + numel nn) vec ;;
    t <- unflatten_last nn sl ;;
    let rep := od_set (KStr "auto_correlation_magnitude") (Leaf t) rep in
    let n_filled := n_filled + numel nn in
    (* skew_reconstructed & kurtosis_reconstructed *)
    let nn := n_s + 1 in
    t <- slice_last n_filled (n_filled + nn) vec ;;
    let rep := od_set (KStr "skew_reconstructed") (Leaf t) rep in
    let n_filled := n_filled + nn in
    t <- slice_last n_filled (n_filled + nn) vec ;;
    let rep := od_set (KStr "kurtosis_reconstructed") (Leaf t) rep in
    let n_filled := n_filled + nn in
    (* auto_correlation_reconstructed *)
    let nn := [width; width; n_s + 1] in
    sl <- slice_last n_filled (n_filled + numel nn) vec ;;
    t <- unflatten_last nn sl ;;
    let rep := od_set (KStr "auto_correlation_reconstructed") (Leaf t) rep in
    let n_filled := n_filled + numel nn in
    (* std_reconstructed *)
    rep_n <-
      (if use_true_correlations self then
         let nn := n_s + 1 in
         t <- slice_last n_filled (n_filled + nn) vec ;;
         ret (od_set (KStr "std_reconstructed") (Leaf t) rep, n_filled + nn)
       else ret (rep, n_filled)) ;;
    let rep := fst rep_n in
    let n_filled := snd rep_n in
    (* cross_orientation_correlation_magnitude *)
    let nn := [n_o; n_o; n_s + 1] in
    sl <- slice_last n_filled (n_filled + numel nn) vec ;;
    t <- unflatten_last nn sl ;;
    let rep := od_set (KStr "cross_orientation_correlation_magnitude") (Leaf t) rep in
    let n_filled := n_filled + numel nn in
    (* cross_scale_correlation_magnitude *)
    let nn := [n_o; n_o; n_s] in
    sl <- slice_last n_filled (n_filled + numel nn) vec ;;
    t <- unflatten_last nn sl ;;
    let rep := od_set (KStr "cross_scale_correlation_magnitude") (Leaf t) rep in
    let n_filled := n_filled + numel nn in
    (* cross_orientation_correlation_real *)
    let nn := [ori_crossed; ori_crossed; n_s + 1] in
    sl <- slice_last n_filled (n_filled + numel nn) vec ;;
    t <- unflatten_last nn sl ;;
    let rep := od_set (KStr "cross_orientation_correlation_real") (Leaf t) rep in
    let n_filled := n_filled + numel nn in
    (* cross_scale_correlation_real *)
    let nn := [2 * n_o; ori_crossed; n_s] in
    sl <- slice_last n_filled (n_filled + numel nn) vec ;;
    t <- unflatten_last nn sl ;;
    let rep := od_set (KStr "cross_scale_correlation_real") (Leaf t) rep in
    let n_filled := n_filled + numel nn in
    (* var_highpass_residual *)
    t <- index_last n_filled vec ;;
    let rep := od_set (KStr "var_highpass_residual") (Leaf t) rep in
    ret rep.

End Entries.

End Codec.

(** *** Pixel statistics and the moments of the reconstructed images *)

Section Moments.

(** [_compute_pixel_stats] (a static method) *)
Definition _compute_pixel_stats (image : tensor R) : result (tensor R) :=
  mean <- Torch.mean_last2 true image ;;
  var <- Torch.var_last2 image ;;
  skew <- Stats.skew image mean var ;;
  kurtosis <- Stats.kurtosis image mean var ;;
  img_min <- Torch.reduce_bchw Torch.min_list image ;;
  img_max <- Torch.reduce_bchw Torch.max_list image ;;
  Torch.pack_bc [mean; var; skew; kurtosis; img_min; img_max].

(** [_compute_skew_kurtosis_recon] *)
Definition _compute_skew_kurtosis_recon
    (reconstructed_images var_recon img_var : tensor R)
  : result (tensor R * tensor R) :=
  skew_recon <- Stats.skew reconstructed_images (Torch.scalar 0) var_recon ;;
  kurtosis_recon <- Stats.kurtosis reconstructed_images (Torch.scalar 0) var_recon ;;
  let skew_default := Torch.zeros_like skew_recon in
  let kurtosis_default := Torch.full_like 3 kurtosis_recon in
  ratio <- Torch.div var_recon img_var ;;
  let unstable_locs := Torch.gt_scalar ratio (1 / 1000000) in
  skew_recon <- Torch.torch_where unstable_locs skew_recon skew_default ;;
  kurtosis_recon <- Torch.torch_where unstable_locs kurtosis_recon kurtosis_default ;;
  ret (skew_recon, kurtosis_recon).

(** The end of [forward]: the statistics are collected in [all_stats], in
    this order, and packed into the representation vector. *)
Definition all_stats (self : params)
    (pixel_stats mag_means autocorr_mags skew_recon kurtosis_recon
       autocorr_recon std_recon cross_ori_corr_mags cross_scale_corr_mags
       cross_ori_corr_real cross_scale_corr_real var_highpass_residual : tensor R)
  : list (tensor R) :=
  let all_stats := [pixel_stats; mag_means; autocorr_mags; skew_recon;
                    kurtosis_recon; autocorr_recon] in
  let all_stats := if use_true_correlations self
                   then all_stats ++ [std_recon] else all_stats in
  all_stats ++ [cross_ori_corr_mags; cross_scale_corr_mags;
                cross_ori_corr_real; cross_scale_corr_real;
                var_highpass_residual].

End Moments.

(** *** Cross-correlations *)

Section CrossCorrelation.

Variable self : params.

(** [_compute_cross_correlation] *)
Definition _compute_cross_correlation (coeffs_tensor coeffs_tensor_other : tensor R)
  : result (tensor R) :=
  cross_ori_corr <- Torch.einsum_cross coeffs_tensor coeffs_tensor_other ;;
  num_el <- Torch.num_el_last2 coeffs_tensor ;;
  let cross_ori_corr := Torch.div_scalar cross_ori_corr (INR num_el) in
  cross_ori_corr <-
    (if use_true_correlations self then
       std <- Torch.std_last3_keepdim coeffs_tensor ;;
       let std := Torch.squeeze_last std in
       std_other <- Torch.std_last3_keepdim coeffs_tensor_other ;;
       let std_other := Torch.squeeze_last std_other in
       denom <- Torch.mul std std_other ;;
       Torch.div cross_ori_corr denom
     else ret cross_ori_corr) ;;
  Torch.rearrange_scale_last cross_ori_corr.

End CrossCorrelation.

(** *** Phase doubling *)

Section PhaseDoubling.

(** [_double_phase_pyr_coeffs] *)
Definition _double_phase_pyr_coeffs (pyr_coeffs : tensor Torch.complex)
  : result (tensor R * tensor R) :=
  finer_dropped <- Torch.slice_dim2_from (0, 0)%R 1 pyr_coeffs ;;
  let doubled_phase := Signal.modulate_phase finer_dropped 2 in
  let doubled_phase_mags := Torch.abs_complex doubled_phase in
  mean <- Torch.mean_last2 true doubled_phase_mags ;;
  doubled_phase_mags <- Torch.sub doubled_phase_mags mean ;;
  doubled_phase_separate <-
    Torch.pack_bcs_hw (Torch.neg (Torch.real doubled_phase))
                      (Torch.imag doubled_phase) ;;
  ret (doubled_phase_mags, doubled_phase_separate).

End PhaseDoubling.

(** *** The scales of the model and the intermediate representations *)

(** The attribute [self.scales], set by [__init__]. *)
Definition scales (self : params) : list label :=
  [LStr "pixel_statistics"; LStr "residual_lowpass"]
    ++ map (fun ii => LInt (Z.of_nat ii)) (rev (seq 0 (n_scales self)))
    ++ [LStr "residual_highpass"].

(** [_compute_intermediate_representations] *)
Definition _compute_intermediate_representations
    (pyr_coeffs : tensor Torch.complex)
  : result (tensor R * tensor R * tensor R) :=
  let magnitude_pyr_coeffs := Torch.abs_complex pyr_coeffs in
  let real_pyr_coeffs := Torch.real pyr_coeffs in
  magnitude_means <- Torch.mean_last2 true magnitude_pyr_coeffs ;;
  magnitude_pyr_coeffs <- Torch.sub magnitude_pyr_coeffs magnitude_means ;;
  magnitude_means <- flatten_from2 magnitude_means ;;
  ret (magnitude_means, magnitude_pyr_coeffs, real_pyr_coeffs).

(** *** Stitching the residual lowpass onto the cross-orientation correlations *)

Section LowpassStitching.

Variable self : params.

(** [signal.shrink] is missing from the sources; what it computes is left
    open, and the properties below hold for whatever function takes its
    place. *)
Variable shrink : tensor R -> nat -> result (tensor R).

(** [_create_lowpass_corr_tensor] *)
Definition _create_lowpass_corr_tensor (lowpass : tensor R) : result (tensor R) :=
  downsampled_lowpass <-
    (if n_scales self =? 1 then ret lowpass
     else shrink lowpass (2 ^ (n_scales self - 1))) ;;
  let downsampled_lowpass :=
    Torch.mul_scalar downsampled_lowpass
                     (powerRZ 2 (Z.of_nat (n_scales self) - 2)) in
  downsampled_lowpass <- Torch.transpose_last2 downsampled_lowpass ;;
  center <- flatten_from2 downsampled_lowpass ;;
  rolled <- Torch.roll_rows 1 downsampled_lowpass ;;
  rows_forward <- flatten_from2 rolled ;;
  rolled <- Torch.roll_rows (-1) downsampled_lowpass ;;
  rows_backward <- flatten_from2 rolled ;;
  rolled <- Torch.roll_cols 1 downsampled_lowpass ;;
  cols_forward <- flatten_from2 rolled ;;
  rolled <- Torch.roll_cols (-1) downsampled_lowpass ;;
  cols_backward <- flatten_from2 rolled ;;
  stack_last [center; rows_forward; rows_backward; cols_forward; cols_backward].

(** [compute_crosscorrelation] *)
Definition compute_crosscorrelation (ch1 ch2 : tensor R) (band_num_el : nat)
  : result (tensor R) :=
  ch1_t <- Torch.transpose_last2 ch1 ;;
  product <- Torch.matmul ch1_t ch2 ;;
  if use_true_correlations self
  then ret (Torch.div_scalar product
              (INR band_num_el * Torch.std_all ch1 * Torch.std_all ch2))
  else ret (Torch.div_scalar product (INR band_num_el)).

(** [_concat_lowpass_to_cross_ori_real] *)
Definition _concat_lowpass_to_cross_ori_real (cross_ori_corr_real lowpass : tensor R)
  : result (tensor R) :=
  lowpass_num_el <- Torch.num_el_last2 lowpass ;;
  upsampled_lowpass <- _create_lowpass_corr_tensor lowpass ;;
  upsampled_lowpass_corr <-
    compute_crosscorrelation upsampled_lowpass upsampled_lowpass lowpass_num_el ;;
  let dim := Nat.max (2 * n_orientations self) 5 in
  cross_ori_corr_real <-
    Torch.pad_right [0; dim - n_orientations self; dim - n_orientations self]
                    cross_ori_corr_real ;;
  upsampled_lowpass_corr <-
    Torch.pad_right [dim - 5; dim - 5] upsampled_lowpass_corr ;;
  cat_last [cross_ori_corr_real; unsqueeze_last upsampled_lowpass_corr].

End LowpassStitching.

(** *** The shapes of the tensors of [forward]

    Every method below is the method of the same name with each tensor
    replaced by its shape, statement by statement.  The steerable pyramid is
    missing from the sources; the shapes of what it returns are modelled from
    the spec. *)

Module Shapes.

Section Forward.

Variable self : params.

(** Modelled from the spec: [validate_input], missing from the sources.  The
    image is a 4-d tensor (batch, channel, height, width). *)
Definition validate_input (image : list nat) : result unit :=
  if length image =? 4 then ret tt else raise (ValueError "validate_input").

(** Modelled from the spec: [self.pyr.forward(image)] followed by
    [convert_pyr_to_tensor], missing from the sources.  The pyramid is built
    for images of [image_shape] with [downsample=False]: it gives
    [n_scales * n_orientations] oriented bands and two residuals, all of the
    shape of the image, and the bands are concatenated along the channel
    dimension.  The result lists the shape of the concatenated bands, of the
    residual highpass and of the residual lowpass. *)
Definition pyr_forward (image : list nat)
  : result (list nat * list nat * list nat) :=
  match image with
  | [b; c; h; w] =>
      if (h =? fst (image_shape self)) && (w =? snd (image_shape self))
      then (if n_scales self * n_orientations self =? 0 then raise RuntimeError
            else ret ([b; c * (n_scales self * n_orientations self); h; w],
                      image, image))
      else raise RuntimeError
  | _ => raise RuntimeError
  end.

(** Modelled from the spec: [convert_tensor_to_pyr] followed by
    [self.pyr.recon_pyr], missing from the sources.  A reconstruction from
    the packed residuals and bands is an image of the shape the pyramid was
    given. *)
Definition recon_pyr (packed : list nat) : result (list nat) :=
  match packed with
  | [b; ch; h; w] =>
      let bands := n_scales self * n_orientations self + 2 in
      if ch mod bands =? 0 then ret [b; ch / bands; h; w] else raise RuntimeError
  | _ => raise RuntimeError
  end.

(** [_compute_pyr_coeffs] *)
Definition _compute_pyr_coeffs (image : list nat)
  : result (list nat * list nat * list nat) :=
  '(pyr_coeffs, highpass, lowpass) <- pyr_forward image ;;
  lowpass_mean <- ShapeOf.reduce_last2 true lowpass ;;
  lowpass <- ShapeOf.binary lowpass lowpass_mean ;;
  pyr_coeffs <- ShapeOf.rearrange_split_channels
                  (n_scales self) (n_orientations self) pyr_coeffs ;;
  ret (pyr_coeffs, highpass, lowpass).

(** [_compute_pixel_stats] *)
Definition _compute_pixel_stats (image : list nat) : result (list nat) :=
  mean <- ShapeOf.reduce_last2 true image ;;
  var <- ShapeOf.reduce_last2 false image ;;
  centered <- ShapeOf.binary image mean ;;
  moment <- ShapeOf.reduce_last2 false centered ;;
  skew <- ShapeOf.binary moment var ;;
  kurtosis <- ShapeOf.binary moment var ;;
  img_min <- ShapeOf.reduce_bchw image ;;
  img_max <- ShapeOf.reduce_bchw image ;;
  ShapeOf.pack 2 0 [mean; var; skew; kurtosis; img_min; img_max].

(** [_compute_intermediate_representations] *)
Definition _compute_intermediate_representations (pyr_coeffs : list nat)
  : result (list nat * list nat * list nat) :=
  let magnitude_pyr_coeffs := pyr_coeffs in
  let real_pyr_coeffs := pyr_coeffs in
  magnitude_means <- ShapeOf.reduce_last2 true magnitude_pyr_coeffs ;;
  magnitude_pyr_coeffs <- ShapeOf.binary magnitude_pyr_coeffs magnitude_means ;;
  magnitude_means <- ShapeOf.flatten_from2 magnitude_means ;;
  ret (magnitude_means, magnitude_pyr_coeffs, real_pyr_coeffs).

(** The loop of [_reconstruct_lowpass_at_each_scale]: one more image per
    level, each added to the last one. *)
Fixpoint reconstruct_levels (levels : nat) (pyr_dict : list nat)
    (reconstructed_images : list (list nat)) : result (list (list nat)) :=
  match levels with
  | 0 => ret reconstructed_images
  | S levels' =>
      recon <- recon_pyr pyr_dict ;;
      recon <- ShapeOf.binary recon (last reconstructed_images []) ;;
      reconstruct_levels levels' pyr_dict (reconstructed_images ++ [recon])
  end.

(** [_reconstruct_lowpass_at_each_scale] *)
Definition _reconstruct_lowpass_at_each_scale
    (real_pyr_coeffs highpass lowpass : list nat) : result (list nat) :=
  real_pyr_coeffs <- ShapeOf.pack 1 2 [highpass; real_pyr_coeffs; lowpass] ;;
  first <- recon_pyr real_pyr_coeffs ;;
  reconstructed_images <- reconstruct_levels (n_scales self) real_pyr_coeffs [first] ;;
  ShapeOf.pack 2 2 (rev reconstructed_images).

(** [shrink_and_crop], local to [_compute_autocorr] *)
Definition shrink_and_crop (x : list nat) (i : nat) : result (list nat) :=
  x <- (if i =? 0 then ret x else ShapeOf.shrink x (2 ^ i)) ;;
  ShapeOf.center_crop x (spatial_corr_width self).

(** [_compute_autocorr] *)
Definition _compute_autocorr (coeffs_tensor : list nat)
  : result (list nat * list nat) :=
  if negb ((length coeffs_tensor =? 6) || (length coeffs_tensor =? 5))
  then raise (ValueError "coeffs_tensor must have 5 or 6 dimensions!")
  else
    acs <- ShapeOf.autocorrelation coeffs_tensor ;;
    var <- ShapeOf.center_crop acs 1 ;;
    acs <- (if use_true_correlations self then ShapeOf.binary acs var else ret acs) ;;
    var <- ShapeOf.rearrange_flatten (length coeffs_tensor) var ;;
    cropped <- mapM (fun i => band <- ShapeOf.index_dim2 i acs ;;
                              shrink_and_crop band i)
                    (seq 0 (nth 2 acs 0)) ;;
    acs <- ShapeOf.stack_dim2 cropped ;;
    acs <- ShapeOf.rearrange_bands_last acs ;;
    ret (acs, var).

(** [_compute_skew_kurtosis_recon] *)
Definition _compute_skew_kurtosis_recon
    (reconstructed_images var_recon img_var : list nat)
  : result (list nat * list nat) :=
  centered <- ShapeOf.binary reconstructed_images [] ;;
  moment <- ShapeOf.reduce_last2 false centered ;;
  skew_recon <- ShapeOf.binary moment var_recon ;;
  kurtosis_recon <- ShapeOf.binary moment var_recon ;;
  let skew_default := skew_recon in
  let kurtosis_default := kurtosis_recon in
  unstable_locs <- ShapeOf.binary var_recon img_var ;;
  skew_recon <- ShapeOf.ternary unstable_locs skew_recon skew_default ;;
  kurtosis_recon <- ShapeOf.ternary unstable_locs kurtosis_recon kurtosis_default ;;
  ret (skew_recon, kurtosis_recon).

(** [_compute_cross_correlation] *)
Definition _compute_cross_correlation (coeffs_tensor coeffs_tensor_other : list nat)
  : result (list nat) :=
  cross_ori_corr <- ShapeOf.einsum_cross coeffs_tensor coeffs_tensor_other ;;
  _ <- ShapeOf.num_el_last2 coeffs_tensor ;;
  cross_ori_corr <-
    (if use_true_correlations self then
       std <- ShapeOf.std_last3_keepdim coeffs_tensor ;;
       let std := ShapeOf.squeeze_last std in
       std_other <- ShapeOf.std_last3_keepdim coeffs_tensor_other ;;
       let std_other := ShapeOf.squeeze_last std_other in
       denom <- ShapeOf.binary std std_other ;;
       ShapeOf.binary cross_ori_corr denom
     else ret cross_ori_corr) ;;
  ShapeOf.rearrange_scale_last cross_ori_corr.

(** [_create_lowpass_corr_tensor] *)
Definition _create_lowpass_corr_tensor (lowpass : list nat) : result (list nat) :=
  downsampled_lowpass <-
    (if n_scales self =? 1 then ret lowpass
     else ShapeOf.shrink lowpass (2 ^ (n_scales self - 1))) ;;
  downsampled_lowpass <- ShapeOf.transpose_last2 downsampled_lowpass ;;
  flat <- ShapeOf.flatten_from2 downsampled_lowpass ;;
  ShapeOf.stack_last [flat; flat; flat; flat; flat].

(** [compute_crosscorrelation]: the standard deviations over all entries
    are numbers, and so is [band_num_el]. *)
Definition compute_crosscorrelation (ch1 ch2 : list nat) : result (list nat) :=
  ch1_t <- ShapeOf.transpose_last2 ch1 ;;
  ShapeOf.matmul ch1_t ch2.

(** [_concat_lowpass_to_cross_ori_real] *)
Definition _concat_lowpass_to_cross_ori_real (cross_ori_corr_real lowpass : list nat)
  : result (list nat) :=
  _ <- ShapeOf.num_el_last2 lowpass ;;
  upsampled_lowpass <- _create_lowpass_corr_tensor lowpass ;;
  upsampled_lowpass_corr <- compute_crosscorrelation upsampled_lowpass upsampled_lowpass ;;
  let dim := Nat.max (2 * n_orientations self) 5 in
  cross_ori_corr_real <-
    ShapeOf.pad_right [0; dim - n_orientations self; dim - n_orientations self]
                      cross_ori_corr_real ;;
  upsampled_lowpass_corr <- ShapeOf.pad_right [dim - 5; dim - 5] upsampled_lowpass_corr ;;
  ShapeOf.cat_last [cross_ori_corr_real; ShapeOf.unsqueeze_last upsampled_lowpass_corr].

(** [_double_phase_pyr_coeffs] *)
Definition _double_phase_pyr_coeffs (pyr_coeffs : list nat)
  : result (list nat * list nat) :=
  doubled_phase <- ShapeOf.slice_dim2_drop_one pyr_coeffs ;;
  mean <- ShapeOf.reduce_last2 true doubled_phase ;;
  doubled_phase_mags <- ShapeOf.binary doubled_phase mean ;;
  doubled_phase_separate <- ShapeOf.pack 3 2 [doubled_phase; doubled_phase] ;;
  ret (doubled_phase_mags, doubled_phase_separate).

(** [_concat_lowpass_to_cross_scale_real] *)
Definition _concat_lowpass_to_cross_scale_real
    (cross_scale_corr_real lowpass real_pyr_coeffs_last_scale : list nat)
  : result (list nat) :=
  real_pyr_coeffs_last_scale <-
    (if negb (n_scales self =? 1)
     then ShapeOf.shrink real_pyr_coeffs_last_scale (2 ^ (n_scales self - 1))
     else ret real_pyr_coeffs_last_scale) ;;
  _ <- ShapeOf.num_el_last2 real_pyr_coeffs_last_scale ;;
  orientation_bands <- ShapeOf.rearrange_positions_first real_pyr_coeffs_last_scale ;;
  upsampled_lowpass <- _create_lowpass_corr_tensor lowpass ;;
  upsampled_lowpass_corr <- compute_crosscorrelation orientation_bands upsampled_lowpass ;;
  let dim := Nat.max (2 * n_orientations self) 5 in
  cross_scale_corr_real <-
    (if negb (numel cross_scale_corr_real =? 0)
     then ShapeOf.pad_right [0; dim - 2 * n_orientations self;
                             2 * n_orientations self - n_orientations self]
                            cross_scale_corr_real
     else ret cross_scale_corr_real) ;;
  upsampled_lowpass_corr <-
    ShapeOf.pad_right [dim - 5; 2 * n_orientations self - n_orientations self]
                      upsampled_lowpass_corr ;;
  ShapeOf.cat_last [cross_scale_corr_real; ShapeOf.unsqueeze_last upsampled_lowpass_corr].

(** [forward] with [scales=None]: the shape of the representation vector. *)
Definition forward (image : list nat) : result (list nat) :=
  _ <- validate_input image ;;
  '(pyr_coeffs, highpass, lowpass) <- _compute_pyr_coeffs image ;;
  pixel_stats <- _compute_pixel_stats image ;;
  '(mag_means, mag_pyr_coeffs, real_pyr_coeffs) <-
    _compute_intermediate_representations pyr_coeffs ;;
  let mag_mean_rescale := [n_scales self * n_orientations self] in
  mag_means <- ShapeOf.binary mag_means mag_mean_rescale ;;
  highpass_mean <- ShapeOf.reduce_last2 false highpass ;;
  lowpass_mean <- ShapeOf.reduce_last2 false lowpass ;;
  last_rescale <- ShapeOf.index_last (n_scales self * n_orientations self - 1)
                    mag_mean_rescale ;;
  lowpass_mean <- ShapeOf.binary lowpass_mean last_rescale ;;
  mag_means <- ShapeOf.pack 2 0 [highpass_mean; mag_means; lowpass_mean] ;;
  reconstructed_images <-
    _reconstruct_lowpass_at_each_scale real_pyr_coeffs highpass lowpass ;;
  '(autocorr_mags, _) <- _compute_autocorr mag_pyr_coeffs ;;
  '(autocorr_recon, var_recon) <- _compute_autocorr reconstructed_images ;;
  img_var <- ShapeOf.index_last 1 pixel_stats ;;
  '(skew_recon, kurtosis_recon) <-
    _compute_skew_kurtosis_recon reconstructed_images var_recon img_var ;;
  var_recon <- ShapeOf.binary var_recon [last var_recon 0] ;;
  let std_recon := if use_true_correlations self then var_recon else [0] in
  cross_ori_corr_mags <- _compute_cross_correlation mag_pyr_coeffs mag_pyr_coeffs ;;
  zeros <- ShapeOf.slice_last_one cross_ori_corr_mags ;;
  cross_ori_corr_mags <- ShapeOf.cat_last [cross_ori_corr_mags; zeros] ;;
  cross_ori_corr_real <- _compute_cross_correlation real_pyr_coeffs real_pyr_coeffs ;;
  cross_ori_corr_real <- _concat_lowpass_to_cross_ori_real cross_ori_corr_real lowpass ;;
  '(cross_scale_corr_mags, cross_scale_corr_real) <-
    (if negb (n_scales self =? 1) then
       '(phase_doubled_mags, phase_doubled_sep) <- _double_phase_pyr_coeffs pyr_coeffs ;;
       phase_double_rescale <-
         ShapeOf.view [1; 1; n_scales self - 1; 1; 1; 1] [n_scales self - 1] ;;
       phase_doubled_mags <- ShapeOf.binary phase_doubled_mags phase_double_rescale ;;
       phase_doubled_sep <- ShapeOf.binary phase_doubled_sep phase_double_rescale ;;
       finer_mags <- ShapeOf.slice_dim2_drop_one mag_pyr_coeffs ;;
       cross_scale_corr_mags <- _compute_cross_correlation finer_mags phase_doubled_mags ;;
       zeros <- ShapeOf.slice_last_one cross_scale_corr_mags ;;
       cross_scale_corr_mags <- ShapeOf.cat_last [cross_scale_corr_mags; zeros] ;;
       finer_real <- ShapeOf.slice_dim2_drop_one real_pyr_coeffs ;;
       cross_scale_corr_real <- _compute_cross_correlation finer_real phase_doubled_sep ;;
       ret (cross_scale_corr_mags, cross_scale_corr_real)
     else
       cross_scale_corr_mags <- ShapeOf.slice_last_one cross_ori_corr_mags ;;
       ret (cross_scale_corr_mags, [0])) ;;
  coarsest_real <- ShapeOf.index_dim2_last real_pyr_coeffs ;;
  cross_scale_corr_real <-
    _concat_lowpass_to_cross_scale_real cross_scale_corr_real lowpass coarsest_real ;;
  var_highpass_residual <- ShapeOf.reduce_last2 false highpass ;;
  let all_stats := [pixel_stats; mag_means; autocorr_mags; skew_recon;
                    kurtosis_recon; autocorr_recon] in
  let all_stats := if use_true_correlations self
                   then all_stats ++ [std_recon] else all_stats in
  let all_stats := all_stats ++ [cross_ori_corr_mags; cross_scale_corr_mags;
                                 cross_ori_corr_real; cross_scale_corr_real;
                                 var_highpass_residual] in
  ShapeOf.pack 2 0 all_stats.

End Forward.

End Shapes.

End PortillaSimoncelli.

(** ** Pooling windows *)

Module Pooling.

Import Torch.

(** [d[d == 0] = 1] *)
Definition zero_to_one (d : tensor R) : tensor R :=
  map_tensor (fun x => if Req_EM_T x 0 then 1 else x)%R d.

(** The state of a [PoolingWindows] object that [window] and [pool] read:
    the list of window tensors, one per scale. *)
Record PoolingWindows : Type := { windows : list (tensor R) }.

(** [self.windows[idx]] *)
Definition windows_at (self : PoolingWindows) (idx : nat) : result (tensor R) :=
  match nth_error (windows self) idx with
  | Some w => ret w
  | None => raise IndexError
  end.

(** [torch.einsum('ijkl,wkl->ijwkl', [x, w])] *)
Definition einsum_ijkl_wkl (x w : tensor R) : result (tensor R) :=
  match shape x, shape w with
  | [i; j; k; l], [nw; k'; l'] =>
      if (k =? k') && (l =? l')
      then ret (tabulate [i; j; nw; k; l]
                  (fun idx => match idx with
                              | [a; b; c; d; e] =>
                                  (entry 0 x [a; b; d; e] * entry 0 w [c; d; e])%R
                              | _ => 0%R
                              end))
      else raise RuntimeError
  | _, _ => raise RuntimeError
  end.

(** [torch.einsum('ijkl,wvkl->ijwvkl', [x, w])] *)
Definition einsum_ijkl_wvkl (x w : tensor R) : result (tensor R) :=
  match shape x, shape w with
  | [i; j; k; l], [nw; nv; k'; l'] =>
      if (k =? k') && (l =? l')
      then ret (tabulate [i; j; nw; nv; k; l]
                  (fun idx => match idx with
                              | [a; b; c; c'; d; e] =>
                                  (entry 0 x [a; b; d; e] * entry 0 w [c; c'; d; e])%R
                              | _ => 0%R
                              end))
      else raise RuntimeError
  | _, _ => raise RuntimeError
  end.

Definition not_4d_message : string :=
  ("PoolingWindows input must be 4d tensors or a dict of 4d tensors!"
     ++ " Unsqueeze until this is true!")%string.

(** The einsum that [window] selects from [self.windows[0].ndimension()];
    with any other number of dimensions [ein_str] is unbound. *)
Definition window_einsum (self : PoolingWindows) (x w : tensor R)
  : result (tensor R) :=
  w0 <- windows_at self 0 ;;
  if (ndim w0 =? 3) then einsum_ijkl_wkl x w
  else if (ndim w0 =? 4) then einsum_ijkl_wvkl x w
  else raise RuntimeError.

(** [window], for a tensor input. *)
Definition window_tensor (self : PoolingWindows) (x : tensor R) (idx : nat)
  : result (tensor R) :=
  w0 <- windows_at self 0 ;;
  if negb (ndim x =? 4) then raise (Exception not_4d_message)
  else
    w <- windows_at self idx ;;
    window_einsum self x w.

(** [window], for a dictionary keyed by [(scale, orientation)]. *)
Definition window_dict (self : PoolingWindows) (x : list ((nat * nat) * tensor R))
  : result (list ((nat * nat) * tensor R)) :=
  w0 <- windows_at self 0 ;;
  match x with
  | [] => raise IndexError
  | (_, v0) :: _ =>
      if negb (ndim v0 =? 4) then raise (Exception not_4d_message)
      else
        mapM (fun kv =>
                w <- windows_at self (fst (fst kv)) ;;
                r <- window_einsum self (snd kv) w ;;
                ret (fst kv, r)) x
  end.

(** [pool], for a tensor input. *)
Definition pool_tensor (self : PoolingWindows) (windowed_x : tensor R) (idx : nat)
  : result (tensor R) :=
  w <- windows_at self idx ;;
  divisor <- sum_last2 w ;;
  let divisor := zero_to_one divisor in
  s <- sum_last2 windowed_x ;;
  broadcast2 Rdiv 0%R 0%R s divisor.

(** [pool], for a dictionary keyed by [(scale, orientation)]: first the
    divisors of all keys, then the quotients. *)
Definition pool_dict (self : PoolingWindows)
    (windowed_x : list ((nat * nat) * tensor R))
  : result (list ((nat * nat) * tensor R)) :=
  divisor <- mapM (fun kv =>
                     w <- windows_at self (fst (fst kv)) ;;
                     d <- sum_last2 w ;;
                     ret (zero_to_one d)) windowed_x ;;
  mapM (fun kvd =>
          s <- sum_last2 (snd (fst kvd)) ;;
          r <- broadcast2 Rdiv 0%R 0%R s (snd kvd) ;;
          ret (fst (fst kvd), r)) (combine windowed_x divisor).

(** [pool]: [isinstance(windowed_x, dict)] selects the branch. *)
Definition pool (self : PoolingWindows)
    (windowed_x : list ((nat * nat) * tensor R) + tensor R) (idx : nat)
  : result (list ((nat * nat) * tensor R) + tensor R) :=
  match windowed_x with
  | inl d => r <- pool_dict self d ;; ret (inl r)
  | inr t => r <- pool_tensor self t idx ;; ret (inr r)
  end.

(** [window]: [isinstance(x, dict)] selects the branch. *)
Definition window (self : PoolingWindows)
    (x : list ((nat * nat) * tensor R) + tensor R) (idx : nat)
  : result (list ((nat * nat) * tensor R) + tensor R) :=
  match x with
  | inl d => r <- window_dict self d ;; ret (inl r)
  | inr t => r <- window_tensor self t idx ;; ret (inr r)
  end.

(** [forward]: window the input, then pool it. *)
Definition forward (self : PoolingWindows)
    (x : list ((nat * nat) * tensor R) + tensor R) (idx : nat)
  : result (list ((nat * nat) * tensor R) + tensor R) :=
  windowed_x <- window self x idx ;;
  pool self windowed_x idx.

(** The total weight of the window at [iw]: the sum of its entries over its
    spatial extent. *)
Definition window_weight (w : tensor R) (iw : list nat) : R :=
  match split_last2 (shape w) with
  | Some (_, k, l) => sum_list (map (fun hw => entry 0%R w (iw ++ hw)) (indices [k; l]))
  | None => 0%R
  end.

(** The summed response of the window at [iw] for the slice [ip] of the
    windowed input. *)
Definition summed_response (windowed_x : tensor R) (ip iw : list nat) : R :=
  match split_last2 (shape windowed_x) with
  | Some (_, k, l) =>
      sum_list (map (fun hw => entry 0%R windowed_x (ip ++ iw ++ hw)) (indices [k; l]))
  | None => 0%R
  end.

(** One window of one pixel, of weight zero. *)
Definition empty_window : PoolingWindows := {| windows := [mk [1; 1; 1] [0%R]] |}.

End Pooling.

(** ** The geometry of the pooling windows (module-level functions of
    [pooling.py])

    Numbers are reals.  What Python or numpy give for a division by zero or
    for the logarithm of a number that is not positive is not modelled: the
    properties proved of these functions assume divisors other than zero and
    positive eccentricities. *)

Module PoolingGeometry.

(** [calc_angular_window_width] *)
Definition calc_angular_window_width (n_windows : R) : R :=
  (2 * PI / n_windows)%R.

(** [calc_angular_n_windows] *)
Definition calc_angular_n_windows (window_width : R) : R :=
  (2 * PI / window_width)%R.

Definition exactly_one_message : string :=
  "Exactly one of n_windows or scaling must be set!".

(** [calc_eccentricity_window_width]; an argument left at [None] is [None]
    here. *)
Definition calc_eccentricity_window_width (min_ecc max_ecc : R)
    (n_windows scaling : option R) : result R :=
  match scaling with
  | Some scaling =>
      ret (ln ((scaling ^ 2 + 2 + scaling * sqrt (scaling ^ 2 + 4)) / 2))%R
  | None =>
      match n_windows with
      | Some n_windows => ret ((ln max_ecc - ln min_ecc) / n_windows)%R
      | None => raise (Exception exactly_one_message)
      end
  end.

(** [calc_eccentricity_n_windows] *)
Definition calc_eccentricity_n_windows (window_width min_ecc max_ecc : R) : R :=
  ((ln max_ecc - ln min_ecc) / window_width)%R.

(** [calc_scaling] *)
Definition calc_scaling (n_windows min_ecc max_ecc : R) : R :=
  let window_width := ((ln max_ecc - ln min_ecc) / n_windows)%R in
  (exp (1 / 2 * window_width) - exp (- (1 / 2) * window_width))%R.

(** [np.arange(stop)]: the numbers 0, 1, ... below [stop]; there are
    [ceil(stop)] of them. *)
Definition arange (stop : R) : list R :=
  map INR (seq 0 (Z.to_nat (Zceil stop))).

(** [calc_windows_central_eccentricity] *)
Definition calc_windows_central_eccentricity (n_windows window_width min_ecc : R)
  : list R :=
  map (fun i => min_ecc * exp (window_width * (i + 1)))%R (arange (IZR (Zceil n_windows))).

(** [calc_window_widths_actual]: the four lists [radial_top_width],
    [radial_full_width], [angular_top_width] and [angular_full_width]. *)
Definition calc_window_widths_actual
    (angular_window_width radial_window_width min_ecc max_ecc
       transition_region_width : R)
  : list R * list R * list R * list R :=
  let n_radial_windows :=
    IZR (Zceil (calc_eccentricity_n_windows radial_window_width min_ecc max_ecc)) in
  let window_central_eccentricities :=
    calc_windows_central_eccentricity n_radial_windows radial_window_width min_ecc in
  let radial_top_width :=
    map (fun i => min_ecc
                  * (exp (radial_window_width * (3 + 2 * i - transition_region_width) / 2)
                     - exp (radial_window_width * (1 + 2 * i + transition_region_width) / 2)))%R
        (arange n_radial_windows) in
  let radial_full_width :=
    map (fun i => min_ecc
                  * (exp (radial_window_width * (3 + 2 * i + transition_region_width) / 2)
                     - exp (radial_window_width * (1 + 2 * i - transition_region_width) / 2)))%R
        (arange n_radial_windows) in
  let angular_top_width :=
    map (fun e_c => angular_window_width * (1 - transition_region_width) * e_c)%R
        window_central_eccentricities in
  let angular_full_width :=
    map (fun e_c => angular_window_width * (1 + transition_region_width) * e_c)%R
        window_central_eccentricities in
  (radial_top_width, radial_full_width, angular_top_width, angular_full_width).

Definition transition_message : string :=
  "transition_region_width must lie between 0 and 1!".

(** The chained comparison [a < x <= b]. *)
Definition between (a x b : R) : bool :=
  if Rlt_dec a x then (if Rle_dec x b then true else false) else false.

(** [mother_window] at a number [x]; [None] is [np.nan]. *)
Definition mother_window (x transition_region_width : R) : result (option R) :=
  let t := transition_region_width in
  if Rlt_dec 1 t then raise (Exception transition_message)
  else if Rlt_dec t 0 then raise (Exception transition_message)
  else if between (- (1 + t) / 2) x ((t - 1) / 2)
  then ret (Some (cos (PI / 2 * ((x - (t - 1) / 2) / t)) ^ 2))%R
  else if between ((t - 1) / 2) x ((1 - t) / 2)
  then ret (Some 1%R)
  else if between ((1 - t) / 2) x ((1 + t) / 2)
  then ret (Some (- cos (PI / 2 * ((x - (1 + t) / 2) / t)) ^ 2 + 1))%R
  else ret None.

(** [mother_window] at an iterable [x]: the window of every element. *)
Definition mother_window_array (x : list R) (transition_region_width : R)
  : result (list (option R)) :=
  if Rlt_dec 1 transition_region_width then raise (Exception transition_message)
  else if Rlt_dec transition_region_width 0 then raise (Exception transition_message)
  else mapM (fun i => mother_window i transition_region_width) x.

(** [int(x)]: the integer part, towards zero. *)
Definition int (x : R) : Z := if Rle_dec 0 x then Zfloor x else Zceil x.

(** [np.linspace(start, stop, num)] *)
Definition linspace (start stop : R) (num : nat) : list R :=
  map (fun i => start + INR i * ((stop - start) / INR (num - 1)))%R (seq 0 num).

(** [np.isnan(w).all()] *)
Definition all_nan (w : list (option R)) : bool :=
  forallb (fun v => match v with None => true | Some _ => false end) w.

Definition integer_message : string := "n_windows must be an integer!".
Definition one_window_message : string := "We cannot handle one window correctly!".

(** [polar_angle_windows]: the samples of the polar angle and the windows
    that are not NaN everywhere. *)
Definition polar_angle_windows (n_windows : R) (theta_n_steps : nat)
    (transition_region_width : R)
  : result (list R * list (list (option R))) :=
  let remap_theta := fun x => if Rlt_dec PI x then (x - 2 * PI)%R else x in
  let theta := linspace 0 (2 * PI) theta_n_steps in
  if Req_EM_T (IZR (int n_windows)) n_windows then
    if Req_EM_T n_windows 1 then raise (Exception one_window_message)
    else
      let window_width := calc_angular_window_width n_windows in
      windows <-
        mapM (fun n =>
                let tmp_theta :=
                  if n =? 0
                  then map remap_theta (linspace 0 (2 * PI) theta_n_steps)
                  else theta in
                let mother_window_arg :=
                  map (fun th =>
                         (th - (window_width * INR n
                                + (window_width * (1 - transition_region_width)) / 2))
                         / window_width)%R tmp_theta in
                mother_window_array mother_window_arg transition_region_width)
             (seq 0 (Z.to_nat (int n_windows))) ;;
      let windows := filter (fun i => negb (all_nan i)) windows in
      ret (theta, windows)
  else raise (Exception integer_message).

(** [mother_window] at an array of arguments some of which are not finite
    numbers ([None]: an infinity or NaN, as [np.log] gives for a sample that
    is not positive): every comparison of [mother_window] fails for them and
    the window is NaN there. *)
Definition mother_window_array' (x : list (option R))
    (transition_region_width : R) : result (list (option R)) :=
  if Rlt_dec 1 transition_region_width then raise (Exception transition_message)
  else if Rlt_dec transition_region_width 0 then raise (Exception transition_message)
  else mapM (fun i => match i with
                      | Some i => mother_window i transition_region_width
                      | None => ret None
                      end) x.

(** [log_eccentricity_windows]: the samples of the eccentricity and the
    windows that are not NaN everywhere. *)
Definition log_eccentricity_windows (n_windows window_width : option R)
    (min_ecc max_ecc : R) (ecc_n_steps : nat) (transition_region_width : R)
  : result (list R * list (list (option R))) :=
  let ecc := linspace 0 max_ecc ecc_n_steps in
  nw <- match window_width with
        | None =>
            window_width <-
              calc_eccentricity_window_width min_ecc max_ecc n_windows None ;;
            (* [n_windows] is set, or the call above has raised *)
            ret (match n_windows with Some n => n | None => 0%R end,
                 window_width)
        | Some window_width =>
            ret (calc_eccentricity_n_windows window_width min_ecc max_ecc,
                 window_width)
        end ;;
  let n_windows := fst nw in
  let window_width := snd nw in
  windows <-
    mapM (fun n =>
            let mother_window_arg :=
              map (fun e =>
                     if Rlt_dec 0 e
                     then Some ((ln e - (ln min_ecc + window_width * (INR n + 1)))
                                / window_width)%R
                     else None) ecc in
            mother_window_array' mother_window_arg transition_region_width)
         (seq 0 (Z.to_nat (Zceil n_windows))) ;;
  let windows := filter (fun i => negb (all_nan i)) windows in
  ret (ecc, windows).

(** [PoolingWindows._get_slice_vals] (a static method) *)
Definition _get_slice_vals (scaled_window_res img_res : R) (scale : nat) : Z * Z :=
  let slice_vals := ((scaled_window_res - IZR (Zceil (img_res / 2 ^ scale))) / 2)%R in
  (Zfloor slice_vals, (- Zceil slice_vals)%Z).

End PoolingGeometry.

(** ** Python slices *)

(** The position a slice bound [i] denotes in a sequence of length [n]: a
    negative bound counts from the end, and a bound is clamped to the
    sequence. *)
Definition slice_bound (i : Z) (n : nat) : nat :=
  let i' := (if i <? 0 then i + Z.of_nat n else i)%Z in
  Z.to_nat (Z.min (Z.max i' 0) (Z.of_nat n)).

(** The positions [seq[a:b]] keeps, of a sequence of length [n]. *)
Definition slice_positions (a b : Z) (n : nat) : list nat :=
  seq (slice_bound a n) (slice_bound b n - slice_bound a n).


(** ** More of [plenoptic.tools.signal]

    Tensors of floats are tensors of reals.  What a division by zero gives is
    not modelled: the properties proved below assume the divisors are not
    zero. *)

Module SignalTools.

(** [rescale(x, a, b)]; [x.max()] of an input without entries raises. *)
Definition rescale (x : tensor R) (a b : R) : result (tensor R) :=
  match data x with
  | [] => raise RuntimeError
  | _ :: _ =>
      let v := (Torch.max_list (data x) - Torch.min_list (data x))%R in
      let g := map_tensor (fun e => e - Torch.min_list (data x))%R x in
      let g := if Rlt_dec 0 v then map_tensor (fun e => e / v)%R g else g in
      ret (map_tensor (fun e => a + e * (b - a))%R g)
  end.

(** [rectangular_to_polar] *)
Definition rectangular_to_polar (real imaginary : tensor R)
  : result (tensor R * tensor R) :=
  squares <- broadcast2 Rplus 0%R 0%R (map_tensor (fun x => x ^ 2)%R real)
                        (map_tensor (fun x => x ^ 2)%R imaginary) ;;
  let amplitude := map_tensor sqrt squares in
  phase <- broadcast2 Torch.atan2 0%R 0%R imaginary real ;;
  ret (amplitude, phase).

Definition amplitudes_message : string := "Amplitudes must be strictly positive.".

(** [polar_to_rectangular] *)
Definition polar_to_rectangular (amplitude phase : tensor R)
  : result (tensor R * tensor R) :=
  if existsb (fun a => if Rle_dec a 0 then true else false) (data amplitude)
  then raise (ValueError amplitudes_message)
  else
    real <- Torch.mul amplitude (map_tensor cos phase) ;;
    imaginary <- Torch.mul amplitude (map_tensor sin phase) ;;
    ret (real, imaginary).

(** [make_disk]; a radius left at [None] is [None] here. *)
Definition make_disk (imgSize : nat) (outerRadius innerRadius : option R)
  : tensor R :=
  let outerRadius := match outerRadius with
                     | Some r => r
                     | None => ((INR imgSize - 1) / 2)%R
                     end in
  let innerRadius := match innerRadius with
                     | Some r => r
                     | None => (outerRadius / 2)%R
                     end in
  let imgCenter := ((INR imgSize - 1) / 2)%R in
  tabulate [imgSize; imgSize]
    (fun idx =>
       match idx with
       | [i; j] =>
           let r := sqrt ((INR i - imgCenter) ^ 2 + (INR j - imgCenter) ^ 2) in
           if Rlt_dec outerRadius r then 0
           else if Rlt_dec r innerRadius then 1
           else (1 + cos (PI * (r - innerRadius) / (outerRadius - innerRadius))) / 2
       | _ => 0
       end)%R.

(** [kurtosis]: the mean and the variance are those of all the entries. *)
Definition kurtosis (mtx : tensor R) : R :=
  let l := data mtx in
  (Torch.mean_list (map (fun x => Rabs (x - Torch.mean_list l) ^ 4) l)
   / Torch.var_list l ^ 2)%R.

(** [skew]; [v.pow(1.5)] of a variance, which is not negative, is
    [v * sqrt(v)]. *)
Definition skew (mtx : tensor R) : R :=
  let l := data mtx in
  (Torch.mean_list (map (fun x => (x - Torch.mean_list l) ^ 3) l)
   / (Torch.var_list l * sqrt (Torch.var_list l)))%R.

(** [X.size(dim)] *)
Definition size (X : tensor R) (dim : nat) : nat := nth dim (shape X) 0.

(** The list [l] with [v] at position [k]. *)
Fixpoint set_nth (k v : nat) (l : list nat) : list nat :=
  match l, k with
  | [], _ => []
  | _ :: l', 0 => v :: l'
  | x :: l', S k' => x :: set_nth k' v l'
  end.

(** [X[idx]] for the tuple [idx] that is [slice(lo, hi)] at position [axis]
    and the full slice everywhere else; a bound [None] is the end it stands
    at.  When [X] has no dimension [axis] every slice is full. *)
Definition slice_axis (X : tensor R) (axis : nat) (lo hi : option Z) : tensor R :=
  if axis <? ndim X then
    let n := size X axis in
    let a := match lo with Some i => slice_bound i n | None => 0 end in
    let b := match hi with Some i => slice_bound i n | None => n end in
    tabulate (set_nth axis (b - a) (shape X))
      (fun idx => entry 0%R X (set_nth axis (nth axis idx 0 + a) idx))
  else X.

(** [torch.cat([t1, t2], axis)]: the two tensors must agree on every
    dimension but [axis]. *)
Definition cat2_axis (t1 t2 : tensor R) (axis : nat) : result (tensor R) :=
  if axis <? ndim t1 then
    if shape_eqb (set_nth axis 0 (shape t1)) (set_nth axis 0 (shape t2)) then
      let n1 := size t1 axis in
      ret (tabulate (set_nth axis (n1 + size t2 axis) (shape t1))
             (fun idx =>
                let i := nth axis idx 0 in
                if i <? n1 then entry 0%R t1 idx
                else entry 0%R t2 (set_nth axis (i - n1) idx)))
    else raise RuntimeError
  else raise IndexError.

(** [roll_n] *)
Definition roll_n (X : tensor R) (axis : nat) (n : Z) : result (tensor R) :=
  let front := slice_axis X axis (Some 0%Z) (Some n) in
  let back := slice_axis X axis (Some n) None in
  cat2_axis back front axis.

(** [real, imag = torch.unbind(x, -1)]: the last dimension must have two
    entries to unpack. *)
Definition unbind_pair (x : tensor R) : result (tensor R * tensor R) :=
  match split_last (shape x) with
  | None => raise RuntimeError
  | Some (_, n) =>
      if n =? 2 then
        real <- index_last 0 x ;;
        imag <- index_last 1 x ;;
        ret (real, imag)
      else if n <? 2 then
        raise (ValueError ("not enough values to unpack (expected 2, got "
                             ++ string_of_nat n ++ ")"))
      else raise (ValueError "too many values to unpack (expected 2)")
  end.

(** The loop of [batch_fftshift2d] over the dimensions [dims]. *)
Fixpoint fftshift_loop (dims : list nat) (real imag : tensor R)
  : result (tensor R * tensor R) :=
  match dims with
  | [] => ret (real, imag)
  | dim :: dims' =>
      let n_shift := size real dim / 2 in
      let n_shift := if negb (size real dim mod 2 =? 0) then n_shift + 1
                     else n_shift in
      real <- roll_n real dim (Z.of_nat n_shift) ;;
      imag <- roll_n imag dim (Z.of_nat n_shift) ;;
      fftshift_loop dims' real imag
  end.

(** [batch_fftshift2d]; filling the two halves of the preallocated tensor is
    stacking [real] and [imag] along a new last dimension. *)
Definition batch_fftshift2d (x : tensor R) : result (tensor R) :=
  ' (real, imag) <- unbind_pair x ;;
  ' (real, imag) <- fftshift_loop (seq 1 (ndim real - 1)) real imag ;;
  stack_last [real; imag].

(** The loop of [batch_ifftshift2d] over the dimensions [dims]. *)
Fixpoint ifftshift_loop (dims : list nat) (real imag : tensor R)
  : result (tensor R * tensor R) :=
  match dims with
  | [] => ret (real, imag)
  | dim :: dims' =>
      real <- roll_n real dim (Z.of_nat (size real dim / 2)) ;;
      imag <- roll_n imag dim (Z.of_nat (size imag dim / 2)) ;;
      ifftshift_loop dims' real imag
  end.

(** [batch_ifftshift2d]: the dimensions are visited from the last one down
    to dimension 1. *)
Definition batch_ifftshift2d (x : tensor R) : result (tensor R) :=
  ' (real, imag) <- unbind_pair x ;;
  ' (real, imag) <- ifftshift_loop (rev (seq 1 (ndim real - 1))) real imag ;;
  stack_last [real; imag].

End SignalTools.

(** ** Auxiliary definitions used to state the properties *)

(** The entries [a .. a+m-1] of every row of [vec], under the leading
    dimensions [ld] followed by the trailing shape [tl]. *)
Definition block {A} (ld tl : list nat) (a m : nat) (vec : tensor A) : tensor A :=
  mk (ld ++ tl) (flat_map (fun r => firstn m (skipn a r)) (rows vec)).

(** Consecutive segments [(offset, length)] starting at [a]. *)
Fixpoint segments (a : nat) (ms : list nat) : list (nat * nat) :=
  match ms with
  | [] => []
  | m :: ms' => (a, m) :: segments (a + m) ms'
  end.

(** The sizes of the statistic blocks, in the order of the vector. *)
Definition block_sizes (self : PortillaSimoncelli.params) : list nat :=
  let n_s := PortillaSimoncelli.n_scales self in
  let n_o := PortillaSimoncelli.n_orientations self in
  let w := PortillaSimoncelli.spatial_corr_width self in
  let oc := PortillaSimoncelli.ori_crossed self in
  [6; n_s * n_o + 2; numel [w; w; n_s; n_o]; n_s + 1; n_s + 1;
   numel [w; w; n_s + 1]]
    ++ (if PortillaSimoncelli.use_true_correlations self then [n_s + 1] else [])
    ++ [numel [n_o; n_o; n_s + 1]; numel [n_o; n_o; n_s];
        numel [oc; oc; n_s + 1]; numel [2 * n_o; oc; n_s]; 1].

(** The structured dictionary of a full-length vector: every entry of the
    dictionary is a block of the rows of [vec], at the offset given by the
    sizes of the blocks before it. *)
Definition dict_of_blocks {A} (self : PortillaSimoncelli.params) (ld : list nat)
    (vec : tensor A) : odict (stat A) :=
  let n_s := PortillaSimoncelli.n_scales self in
  let n_o := PortillaSimoncelli.n_orientations self in
  let w := PortillaSimoncelli.spatial_corr_width self in
  let oc := PortillaSimoncelli.ori_crossed self in
  let blk tl a m := block ld tl a m vec in
  let o2 := 6 + (n_s * n_o + 2) in
  let o3 := o2 + numel [w; w; n_s; n_o] in
  let o4 := o3 + (n_s + 1) in
  let o5 := o4 + (n_s + 1) in
  let o6 := o5 + numel [w; w; n_s + 1] in
  let o7 := if PortillaSimoncelli.use_true_correlations self
            then o6 + (n_s + 1) else o6 in
  let o8 := o7 + numel [n_o; n_o; n_s + 1] in
  let o9 := o8 + numel [n_o; n_o; n_s] in
  let o10 := o9 + numel [oc; oc; n_s + 1] in
  let o11 := o10 + numel [2 * n_o; oc; n_s] in
  [ (KStr "pixel_statistics",
     Nested [ (KStr "mean", blk [] 0 1); (KStr "var", blk [] 1 1);
              (KStr "skew", blk [] 2 1); (KStr "kurtosis", blk [] 3 1);
              (KStr "min", blk [] 4 1); (KStr "max", blk [] 5 1) ]);
    (KStr "magnitude_means",
     Nested (map (fun ik => (snd ik, blk [] (6 + fst ik) 1))
                 (enumerate (PortillaSimoncelli.magnitude_means_keys self))));
    (KStr "auto_correlation_magnitude",
     Leaf (blk [w; w; n_s; n_o] o2 (numel [w; w; n_s; n_o])));
    (KStr "skew_reconstructed", Leaf (blk [n_s + 1] o3 (n_s + 1)));
    (KStr "kurtosis_reconstructed", Leaf (blk [n_s + 1] o4 (n_s + 1)));
    (KStr "auto_correlation_reconstructed",
     Leaf (blk [w; w; n_s + 1] o5 (numel [w; w; n_s + 1]))) ]
  ++ (if PortillaSimoncelli.use_true_correlations self
      then [ (KStr "std_reconstructed", Leaf (blk [n_s + 1] o6 (n_s + 1))) ]
      else [])
  ++ [ (KStr "cross_orientation_correlation_magnitude",
        Leaf (blk [n_o; n_o; n_s + 1] o7 (numel [n_o; n_o; n_s + 1])));
       (KStr "cross_scale_correlation_magnitude",
        Leaf (blk [n_o; n_o; n_s] o8 (numel [n_o; n_o; n_s])));
       (KStr "cross_orientation_correlation_real",
        Leaf (blk [oc; oc; n_s + 1] o9 (numel [oc; oc; n_s + 1])));
       (KStr "cross_scale_correlation_real",
        Leaf (blk [2 * n_o; oc; n_s] o10 (numel [2 * n_o; oc; n_s])));
       (KStr "var_highpass_residual", Leaf (blk [] o11 1)) ].


(** The number of positions whose label is in [keep]. *)
Definition count_kept (keep labels : list label) : nat :=
  length (filter (fun s => label_in s keep) labels).

(** The entries of the spatial slice of [t] at the leading index [il], in
    row-major order. *)
Definition spatial_slice (t : tensor R) (il : list nat) : list R :=
  match split_last2 (shape t) with
  | Some (_, h, w) => map (fun hw => entry 0%R t (il ++ hw)) (indices [h; w])
  | None => []
  end.

(** The statement of the specification about the pixel variance: the second
    pixel statistic is the population variance of the slice. *)
Definition spec_pixel_variance_is_population : Prop :=
  forall (image ps : tensor R) (b c h w : nat),
    shape image = [b; c; h; w] -> wf image -> h * w <> 0 ->
    PortillaSimoncelli._compute_pixel_stats image = inr ps ->
    forall i j, i < b -> j < c ->
      get ps [i; j; 1] = Some (Stats.variance_list (spatial_slice image [i; j])).

(** The entries of the last three dimensions (orientation, height, width) of
    [t] at the leading index [il]: all the bands of one scale. *)
Definition scale_slice (t : tensor R) (il : list nat) : list R :=
  match rev (shape t) with
  | w :: h :: o :: _ => map (fun ohw => entry 0%R t (il ++ ohw)) (indices [o; h; w])
  | _ => []
  end.

(** The inner product of two spatial slices, divided by the number of their
    entries. *)
Definition spatial_covariance (x y : tensor R) (ix iy : list nat) : R :=
  (Torch.sum_list (map (fun ab => fst ab * snd ab)%R
                       (combine (spatial_slice x ix) (spatial_slice y iy)))
   / INR (length (spatial_slice x ix)))%R.

(** The statement of the specification about true correlations: every entry
    is the covariance divided by the product of the standard deviations of
    the two orientation bands it correlates, for the standard deviation [sd]
    of a band. *)
Definition spec_cross_correlation_per_band (sd : list R -> R) : Prop :=
  forall (self : PortillaSimoncelli.params) (x y r : tensor R)
         (b c s o1 o2 h w : nat),
    PortillaSimoncelli.use_true_correlations self = true ->
    shape x = [b; c; s; o1; h; w] -> shape y = [b; c; s; o2; h; w] ->
    wf x -> wf y ->
    PortillaSimoncelli._compute_cross_correlation self x y = inr r ->
    forall ib ic i1 i2 sc,
      ib < b -> ic < c -> i1 < o1 -> i2 < o2 -> sc < s ->
      get r [ib; ic; i1; i2; sc]
      = Some (spatial_covariance x y [ib; ic; sc; i1] [ib; ic; sc; i2]
              / (sd (spatial_slice x [ib; ic; sc; i1])
                 * sd (spatial_slice y [ib; ic; sc; i2])))%R.

(** The population standard deviation of a slice. *)
Definition population_std (l : list R) : R := sqrt (Stats.variance_list l).

(** A band of [h] by [w] positions can be shrunk by [2 ^ i] and then cropped
    to [k] by [k]. *)
Definition band_fits (k h w i : nat) : bool :=
  (h mod 2 ^ i =? 0) && (w mod 2 ^ i =? 0)
  && (k <=? h / 2 ^ i) && (k <=? w / 2 ^ i).


(** The bands of [s] scales of [h] by [w] positions can be autocorrelated,
    shrunk scale by scale and cropped to [k] by [k]. *)
Definition bands_fit (k s h w : nat) : bool :=
  (1 <=? h) && (1 <=? w) && negb (s =? 0)
  && forallb (band_fits k h w) (seq 0 s).

(** The residual lowpass of [h] by [w] positions can be shrunk to the
    resolution of the coarsest of [n_s] scales. *)
Definition lowpass_fits (n_s h w : nat) : bool :=
  (h mod 2 ^ (n_s - 1) =? 0) && (w mod 2 ^ (n_s - 1) =? 0).

(** The statement of the specification about the lowpass stitching: the
    residual lowpass is upsampled by [2 ^ (n_scales - 1)] before it is
    shifted and stacked, so that the stacked tensor has one row per position
    of the upsampled image.  [signal.shrink] is any function that downsamples
    the spatial grid by its factor. *)
Definition spec_lowpass_is_upsampled : Prop :=
  forall (self : PortillaSimoncelli.params) (shrink : tensor R -> nat -> result (tensor R))
         (lowpass up : tensor R) (b c h w : nat),
    (forall x f hh ww, shape x = [b; c; hh; ww] ->
       exists y, shrink x f = inr y /\ shape y = [b; c; hh / f; ww / f]) ->
    shape lowpass = [b; c; h; w] ->
    PortillaSimoncelli._create_lowpass_corr_tensor self shrink lowpass = inr up ->
    shape up = [b; c; (w * 2 ^ (PortillaSimoncelli.n_scales self - 1))
                      * (h * 2 ^ (PortillaSimoncelli.n_scales self - 1)); 5].



(** The step of [window] on one item of a dictionary. *)
Definition window_item (self : Pooling.PoolingWindows) (kv : (nat * nat) * tensor R)
  : result ((nat * nat) * tensor R) :=
  w <- Pooling.windows_at self (fst (fst kv)) ;;
  r <- Pooling.window_einsum self (snd kv) w ;;
  ret (fst kv, r).

(** The shape of a value of the statistics dictionary: of a tensor, or of
    every tensor of a nested dictionary, with its key. *)
Definition stat_shape {A} (v : stat A) : list nat + list (key * list nat) :=
  match v with
  | Leaf t => inl (shape t)
  | Nested d => inr (map (fun kv => (fst kv, shape (snd kv))) d)
  end.

(** The keys of a statistics dictionary, in order, each with the shape of its
    value. *)
Definition dict_layout {A} (d : odict (stat A))
  : list (key * (list nat + list (key * list nat))) :=
  map (fun kv => (fst kv, stat_shape (snd kv))) d.

(** A value of a window with NaN read as 0, and the sum of the windows at
    the sample [k]. *)
Definition nan_to_zero (v : option R) : R :=
  match v with
  | Some x => x
  | None => 0%R
  end.

Definition column_sum (windows : list (list (option R))) (k : nat) : R :=
  Torch.sum_list (map (fun w => nan_to_zero (nth k w None)) windows).

(** The value of [mother_window] at [x], NaN read as 0. *)
Definition mother_window_value (x t : R) : R :=
  match PoolingGeometry.mother_window x t with
  | inr v => nan_to_zero v
  | inl _ => 0%R
  end.

(** ** Concrete inputs used to exercise the properties *)

(** The smallest model: one scale, one orientation, width one. *)
Definition ps_small : PortillaSimoncelli.params :=
  {| PortillaSimoncelli.image_shape := (8, 8);
     PortillaSimoncelli.n_scales := 1;
     PortillaSimoncelli.n_orientations := 1;
     PortillaSimoncelli.spatial_corr_width := 1;
     PortillaSimoncelli.use_true_correlations := true |}.

(** A full-length vector for [ps_small] (82 entries), batch 1, channel 1. *)
Definition vec_full : tensor nat := mk [1; 1; 82] (seq 0 82).

(** A vector that is too short for [ps_small]. *)
Definition vec_short : tensor nat := mk [1; 1; 3] [0; 1; 2].

(** A 2x2 image with pixels 0, 0, 0, 4: its mean is 1 and the squared
    deviations from the mean sum to 12. *)
Definition image_0004 : tensor R := mk [1; 1; 2; 2] [0; 0; 0; 4]%R.

(** One image with two channels, for a model with one scale (two
    reconstructed bands per channel), 2x2 pixels.  Channel 0 has low
    contrast: its bands take the values +-1/4000, their variance and the
    pixel variance of the channel are (1/4000)^2.  Channel 1 has high
    contrast: values +-1/2, variances 1/4. *)
Definition recon_two_channels : tensor R :=
  mk [1; 2; 2; 2; 2]
     [ 1/4000; 1/4000; -(1/4000); -(1/4000);
       1/4000; 1/4000; -(1/4000); -(1/4000);
       1/2; 1/2; -(1/2); -(1/2);
       1/2; 1/2; -(1/2); -(1/2) ]%R.

Definition var_recon_two_channels : tensor R :=
  mk [1; 2; 2]
     [ 1/4000 * (1/4000); 1/4000 * (1/4000); 1/2 * (1/2); 1/2 * (1/2) ]%R.

Definition img_var_two_channels : tensor R :=
  mk [1; 2] [ 1/4000 * (1/4000); 1/2 * (1/2) ]%R.

(** One scale with two orientation bands of 1x2 pixels: (1, -1) and (2, -2). *)
Definition two_bands : tensor R := mk [1; 1; 1; 2; 1; 2] [1; -1; 2; -2]%R.

(** Two scales of one 1x1 orientation band: the coefficient 1 at the finest
    scale and the coefficient i at the coarser one. *)
Definition pyr_two_scales : tensor Torch.complex :=
  mk [1; 1; 2; 1; 1; 1] [(1, 0); (0, 1)]%R.

(** A stand-in for [signal.shrink], with its shape contract: one sample out
    of [factor] is kept along each spatial axis. *)
Definition decimate (x : tensor R) (factor : nat) : result (tensor R) :=
  match split_last2 (shape x) with
  | Some (ld, h, w) =>
      ret (tabulate (ld ++ [h / factor; w / factor])
             (fun idx => match skipn (length ld) idx with
                         | [i; j] => entry 0%R x (firstn (length ld) idx
                                                  ++ [i * factor; j * factor])
                         | _ => 0%R
                         end))
  | None => raise IndexError
  end.

(** A model with two scales, and a 2x2 residual lowpass. *)
Definition ps_two_scales : PortillaSimoncelli.params :=
  {| PortillaSimoncelli.image_shape := (16, 16);
     PortillaSimoncelli.n_scales := 2;
     PortillaSimoncelli.n_orientations := 1;
     PortillaSimoncelli.spatial_corr_width := 1;
     PortillaSimoncelli.use_true_correlations := false |}.

Definition lowpass_2x2 : tensor R := mk [1; 1; 2; 2] [1; 2; 3; 4]%R.

(** One window of one pixel, of weight one, and a one-pixel image. *)
Definition unit_window : Pooling.PoolingWindows :=
  {| Pooling.windows := [mk [1; 1; 1] [1%R]] |}.

Definition image_five : tensor R := mk [1; 1; 1; 1] [5%R].

(* ===================================================================== *)
(** * Part II -- properties                                                *)
(* ===================================================================== *)

Module PS := PortillaSimoncelli.

Unset Implicit Arguments.

(** ** Lists, chunks and rows *)

Section ListFacts.

Context {A : Type}.

Lemma split_last_app (ld : list nat) (n : nat) :
  split_last (ld ++ [n]) = Some (ld, n).
Proof.
  unfold split_last. rewrite rev_app_distr. simpl. now rewrite rev_involutive.
Qed.

Lemma numel_app (s1 s2 : list nat) : numel (s1 ++ s2) = numel s1 * numel s2.
Proof.
  induction s1 as [|x s1 IH]; simpl.
  - lia.
  - rewrite IH. lia.
Qed.

Lemma chunks_length (k n : nat) (l : list A) : length (chunks k n l) = k.
Proof.
  revert l. induction k as [|k IH]; intros l; simpl; [reflexivity|].
  now rewrite IH.
Qed.

Lemma chunks_row_length (k n : nat) (l : list A) :
  length l = k * n -> Forall (fun r => length r = n) (chunks k n l).
Proof.
  revert l. induction k as [|k IH]; intros l Hl; simpl; constructor.
  - rewrite length_firstn. lia.
  - apply IH. rewrite length_skipn. lia.
Qed.

Lemma concat_chunks (k n : nat) (l : list A) :
  length l = k * n -> concat (chunks k n l) = l.
Proof.
  revert l. induction k as [|k IH]; intros l Hl; simpl.
  - destruct l; [reflexivity | discriminate].
  - rewrite IH.
    + apply firstn_skipn.
    + rewrite length_skipn. lia.
Qed.

Lemma chunks_flat_map (f : list A -> list A) (m : nat) (rs : list (list A)) :
  Forall (fun r => length (f r) = m) rs ->
  chunks (length rs) m (flat_map f rs) = map f rs.
Proof.
  induction 1 as [|r rs Hr _ IH]; simpl; [reflexivity|].
  rewrite firstn_app, skipn_app, Hr, Nat.sub_diag, firstn_all2, skipn_all2 by lia.
  simpl. rewrite app_nil_r. now rewrite IH.
Qed.

Lemma flat_map_ext_in {B C : Type} (f g : B -> list C) (l : list B) :
  (forall x, In x l -> f x = g x) -> flat_map f l = flat_map g l.
Proof.
  induction l as [|x l IH]; intros H; simpl; [reflexivity|].
  rewrite H by now left. rewrite IH; [reflexivity|].
  intros y Hy. apply H. now right.
Qed.

Lemma flat_map_seq_nth {B C : Type} (g : B -> list C) (d : B) (l : list B) :
  flat_map (fun i => g (nth i l d)) (seq 0 (length l)) = flat_map g l.
Proof.
  induction l as [|x l IH]; simpl; [reflexivity|].
  rewrite <- seq_shift, flat_map_concat_map, map_map, <- flat_map_concat_map.
  now rewrite IH.
Qed.

Lemma pick_cons (i : nat) (x : A) (r : list A) : pick (S i) (x :: r) = pick i r.
Proof. reflexivity. Qed.

Lemma pick_length (i : nat) (r : list A) : i < length r -> length (pick i r) = 1.
Proof.
  intros H. unfold pick. rewrite length_firstn, length_skipn. lia.
Qed.

(** Picking position [p] among the [j]-th entries of all rows gives the
    [j]-th entry of row [p]. *)
Lemma pick_flat_map_pick (j p : nat) (rs : list (list A)) :
  Forall (fun r => j < length r) rs -> p < length rs ->
  pick p (flat_map (pick j) rs) = pick j (nth p rs []).
Proof.
  intros Hrs. revert p. induction Hrs as [|r rs Hr _ IH]; intros p Hp; simpl in *.
  - lia.
  - pose proof (@pick_length j r Hr) as Hlen.
    destruct (pick j r) as [|y [|? ?]] eqn:E; simpl in Hlen; try discriminate.
    destruct p as [|p]; simpl.
    + now rewrite E.
    + rewrite pick_cons. apply IH. lia.
Qed.

(** Consecutive slices of a row, put side by side, give a longer slice. *)
Lemma firstn_skipn_app (a m1 m2 : nat) (r : list A) :
  firstn m1 (skipn a r) ++ firstn m2 (skipn (a + m1) r)
  = firstn (m1 + m2) (skipn a r).
Proof.
  rewrite (Nat.add_comm a m1), <- skipn_skipn.
  generalize (skipn a r) as l. intros l. revert l.
  induction m1 as [|m1 IH]; intros l; simpl; [reflexivity|].
  destruct l as [|x l]; simpl.
  - now rewrite firstn_nil.
  - now rewrite IH.
Qed.

(** Picking consecutive positions gives a slice. *)
Lemma flat_map_pick_seq (a k : nat) (r : list A) :
  flat_map (fun i => pick i r) (seq a k) = firstn k (skipn a r).
Proof.
  revert a. induction k as [|k IH]; intros a; simpl; [reflexivity|].
  rewrite IH. unfold pick.
  replace (S a) with (a + 1) by lia.
  apply (firstn_skipn_app a 1 k r).
Qed.

Lemma flat_map_after_map {B C D : Type} (f : C -> list D) (g : B -> C) (l : list B) :
  flat_map f (map g l) = flat_map (fun x => f (g x)) l.
Proof.
  induction l as [|x l IH]; simpl; [reflexivity|]. now rewrite IH.
Qed.

Lemma flat_map_seq_shift {C : Type} (g : nat -> list C) (a k : nat) :
  flat_map g (seq a k) = flat_map (fun i => g (a + i)) (seq 0 k).
Proof.
  revert a. induction k as [|k IH]; intros a; simpl; [reflexivity|].
  rewrite Nat.add_0_r. f_equal.
  rewrite IH, <- (seq_shift k 0), flat_map_after_map.
  apply flat_map_ext_in. intros i _. f_equal. lia.
Qed.

Lemma nth_map_lt {B C : Type} (f : B -> C) (l : list B) (d : B) (d' : C) (p : nat) :
  p < length l -> nth p (map f l) d' = f (nth p l d).
Proof.
  revert p. induction l as [|x l IH]; intros p Hp; simpl in *; [lia|].
  destruct p as [|p]; [reflexivity|]. apply IH. lia.
Qed.

Lemma map_fst_combine {B C : Type} (l1 : list B) (l2 : list C) :
  length l1 = length l2 -> map fst (combine l1 l2) = l1.
Proof.
  revert l2. induction l1 as [|x l1 IH]; intros [|y l2] H; simpl in *;
    try discriminate; [reflexivity|].
  f_equal. apply IH. lia.
Qed.

Lemma map_snd_combine {B C : Type} (l1 : list B) (l2 : list C) :
  length l1 = length l2 -> map snd (combine l1 l2) = l2.
Proof.
  revert l2. induction l1 as [|x l1 IH]; intros [|y l2] H; simpl in *;
    try discriminate; [reflexivity|].
  f_equal. apply IH. lia.
Qed.

Lemma tensor_eta (t : tensor A) : mk (shape t) (data t) = t.
Proof. now destruct t. Qed.

End ListFacts.

(** ** Blocks of a vector *)

Section BlockFacts.

Context {A : Type}.
Variable vec : tensor A.
Variable ld : list nat.
Variable n : nat.
Hypothesis Hshape : shape vec = ld ++ [n].
Hypothesis Hwf : wf vec.

Lemma rows_eq : rows vec = chunks (numel ld) n (data vec).
Proof. unfold rows. now rewrite Hshape, split_last_app. Qed.

Lemma data_length : length (data vec) = numel ld * n.
Proof.
  unfold wf in Hwf. rewrite Hwf, Hshape, numel_app. simpl. lia.
Qed.

Lemma rows_length : length (rows vec) = numel ld.
Proof. rewrite rows_eq. apply chunks_length. Qed.

Lemma rows_row_length : Forall (fun r => length r = n) (rows vec).
Proof. rewrite rows_eq. apply chunks_row_length, data_length. Qed.

Lemma concat_rows : concat (rows vec) = data vec.
Proof. rewrite rows_eq. apply concat_chunks, data_length. Qed.

Lemma block_full : block ld [n] 0 n vec = vec.
Proof.
  transitivity (mk (shape vec) (data vec)); [|apply tensor_eta].
  unfold block. rewrite Hshape. f_equal.
  rewrite <- concat_rows, flat_map_concat_map. f_equal.
  rewrite <- (map_id (rows vec)) at 2. apply map_ext_in.
  intros r Hr. simpl. apply firstn_all2.
  pose proof rows_row_length as HF. rewrite Forall_forall in HF.
  specialize (HF r Hr). simpl in HF. lia.
Qed.

Lemma index_last_block (i : nat) :
  i < n -> index_last i vec = inr (block ld [] i 1 vec).
Proof.
  intros Hi. unfold index_last. rewrite Hshape, split_last_app.
  apply Nat.ltb_lt in Hi. rewrite Hi. unfold block, ret.
  now rewrite app_nil_r.
Qed.

Lemma slice_last_block (a b : nat) :
  a <= b -> b <= n -> slice_last a b vec = inr (block ld [b - a] a (b - a) vec).
Proof.
  intros Hab Hbn. unfold slice_last. rewrite Hshape, split_last_app.
  unfold block, ret. repeat f_equal; lia.
Qed.

Lemma unflatten_block (nn : list nat) (a m : nat) :
  numel nn = m ->
  unflatten_last nn (block ld [m] a m vec) = inr (block ld nn a m vec).
Proof.
  intros Hm. unfold unflatten_last, block. simpl.
  rewrite split_last_app. apply Nat.eqb_eq in Hm. now rewrite Hm.
Qed.

Lemma block_row_length (a m : nat) :
  a + m <= n ->
  Forall (fun r => length (firstn m (skipn a r)) = m) (rows vec).
Proof.
  intros Ham. eapply Forall_impl; [|apply rows_row_length].
  intros r Hr. simpl in *. rewrite length_firstn, length_skipn. lia.
Qed.

Lemma rows_block (a m : nat) :
  a + m <= n ->
  rows (block ld [m] a m vec) = map (fun r => firstn m (skipn a r)) (rows vec).
Proof.
  intros Ham. unfold rows at 1, block at 1. simpl.
  rewrite split_last_app, <- rows_length.
  now apply chunks_flat_map, block_row_length.
Qed.

Lemma stack_block (a k : nat) :
  0 < k -> a + k <= n ->
  stack_last (map (fun i => block ld [] (a + i) 1 vec) (seq 0 k))
  = inr (block ld [k] a k vec).
Proof.
  intros Hk Hak. unfold stack_last.
  destruct k as [|k]; [lia|]. cbn [seq map].
  rewrite <- (map_cons (fun i => block ld [] (a + i) 1 vec) 0 (seq 1 k)).
  change (0 :: seq 1 k) with (seq 0 (S k)).
  assert (forallb (fun t => shape_eqb (shape t) (shape (block ld [] (a + 0) 1 vec)))
            (map (fun i => block ld [] (a + i) 1 vec) (seq 0 (S k))) = true) as ->.
  { apply forallb_forall. intros t Ht. apply in_map_iff in Ht as (i & <- & _).
    unfold shape_eqb, block. simpl.
    now destruct (list_eq_dec Nat.eq_dec (ld ++ []) (ld ++ [])). }
  unfold ret, block. cbn [shape data]. rewrite length_map, length_seq, !app_nil_r.
  f_equal. f_equal.
  rewrite <- rows_length.
  rewrite <- (flat_map_seq_nth (fun r => firstn (S k) (skipn a r)) [] (rows vec)).
  apply flat_map_ext_in. intros p Hp. apply in_seq in Hp.
  rewrite flat_map_after_map. cbn [data].
  rewrite <- flat_map_pick_seq.
  rewrite (flat_map_seq_shift (fun i => pick i (nth p (rows vec) [])) a (S k)).
  apply flat_map_ext_in. intros i Hi. apply in_seq in Hi.
  apply (@pick_flat_map_pick _ (a + i) p (rows vec)); [|lia].
  eapply Forall_impl; [|apply rows_row_length]. intros r Hr. simpl in Hr. lia.
Qed.

Lemma flatten_block (nn : list nat) (a m : nat) :
  length ld = 2 -> nn <> [] ->
  flatten_from2 (block ld nn a m vec) = inr (block ld [numel nn] a m vec).
Proof.
  intros Hld Hnn. unfold flatten_from2, block, ndim. cbn [shape data].
  assert ((3 <=? length (ld ++ nn)) = true) as ->.
  { apply Nat.leb_le. rewrite length_app. destruct nn; [easy | simpl; lia]. }
  destruct ld as [|b [|c [|? ?]]]; try discriminate. reflexivity.
Qed.

Lemma unsqueeze_block (a : nat) :
  unsqueeze_last (block ld [] a 1 vec) = block ld [1] a 1 vec.
Proof. unfold unsqueeze_last, block. simpl. now rewrite app_nil_r. Qed.

(** Concatenating the blocks of consecutive segments gives the block that
    spans them. *)
Lemma cat_blocks (a : nat) (ms : list nat) :
  ld <> [] -> ms <> [] -> a + list_sum ms <= n ->
  cat_last (map (fun am => block ld [snd am] (fst am) (snd am) vec) (segments a ms))
  = inr (block ld [list_sum ms] a (list_sum ms) vec).
Proof.
  intros Hld Hms Hsum.
  assert (forall l : list (nat * nat),
             filter (fun t : tensor A => negb (shape_eqb (shape t) [0]))
               (map (fun am => block ld [snd am] (fst am) (snd am) vec) l)
             = map (fun am => block ld [snd am] (fst am) (snd am) vec) l) as Hfilter.
  { induction l as [|am l IH]; [reflexivity|]. cbn [map filter block shape].
    rewrite IH. unfold shape_eqb.
    destruct (list_eq_dec Nat.eq_dec (ld ++ [snd am]) [0]) as [E|E];
      [|reflexivity].
    destruct ld as [|? [|? ?]]; try discriminate. contradiction. }
  assert (cat_last (map (fun am => block ld [snd am] (fst am) (snd am) vec)
                        (segments a ms))
          = cat_last_nonempty
              (map (fun am => block ld [snd am] (fst am) (snd am) vec)
                   (segments a ms))) as ->.
  { unfold cat_last. rewrite Hfilter.
    destruct ms as [|m0 ms0]; [easy|]. reflexivity. }
  unfold cat_last_nonempty.
  destruct ms as [|m0 ms0] eqn:Ems; [easy|]. rewrite <- Ems in *.
  assert (segments a ms = (a, m0) :: segments (a + m0) ms0) as Eseg by now subst ms.
  rewrite Eseg at 1. cbn [map fst snd]. unfold block at 1. cbn [shape].
  rewrite split_last_app. clear Eseg Ems Hms m0 ms0.
  assert (forall a0, mapM (fun t : tensor A =>
            match split_last (shape t) with
            | Some (ld', n0) => if shape_eqb ld' ld then ret n0 else raise RuntimeError
            | None => raise RuntimeError
            end) (map (fun am => block ld [snd am] (fst am) (snd am) vec) (segments a0 ms))
          = inr ms) as ->.
  { induction ms as [|m ms IH]; intros a0; [reflexivity|].
    cbn [segments map mapM fst snd]. unfold block at 1. cbn [shape].
    rewrite split_last_app. unfold shape_eqb.
    destruct (list_eq_dec Nat.eq_dec ld ld); [|easy].
    unfold ret at 1. cbn [bind]. rewrite IH; [reflexivity|]. simpl in Hsum. lia. }
  cbn [bind]. unfold ret, block at 2. f_equal. f_equal.
  rewrite <- rows_length.
  rewrite <- (flat_map_seq_nth (fun r => firstn (list_sum ms) (skipn a r)) [] (rows vec)).
  apply flat_map_ext_in. intros p Hp. apply in_seq in Hp.
  rewrite flat_map_after_map.
  clear Hp. revert a Hsum. induction ms as [|m ms IH]; intros a Hsum.
  - reflexivity.
  - cbn [segments flat_map fst snd].
    change (list_sum (m :: ms)) with (m + list_sum ms) in *.
    rewrite IH by lia. rewrite rows_block by lia.
    rewrite <- firstn_skipn_app. f_equal.
    destruct (Nat.lt_ge_cases p (length (rows vec))) as [Hlt|Hge].
    + now rewrite (nth_map_lt (fun r => firstn m (skipn a r)) _ [] []).
    + rewrite !nth_overflow by (try rewrite length_map; lia).
      rewrite skipn_nil. now rewrite firstn_nil.
Qed.

End BlockFacts.

(** ** Dictionaries *)

Lemma key_eqb_eq (k1 k2 : key) : key_eqb k1 k2 = true <-> k1 = k2.
Proof.
  destruct k1 as [s1|s1 o1], k2 as [s2|s2 o2]; simpl; split; intros H;
    try discriminate.
  - apply String.eqb_eq in H. now subst.
  - injection H as ->. apply String.eqb_refl.
  - apply andb_true_iff in H as [H1 H2].
    apply Nat.eqb_eq in H1, H2. now subst.
  - injection H as -> ->. now rewrite !Nat.eqb_refl.
Qed.

Lemma od_set_fresh {V : Type} (k : key) (v : V) (d : odict V) :
  ~ In k (map fst d) -> od_set k v d = d ++ [(k, v)].
Proof.
  induction d as [|[k' v'] d IH]; intros Hk; simpl in *; [reflexivity|].
  destruct (key_eqb k' k) eqn:E.
  - apply key_eqb_eq in E. tauto.
  - rewrite IH; tauto.
Qed.

Lemma magnitude_means_keys_length (self : PS.params) :
  length (PS.magnitude_means_keys self)
  = PS.n_scales self * PS.n_orientations self + 2.
Proof.
  unfold PS.magnitude_means_keys. rewrite !length_app. simpl.
  assert (forall l : list nat,
             length (flat_map (fun sc => map (fun ori => KBand sc ori)
                                             (seq 0 (PS.n_orientations self))) l)
             = length l * PS.n_orientations self) as H.
  { induction l as [|x l IH]; simpl; [reflexivity|].
    now rewrite length_app, length_map, length_seq, IH. }
  rewrite H, length_seq. lia.
Qed.

Lemma magnitude_means_keys_NoDup (self : PS.params) :
  NoDup (PS.magnitude_means_keys self).
Proof.
  unfold PS.magnitude_means_keys.
  set (bands := flat_map _ _).
  assert (forall k, In k bands -> exists sc ori, k = KBand sc ori) as Hband.
  { intros k Hk. apply in_flat_map in Hk as (sc & _ & Hk).
    apply in_map_iff in Hk as (ori & <- & _). eauto. }
  assert (NoDup bands) as Hnd.
  { subst bands. generalize (seq_NoDup (PS.n_scales self) 0).
    generalize (seq 0 (PS.n_scales self)) as l.
    induction l as [|sc l IH]; intros Hl; simpl; [constructor|].
    inversion Hl as [|? ? Hsc Hl']; subst.
    apply NoDup_app.
    - apply NoDup_map_NoDup_ForallPairs; [|apply seq_NoDup].
      intros x y _ _ E. now injection E.
    - now apply IH.
    - intros k Hk Hk'. apply in_map_iff in Hk as (ori & <- & _).
      apply in_flat_map in Hk' as (sc' & Hsc' & Hk').
      apply in_map_iff in Hk' as (ori' & E & _).
      injection E as -> _. contradiction. }
  simpl. constructor.
  - intros Hin. apply in_app_or in Hin as [Hin|[Hin|[]]]; [|discriminate].
    apply Hband in Hin as (sc & ori & E). discriminate.
  - apply NoDup_app; [assumption | repeat constructor; easy |].
    intros k Hk [<-|[]]. apply Hband in Hk as (sc & ori & E). discriminate.
Qed.

Lemma representation_scales_length (self : PS.params) :
  length (PS.representation_scales self) = list_sum (block_sizes self).
Proof.
  assert (forall (T : Type) (k : nat) (l : list T),
             length (list_times k l) = k * length l) as Htimes.
  { intros T k l. unfold list_times. induction k as [|k IH]; simpl; [reflexivity|].
    now rewrite length_app, IH. }
  assert (forall (T : Type) (k : nat) (l : list T),
             length (flat_map (fun s => repeat s k) l) = length l * k) as Hrep.
  { intros T k l. induction l as [|x l IH]; simpl; [reflexivity|].
    now rewrite length_app, repeat_length, IH. }
  unfold PS.representation_scales, PS._get_representation_scales, block_sizes.
  destruct (PS.use_true_correlations self);
    repeat (rewrite ?length_app, ?Htimes, ?Hrep, ?length_map, ?length_seq);
    cbn [length list_sum app fold_right numel Nat.pow]; ring.
Qed.

(** ** The codec on a full-length vector *)

Section CodecFacts.

Context {A : Type}.
Variable self : PS.params.
Variable vec : tensor A.
Variable ld : list nat.
Variable n : nat.
Hypothesis Hshape : shape vec = ld ++ [n].
Hypothesis Hwf : wf vec.

Lemma fill_magnitude_means_blocks (a : nat) (iks : list (nat * key))
    (d : odict (tensor A)) :
  Forall (fun ik => a + fst ik < n) iks ->
  NoDup (map fst d ++ map snd iks) ->
  PS.fill_magnitude_means vec a iks d
  = inr (d ++ map (fun ik => (snd ik, block ld [] (a + fst ik) 1 vec)) iks).
Proof.
  intros Hin. revert d. induction Hin as [|[ii k] iks Hik _ IH]; intros d Hnd.
  - simpl. now rewrite app_nil_r.
  - cbn [PS.fill_magnitude_means map fst snd] in *.
    rewrite (index_last_block vec ld n Hshape) by assumption. cbn [bind].
    assert (~ In k (map fst d)) as Hfresh.
    { apply NoDup_remove_2 in Hnd. intros H. apply Hnd, in_or_app. now left. }
    rewrite od_set_fresh by assumption.
    rewrite IH.
    + now rewrite <- app_assoc.
    + rewrite map_app, <- app_assoc. exact Hnd.
Qed.

Lemma slice_block (a m : nat) :
  a + m <= n -> slice_last a (a + m) vec = inr (block ld [m] a m vec).
Proof.
  intros H. rewrite (slice_last_block vec ld n Hshape) by lia.
  now replace (a + m - a) with m by lia.
Qed.

Lemma slice_unflatten_block (nn : list nat) (a : nat) :
  a + numel nn <= n ->
  (sl <- slice_last a (a + numel nn) vec ;; unflatten_last nn sl)
  = inr (block ld nn a (numel nn) vec).
Proof.
  intros H. rewrite slice_block by assumption. cbn [bind].
  now apply unflatten_block.
Qed.

Lemma convert_to_dict_full :
  n = length (PS.representation_scales self) ->
  PS.convert_to_dict self vec = inr (dict_of_blocks self ld vec).
Proof.
  intros Hn.
  pose proof (representation_scales_length self) as HL.
  pose proof (magnitude_means_keys_length self) as Hkeys.
  pose proof (magnitude_means_keys_NoDup self) as Hnd.
  rewrite <- Hn in HL. unfold block_sizes in HL.
  unfold PS.convert_to_dict, dict_of_blocks.
  assert (last_dim vec = inr n) as ->.
  { unfold last_dim. now rewrite Hshape, split_last_app. }
  cbn [bind]. rewrite <- Hn, Nat.eqb_refl. cbn [negb].
  rewrite Hkeys.
  replace (6 + (PS.n_scales self * PS.n_orientations self + 2 - 1) + 1)
    with (6 + (PS.n_scales self * PS.n_orientations self + 2)) by lia.
  rewrite (fill_magnitude_means_blocks 6 _ []); cycle 1.
  { apply Forall_forall. intros [ii k] Hin. apply in_combine_l in Hin.
    apply in_seq in Hin. rewrite Hkeys in Hin. cbn [fst].
    destruct (PS.use_true_correlations self);
      cbn [list_sum app fold_right] in HL; lia. }
  { cbn [map app]. unfold enumerate. rewrite map_snd_combine; [assumption|].
    now rewrite length_seq. }
  destruct (PS.use_true_correlations self);
    cbn [list_sum app fold_right] in HL;
    repeat (first [ rewrite (index_last_block vec ld n Hshape) by lia
                  | rewrite slice_block by lia
                  | rewrite unflatten_block by reflexivity
                  | progress cbn [bind ret fst snd] ]);
    reflexivity.
Qed.

Lemma numel_one (m : nat) : numel [m] = m.
Proof. simpl. lia. Qed.

Lemma stack_pixel_statistics :
  6 <= n ->
  stack_last [block ld [] 0 1 vec; block ld [] 1 1 vec; block ld [] 2 1 vec;
              block ld [] 3 1 vec; block ld [] 4 1 vec; block ld [] 5 1 vec]
  = inr (block ld [6] 0 6 vec).
Proof.
  intros H. apply (stack_block vec ld n Hshape Hwf 0 6); lia.
Qed.

Lemma stack_magnitude_means :
  n = length (PS.representation_scales self) ->
  stack_last (od_values (map (fun ik => (snd ik, block ld [] (6 + fst ik) 1 vec))
                             (enumerate (PS.magnitude_means_keys self))))
  = inr (block ld [PS.n_scales self * PS.n_orientations self + 2] 6
               (PS.n_scales self * PS.n_orientations self + 2) vec).
Proof.
  intros Hn.
  pose proof (representation_scales_length self) as HL.
  rewrite <- Hn in HL. unfold block_sizes in HL.
  unfold od_values, enumerate. rewrite map_map. cbn [snd].
  rewrite <- (map_map fst (fun i => block ld [] (6 + i) 1 vec)).
  rewrite map_fst_combine by now rewrite length_seq.
  rewrite magnitude_means_keys_length.
  apply (stack_block vec ld n Hshape Hwf); [lia|].
  destruct (PS.use_true_correlations self);
    cbn [list_sum app fold_right] in HL; lia.
Qed.

Lemma leaf_to_vector (tl : list nat) (a m : nat) :
  length ld = 2 -> tl <> [] ->
  (if ndim (block ld tl a m vec) =? 2
   then ret (unsqueeze_last (block ld tl a m vec))
   else flatten_from2 (block ld tl a m vec))
  = inr (block ld [numel tl] a m vec).
Proof.
  intros Hld Htl. unfold ndim at 1. cbn [block shape].
  assert ((length (ld ++ tl) =? 2) = false) as ->.
  { apply Nat.eqb_neq. rewrite length_app. destruct tl; [easy | simpl; lia]. }
  now apply (flatten_block vec ld n Hshape).
Qed.

Lemma scalar_to_vector (a : nat) :
  length ld = 2 ->
  (if ndim (block ld [] a 1 vec) =? 2
   then ret (unsqueeze_last (block ld [] a 1 vec))
   else flatten_from2 (block ld [] a 1 vec))
  = inr (block ld [1] a 1 vec).
Proof.
  intros Hld. unfold ndim at 1. cbn [block shape].
  rewrite app_nil_r, Hld. cbn [Nat.eqb]. now rewrite unsqueeze_block.
Qed.

Lemma convert_to_vector_blocks :
  length ld = 2 ->
  n = length (PS.representation_scales self) ->
  PS.convert_to_vector (dict_of_blocks self ld vec) = inr vec.
Proof.
  intros Hld Hn.
  pose proof (representation_scales_length self) as HL.
  rewrite <- Hn in HL.
  pose proof (cat_blocks vec ld n Hshape Hwf 0 (block_sizes self)) as Hcat.
  rewrite <- HL in Hcat. rewrite (block_full vec ld n Hshape Hwf) in Hcat.
  specialize (Hcat ltac:(destruct ld; discriminate)
                    ltac:(unfold block_sizes; discriminate) ltac:(lia)).
  unfold block_sizes in HL, Hcat.
  unfold PS.convert_to_vector, dict_of_blocks.
  destruct (PS.use_true_correlations self);
    cbn [list_sum app fold_right] in HL;
    cbn [app od_values map snd mapM];
    rewrite stack_pixel_statistics by lia;
    fold (od_values (map (fun ik => (snd ik, block ld [] (6 + fst ik) 1 vec))
                         (enumerate (PS.magnitude_means_keys self))));
    rewrite (stack_magnitude_means Hn);
    rewrite !leaf_to_vector by (assumption || discriminate);
    rewrite scalar_to_vector by assumption;
    rewrite !numel_one;
    cbn [bind ret];
    exact Hcat.
Qed.

End CodecFacts.

(** ** Labels *)

Lemma label_eqb_eq (a b : label) : label_eqb a b = true <-> a = b.
Proof.
  destruct a as [x|x], b as [y|y]; simpl; split; intros H; try discriminate.
  - apply Z.eqb_eq in H. now subst.
  - injection H as ->. apply Z.eqb_refl.
  - apply String.eqb_eq in H. now subst.
  - injection H as ->. apply String.eqb_refl.
Qed.

Lemma label_in_In (s : label) (l : list label) : label_in s l = true <-> In s l.
Proof.
  unfold label_in. rewrite existsb_exists. split.
  - intros (x & Hx & E). apply label_eqb_eq in E. now subst.
  - intros H. exists s. split; [assumption|]. now apply label_eqb_eq.
Qed.

(** Every entry of [representation_scales] is one of the three strings or a
    scale below [n_scales]. *)
Lemma representation_scales_valid (self : PS.params) :
  Forall (PS.valid_label self) (PS.representation_scales self).
Proof.
  assert (forall (k : nat) (l : list label),
             Forall (PS.valid_label self) l ->
             Forall (PS.valid_label self) (list_times k l)) as Htimes.
  { intros k l Hl. unfold list_times. induction k as [|k IH]; simpl.
    - constructor.
    - apply Forall_app. now split. }
  assert (PS.valid_label self PS.pixel_statistics) as Hpix by (left; reflexivity).
  assert (PS.valid_label self PS.residual_lowpass) as Hlow
      by (right; left; reflexivity).
  assert (PS.valid_label self PS.residual_highpass) as Hhigh
      by (right; right; left; reflexivity).
  assert (Forall (PS.valid_label self)
            (map (fun s => LInt (Z.of_nat s)) (seq 0 (PS.n_scales self)))) as Hsc.
  { apply Forall_forall. intros l Hl. apply in_map_iff in Hl as (s & <- & Hs).
    apply in_seq in Hs. right. right. right. exists s. split; [lia | reflexivity]. }
  assert (Forall (PS.valid_label self)
            (flat_map (fun s => repeat s (PS.n_orientations self))
               (map (fun s => LInt (Z.of_nat s)) (seq 0 (PS.n_scales self))))) as Hso.
  { apply Forall_forall. intros l Hl. apply in_flat_map in Hl as (s & Hs & Hl).
    apply repeat_spec in Hl. subst l. rewrite Forall_forall in Hsc. now apply Hsc. }
  unfold PS.representation_scales, PS._get_representation_scales.
  destruct (PS.use_true_correlations self);
    repeat (first [ apply Forall_app; split
                  | apply Htimes
                  | assumption
                  | apply Forall_cons; [assumption|]
                  | apply Forall_nil ]).
Qed.

(** ** Scale filtering *)

Section MaskFacts.

Context {A : Type}.
Variable keep : list label.


Lemma kept_indices_length (labels : list label) (a : nat) :
  length (map fst (filter (fun '(i, s) => label_in s keep)
                          (combine (seq a (length labels)) labels)))
  = count_kept keep labels.
Proof.
  unfold count_kept. rewrite length_map. revert a.
  induction labels as [|s labels IH]; intros a; [reflexivity|].
  cbn [length seq combine filter]. destruct (label_in s keep); simpl; now rewrite IH.
Qed.


End MaskFacts.

(** ** Entries by multi-index *)

Section IndexFacts.

Context {A : Type}.

Lemma indices_length (sh : list nat) : length (indices sh) = numel sh.
Proof.
  induction sh as [|d sh IH]; [reflexivity|]. cbn [indices numel fold_right].
  fold (numel sh). rewrite <- IH.
  generalize 0 as a. induction d as [|d IHd]; intros a; simpl; [reflexivity|].
  now rewrite length_app, length_map, IHd.
Qed.

Lemma nth_error_flat_map_seq {B : Type} (g : nat -> list B) (m d i o a : nat) :
  (forall j, length (g j) = m) -> i < d -> o < m ->
  nth_error (flat_map g (seq a d)) (i * m + o) = nth_error (g (a + i)) o.
Proof.
  intros Hg. revert i a. induction d as [|d IH]; intros i a Hi Ho; [lia|].
  cbn [seq flat_map]. destruct i as [|i].
  - rewrite Nat.add_0_r. simpl. apply nth_error_app1. now rewrite Hg.
  - rewrite nth_error_app2 by (rewrite Hg; simpl; lia).
    rewrite Hg. replace (S i * m + o - m) with (i * m + o) by (simpl; lia).
    rewrite IH by lia. f_equal. f_equal. lia.
Qed.

Lemma offset_lt (sh idx : list nat) :
  valid_index sh idx = true -> offset sh idx < numel sh.
Proof.
  revert idx. induction sh as [|d sh IH]; intros [|i idx] H; simpl in *;
    try discriminate; [lia|].
  apply andb_true_iff in H as [Hi Hv]. apply Nat.ltb_lt in Hi.
  specialize (IH idx Hv). fold (numel sh). nia.
Qed.

Lemma nth_error_indices (sh idx : list nat) :
  valid_index sh idx = true ->
  nth_error (indices sh) (offset sh idx) = Some idx.
Proof.
  revert idx. induction sh as [|d sh IH]; intros [|i idx] H; simpl in H;
    try discriminate; [reflexivity|].
  apply andb_true_iff in H as [Hi Hv]. apply Nat.ltb_lt in Hi.
  cbn [indices offset].
  rewrite (nth_error_flat_map_seq _ (numel sh) d i (offset sh idx) 0).
  - cbn [Nat.add]. rewrite nth_error_map, (IH idx Hv). reflexivity.
  - intros j. now rewrite length_map, indices_length.
  - assumption.
  - now apply offset_lt.
Qed.

Lemma get_tabulate (sh : list nat) (f : list nat -> A) (idx : list nat) :
  valid_index sh idx = true -> get (tabulate sh f) idx = Some (f idx).
Proof.
  intros H. unfold get, tabulate. cbn [shape data]. rewrite H.
  now rewrite nth_error_map, nth_error_indices.
Qed.

Lemma entry_tabulate (d : A) (sh : list nat) (f : list nat -> A) (idx : list nat) :
  valid_index sh idx = true -> entry d (tabulate sh f) idx = f idx.
Proof. intros H. unfold entry. now rewrite get_tabulate. Qed.

Lemma tabulate_wf (sh : list nat) (f : list nat -> A) : wf (tabulate sh f).
Proof. unfold wf, tabulate. cbn. now rewrite length_map, indices_length. Qed.

Lemma valid_index_app (s1 s2 i1 i2 : list nat) :
  valid_index s1 i1 = true -> valid_index s2 i2 = true ->
  valid_index (s1 ++ s2) (i1 ++ i2) = true.
Proof.
  revert i1. induction s1 as [|d s1 IH]; intros [|i i1] H1 H2; simpl in *;
    try discriminate; [assumption|].
  apply andb_true_iff in H1 as [Hi Hv]. rewrite Hi. cbn [andb]. now apply IH.
Qed.

Lemma valid_index_length (sh idx : list nat) :
  valid_index sh idx = true -> length idx = length sh.
Proof.
  revert idx. induction sh as [|d sh IH]; intros [|i idx] H; simpl in *;
    try discriminate; [reflexivity|].
  apply andb_true_iff in H as [_ Hv]. f_equal. now apply IH.
Qed.

Lemma indices_valid (sh idx : list nat) :
  In idx (indices sh) -> valid_index sh idx = true.
Proof.
  revert idx. induction sh as [|d sh IH]; intros idx H; simpl in H.
  - destruct H as [<-|[]]. reflexivity.
  - apply in_flat_map in H as (i & Hi & H). apply in_map_iff in H as (idx' & <- & H).
    apply in_seq in Hi. simpl. apply andb_true_iff. split.
    + apply Nat.ltb_lt. lia.
    + now apply IH.
Qed.

End IndexFacts.

(** ** Broadcasting and reductions *)

Section BroadcastFacts.

Context {A : Type}.

Lemma split_last2_app (ld : list nat) (h w : nat) :
  split_last2 (ld ++ [h; w]) = Some (ld, h, w).
Proof.
  unfold split_last2. rewrite rev_app_distr. simpl. now rewrite rev_involutive.
Qed.

Lemma firstn_valid (sh idx rest : list nat) :
  valid_index sh idx = true -> firstn (length sh) (idx ++ rest) = idx.
Proof.
  intros H. apply valid_index_length in H. rewrite <- H.
  rewrite firstn_app, Nat.sub_diag, firstn_all. simpl. apply app_nil_r.
Qed.

Lemma reduce_last2_tabulate {B : Type} (d : A) (f : list A -> B) (t : tensor A)
    (ld : list nat) (h w : nat) :
  shape t = ld ++ [h; w] ->
  reduce_last2 d f false t
  = inr (tabulate ld
           (fun idx => f (map (fun hw => entry d t (firstn (length ld) idx ++ hw))
                              (indices [h; w])))).
Proof.
  intros H. unfold reduce_last2. rewrite H, split_last2_app.
  unfold ret. now rewrite app_nil_r.
Qed.

Lemma get_map_tensor {B : Type} (g : A -> B) (t : tensor A) (idx : list nat) :
  get (map_tensor g t) idx = option_map g (get t idx).
Proof.
  unfold get, map_tensor. cbn [shape data].
  destruct (valid_index (shape t) idx); [|reflexivity].
  apply nth_error_map.
Qed.

Lemma shape_tabulate (sh : list nat) (f : list nat -> A) :
  shape (tabulate sh f) = sh.
Proof. reflexivity. Qed.

Lemma shape_map_tensor {B : Type} (g : A -> B) (t : tensor A) :
  shape (map_tensor g t) = shape t.
Proof. reflexivity. Qed.

Lemma entry_map_tabulate {B : Type} (d : B) (g : A -> B) (sh : list nat)
    (f : list nat -> A) (idx : list nat) :
  valid_index sh idx = true ->
  entry d (map_tensor g (tabulate sh f)) idx = g (f idx).
Proof.
  intros H. unfold entry. now rewrite get_map_tensor, get_tabulate.
Qed.

Lemma firstn_valid0 (sh idx : list nat) :
  valid_index sh idx = true -> firstn (length sh) idx = idx.
Proof.
  intros H. rewrite <- (app_nil_r idx) at 1. now apply firstn_valid.
Qed.

Lemma broadcast_rev_prefix (r p : list nat) :
  broadcast_rev (r ++ p) r = Some (r ++ p).
Proof.
  induction r as [|d r IH]; simpl.
  - now destruct p.
  - now rewrite IH, Nat.eqb_refl.
Qed.

Lemma broadcast_shapes_suffix (pre sh : list nat) :
  broadcast_shapes (pre ++ sh) sh = inr (pre ++ sh).
Proof.
  unfold broadcast_shapes. rewrite rev_app_distr, broadcast_rev_prefix.
  unfold ret. now rewrite <- rev_app_distr, rev_involutive.
Qed.

Lemma bidx_valid (sh idx : list nat) :
  valid_index sh idx = true -> bidx sh idx = idx.
Proof.
  intros H. unfold bidx. rewrite (valid_index_length _ _ H), Nat.sub_diag.
  cbn [skipn]. revert idx H.
  induction sh as [|d sh IH]; intros [|i idx] H; simpl in *; try discriminate;
    [reflexivity|].
  apply andb_true_iff in H as [Hi Hv]. apply Nat.ltb_lt in Hi.
  rewrite (IH idx Hv). destruct (Nat.eqb_spec d 1); [f_equal; lia | reflexivity].
Qed.

Lemma bidx_suffix (pre sh ip idx : list nat) :
  valid_index pre ip = true -> valid_index sh idx = true ->
  bidx sh (ip ++ idx) = idx.
Proof.
  intros Hp Hv. rewrite <- (bidx_valid sh idx Hv) at 2. unfold bidx.
  rewrite length_app, (valid_index_length _ _ Hv).
  replace (length ip + length sh - length sh) with (length ip) by lia.
  rewrite Nat.sub_diag, skipn_app, skipn_all, Nat.sub_diag. reflexivity.
Qed.

End BroadcastFacts.

(** ** Moments *)

(** Validity of an explicit index under explicit bounds. *)
Ltac solve_valid :=
  cbn [valid_index app];
  repeat (apply andb_true_intro; split);
  try reflexivity; apply Nat.ltb_lt; lia.

Section MomentFacts.

Local Open Scope R_scope.

Lemma nth_tabulate {A : Type} (sh : list nat) (f : list nat -> A) (idx : list nat)
    (d : A) (o : nat) :
  valid_index sh idx = true -> o = offset sh idx ->
  nth o (data (tabulate sh f)) d = f idx.
Proof.
  intros Hv ->. apply nth_error_nth. unfold tabulate. cbn [data].
  now rewrite nth_error_map, nth_error_indices.
Qed.

Lemma broadcast_shapes_same (sh : list nat) : broadcast_shapes sh sh = inr sh.
Proof. apply (broadcast_shapes_suffix [] sh). Qed.

Lemma broadcast_shapes_keepdim (ld : list nat) (h w : nat) :
  broadcast_shapes (ld ++ [h; w]%nat) (ld ++ [1; 1]%nat) = inr (ld ++ [h; w]%nat).
Proof.
  unfold broadcast_shapes. rewrite !rev_app_distr. cbn [rev app].
  pose proof (broadcast_rev_prefix (rev ld) []) as H. rewrite app_nil_r in H.
  cbn [broadcast_rev]. rewrite H.
  destruct (Nat.eqb_spec h 1), (Nat.eqb_spec w 1); subst; cbn [Nat.eqb];
    unfold ret; cbn [rev app]; now rewrite rev_involutive, <- app_assoc.
Qed.

Lemma broadcast_shapes_scalar (sh : list nat) : broadcast_shapes sh [] = inr sh.
Proof.
  unfold broadcast_shapes. cbn [rev]. unfold ret.
  destruct (rev sh) eqn:E; cbn [broadcast_rev]; rewrite <- E;
    now rewrite rev_involutive.
Qed.

Lemma bidx_keepdim (ld il : list nat) (y x : nat) :
  valid_index ld il = true ->
  bidx (ld ++ [1; 1]%nat) (il ++ [y; x]%nat) = il ++ [0; 0]%nat.
Proof.
  intros Hv. unfold bidx.
  rewrite !length_app, (valid_index_length _ _ Hv). cbn [length].
  rewrite Nat.sub_diag. cbn [skipn]. rewrite <- (bidx_valid ld il Hv) at 2.
  unfold bidx. rewrite (valid_index_length _ _ Hv), Nat.sub_diag. cbn [skipn].
  pose proof (valid_index_length _ _ Hv) as Hlen. clear Hv.
  revert il Hlen. induction ld as [|d ld IH]; intros [|i il] Hlen;
    try discriminate; [reflexivity|].
  cbn [app combine map fst snd]. f_equal. apply IH. now injection Hlen.
Qed.

Lemma entry_scalar (x : R) : entry 0 (Torch.scalar x) (bidx [] []) = x.
Proof. reflexivity. Qed.

Lemma bidx_nil (idx : list nat) : bidx [] idx = [].
Proof. reflexivity. Qed.

(** The normalised central moment that [stats.skew] ([k = 3]) and
    [stats.kurtosis] ([k = 4]) compute, when the mean is a tensor that keeps
    the two spatial dimensions and the variance one that drops them. *)
Lemma moment_keepdim_entries (k : nat) (x : tensor R) (ld : list nat) (h w : nat)
    (fm fv : list nat -> R) :
  shape x = ld ++ [h; w]%nat ->
  exists r,
    (d <- Torch.sub x (tabulate (ld ++ [1; 1]%nat) fm) ;;
     m <- reduce_last2 0 (fun l => Torch.mean_list (map (fun v => v ^ k) l)) false d ;;
     broadcast2 (fun m v => m / sqrt v ^ k) 0 0 m (tabulate ld fv)) = inr r
    /\ shape r = ld
    /\ forall il,
         valid_index ld il = true ->
         get r il
         = Some (Torch.mean_list
                   (map (fun v => (v - fm (il ++ [0; 0]%nat)) ^ k) (spatial_slice x il))
                 / sqrt (fv il) ^ k).
Proof.
  intros Hx. unfold Torch.sub, broadcast2 at 1.
  rewrite Hx, shape_tabulate, broadcast_shapes_keepdim. cbn [bind ret].
  rewrite (reduce_last2_tabulate _ _ _ ld h w) by apply shape_tabulate.
  cbn [bind]. unfold broadcast2. rewrite !shape_tabulate, broadcast_shapes_same.
  cbn [bind ret]. eexists. split; [reflexivity|]. split; [reflexivity|].
  intros il Hil. rewrite get_tabulate by assumption. f_equal.
  rewrite (bidx_valid _ _ Hil), !entry_tabulate by assumption.
  rewrite (firstn_valid0 _ _ Hil). f_equal. f_equal.
  unfold spatial_slice. rewrite Hx, split_last2_app, !map_map.
  apply map_ext_in. intros hw Hhw. apply indices_valid in Hhw.
  pose proof (valid_index_app _ _ _ _ Hil Hhw) as Hv.
  rewrite entry_tabulate by assumption. rewrite (bidx_valid _ _ Hv).
  destruct hw as [|y [|x0 [|? ?]]]; cbn [valid_index] in Hhw;
    rewrite ?andb_false_r in Hhw; try discriminate.
  rewrite (bidx_keepdim ld il y x0 Hil).
  rewrite entry_tabulate; [reflexivity|].
  apply valid_index_app; [assumption | reflexivity].
Qed.

Lemma reduce_last2_keepdim {A B : Type} (d : A) (f : list A -> B) (t : tensor A)
    (ld : list nat) (h w : nat) :
  shape t = ld ++ [h; w]%nat ->
  reduce_last2 d f true t
  = inr (tabulate (ld ++ [1; 1]%nat)
           (fun idx => f (map (fun hw => entry d t (firstn (length ld) idx ++ hw))
                              (indices [h; w])))).
Proof.
  intros H. unfold reduce_last2. now rewrite H, split_last2_app.
Qed.

Lemma entry_nth (t : tensor R) (idx : list nat) :
  valid_index (shape t) idx = true ->
  entry 0 t idx = nth (offset (shape t) idx) (data t) 0.
Proof.
  intros H. unfold entry, get. rewrite H.
  destruct (nth_error (data t) (offset (shape t) idx)) eqn:E.
  - symmetry. now apply nth_error_nth.
  - symmetry. apply nth_overflow. now apply nth_error_None.
Qed.

Lemma entry_of_get (t : tensor R) (idx : list nat) (v : R) :
  get t idx = Some v -> entry 0 t idx = v.
Proof. intros H. unfold entry. now rewrite H. Qed.

Lemma shape_eqb_refl (sh : list nat) : shape_eqb sh sh = true.
Proof. unfold shape_eqb. now destruct (list_eq_dec Nat.eq_dec sh sh). Qed.


(** What [_compute_pixel_stats] returns, entry by entry. *)
Lemma pixel_stats_entries (image : tensor R) (b c h w : nat) :
  shape image = [b; c; h; w]%nat -> (h * w)%nat <> 0%nat ->
  exists r,
    PS._compute_pixel_stats image = inr r
    /\ shape r = [b; c; 6]%nat
    /\ forall i j,
         (i < b)%nat -> (j < c)%nat ->
         let xs := spatial_slice image [i; j]%nat in
         let mu := Torch.mean_list xs in
         let v := Torch.var_list xs in
         get r [i; j; 0]%nat = Some mu
         /\ get r [i; j; 1]%nat = Some v
         /\ get r [i; j; 2]%nat
            = Some (Torch.mean_list (map (fun x => (x - mu) ^ 3) xs) / sqrt v ^ 3)
         /\ get r [i; j; 3]%nat
            = Some (Torch.mean_list (map (fun x => (x - mu) ^ 4) xs) / sqrt v ^ 4)
         /\ get r [i; j; 4]%nat = Some (Torch.min_list xs)
         /\ get r [i; j; 5]%nat = Some (Torch.max_list xs).
Proof.
  intros Hx Hhw.
  change (shape image = [b; c] ++ [h; w])%nat in Hx.
  unfold PS._compute_pixel_stats, Torch.mean_last2, Torch.var_last2,
    Torch.reduce_bchw, Stats.skew, Stats.kurtosis.
  rewrite (reduce_last2_keepdim _ _ _ _ _ _ Hx).
  rewrite !(reduce_last2_tabulate _ _ _ _ _ _ Hx). cbn [bind].
  set (fm := fun idx : list nat =>
               Torch.mean_list (map (fun hw => entry 0 image
                                  (firstn (length [b; c]%nat) idx ++ hw))
                                    (indices [h; w]))).
  set (fv := fun idx : list nat =>
               Torch.var_list (map (fun hw => entry 0 image
                                  (firstn (length [b; c]%nat) idx ++ hw))
                                   (indices [h; w]))).
  destruct (moment_keepdim_entries 3 image [b; c]%nat h w fm fv Hx)
    as (sk & Hsk & Hssk & Hgsk).
  destruct (moment_keepdim_entries 4 image [b; c]%nat h w fm fv Hx)
    as (ku & Hku & Hsku & Hgku).
  rewrite Hsk. cbn [bind]. rewrite Hku. cbn [bind].
  rewrite Hx. cbn [app]. apply Nat.eqb_neq in Hhw. rewrite Hhw. cbn [bind].
  unfold Torch.pack_bc. rewrite shape_tabulate. cbn [app forallb].
  rewrite !shape_tabulate, Hssk, Hsku. cbn [firstn app].
  rewrite !shape_eqb_refl. cbn [andb].
  match goal with
  | |- context [list_sum ?l] =>
      assert (list_sum l = 6%nat) as Hsum
        by (cbn [map]; rewrite !shape_tabulate, Hssk, Hsku; reflexivity)
  end.
  rewrite Hsum.
  eexists. split; [reflexivity|]. split; [reflexivity|].
  intros i j Hi Hj.
  set (xs := spatial_slice image [i; j]%nat).
  set (mu := Torch.mean_list xs).
  set (v := Torch.var_list xs).
  assert (valid_index [b; c]%nat [i; j]%nat = true) as Hv by solve_valid.
  assert (fm [i; j; 0; 0]%nat = mu) as Hmu.
  { subst fm mu xs. cbn beta. unfold spatial_slice. now rewrite Hx, split_last2_app. }
  assert (fv [i; j]%nat = v) as Hvar.
  { subst fv v xs. cbn beta. unfold spatial_slice. now rewrite Hx, split_last2_app. }
  specialize (Hgsk _ Hv). specialize (Hgku _ Hv).
  cbn [app] in Hgsk, Hgku. rewrite Hmu, Hvar in Hgsk, Hgku.
  fold xs in Hgsk, Hgku.
  apply entry_of_get in Hgsk, Hgku.
  rewrite (entry_nth sk), Hssk in Hgsk by now rewrite Hssk.
  rewrite (entry_nth ku), Hsku in Hgku by now rewrite Hsku.
  cbn [offset numel fold_right] in Hgsk, Hgku.
  assert (forall p, (p < 6)%nat ->
            valid_index [b; c; 6]%nat [i; j; p]%nat = true) as Hvp.
  { intros p Hp. solve_valid. }
  repeat split.
  all: rewrite get_tabulate by (apply Hvp; lia).
  all: cbn [Torch.pack_entry]; rewrite ?shape_tabulate, ?Hssk, ?Hsku;
    cbn [skipn numel fold_right Nat.mul Nat.add Nat.ltb Nat.leb Nat.sub]; f_equal.
  - rewrite (nth_tabulate _ _ [i; j; 0; 0]%nat); [exact Hmu | solve_valid |].
    cbn [offset numel fold_right]. ring.
  - rewrite (nth_tabulate _ _ [i; j]%nat); [exact Hvar | exact Hv |].
    cbn [offset numel fold_right]. ring.
  - rewrite <- Hgsk. f_equal. ring.
  - rewrite <- Hgku. f_equal. ring.
  - rewrite (nth_tabulate _ _ [i; j]%nat); [| exact Hv |].
    + cbn beta. unfold xs, spatial_slice. now rewrite Hx, split_last2_app.
    + cbn [offset numel fold_right]. ring.
  - rewrite (nth_tabulate _ _ [i; j]%nat); [| exact Hv |].
    + cbn beta. unfold xs, spatial_slice. now rewrite Hx, split_last2_app.
    + cbn [offset numel fold_right]. ring.
Qed.

(** The normalised central moment that [stats.skew] and [stats.kurtosis]
    compute when the mean is a Python number. *)
Lemma moment_scalar_entries (k : nat) (x var : tensor R) (mu : R) (ld : list nat)
    (h w : nat) :
  shape x = ld ++ [h; w]%nat -> shape var = ld ->
  exists r,
    (d <- Torch.sub x (Torch.scalar mu) ;;
     m <- reduce_last2 0 (fun l => Torch.mean_list (map (fun v => v ^ k) l)) false d ;;
     broadcast2 (fun m v => m / sqrt v ^ k) 0 0 m var) = inr r
    /\ shape r = ld
    /\ forall il,
         valid_index ld il = true ->
         get r il
         = Some (Torch.mean_list (map (fun v => (v - mu) ^ k) (spatial_slice x il))
                 / sqrt (entry 0 var il) ^ k).
Proof.
  intros Hx Hvar. unfold Torch.sub, broadcast2 at 1.
  cbn [Torch.scalar shape]. rewrite broadcast_shapes_scalar. cbn [bind ret].
  rewrite Hx.
  rewrite (reduce_last2_tabulate _ _ _ ld h w) by apply shape_tabulate.
  cbn [bind]. unfold broadcast2. rewrite shape_tabulate, Hvar, broadcast_shapes_same.
  cbn [bind ret]. eexists. split; [reflexivity|]. split; [reflexivity|].
  intros il Hil. rewrite get_tabulate by assumption. f_equal.
  rewrite (bidx_valid _ _ Hil), entry_tabulate by assumption.
  rewrite (firstn_valid0 _ _ Hil). f_equal. f_equal.
  unfold spatial_slice. rewrite Hx, split_last2_app, !map_map.
  apply map_ext_in. intros hw Hhw. apply indices_valid in Hhw.
  pose proof (valid_index_app _ _ _ _ Hil Hhw) as Hv.
  rewrite entry_tabulate by assumption. rewrite (bidx_valid _ _ Hv).
  reflexivity.
Qed.

(** [torch.where] on three operands of the same shape. *)
Lemma torch_where_same (cond : tensor bool) (a b : tensor R) (sh : list nat) :
  shape cond = sh -> shape a = sh -> shape b = sh ->
  exists r,
    Torch.torch_where cond a b = inr r
    /\ shape r = sh
    /\ forall idx,
         valid_index sh idx = true ->
         get r idx = Some (if entry false cond idx then entry 0 a idx
                           else entry 0 b idx).
Proof.
  intros Hc Ha Hb. unfold Torch.torch_where.
  rewrite Hc, Ha, Hb, broadcast_shapes_same. cbn [bind].
  rewrite broadcast_shapes_same. cbn [bind ret].
  eexists. split; [reflexivity|]. split; [reflexivity|].
  intros idx Hv. rewrite get_tabulate by assumption.
  now rewrite (bidx_valid _ _ Hv).
Qed.

(** The variance ratio that [_compute_skew_kurtosis_recon] thresholds, for a
    batch of one image with [c] channels and [n] reconstructed bands, where
    [c] is 1 or [n]: [var_recon] of shape [(1, c, n)] is divided by [img_var]
    of shape [(1, c)], whose two dimensions broadcasting aligns with the
    last two of [var_recon].  The band at channel [j] and scale [s] is
    therefore compared with the pixel variance at channel [s] (channel 0 when
    there is only one). *)
Lemma variance_ratio_entries (var_recon img_var : tensor R) (c n : nat) :
  shape var_recon = [1; c; n]%nat -> shape img_var = [1; c]%nat ->
  c = 1%nat \/ c = n ->
  exists ratio,
    Torch.div var_recon img_var = inr ratio
    /\ shape ratio = [1; c; n]%nat
    /\ forall j s,
         (j < c)%nat -> (s < n)%nat ->
         get ratio [0; j; s]%nat
         = Some (entry 0 var_recon [0; j; s]%nat
                 / entry 0 img_var [0; if (c =? 1)%nat then 0 else s]%nat).
Proof.
  intros Hv Hi Hc. unfold Torch.div, broadcast2. rewrite Hv, Hi.
  assert (broadcast_shapes [1; c; n]%nat [1; c]%nat = inr [1; c; n]%nat) as ->.
  { unfold broadcast_shapes. cbn [rev app broadcast_rev].
    destruct Hc as [-> | ->].
    - destruct (Nat.eqb_spec n 1); subst; reflexivity.
    - destruct (Nat.eqb_spec n 1); subst; rewrite ?Nat.eqb_refl; reflexivity. }
  cbn [bind ret]. eexists. split; [reflexivity|]. split; [reflexivity|].
  intros j s Hj Hs.
  assert (valid_index [1; c; n]%nat [0; j; s]%nat = true) as Hvalid by solve_valid.
  rewrite get_tabulate by assumption. rewrite (bidx_valid _ _ Hvalid).
  reflexivity.
Qed.

Lemma entry_map_tensor {A B : Type} (da : A) (db : B) (g : A -> B) (t : tensor A)
    (idx : list nat) (v : A) :
  get t idx = Some v -> entry db (map_tensor g t) idx = g v.
Proof. intros H. unfold entry. now rewrite get_map_tensor, H. Qed.

(** What [_compute_skew_kurtosis_recon] returns, entry by entry, for a batch
    of one image with [c] channels and [n] reconstructed bands, where [c] is
    1 or [n]. *)
Lemma skew_kurtosis_recon_entries (recon var_recon img_var : tensor R)
    (c n h w : nat) :
  shape recon = [1; c; n; h; w]%nat ->
  shape var_recon = [1; c; n]%nat -> shape img_var = [1; c]%nat ->
  c = 1%nat \/ c = n ->
  exists sk ku,
    PS._compute_skew_kurtosis_recon recon var_recon img_var = inr (sk, ku)
    /\ shape sk = [1; c; n]%nat /\ shape ku = [1; c; n]%nat
    /\ forall j s,
         (j < c)%nat -> (s < n)%nat ->
         let xs := spatial_slice recon [0; j; s]%nat in
         let v := entry 0 var_recon [0; j; s]%nat in
         let ratio := v / entry 0 img_var [0; if (c =? 1)%nat then 0 else s]%nat in
         get sk [0; j; s]%nat
         = Some (if Rgt_dec ratio (1 / 1000000)
                 then Torch.mean_list (map (fun x => (x - 0) ^ 3) xs) / sqrt v ^ 3
                 else 0)
         /\ get ku [0; j; s]%nat
            = Some (if Rgt_dec ratio (1 / 1000000)
                    then Torch.mean_list (map (fun x => (x - 0) ^ 4) xs) / sqrt v ^ 4
                    else 3).
Proof.
  intros Hx Hv Hi Hc.
  change (shape recon = [1; c; n] ++ [h; w])%nat in Hx.
  unfold PS._compute_skew_kurtosis_recon, Stats.skew, Stats.kurtosis.
  destruct (moment_scalar_entries 3 recon var_recon 0 _ h w Hx Hv)
    as (sk0 & Hsk0 & Hssk0 & Hgsk0).
  destruct (moment_scalar_entries 4 recon var_recon 0 _ h w Hx Hv)
    as (ku0 & Hku0 & Hsku0 & Hgku0).
  rewrite Hsk0. cbn [bind]. rewrite Hku0. cbn [bind].
  destruct (variance_ratio_entries var_recon img_var c n Hv Hi Hc)
    as (ratio & Hr & Hsr & Hgr).
  rewrite Hr. cbn [bind].
  destruct (torch_where_same (Torch.gt_scalar ratio (1 / 1000000)) sk0
              (Torch.zeros_like sk0) [1; c; n]%nat Hsr Hssk0 Hssk0)
    as (sk & Hsk & Hssk & Hgsk).
  destruct (torch_where_same (Torch.gt_scalar ratio (1 / 1000000)) ku0
              (Torch.full_like 3 ku0) [1; c; n]%nat Hsr Hsku0 Hsku0)
    as (ku & Hku & Hsku & Hgku).
  rewrite Hsk. cbn [bind]. rewrite Hku. cbn [bind ret].
  exists sk, ku. split; [reflexivity|]. split; [assumption|]. split; [assumption|].
  intros j s Hj Hs.
  assert (valid_index [1; c; n]%nat [0; j; s]%nat = true) as Hvalid by solve_valid.
  specialize (Hgr j s Hj Hs). specialize (Hgsk0 _ Hvalid). specialize (Hgku0 _ Hvalid).
  cbv zeta. rewrite (Hgsk _ Hvalid), (Hgku _ Hvalid).
  unfold Torch.gt_scalar, Torch.zeros_like, Torch.full_like.
  rewrite (entry_map_tensor 0 false _ ratio _ _ Hgr).
  rewrite (entry_map_tensor 0 0 _ sk0 _ _ Hgsk0).
  rewrite (entry_map_tensor 0 0 _ ku0 _ _ Hgku0).
  rewrite (entry_of_get _ _ _ Hgsk0), (entry_of_get _ _ _ Hgku0).
  split; destruct (Rgt_dec _ _); reflexivity.
Qed.

(** The first block of a packed vector occupies its first positions. *)
Lemma pack_bc_first (t0 : tensor R) (rest : list (tensor R)) (v : tensor R)
    (b c n0 i j p : nat) :
  shape t0 = [b; c; n0]%nat ->
  Torch.pack_bc (t0 :: rest) = inr v ->
  (i < b)%nat -> (j < c)%nat -> (p < n0)%nat ->
  get v [i; j; p]%nat = Some (entry 0 t0 [i; j; p]%nat).
Proof.
  intros Hs Hp Hi Hj Hlt. destruct t0 as [sh0 d0]. cbn [shape] in Hs. subst sh0.
  unfold Torch.pack_bc in Hp. cbn [shape] in Hp.
  destruct (forallb _ _) in Hp; [|discriminate]. injection Hp as <-.
  cbn [map list_sum fold_right shape skipn numel].
  rewrite get_tabulate by solve_valid.
  cbn [Torch.pack_entry shape skipn numel fold_right data].
  assert ((p <? n0 * 1) = true)%nat as -> by (apply Nat.ltb_lt; lia).
  rewrite entry_nth by solve_valid.
  cbn [shape data offset numel fold_right]. f_equal. f_equal. ring.
Qed.

Lemma spatial_slice_length (t : tensor R) (ld il : list nat) (h w : nat) :
  shape t = ld ++ [h; w]%nat -> length (spatial_slice t il) = (h * w)%nat.
Proof.
  intros H. unfold spatial_slice. rewrite H, split_last2_app.
  rewrite length_map, indices_length. simpl. lia.
Qed.

End MomentFacts.

(** ** Cross-correlations *)

Section CrossCorrelationFacts.

Local Open Scope R_scope.

Lemma offset_app_one (sh idx : list nat) :
  length idx = length sh ->
  offset (sh ++ [1]%nat) (idx ++ [0]%nat) = offset sh idx.
Proof.
  revert idx. induction sh as [|d sh IH]; intros [|i idx] H; try discriminate;
    [reflexivity|].
  cbn [app offset]. rewrite IH by now injection H.
  rewrite numel_app. cbn [numel fold_right]. lia.
Qed.

Lemma valid_index_app_one (sh idx : list nat) :
  valid_index sh idx = true -> valid_index (sh ++ [1]%nat) (idx ++ [0]%nat) = true.
Proof. intros H. now apply valid_index_app. Qed.

(** Squeezing the last dimension of a tabulated tensor. *)
Lemma squeeze_tabulate_get (ld : list nat) (G : list nat -> R) (idx : list nat) :
  valid_index ld idx = true ->
  shape (Torch.squeeze_last (tabulate (ld ++ [1]%nat) G)) = ld
  /\ get (Torch.squeeze_last (tabulate (ld ++ [1]%nat) G)) idx
     = Some (G (idx ++ [0]%nat)).
Proof.
  intros Hv. unfold Torch.squeeze_last. rewrite shape_tabulate, split_last_app.
  split; [reflexivity|]. unfold get. cbn [shape data]. rewrite Hv.
  rewrite <- (offset_app_one ld idx) by now apply valid_index_length.
  unfold tabulate. cbn [data].
  rewrite nth_error_map, nth_error_indices; [reflexivity|].
  now apply valid_index_app_one.
Qed.

Lemma shape_squeeze_tabulate (ld : list nat) (G : list nat -> R) :
  shape (Torch.squeeze_last (tabulate (ld ++ [1]%nat) G)) = ld.
Proof.
  unfold Torch.squeeze_last. now rewrite shape_tabulate, split_last_app.
Qed.

Lemma broadcast2_same_get (f : R -> R -> R) (t1 t2 : tensor R) (sh : list nat) :
  shape t1 = sh -> shape t2 = sh ->
  exists r,
    broadcast2 f 0 0 t1 t2 = inr r /\ shape r = sh
    /\ forall idx, valid_index sh idx = true ->
                   get r idx = Some (f (entry 0 t1 idx) (entry 0 t2 idx)).
Proof.
  intros H1 H2. unfold broadcast2. rewrite H1, H2, broadcast_shapes_same.
  cbn [bind ret]. eexists. split; [reflexivity|]. split; [reflexivity|].
  intros idx Hv. rewrite get_tabulate by assumption.
  now rewrite (bidx_valid _ _ Hv).
Qed.

Lemma broadcast2_keepdim_get (f : R -> R -> R) (t1 t2 : tensor R) (ld : list nat)
    (h w : nat) :
  shape t1 = ld ++ [h; w]%nat -> shape t2 = ld ++ [1; 1]%nat ->
  exists r,
    broadcast2 f 0 0 t1 t2 = inr r /\ shape r = ld ++ [h; w]%nat
    /\ forall il y x,
         valid_index ld il = true -> (y < h)%nat -> (x < w)%nat ->
         get r (il ++ [y; x]%nat)
         = Some (f (entry 0 t1 (il ++ [y; x]%nat)) (entry 0 t2 (il ++ [0; 0]%nat))).
Proof.
  intros H1 H2. unfold broadcast2. rewrite H1, H2, broadcast_shapes_keepdim.
  cbn [bind ret]. eexists. split; [reflexivity|]. split; [reflexivity|].
  intros il y x Hil Hy Hx.
  assert (valid_index (ld ++ [h; w]%nat) (il ++ [y; x]%nat) = true) as Hv.
  { apply valid_index_app; [assumption | solve_valid]. }
  rewrite get_tabulate by assumption.
  now rewrite (bidx_valid _ _ Hv), (bidx_keepdim ld il y x Hil).
Qed.

(** What [_compute_cross_correlation] returns, entry by entry. *)
Lemma cross_correlation_entries (self : PS.params) (x y : tensor R)
    (b c s o1 o2 h w : nat) :
  shape x = [b; c; s; o1; h; w]%nat -> shape y = [b; c; s; o2; h; w]%nat ->
  exists r,
    PS._compute_cross_correlation self x y = inr r
    /\ shape r = [b; c; o1; o2; s]%nat
    /\ forall ib ic i1 i2 sc,
         (ib < b)%nat -> (ic < c)%nat -> (i1 < o1)%nat -> (i2 < o2)%nat ->
         (sc < s)%nat ->
         get r [ib; ic; i1; i2; sc]%nat
         = Some (if PS.use_true_correlations self
                 then spatial_covariance x y [ib; ic; sc; i1]%nat [ib; ic; sc; i2]%nat
                      / (Torch.std_list (scale_slice x [ib; ic; sc]%nat)
                         * Torch.std_list (scale_slice y [ib; ic; sc]%nat))
                 else spatial_covariance x y [ib; ic; sc; i1]%nat [ib; ic; sc; i2]%nat).
Proof.
  intros Hx Hy. unfold PS._compute_cross_correlation, Torch.einsum_cross.
  rewrite Hx, Hy, shape_eqb_refl. cbn [bind ret].
  unfold Torch.num_el_last2. rewrite Hx.
  change [b; c; s; o1; h; w]%nat with ([b; c; s; o1] ++ [h; w])%nat.
  rewrite split_last2_app. cbn [bind ret].
  set (F := fun idx : list nat =>
              match idx with
              | [ib; ic; sc; i1; i2] =>
                  Torch.sum_list
                    (map (fun hw => entry 0 x ([ib; ic; sc; i1]%nat ++ hw)
                                    * entry 0 y ([ib; ic; sc; i2]%nat ++ hw))
                         (indices [h; w]))
              | _ => 0
              end).
  assert (forall ib ic sc i1 i2,
             (F [ib; ic; sc; i1; i2]%nat / INR (h * w))
             = spatial_covariance x y [ib; ic; sc; i1]%nat [ib; ic; sc; i2]%nat)
    as Hcov.
  { intros ib ic sc i1 i2. unfold spatial_covariance, spatial_slice, F.
    rewrite Hx, Hy.
    change [b; c; s; o1; h; w]%nat with ([b; c; s; o1] ++ [h; w])%nat.
    change [b; c; s; o2; h; w]%nat with ([b; c; s; o2] ++ [h; w])%nat.
    rewrite !split_last2_app, length_map, indices_length.
    cbn [numel fold_right]. rewrite Nat.mul_1_r. f_equal. f_equal.
    generalize (indices [h; w]). intros l.
    induction l as [|a l IH]; [reflexivity|]. cbn [map combine fst snd].
    now rewrite IH. }
  destruct (PS.use_true_correlations self).
  - unfold Torch.std_last3_keepdim. rewrite Hx, Hy. cbn [rev app bind ret length].
    change ([b; c; s; 1; 1; 1])%nat with ([b; c; s; 1; 1] ++ [1])%nat.
    set (Gx := fun idx : list nat =>
                 Torch.std_list (map (fun ohw => entry 0 x (firstn 3 idx ++ ohw))
                                     (indices [o1; h; w]))).
    set (Gy := fun idx : list nat =>
                 Torch.std_list (map (fun ohw => entry 0 y (firstn 3 idx ++ ohw))
                                     (indices [o2; h; w]))).
    destruct (broadcast2_same_get Rmult
                (Torch.squeeze_last (tabulate ([b; c; s; 1; 1] ++ [1])%nat Gx))
                (Torch.squeeze_last (tabulate ([b; c; s; 1; 1] ++ [1])%nat Gy))
                [b; c; s; 1; 1]%nat
                (shape_squeeze_tabulate _ _) (shape_squeeze_tabulate _ _))
      as (den & Hden & Hsden & Hgden).
    unfold Torch.mul. rewrite Hden. cbn [bind].
    destruct (broadcast2_keepdim_get Rdiv
                (Torch.div_scalar (tabulate [b; c; s; o1; o2]%nat F) (INR (h * w)))
                den [b; c; s]%nat o1 o2 eq_refl Hsden)
      as (q & Hq & Hsq & Hgq).
    unfold Torch.div. rewrite Hq. cbn [bind].
    unfold Torch.rearrange_scale_last. rewrite Hsq. cbn [app].
    eexists. split; [reflexivity|]. split; [reflexivity|].
    intros ib ic i1 i2 sc Hib Hic Hi1 Hi2 Hsc.
    rewrite get_tabulate by solve_valid.
    assert (valid_index [b; c; s]%nat [ib; ic; sc]%nat = true) as Hv3 by solve_valid.
    specialize (Hgq [ib; ic; sc]%nat i1 i2 Hv3 Hi1 Hi2). cbn [app] in Hgq.
    rewrite (entry_of_get _ _ _ Hgq). f_equal.
    unfold Torch.div_scalar.
    rewrite entry_map_tabulate by solve_valid.
    assert (valid_index [b; c; s; 1; 1]%nat [ib; ic; sc; 0; 0]%nat = true) as Hv5
      by solve_valid.
    rewrite (entry_of_get _ _ _ (Hgden _ Hv5)).
    destruct (squeeze_tabulate_get [b; c; s; 1; 1]%nat Gx _ Hv5) as (_ & Hgx).
    destruct (squeeze_tabulate_get [b; c; s; 1; 1]%nat Gy _ Hv5) as (_ & Hgy).
    rewrite (entry_of_get _ _ _ Hgx), (entry_of_get _ _ _ Hgy).
    rewrite Hcov. f_equal. unfold Gx, Gy, scale_slice. rewrite Hx, Hy. reflexivity.
  - cbn [bind ret]. unfold Torch.rearrange_scale_last, Torch.div_scalar.
    rewrite shape_map_tensor, shape_tabulate.
    eexists. split; [reflexivity|]. split; [reflexivity|].
    intros ib ic i1 i2 sc Hib Hic Hi1 Hi2 Hsc.
    rewrite get_tabulate by solve_valid. f_equal.
    rewrite entry_map_tabulate by solve_valid. apply Hcov.
Qed.

End CrossCorrelationFacts.

(** ** Phase doubling *)

Section PhaseDoublingFacts.

Local Open Scope R_scope.

Lemma tabulate_ext {A : Type} (sh : list nat) (f g : list nat -> A) :
  (forall idx, valid_index sh idx = true -> f idx = g idx) ->
  tabulate sh f = tabulate sh g.
Proof.
  intros H. unfold tabulate. f_equal. apply map_ext_in.
  intros idx Hin. apply H. now apply indices_valid.
Qed.

Lemma valid_index2 (h w : nat) (hw : list nat) :
  valid_index [h; w] hw = true ->
  exists y x, hw = [y; x] /\ (y < h)%nat /\ (x < w)%nat.
Proof.
  destruct hw as [|y [|x [|? ?]]]; cbn [valid_index]; try discriminate.
  - now rewrite andb_false_r.
  - intros H. apply andb_prop in H as [Hy H]. apply andb_prop in H as [Hx _].
    exists y, x. repeat split; now apply Nat.ltb_lt.
  - rewrite !andb_false_r. discriminate.
Qed.

(** What [_double_phase_pyr_coeffs] returns, entry by entry. *)
Lemma double_phase_entries (pyr : tensor Torch.complex) (b c n o h w : nat) :
  shape pyr = [b; c; n; o; h; w]%nat ->
  exists mags sep,
    PS._double_phase_pyr_coeffs pyr = inr (mags, sep)
    /\ shape mags = [b; c; n - 1; o; h; w]%nat
    /\ shape sep = [b; c; n - 1; 2 * o; h; w]%nat
    /\ forall ib ic sc k y x,
         (ib < b)%nat -> (ic < c)%nat -> (sc < n - 1)%nat -> (k < o)%nat ->
         (y < h)%nat -> (x < w)%nat ->
         let doubled := fun hw =>
           Signal.modulate_phase_entry 2
             (entry (0, 0) pyr ([ib; ic; sc + 1; k]%nat ++ hw)) in
         get sep [ib; ic; sc; k; y; x]%nat = Some (- fst (doubled [y; x]%nat))
         /\ get sep [ib; ic; sc; k + o; y; x]%nat = Some (snd (doubled [y; x]%nat))
         /\ get mags [ib; ic; sc; k; y; x]%nat
            = Some (Torch.modulus (doubled [y; x]%nat)
                    - Torch.mean_list
                        (map (fun hw => Torch.modulus (doubled hw))
                             (indices [h; w]))).
Proof.
  intros Hs. unfold Torch.complex in *.
  unfold PS._double_phase_pyr_coeffs, Torch.slice_dim2_from.
  rewrite Hs. cbn [bind ret].
  set (F := fun idx : list nat =>
              match idx with
              | ib :: ic :: sc :: il => entry (0, 0) pyr (ib :: ic :: (sc + 1)%nat :: il)
              | _ => (0, 0)
              end).
  set (dp := Signal.modulate_phase (tabulate [b; c; (n - 1)%nat; o; h; w] F) 2).
  assert (shape (Torch.abs_complex dp) = [b; c; (n - 1)%nat; o] ++ [h; w]) as Hsh
    by reflexivity.
  unfold Torch.mean_last2.
  rewrite (reduce_last2_keepdim 0 Torch.mean_list _ _ h w Hsh). cbn [bind].
  match goal with
  | |- context [Torch.sub _ (tabulate ?s ?G)] =>
      destruct (broadcast2_keepdim_get Rminus (Torch.abs_complex dp) (tabulate s G)
                  [b; c; (n - 1)%nat; o] h w Hsh eq_refl) as (m & Hm & Hsm & Hgm)
  end.
  unfold Torch.sub. rewrite Hm. cbn [bind].
  unfold Torch.pack_bcs_hw, Torch.view_bcsohw.
  cbn [shape Torch.neg Torch.real Torch.imag map_tensor dp Signal.modulate_phase
       tabulate split_last2 rev app bind ret numel fold_right].
  rewrite !Nat.mul_1_r, shape_eqb_refl.
  eexists. eexists. split; [reflexivity|]. split; [exact Hsm|].
  split; [cbn [shape]; replace (2 * o)%nat with (o + o)%nat by lia; reflexivity|].
  intros ib ic sc k y x Hib Hic Hsc Hk Hy Hx.
  pose (doubled := fun hw : list nat =>
          Signal.modulate_phase_entry 2
            (entry (0, 0) pyr ([ib; ic; sc + 1; k]%nat ++ hw))).
  assert (forall y' x', (y' < h)%nat -> (x' < w)%nat ->
            get dp [ib; ic; sc; k; y'; x']%nat = Some (doubled [y'; x']%nat)) as Hdp.
  { intros y' x' Hy' Hx'. unfold dp, Signal.modulate_phase.
    rewrite get_map_tensor, get_tabulate by solve_valid. reflexivity. }
  assert (forall y' x', (y' < h)%nat -> (x' < w)%nat ->
            entry 0 (Torch.abs_complex dp) [ib; ic; sc; k; y'; x']%nat
            = Torch.modulus (doubled [y'; x']%nat)) as Habs.
  { intros y' x' Hy' Hx'. apply entry_of_get. unfold Torch.abs_complex.
    rewrite get_map_tensor, (Hdp y' x' Hy' Hx'). reflexivity. }
  unfold Torch.complex in *.
  split; [|split].
  - rewrite get_tabulate by solve_valid.
    replace (k <? o)%nat with true by (symmetry; apply Nat.ltb_lt; lia).
    f_equal. apply entry_of_get.
    change (get (Torch.neg (Torch.real dp)) [ib; ic; sc; k; y; x]%nat
            = Some (- fst (doubled [y; x]%nat))).
    unfold Torch.neg, Torch.real. rewrite !get_map_tensor, (Hdp y x Hy Hx).
    reflexivity.
  - rewrite get_tabulate by solve_valid.
    replace (k + o <? o)%nat with false by (symmetry; apply Nat.ltb_ge; lia).
    replace (k + o - o)%nat with k by lia.
    f_equal. apply entry_of_get.
    change (get (Torch.imag dp) [ib; ic; sc; k; y; x]%nat
            = Some (snd (doubled [y; x]%nat))).
    unfold Torch.imag. rewrite get_map_tensor, (Hdp y x Hy Hx). reflexivity.
  - assert (valid_index [b; c; (n - 1)%nat; o] [ib; ic; sc; k]%nat = true) as Hv4
      by solve_valid.
    specialize (Hgm [ib; ic; sc; k]%nat y x Hv4 Hy Hx). cbn [app] in Hgm.
    rewrite Hgm. f_equal. rewrite (Habs y x Hy Hx). f_equal.
    rewrite entry_tabulate by solve_valid. cbn [length firstn].
    f_equal. apply map_ext_in. intros hw Hin.
    apply indices_valid in Hin.
    destruct (valid_index2 h w hw Hin) as (y' & x' & -> & Hy' & Hx').
    apply (Habs y' x' Hy' Hx').
Qed.

(** The coefficients of the finest scale are not read. *)
Lemma double_phase_ignores_finest (pyr pyr' : tensor Torch.complex) :
  shape pyr' = shape pyr ->
  (forall ib ic sc il, (1 <= sc)%nat ->
     get pyr' (ib :: ic :: sc :: il) = get pyr (ib :: ic :: sc :: il)) ->
  PS._double_phase_pyr_coeffs pyr' = PS._double_phase_pyr_coeffs pyr.
Proof.
  intros Hs Hget. unfold Torch.complex in *.
  unfold PS._double_phase_pyr_coeffs, Torch.slice_dim2_from.
  rewrite Hs. destruct (shape pyr) as [|b [|c [|s tl]]]; try reflexivity.
  pose (sl := fun p : tensor (R * R) =>
          tabulate (b :: c :: (s - 1)%nat :: tl)
            (fun idx : list nat =>
               match idx with
               | ib :: ic :: sc :: il => entry (0, 0) p (ib :: ic :: (sc + 1)%nat :: il)
               | _ => (0, 0)
               end)).
  assert (sl pyr' = sl pyr) as E.
  { apply tabulate_ext. intros [|ib [|ic [|sc il]]] _; try reflexivity.
    unfold entry. rewrite Hget by lia. reflexivity. }
  unfold sl in E. cbn [bind ret]. rewrite E. reflexivity.
Qed.

End PhaseDoublingFacts.

(** ** Pooling *)

Section PoolingFacts.

Import Torch Pooling.
Local Open Scope R_scope.



(** What [pool] computes, entry by entry. *)
Lemma pool_tensor_entries (self : PoolingWindows) (windowed_x w : tensor R)
    (idx : nat) (pre wl : list nat) (k l k' l' : nat) :
  windows_at self idx = inr w ->
  shape w = wl ++ [k; l]%nat ->
  shape windowed_x = pre ++ wl ++ [k'; l']%nat ->
  exists r,
    pool_tensor self windowed_x idx = inr r
    /\ shape r = pre ++ wl
    /\ forall ip iw,
         valid_index pre ip = true -> valid_index wl iw = true ->
         get r (ip ++ iw)
         = Some (summed_response windowed_x ip iw
                 / (if Req_EM_T (window_weight w iw) 0 then 1
                    else window_weight w iw)).
Proof.
  intros Hw Hsw Hsx. unfold pool_tensor. rewrite Hw. cbn [bind].
  unfold sum_last2. rewrite (reduce_last2_tabulate 0 sum_list w wl k l Hsw).
  cbn [bind]. rewrite app_assoc in Hsx.
  rewrite (reduce_last2_tabulate 0 sum_list windowed_x (pre ++ wl) k' l' Hsx).
  cbn [bind]. unfold broadcast2, zero_to_one.
  rewrite shape_map_tensor, !shape_tabulate.
  rewrite broadcast_shapes_suffix. cbn [bind ret].
  eexists. split; [reflexivity|]. split; [reflexivity|].
  intros ip iw Hip Hiw.
  pose proof (valid_index_app _ _ _ _ Hip Hiw) as Hv.
  rewrite get_tabulate by assumption. f_equal.
  rewrite (bidx_valid _ _ Hv), (bidx_suffix pre wl ip iw Hip Hiw).
  rewrite entry_tabulate by assumption.
  rewrite entry_map_tabulate by assumption.
  unfold summed_response, window_weight. rewrite Hsw, Hsx, !split_last2_app.
  rewrite (firstn_valid0 _ _ Hv), (firstn_valid0 _ _ Hiw).
  f_equal. f_equal. apply map_ext. intros hw. now rewrite app_assoc.
Qed.

(** The entries of the windowed input that [window] builds with 3-d windows. *)
Lemma window_tensor_entries (self : PoolingWindows) (x w0 w : tensor R)
    (idx i j nw k l : nat) :
  windows_at self 0 = inr w0 -> ndim w0 = 3%nat ->
  windows_at self idx = inr w ->
  shape w = [nw; k; l]%nat -> shape x = [i; j; k; l]%nat ->
  window_tensor self x idx
  = inr (tabulate [i; j; nw; k; l]%nat
           (fun idx => match idx with
                       | [a; b; c; d; e] =>
                           entry 0 x [a; b; d; e] * entry 0 w [c; d; e]
                       | _ => 0
                       end)).
Proof.
  intros Hw0 Hn Hw Hsw Hsx. unfold window_tensor, window_einsum, ndim.
  rewrite Hw0, Hsx. cbn [bind length Nat.eqb negb]. rewrite Hw. cbn [bind].
  unfold ndim in Hn. rewrite Hn. cbn [Nat.eqb].
  unfold einsum_ijkl_wkl. rewrite Hsx, Hsw, !Nat.eqb_refl. reflexivity.
Qed.


End PoolingFacts.

(** ** The shapes of the forward pass *)

Section ShapeFacts.

Lemma bind_inr_inv {T U : Type} (c : result T) (k : T -> result U) (y : U) :
  bind c k = inr y -> exists x, c = inr x /\ k x = inr y.
Proof. destruct c as [e|x]; [discriminate|]. intros H. now exists x. Qed.

Variable self : PS.params.

Let n_s := PS.n_scales self.
Let n_o := PS.n_orientations self.
Let k := PS.spatial_corr_width self.

Lemma shapes_compute_pyr_coeffs (b c h w : nat) :
  match PS.Shapes._compute_pyr_coeffs self [b; c; h; w] with
  | inr r => r = ([b; c; n_s; n_o; h; w], [b; c; h; w], [b; c; h; w])
             /\ PS.image_shape self = (h, w) /\ n_s * n_o <> 0
  | inl _ => ~ (PS.image_shape self = (h, w) /\ n_s * n_o <> 0)
  end.
Proof.
  unfold PS.Shapes._compute_pyr_coeffs, PS.Shapes.pyr_forward. fold n_s n_o.
  destruct (PS.image_shape self) as [ih iw]. cbn [fst snd].
  destruct (h =? ih) eqn:Hh; cbn [andb].
  2:{ apply Nat.eqb_neq in Hh. cbn [bind raise]. intros [E _]. congruence. }
  destruct (w =? iw) eqn:Hw.
  2:{ apply Nat.eqb_neq in Hw. cbn [bind raise]. intros [E _]. congruence. }
  apply Nat.eqb_eq in Hh, Hw. subst ih iw.
  destruct (n_s * n_o =? 0) eqn:Hso.
  { apply Nat.eqb_eq in Hso. cbn [bind raise]. intros [_ E]. congruence. }
  apply Nat.eqb_neq in Hso.
  cbn [bind ret ShapeOf.reduce_last2 split_last2 rev app].
  unfold ShapeOf.binary.
  pose proof (broadcast_shapes_keepdim [b; c] h w) as Hk. cbn [app] in Hk.
  rewrite Hk. cbn [bind ret ShapeOf.rearrange_split_channels].
  destruct (n_s * n_o =? 0) eqn:Hso'; [apply Nat.eqb_eq in Hso'; contradiction|].
  rewrite Nat.Div0.mod_mul, Nat.eqb_refl, Nat.div_mul by assumption.
  cbn [bind ret]. auto.
Qed.

Lemma shape_eqb_false_length (x y : list nat) :
  length x <> length y -> shape_eqb x y = false.
Proof.
  intros H. unfold shape_eqb. destruct (list_eq_dec Nat.eq_dec x y) as [->|]; congruence.
Qed.

Lemma shapes_compute_pixel_stats (b c h w : nat) :
  match PS.Shapes._compute_pixel_stats [b; c; h; w] with
  | inr r => r = [b; c; 6] /\ h * w <> 0
  | inl _ => h * w = 0
  end.
Proof.
  unfold PS.Shapes._compute_pixel_stats.
  cbn [bind ret ShapeOf.reduce_last2 split_last2 rev app].
  unfold ShapeOf.binary.
  pose proof (broadcast_shapes_keepdim [b; c] h w) as Hk. cbn [app] in Hk.
  rewrite Hk. cbn [bind ret ShapeOf.reduce_last2 split_last2 rev app].
  rewrite broadcast_shapes_same. cbn [bind ret ShapeOf.reduce_bchw].
  destruct (h * w =? 0) eqn:Hhw.
  { apply Nat.eqb_eq in Hhw. exact Hhw. }
  apply Nat.eqb_neq in Hhw. cbn [bind ret].
  unfold ShapeOf.pack.
  cbn [forallb firstn skipn length Nat.sub Nat.add Nat.leb andb map list_sum
       fold_right numel app].
  rewrite !shape_eqb_refl. cbn [andb]. unfold ret. split; [reflexivity|assumption].
Qed.

Lemma shapes_compute_intermediate_representations (b c s o h w : nat) :
  PS.Shapes._compute_intermediate_representations [b; c; s; o; h; w]
  = inr ([b; c; s * o], [b; c; s; o; h; w], [b; c; s; o; h; w]).
Proof.
  unfold PS.Shapes._compute_intermediate_representations.
  cbn [bind ret ShapeOf.reduce_last2 split_last2 rev app].
  unfold ShapeOf.binary.
  pose proof (broadcast_shapes_keepdim [b; c; s; o] h w) as Hk. cbn [app] in Hk.
  rewrite Hk. cbn [bind ret ShapeOf.flatten_from2 length Nat.leb firstn skipn app
                   numel fold_right].
  rewrite !Nat.mul_1_r. reflexivity.
Qed.

Lemma forallb_repeat {T : Type} (f : T -> bool) (x : T) (m : nat) :
  f x = true -> forallb f (repeat x m) = true.
Proof. intros H. induction m as [|m IH]; [reflexivity|]. cbn. now rewrite H, IH. Qed.

Lemma list_sum_map_repeat {T : Type} (f : T -> nat) (x : T) (m : nat) :
  list_sum (map f (repeat x m)) = m * f x.
Proof. induction m as [|m IH]; [reflexivity|]. simpl. now rewrite IH. Qed.

Lemma pack_images (b c h w m : nat) :
  m <> 0 -> ShapeOf.pack 2 2 (repeat [b; c; h; w] m) = inr [b; c; m; h; w].
Proof.
  intros Hm. destruct m as [|m]; [contradiction|].
  unfold ShapeOf.pack. cbn [repeat].
  change ([b; c; h; w] :: repeat [b; c; h; w] m) with (repeat [b; c; h; w] (S m)).
  rewrite forallb_repeat.
  2:{ cbn [length Nat.add Nat.leb firstn skipn Nat.sub]. now rewrite !shape_eqb_refl. }
  rewrite list_sum_map_repeat.
  cbn [length Nat.sub firstn skipn numel fold_right app]. unfold ret.
  now rewrite Nat.mul_1_r.
Qed.

Lemma stack_dim2_repeat (b c : nat) (tl : list nat) (m : nat) :
  m <> 0 ->
  ShapeOf.stack_dim2 (repeat (b :: c :: tl) m) = inr (b :: c :: m :: tl).
Proof.
  intros Hm. destruct m as [|m]; [contradiction|].
  unfold ShapeOf.stack_dim2. cbn [repeat].
  change ((b :: c :: tl) :: repeat (b :: c :: tl) m) with (repeat (b :: c :: tl) (S m)).
  rewrite forallb_repeat by apply shape_eqb_refl.
  rewrite repeat_length. reflexivity.
Qed.

Lemma reconstruct_levels_repeat (packed img : list nat) :
  PS.Shapes.recon_pyr self packed = inr img ->
  forall n l, last l [] = img ->
    PS.Shapes.reconstruct_levels self n packed l = inr (l ++ repeat img n).
Proof.
  intros Hr. induction n as [|n IH]; intros l Hl.
  - cbn. now rewrite app_nil_r.
  - cbn [PS.Shapes.reconstruct_levels]. rewrite Hr. cbn [bind]. rewrite Hl.
    unfold ShapeOf.binary. rewrite broadcast_shapes_same. cbn [bind].
    rewrite IH by apply last_last.
    rewrite <- app_assoc. reflexivity.
Qed.

Lemma shapes_reconstruct_lowpass_at_each_scale (b c h w : nat) :
  PS.Shapes._reconstruct_lowpass_at_each_scale self
    [b; c; n_s; n_o; h; w] [b; c; h; w] [b; c; h; w]
  = inr [b; c; n_s + 1; h; w].
Proof.
  assert (ShapeOf.pack 1 2 [[b; c; h; w]; [b; c; n_s; n_o; h; w]; [b; c; h; w]]
          = inr [b; c * (n_s * n_o + 2); h; w]) as Hp.
  { unfold ShapeOf.pack.
    cbn [forallb firstn skipn length Nat.sub Nat.add Nat.leb andb map list_sum
         fold_right numel app].
    rewrite !shape_eqb_refl. cbn [andb]. unfold ret.
    replace (c * (n_s * n_o + 2))
      with (c * 1 + (c * (n_s * (n_o * 1)) + (c * 1 + 0))) by lia.
    reflexivity. }
  assert (PS.Shapes.recon_pyr self [b; c * (n_s * n_o + 2); h; w] = inr [b; c; h; w])
    as Hr.
  { unfold PS.Shapes.recon_pyr. fold n_s n_o.
    rewrite Nat.Div0.mod_mul, Nat.eqb_refl, Nat.div_mul by lia. reflexivity. }
  unfold PS.Shapes._reconstruct_lowpass_at_each_scale. rewrite Hp. cbn [bind].
  rewrite Hr. cbn [bind].
  rewrite (reconstruct_levels_repeat _ _ Hr) by reflexivity. cbn [bind].
  change ([[b; c; h; w]] ++ repeat [b; c; h; w] (PS.n_scales self))
    with (repeat [b; c; h; w] (S n_s)).
  rewrite rev_repeat, pack_images by lia.
  now rewrite Nat.add_1_r.
Qed.

Lemma shrink_and_crop_fits (ld : list nat) (h w i : nat) :
  match PS.Shapes.shrink_and_crop self (ld ++ [h; w]) i with
  | inr r => r = ld ++ [k; k] /\ band_fits k h w i = true
  | inl _ => band_fits k h w i = false
  end.
Proof.
  unfold PS.Shapes.shrink_and_crop, band_fits. fold k.
  destruct (i =? 0) eqn:Hi.
  - apply Nat.eqb_eq in Hi. subst i. cbn [bind ret Nat.pow].
    rewrite !Nat.mod_1_r, !Nat.div_1_r. cbn [Nat.eqb andb].
    unfold ShapeOf.center_crop. rewrite split_last2_app.
    destruct ((k <=? h) && (k <=? w)); cbn; auto.
  - unfold ShapeOf.shrink. rewrite split_last2_app.
    assert (2 ^ i <> 0) as Hp by (apply Nat.pow_nonzero; lia).
    apply Nat.eqb_neq in Hp. rewrite Hp. cbn [orb].
    destruct (h mod 2 ^ i =? 0); cbn [negb orb andb bind raise]; [|reflexivity].
    destruct (w mod 2 ^ i =? 0); cbn [negb orb andb bind raise ret]; [|reflexivity].
    unfold ShapeOf.center_crop. rewrite split_last2_app.
    destruct ((k <=? h / 2 ^ i) && (k <=? w / 2 ^ i)); cbn; auto.
Qed.

Lemma crop_bands (b c s : nat) (mid : list nat) (h w : nat) :
  forall n a, a + n <= s ->
  match mapM (fun i => band <- ShapeOf.index_dim2 i (b :: c :: s :: mid ++ [h; w]) ;;
                       PS.Shapes.shrink_and_crop self band i) (seq a n) with
  | inr l => l = repeat (b :: c :: mid ++ [k; k]) n
             /\ forallb (band_fits k h w) (seq a n) = true
  | inl _ => forallb (band_fits k h w) (seq a n) = false
  end.
Proof.
  induction n as [|n IH]; intros a Ha; [cbn; auto|].
  cbn [seq mapM forallb]. cbn [ShapeOf.index_dim2].
  replace (a <? s) with true by (symmetry; apply Nat.ltb_lt; lia).
  cbn [bind ret].
  pose proof (shrink_and_crop_fits (b :: c :: mid) h w a) as Hfit.
  cbn [app] in Hfit.
  destruct (PS.Shapes.shrink_and_crop self (b :: c :: mid ++ [h; w]) a) as [e|r].
  - rewrite Hfit. reflexivity.
  - destruct Hfit as [-> ->]. cbn [bind andb].
    specialize (IH (S a) ltac:(lia)).
    destruct (mapM _ (seq (S a) n)) as [e|l]; [exact IH|].
    destruct IH as [-> ->]. cbn. auto.
Qed.

Lemma shapes_compute_autocorr (b c s : nat) (mid : list nat) (h w : nat) :
  length mid <= 1 ->
  match PS.Shapes._compute_autocorr self (b :: c :: s :: mid ++ [h; w]) with
  | inr r => r = (b :: c :: k :: k :: s :: mid, [b; c; s * numel mid])
             /\ bands_fit k s h w = true
  | inl _ => bands_fit k s h w = false
  end.
Proof.
  intros Hmid. unfold PS.Shapes._compute_autocorr, bands_fit.
  assert (length (b :: c :: s :: mid ++ [h; w]) = 5 + length mid) as Hlen.
  { cbn [length]. rewrite length_app. cbn [length]. lia. }
  rewrite Hlen.
  replace ((5 + length mid =? 6) || (5 + length mid =? 5)) with true.
  2:{ destruct mid as [|o [|? ?]]; [reflexivity|reflexivity|cbn in Hmid; lia]. }
  cbn [negb]. unfold ShapeOf.autocorrelation, ShapeOf.center_crop.
  change (b :: c :: s :: mid ++ [h; w]) with ((b :: c :: s :: mid) ++ [h; w]).
  rewrite split_last2_app. cbn [bind ret]. rewrite split_last2_app.
  destruct ((1 <=? h) && (1 <=? w)); cbn [bind ret raise andb]; [|reflexivity].
  assert (forall rest : list nat -> result (list nat * list nat),
             (acs <- (if PS.use_true_correlations self
                      then ShapeOf.binary ((b :: c :: s :: mid) ++ [h; w])
                                          ((b :: c :: s :: mid) ++ [1; 1])
                      else ret ((b :: c :: s :: mid) ++ [h; w])) ;; rest acs)
             = rest ((b :: c :: s :: mid) ++ [h; w])) as Hdiv.
  { intros rest. destruct (PS.use_true_correlations self); [|reflexivity].
    unfold ShapeOf.binary. now rewrite broadcast_shapes_keepdim. }
  rewrite Hdiv. clear Hdiv.
  unfold ShapeOf.rearrange_flatten.
  replace (length ((b :: c :: s :: mid) ++ [1; 1])) with (5 + length mid)
    by (rewrite length_app; cbn [length]; lia).
  rewrite Nat.eqb_refl. cbn [bind ret app nth].
  pose proof (crop_bands b c s mid h w s 0 ltac:(lia)) as Hcrop.
  destruct (mapM _ (seq 0 s)) as [e|l].
  { rewrite Hcrop. now rewrite andb_false_r. }
  destruct Hcrop as [-> ->]. cbn [bind]. rewrite andb_true_r.
  destruct (s =? 0) eqn:Hs.
  { apply Nat.eqb_eq in Hs. subst s. reflexivity. }
  apply Nat.eqb_neq in Hs. rewrite stack_dim2_repeat by assumption.
  cbn [negb bind firstn skipn app].
  destruct mid as [|o [|? ?]]; [| |cbn in Hmid; lia];
    cbn [app ShapeOf.rearrange_bands_last numel fold_right ret];
    (split; [|reflexivity]); repeat f_equal; lia.
Qed.

Lemma shapes_compute_cross_correlation (b c s o1 o2 h w : nat) :
  PS.Shapes._compute_cross_correlation self [b; c; s; o1; h; w] [b; c; s; o2; h; w]
  = inr [b; c; o1; o2; s].
Proof.
  unfold PS.Shapes._compute_cross_correlation, ShapeOf.einsum_cross.
  rewrite shape_eqb_refl.
  cbn [bind ret ShapeOf.num_el_last2 split_last2 rev app].
  destruct (PS.use_true_correlations self); [|reflexivity].
  cbn [ShapeOf.std_last3_keepdim rev app bind ret ShapeOf.squeeze_last split_last].
  unfold ShapeOf.binary. rewrite broadcast_shapes_same. cbn [bind].
  pose proof (broadcast_shapes_keepdim [b; c; s] o1 o2) as Hk. cbn [app] in Hk.
  rewrite Hk. reflexivity.
Qed.

Lemma shapes_double_phase_pyr_coeffs (b c s o h w : nat) :
  PS.Shapes._double_phase_pyr_coeffs [b; c; s; o; h; w]
  = inr ([b; c; s - 1; o; h; w], [b; c; s - 1; 2 * o; h; w]).
Proof.
  unfold PS.Shapes._double_phase_pyr_coeffs.
  cbn [ShapeOf.slice_dim2_drop_one bind ret ShapeOf.reduce_last2 split_last2 rev app].
  unfold ShapeOf.binary.
  pose proof (broadcast_shapes_keepdim [b; c; s - 1; o] h w) as Hk. cbn [app] in Hk.
  rewrite Hk. cbn [bind]. unfold ShapeOf.pack.
  cbn [forallb firstn skipn length Nat.sub Nat.add Nat.leb andb map list_sum
       fold_right numel app].
  rewrite !shape_eqb_refl. cbn [andb]. unfold ret.
  replace (o * 1 + (o * 1 + 0)) with (2 * o) by lia. reflexivity.
Qed.

Lemma broadcast_middle (b x c m : nat) (r : list nat) :
  broadcast_shapes [b; x; m] [b; c; m] = inr r -> exists y, r = [b; y; m].
Proof.
  unfold broadcast_shapes. cbn [rev app broadcast_rev]. rewrite !Nat.eqb_refl.
  destruct (x =? c), (x =? 1), (c =? 1); cbn [rev app ret raise];
    intros H; inversion H; eauto.
Qed.

Lemma broadcast_variance_ratio (b c m : nat) (r : list nat) :
  2 <= m ->
  broadcast_shapes [b; c; m] [b; c] = inr r -> exists x, r = [b; x; m].
Proof.
  intros Hm. unfold broadcast_shapes. cbn [rev app broadcast_rev].
  replace (m =? 1) with false by (symmetry; apply Nat.eqb_neq; lia).
  destruct (c =? b), (c =? 1), (b =? 1), (m =? c); cbn [rev app ret raise];
    intros H; inversion H; eauto.
Qed.

(** The broadcast of [_compute_skew_kurtosis_recon]: the variances of the
    bands, of shape (b, c, m), against the pixel variances, of shape (b, c). *)
Lemma shapes_compute_skew_kurtosis_recon (b c m h w : nat) (sk ku : list nat) :
  2 <= m ->
  PS.Shapes._compute_skew_kurtosis_recon [b; c; m; h; w] [b; c; m] [b; c] = inr (sk, ku) ->
  exists c', sk = [b; c'; m] /\ ku = [b; c'; m].
Proof.
  intros Hm. unfold PS.Shapes._compute_skew_kurtosis_recon, ShapeOf.ternary, ShapeOf.binary.
  rewrite broadcast_shapes_scalar.
  cbn [bind ret ShapeOf.reduce_last2 split_last2 rev app].
  rewrite broadcast_shapes_same. cbn [bind].
  intros H.
  apply bind_inr_inv in H as (u & Hu & H).
  apply (broadcast_variance_ratio b c m u Hm) in Hu as (x & ->).
  apply bind_inr_inv in H as (s1 & Hs1 & H).
  rewrite Hs1 in H. cbn [bind ret] in H. injection H as <- <-.
  apply bind_inr_inv in Hs1 as (xy & Hxy & Hs1).
  apply broadcast_middle in Hxy as (y & ->).
  apply broadcast_middle in Hs1 as (z & ->).
  now exists z.
Qed.

(** The batch and channel sizes for which the broadcast of
    [_compute_skew_kurtosis_recon] keeps the shape (b, c, m). *)
Lemma shapes_compute_skew_kurtosis_recon_batch (b c m h w : nat) (sk ku : list nat) :
  2 <= m ->
  PS.Shapes._compute_skew_kurtosis_recon [b; c; m; h; w] [b; c; m] [b; c]
  = inr (sk, ku) ->
  sk = [b; c; m] ->
  (b = 1 /\ c = 1) \/ (c = m /\ (b = 1 \/ b = c)).
Proof.
  intros Hm. unfold PS.Shapes._compute_skew_kurtosis_recon, ShapeOf.ternary, ShapeOf.binary.
  rewrite broadcast_shapes_scalar.
  cbn [bind ret ShapeOf.reduce_last2 split_last2 rev app].
  rewrite broadcast_shapes_same. cbn [bind].
  unfold broadcast_shapes.
  repeat (cbn [rev app ret raise bind broadcast_rev];
          match goal with
          | |- context [?x =? ?y] => destruct (Nat.eqb_spec x y)
          end);
    cbn [rev app ret raise bind broadcast_rev];
    try discriminate; intros H Hsk; injection H as H1 H2;
    rewrite <- H1 in Hsk; try lia; injection Hsk; intros; lia.
Qed.


Lemma shrink_coarsest (ld : list nat) (h w : nat) :
  match (if n_s =? 1 then ret (ld ++ [h; w])
         else ShapeOf.shrink (ld ++ [h; w]) (2 ^ (n_s - 1))) with
  | inr r => r = ld ++ [h / 2 ^ (n_s - 1); w / 2 ^ (n_s - 1)]
             /\ lowpass_fits n_s h w = true
  | inl _ => lowpass_fits n_s h w = false
  end.
Proof.
  unfold lowpass_fits. destruct (n_s =? 1) eqn:Hn.
  - apply Nat.eqb_eq in Hn. rewrite Hn. cbn [Nat.sub Nat.pow].
    rewrite !Nat.mod_1_r, !Nat.div_1_r. now split.
  - unfold ShapeOf.shrink. rewrite split_last2_app.
    assert (2 ^ (n_s - 1) <> 0) as Hp by (apply Nat.pow_nonzero; lia).
    apply Nat.eqb_neq in Hp. rewrite Hp. cbn [orb].
    destruct (h mod 2 ^ (n_s - 1) =? 0); cbn [negb orb andb raise]; [|reflexivity].
    destruct (w mod 2 ^ (n_s - 1) =? 0); cbn [negb orb andb raise ret]; auto.
Qed.

Lemma shapes_create_lowpass_corr_tensor (b c h w : nat) :
  match PS.Shapes._create_lowpass_corr_tensor self [b; c; h; w] with
  | inr r => r = [b; c; w / 2 ^ (n_s - 1) * (h / 2 ^ (n_s - 1)); 5]
             /\ lowpass_fits n_s h w = true
  | inl _ => lowpass_fits n_s h w = false
  end.
Proof.
  unfold PS.Shapes._create_lowpass_corr_tensor.
  pose proof (shrink_coarsest [b; c] h w) as Hs. cbn [app] in Hs.
  unfold n_s in *.
  destruct (if PS.n_scales self =? 1 then _ else _) as [e|r]; [exact Hs|].
  destruct Hs as [Hr Hf]. subst r.
  cbn [bind ret ShapeOf.transpose_last2 split_last2 rev app ShapeOf.flatten_from2
       length Nat.leb firstn skipn numel fold_right].
  unfold ShapeOf.stack_last. cbn [forallb]. rewrite !shape_eqb_refl.
  cbn [andb length app]. unfold ret. split; [|exact Hf]. now rewrite Nat.mul_1_r.
Qed.

Lemma cat_last_two (ld : list nat) (n1 n2 : nat) :
  ld <> [] -> ShapeOf.cat_last [ld ++ [n1]; ld ++ [n2]] = inr (ld ++ [n1 + n2]).
Proof.
  intros Hld. unfold ShapeOf.cat_last. cbn [filter].
  assert (forall n, shape_eqb (ld ++ [n]) [0] = false) as Hne.
  { intros n. apply shape_eqb_false_length. rewrite length_app. cbn [length].
    destruct ld; [contradiction|]. cbn [length]. lia. }
  rewrite !Hne. cbn [negb mapM]. rewrite !split_last_app, shape_eqb_refl.
  cbn [bind ret list_sum fold_right]. now rewrite Nat.add_0_r.
Qed.

Lemma cat_last_after_empty (ld : list nat) (n : nat) :
  ld <> [] -> ShapeOf.cat_last [[0]; ld ++ [n]] = inr (ld ++ [n]).
Proof.
  intros Hld. unfold ShapeOf.cat_last. cbn [filter].
  rewrite shape_eqb_refl. cbn [negb].
  rewrite shape_eqb_false_length.
  2:{ rewrite length_app. cbn [length]. destruct ld; [contradiction|].
      cbn [length]. lia. }
  cbn [negb mapM]. rewrite !split_last_app, shape_eqb_refl.
  cbn [bind ret list_sum fold_right]. now rewrite Nat.add_0_r.
Qed.

Lemma shapes_concat_lowpass_to_cross_ori_real (b c s h w : nat) :
  match PS.Shapes._concat_lowpass_to_cross_ori_real self [b; c; n_o; n_o; s] [b; c; h; w] with
  | inr r => r = [b; c; PS.ori_crossed self; PS.ori_crossed self; s + 1]
             /\ lowpass_fits n_s h w = true
  | inl _ => lowpass_fits n_s h w = false
  end.
Proof.
  unfold PS.Shapes._concat_lowpass_to_cross_ori_real, PS.ori_crossed. fold n_o.
  cbn [ShapeOf.num_el_last2 split_last2 rev app bind ret].
  pose proof (shapes_create_lowpass_corr_tensor b c h w) as Hc.
  unfold n_s in *.
  destruct (PS.Shapes._create_lowpass_corr_tensor self [b; c; h; w]) as [e|r]; [exact Hc|].
  destruct Hc as [Hr Hf]. subst r.
  unfold PS.Shapes.compute_crosscorrelation.
  cbn [bind ret ShapeOf.transpose_last2 ShapeOf.matmul split_last2 rev app].
  rewrite Nat.eqb_refl, broadcast_shapes_same.
  cbn [bind ret app ShapeOf.pad_right pad_shape pad_rev rev ShapeOf.unsqueeze_last].
  set (dim := Nat.max (2 * n_o) 5).
  replace (n_o + (dim - n_o)) with dim by lia.
  replace (5 + (dim - 5)) with dim by lia.
  rewrite Nat.add_0_r.
  pose proof (cat_last_two [b; c; dim; dim] s 1 ltac:(discriminate)) as Hcat.
  cbn [app] in Hcat. rewrite Hcat. split; [reflexivity|exact Hf].
Qed.

Lemma shapes_concat_lowpass_to_cross_scale_real_one (b c h w : nat) :
  n_s = 1 ->
  PS.Shapes._concat_lowpass_to_cross_scale_real self [0] [b; c; h; w] [b; c; n_o; h; w]
  = inr [b; c; 2 * n_o; PS.ori_crossed self; 1].
Proof.
  intros Hn. unfold PS.Shapes._concat_lowpass_to_cross_scale_real, PS.ori_crossed.
  pose proof (shapes_create_lowpass_corr_tensor b c h w) as Hc.
  unfold lowpass_fits in Hc. unfold n_s, n_o in *. rewrite Hn in *.
  cbn [Nat.sub Nat.pow] in Hc. rewrite !Nat.mod_1_r, !Nat.div_1_r in Hc.
  destruct (PS.Shapes._create_lowpass_corr_tensor self [b; c; h; w]) as [e|r];
    [discriminate|].
  destruct Hc as [Hr _]. subst r.
  cbn [Nat.eqb negb bind ret ShapeOf.num_el_last2 split_last2 rev app
       ShapeOf.rearrange_positions_first].
  unfold PS.Shapes.compute_crosscorrelation.
  cbn [bind ret ShapeOf.transpose_last2 ShapeOf.matmul split_last2 rev app].
  rewrite Nat.eqb_refl, broadcast_shapes_same.
  cbn [bind ret app numel fold_right Nat.mul Nat.eqb negb
       ShapeOf.pad_right pad_shape pad_rev rev ShapeOf.unsqueeze_last].
  set (n := PS.n_orientations self). set (dim := Nat.max (n + (n + 0)) 5).
  replace (n + (n + (n + 0) - n)) with (n + (n + 0)) by lia.
  replace (5 + (dim - 5)) with dim by lia.
  exact (cat_last_after_empty [b; c; n + (n + 0); dim] 1 ltac:(discriminate)).
Qed.

Lemma shapes_concat_lowpass_to_cross_scale_real (b c s h w : nat) :
  n_s <> 1 ->
  match PS.Shapes._concat_lowpass_to_cross_scale_real self
          [b; c; n_o; 2 * n_o; s] [b; c; h; w] [b; c; n_o; h; w] with
  | inr r => r = [b; c; 2 * n_o; PS.ori_crossed self; s + 1]
             /\ lowpass_fits n_s h w = true
             /\ numel [b; c; n_o; 2 * n_o; s] <> 0
  | inl _ => lowpass_fits n_s h w = false \/ numel [b; c; n_o; 2 * n_o; s] = 0
  end.
Proof.
  intros Hn. unfold PS.Shapes._concat_lowpass_to_cross_scale_real, PS.ori_crossed.
  pose proof (shapes_create_lowpass_corr_tensor b c h w) as Hc.
  pose proof (shrink_coarsest [b; c; n_o] h w) as Hs. cbn [app] in Hs.
  unfold n_s, n_o in *.
  replace (PS.n_scales self =? 1) with false in *
    by (symmetry; apply Nat.eqb_neq; assumption).
  cbn [negb].
  destruct (ShapeOf.shrink _ _) as [e|r]; [now left|].
  destruct Hs as [Hr Hf]. subst r. rewrite Hf in Hc.
  destruct (PS.Shapes._create_lowpass_corr_tensor self [b; c; h; w]) as [e|r];
    [discriminate|].
  destruct Hc as [Hr _]. subst r.
  cbn [bind ret ShapeOf.num_el_last2 split_last2 rev app
       ShapeOf.rearrange_positions_first].
  unfold PS.Shapes.compute_crosscorrelation.
  cbn [bind ret ShapeOf.transpose_last2 ShapeOf.matmul split_last2 rev app].
  rewrite Nat.eqb_refl, broadcast_shapes_same. cbn [bind ret app].
  set (n := PS.n_orientations self). set (dim := Nat.max (2 * n) 5).
  destruct (numel [b; c; n; 2 * n; s] =? 0) eqn:Hz.
  - apply Nat.eqb_eq in Hz. cbn [negb bind ret ShapeOf.pad_right pad_shape pad_rev
                                 rev app ShapeOf.unsqueeze_last].
    assert (ShapeOf.cat_last
              [[b; c; n; 2 * n; s]; [b; c; n + (2 * n - n); 5 + (dim - 5); 1]]
            = inl RuntimeError) as Hcat.
    { unfold ShapeOf.cat_last. cbn [filter].
      rewrite !shape_eqb_false_length by (cbn [length]; lia).
      cbn [negb mapM split_last rev app bind ret].
      rewrite shape_eqb_refl. cbn [bind].
      unfold shape_eqb.
      destruct (list_eq_dec Nat.eq_dec _ _) as [E|_]; [|reflexivity].
      injection E as E1 E2. lia. }
    rewrite Hcat. now right.
  - apply Nat.eqb_neq in Hz.
    cbn [negb bind ret ShapeOf.pad_right pad_shape pad_rev rev app
         ShapeOf.unsqueeze_last].
    replace (n + (2 * n - n)) with (2 * n) by lia.
    replace (2 * n + (dim - 2 * n)) with dim by lia.
    replace (5 + (dim - 5)) with dim by lia.
    rewrite Nat.add_0_r.
    pose proof (cat_last_two [b; c; 2 * n; dim] s 1 ltac:(discriminate)) as Hcat.
    cbn [app] in Hcat. rewrite Hcat. auto.
Qed.

Lemma broadcast_rescale (b c s o h w : nat) :
  broadcast_shapes [b; c; s; o; h; w] [1; 1; s; 1; 1; 1] = inr [b; c; s; o; h; w].
Proof.
  unfold broadcast_shapes. cbn [rev app broadcast_rev Nat.eqb].
  destruct (b =? 1), (c =? 1), (o =? 1), (h =? 1), (w =? 1);
    rewrite ?Nat.eqb_refl; reflexivity.
Qed.

Lemma shape_eqb_eq (x y : list nat) : shape_eqb x y = true -> x = y.
Proof. unfold shape_eqb. now destruct (list_eq_dec Nat.eq_dec x y). Qed.

Lemma pack_magnitude_means (b c m : nat) :
  ShapeOf.pack 2 0 [[b; c]; [b; c; m]; [b; c]] = inr [b; c; m + 2].
Proof.
  unfold ShapeOf.pack.
  cbn [forallb firstn skipn length Nat.sub Nat.add Nat.leb andb map list_sum
       fold_right numel app].
  rewrite !shape_eqb_refl. cbn [andb]. unfold ret. repeat f_equal. lia.
Qed.

Lemma binary_last (b c m : nat) : ShapeOf.binary [b; c; m] [m] = inr [b; c; m].
Proof. exact (broadcast_shapes_suffix [b; c] [m]). Qed.

Lemma forward_shape_inv_batch (b c h w : nat) (v : list nat) :
  PS.Shapes.forward self [b; c; h; w] = inr v ->
  v = [b; c; list_sum (block_sizes self)]
  /\ ((b = 1 /\ c = 1) \/ (c = n_s + 1 /\ (b = 1 \/ b = c))).
Proof.
  unfold PS.Shapes.forward. cbn [PS.Shapes.validate_input length Nat.eqb bind ret].
  pose proof (shapes_compute_pyr_coeffs b c h w) as Hp.
  destruct (PS.Shapes._compute_pyr_coeffs self [b; c; h; w]) as [e|[[pyr hp] lp]];
    [discriminate|].
  destruct Hp as (Hp & _ & Hso). injection Hp as -> -> ->. cbn [bind].
  pose proof (shapes_compute_pixel_stats b c h w) as Hx.
  destruct (PS.Shapes._compute_pixel_stats [b; c; h; w]) as [e|px]; [discriminate|].
  destruct Hx as [-> Hhw]. cbn [bind].
  rewrite shapes_compute_intermediate_representations. cbn [bind].
  fold n_s n_o. rewrite binary_last.
  cbn [bind ret ShapeOf.reduce_last2 split_last2 rev app ShapeOf.index_last split_last].
  replace (n_s * n_o - 1 <? n_s * n_o) with true
    by (symmetry; apply Nat.ltb_lt; lia).
  cbn [bind ret]. unfold ShapeOf.binary at 1. rewrite broadcast_shapes_scalar.
  cbn [bind]. rewrite pack_magnitude_means. cbn [bind].
  rewrite shapes_reconstruct_lowpass_at_each_scale. cbn [bind].
  pose proof (shapes_compute_autocorr b c n_s [n_o] h w ltac:(cbn; lia)) as Ha.
  cbn [app] in Ha.
  destruct (PS.Shapes._compute_autocorr self [b; c; n_s; n_o; h; w]) as [e|[am vm]];
    [discriminate|].
  destruct Ha as [Ha _]. injection Ha as -> ->. cbn [bind].
  pose proof (shapes_compute_autocorr b c (n_s + 1) [] h w ltac:(cbn; lia)) as Ha.
  cbn [app] in Ha.
  destruct (PS.Shapes._compute_autocorr self [b; c; n_s + 1; h; w]) as [e|[ar vr]];
    [discriminate|].
  destruct Ha as [Ha _]. injection Ha as -> ->.
  cbn [bind ret ShapeOf.index_last split_last rev app Nat.ltb Nat.leb numel fold_right].
  rewrite Nat.mul_1_r.
  destruct (PS.Shapes._compute_skew_kurtosis_recon _ _ _) as [e|[sk ku]] eqn:Hsk;
    [discriminate|].
  pose proof Hsk as Hsk'.
  apply shapes_compute_skew_kurtosis_recon in Hsk as (c' & -> & ->);
    [|unfold n_s, n_o in *; lia].
  cbn [bind last]. rewrite binary_last. cbn [bind].
  rewrite shapes_compute_cross_correlation.
  cbn [bind ret ShapeOf.slice_last_one split_last rev app].
  replace (Nat.min 1 n_s) with 1 by (unfold n_s, n_o in *; lia).
  pose proof (cat_last_two [b; c; n_o; n_o] n_s 1 ltac:(discriminate)) as Hcat.
  cbn [app] in Hcat. rewrite Hcat. clear Hcat. cbn [bind].
  pose proof (shapes_concat_lowpass_to_cross_ori_real b c n_s h w) as Ho.
  destruct (PS.Shapes._concat_lowpass_to_cross_ori_real self _ _) as [e|co];
    [discriminate|].
  destruct Ho as [-> Hfit]. cbn [bind].
  assert (forall cm cr,
             ShapeOf.pack 2 0
               ((if PS.use_true_correlations self
                 then [[b; c; 6]; [b; c; n_s * n_o + 2]; [b; c; k; k; n_s; n_o];
                       [b; c'; n_s + 1]; [b; c'; n_s + 1]; [b; c; k; k; n_s + 1];
                       if PS.use_true_correlations self then [b; c; n_s + 1] else [0]]
                 else [[b; c; 6]; [b; c; n_s * n_o + 2]; [b; c; k; k; n_s; n_o];
                       [b; c'; n_s + 1]; [b; c'; n_s + 1]; [b; c; k; k; n_s + 1]])
                ++ [[b; c; n_o; n_o; n_s + 1]; [b; c; n_o; n_o; cm];
                    [b; c; PS.ori_crossed self; PS.ori_crossed self; n_s + 1];
                    [b; c; 2 * n_o; PS.ori_crossed self; cr]; [b; c]]) = inr v ->
             cm = n_s -> cr = n_s ->
             v = [b; c; list_sum (block_sizes self)] /\ c' = c) as Hpack.
  { intros cm cr Hv -> ->. unfold block_sizes. fold n_s n_o k.
    set (oc := PS.ori_crossed self) in *.
    unfold ShapeOf.pack in Hv.
    destruct (PS.use_true_correlations self);
      cbn [forallb firstn skipn length Nat.sub Nat.add Nat.leb andb map list_sum
           fold_right numel app] in Hv;
      rewrite ?shape_eqb_refl in Hv; cbn [andb] in Hv;
      (destruct (shape_eqb [b; c'] [b; c]) eqn:E; cbn [andb] in Hv; [|discriminate]);
      injection Hv as <-;
      (split; [cbn [list_sum app fold_right numel]; repeat f_equal; lia|]);
      apply shape_eqb_eq in E; now injection E. }
  destruct (n_s =? 1) eqn:Hn1.
  - apply Nat.eqb_eq in Hn1.
    cbn [negb bind ret ShapeOf.slice_last_one split_last rev app
         ShapeOf.index_dim2_last].
    replace (1 <=? n_s) with true by (symmetry; apply Nat.leb_le; lia).
    cbn [bind ret].
    rewrite (shapes_concat_lowpass_to_cross_scale_real_one b c h w Hn1).
    cbn [bind ret ShapeOf.reduce_last2 split_last2 rev app].
    intros Hv. destruct (Hpack _ _ Hv) as [Hv' Hc'];
      try (unfold n_s, n_o in *; lia).
    split; [exact Hv'|]. subst c'.
    apply (shapes_compute_skew_kurtosis_recon_batch b c (n_s + 1) h w _ _
             ltac:(lia) Hsk' eq_refl).
  - apply Nat.eqb_neq in Hn1. cbn [negb].
    rewrite shapes_double_phase_pyr_coeffs. cbn [bind].
    unfold ShapeOf.view. cbn [numel fold_right].
    replace (1 * (1 * ((n_s - 1) * (1 * (1 * (1 * 1)))))) with ((n_s - 1) * 1) by lia.
    rewrite Nat.eqb_refl. cbn [bind ret]. unfold ShapeOf.binary at 1 2.
    rewrite !broadcast_rescale.
    cbn [bind ret ShapeOf.slice_dim2_drop_one].
    rewrite !shapes_compute_cross_correlation.
    cbn [bind ret ShapeOf.slice_last_one split_last rev app].
    replace (Nat.min 1 (n_s - 1)) with 1 by (unfold n_s, n_o in *; lia).
    pose proof (cat_last_two [b; c; n_o; n_o] (n_s - 1) 1 ltac:(discriminate)) as Hcat.
    cbn [app] in Hcat. rewrite Hcat. clear Hcat.
    cbn [bind ret ShapeOf.index_dim2_last].
    replace (1 <=? n_s) with true
      by (symmetry; apply Nat.leb_le; unfold n_s, n_o in *; lia).
    cbn [bind ret].
    pose proof (shapes_concat_lowpass_to_cross_scale_real b c (n_s - 1) h w Hn1) as Hc.
    destruct (PS.Shapes._concat_lowpass_to_cross_scale_real self _ _ _) as [e|cs];
      [discriminate|].
    destruct Hc as (-> & _ & _).
    cbn [bind ret ShapeOf.reduce_last2 split_last2 rev app].
    intros Hv. destruct (Hpack _ _ Hv) as [Hv' Hc'];
      try (unfold n_s, n_o in *; lia).
    split; [exact Hv'|]. subst c'.
    apply (shapes_compute_skew_kurtosis_recon_batch b c (n_s + 1) h w _ _
             ltac:(lia) Hsk' eq_refl).
Qed.

Lemma forward_shape_inv (b c h w : nat) (v : list nat) :
  PS.Shapes.forward self [b; c; h; w] = inr v -> v = [b; c; list_sum (block_sizes self)].
Proof. intros H. exact (proj1 (forward_shape_inv_batch b c h w v H)). Qed.





End ShapeFacts.


(** ** The layout of stacked and concatenated tensors *)

Section LayoutFacts.

Context {A : Type}.

Lemma offset_app_last (sh idx : list nat) (n k : nat) :
  length idx = length sh ->
  offset (sh ++ [n]) (idx ++ [k]) = offset sh idx * n + k.
Proof.
  revert idx. induction sh as [|d sh IH]; intros [|i idx] H; try discriminate.
  - cbn. lia.
  - cbn [app offset]. rewrite IH by now injection H.
    rewrite numel_app. cbn [numel fold_right]. lia.
Qed.

Lemma valid_index_one (n k : nat) : k < n -> valid_index [n] [k] = true.
Proof. intros H. cbn [valid_index]. now rewrite (proj2 (Nat.ltb_lt _ _) H). Qed.

Lemma nth_error_flat_map_seq_in (g : nat -> list A) (m d i o a : nat) :
  (forall j, a <= j < a + d -> length (g j) = m) -> i < d -> o < m ->
  nth_error (flat_map g (seq a d)) (i * m + o) = nth_error (g (a + i)) o.
Proof.
  revert i a. induction d as [|d IH]; intros i a Hg Hi Ho; [lia|].
  cbn [seq flat_map]. destruct i as [|i].
  - rewrite Nat.add_0_r. simpl. apply nth_error_app1. rewrite Hg by lia. exact Ho.
  - rewrite nth_error_app2 by (rewrite Hg by lia; simpl; lia).
    rewrite Hg by lia. replace (S i * m + o - m) with (i * m + o) by (simpl; lia).
    rewrite IH by (try lia; intros j Hj; apply Hg; lia). f_equal. f_equal. lia.
Qed.

Lemma nth_error_flat_map_singletons {T : Type} (f : T -> list A) (ts : list T)
    (k : nat) (t : T) :
  Forall (fun t => length (f t) = 1) ts -> nth_error ts k = Some t ->
  nth_error (flat_map f ts) k = nth_error (f t) 0.
Proof.
  intros Hts. revert k. induction Hts as [|t0 ts H0 _ IH]; intros k Hk.
  - destruct k; discriminate.
  - cbn [flat_map]. destruct k as [|k].
    + injection Hk as ->. apply nth_error_app1. lia.
    + rewrite nth_error_app2 by lia. rewrite H0.
      replace (S k - 1) with k by lia. now apply IH.
Qed.

Lemma nth_error_pick (q : nat) (l : list A) :
  nth_error (pick q l) 0 = nth_error l q.
Proof.
  unfold pick. rewrite nth_error_firstn. cbn [Nat.ltb Nat.leb].
  rewrite nth_error_skipn. f_equal. lia.
Qed.

Lemma nth_chunks (K n r : nat) (l : list A) :
  r < K -> nth r (chunks K n l) [] = firstn n (skipn (r * n) l).
Proof.
  revert r l. induction K as [|K IH]; intros r l Hr; [lia|].
  cbn [chunks]. destruct r as [|r]; [reflexivity|].
  cbn [nth]. rewrite IH by lia. rewrite skipn_skipn. do 2 f_equal. simpl. lia.
Qed.

Lemma stack_last_shape (ts : list (tensor A)) (sh : list nat) :
  Forall (fun t => shape t = sh /\ wf t) ts -> ts <> [] ->
  exists r, stack_last ts = inr r /\ shape r = sh ++ [length ts].
Proof.
  intros Hts Hne. unfold stack_last. destruct ts as [|t0 ts']; [contradiction|].
  assert (shape t0 = sh) as H0 by (inversion Hts as [|? ? [E _] _]; exact E).
  rewrite H0.
  assert (forallb (fun t1 => shape_eqb (shape t1) sh) (t0 :: ts') = true) as ->.
  { apply forallb_forall. intros t1 Hin.
    rewrite Forall_forall in Hts. destruct (Hts t1 Hin) as [-> _].
    apply shape_eqb_refl. }
  eexists. split; reflexivity.
Qed.

(** An entry of [torch.stack(ts, -1)] is the entry of the tensor it comes
    from. *)
Lemma stack_last_get (ts : list (tensor A)) (sh idx : list nat) (k : nat)
    (t : tensor A) :
  Forall (fun t => shape t = sh /\ wf t) ts ->
  valid_index sh idx = true -> nth_error ts k = Some t ->
  exists r, stack_last ts = inr r /\ shape r = sh ++ [length ts]
            /\ get r (idx ++ [k]) = get t idx.
Proof.
  intros Hts Hv Hk. unfold stack_last.
  destruct ts as [|t0 ts']; [destruct k; discriminate|].
  set (ts := t0 :: ts') in *.
  assert (shape t0 = sh) as H0 by (inversion Hts as [|? ? [E _] _]; exact E).
  rewrite H0.
  assert (forallb (fun t1 => shape_eqb (shape t1) sh) ts = true) as ->.
  { apply forallb_forall. intros t1 Hin.
    rewrite Forall_forall in Hts. destruct (Hts t1 Hin) as [-> _].
    apply shape_eqb_refl. }
  eexists. split; [reflexivity|]. split; [reflexivity|].
  assert (k < length ts) as Hklt by (apply nth_error_Some; congruence).
  assert (shape t = sh /\ wf t) as [Hst Hwt].
  { rewrite Forall_forall in Hts. apply Hts. eapply nth_error_In; eassumption. }
  unfold get. cbn [shape data]. rewrite Hst, Hv.
  rewrite valid_index_app by (try assumption; now apply valid_index_one).
  rewrite offset_app_last by now apply valid_index_length.
  pose proof (offset_lt sh idx Hv) as Hoff.
  rewrite nth_error_flat_map_seq_in; [| |assumption|assumption].
  - cbn [Nat.add].
    rewrite (nth_error_flat_map_singletons _ ts k t); [apply nth_error_pick| |assumption].
    apply Forall_forall. intros t1 Hin. rewrite Forall_forall in Hts.
    destruct (Hts t1 Hin) as [Hs1 Hw1]. apply pick_length.
    unfold wf in Hw1. rewrite Hw1, Hs1. exact Hoff.
  - intros j Hj. rewrite (flat_map_constant_length (c := 1)); [lia|].
    intros t1 Hin. rewrite Forall_forall in Hts.
    destruct (Hts t1 Hin) as [Hs1 Hw1]. apply pick_length.
    unfold wf in Hw1. rewrite Hw1, Hs1. lia.
Qed.

Lemma cat_last_shape (x y : tensor A) (ld : list nat) (nx ny : nat) :
  ld <> [] -> shape x = ld ++ [nx] -> shape y = ld ++ [ny] ->
  exists r, cat_last [x; y] = inr r /\ shape r = ld ++ [nx + ny].
Proof.
  intros Hld Hsx Hsy. unfold cat_last. cbn [filter].
  assert (forall n, shape_eqb (ld ++ [n]) [0] = false) as Hne.
  { intros n. unfold shape_eqb.
    destruct (list_eq_dec Nat.eq_dec (ld ++ [n]) [0]) as [E|_]; [|reflexivity].
    apply (f_equal (@length nat)) in E. rewrite length_app in E. cbn in E.
    destruct ld; [contradiction|]. cbn in E. lia. }
  rewrite Hsx, Hsy, !Hne. cbn [negb]. unfold cat_last_nonempty.
  rewrite Hsx, split_last_app. cbn [mapM]. rewrite Hsx, Hsy, !split_last_app.
  rewrite shape_eqb_refl. cbn [bind ret list_sum fold_right].
  rewrite Nat.add_0_r. eexists. split; reflexivity.
Qed.

(** An entry of [torch.cat([x, y], -1)] comes from [x] up to the last size
    of [x], and from [y] after it. *)
Lemma cat_last_get (x y : tensor A) (ld il : list nat) (nx ny k : nat) :
  ld <> [] ->
  shape x = ld ++ [nx] -> wf x -> shape y = ld ++ [ny] -> wf y ->
  valid_index ld il = true -> k < nx + ny ->
  exists r, cat_last [x; y] = inr r /\ shape r = ld ++ [nx + ny]
            /\ get r (il ++ [k])
               = if k <? nx then get x (il ++ [k]) else get y (il ++ [k - nx]).
Proof.
  intros Hld Hsx Hwx Hsy Hwy Hv Hk. unfold cat_last. cbn [filter].
  assert (forall n, shape_eqb (ld ++ [n]) [0] = false) as Hne.
  { intros n. unfold shape_eqb.
    destruct (list_eq_dec Nat.eq_dec (ld ++ [n]) [0]) as [E|_]; [|reflexivity].
    apply (f_equal (@length nat)) in E. rewrite length_app in E. cbn in E.
    destruct ld; [contradiction|]. cbn in E. lia. }
  rewrite Hsx, Hsy, !Hne. cbn [negb]. unfold cat_last_nonempty.
  rewrite Hsx, split_last_app. cbn [mapM]. rewrite Hsx, Hsy, !split_last_app.
  rewrite shape_eqb_refl. cbn [bind ret list_sum fold_right].
  rewrite Nat.add_0_r.
  eexists. split; [reflexivity|]. split; [reflexivity|].
  pose proof (offset_lt ld il Hv) as Hoff.
  assert (forall (t : tensor A) n, shape t = ld ++ [n] -> wf t ->
            forall r, r < numel ld ->
              nth r (rows t) [] = firstn n (skipn (r * n) (data t))
              /\ length (nth r (rows t) []) = n) as Hrow.
  { intros t n Hst Hwt r Hr. rewrite (rows_eq t ld n Hst), nth_chunks by assumption.
    split; [reflexivity|]. rewrite length_firstn, length_skipn.
    rewrite (data_length t ld n Hst Hwt). nia. }
  assert (forall (t : tensor A) n j, shape t = ld ++ [n] -> wf t -> j < n ->
            get t (il ++ [j])
            = nth_error (nth (offset ld il) (rows t) []) j) as Hget.
  { intros t n j Hst Hwt Hj. unfold get. rewrite Hst.
    rewrite valid_index_app by (try assumption; now apply valid_index_one).
    rewrite offset_app_last by now apply valid_index_length.
    destruct (Hrow t n Hst Hwt _ Hoff) as [-> _].
    rewrite nth_error_firstn, (proj2 (Nat.ltb_lt _ _) Hj), nth_error_skipn.
    reflexivity. }
  unfold get at 1. cbn [shape data].
  rewrite valid_index_app by (try assumption; now apply valid_index_one).
  rewrite offset_app_last by now apply valid_index_length.
  rewrite nth_error_flat_map_seq_in; [| |assumption|assumption].
  - cbn [Nat.add flat_map]. rewrite app_nil_r.
    destruct (Hrow x nx Hsx Hwx _ Hoff) as [_ Hlx].
    rewrite nth_error_app, Hlx.
    destruct (k <? nx) eqn:Hkx.
    + apply Nat.ltb_lt in Hkx. now rewrite (Hget x nx k Hsx Hwx Hkx).
    + apply Nat.ltb_ge in Hkx. rewrite (Hget y ny (k - nx) Hsy Hwy) by lia.
      reflexivity.
  - intros j Hj. cbn [flat_map]. rewrite app_nil_r, length_app.
    destruct (Hrow x nx Hsx Hwx j ltac:(lia)) as [_ ->].
    destruct (Hrow y ny Hsy Hwy j ltac:(lia)) as [_ ->]. reflexivity.
Qed.

End LayoutFacts.

(** ** Lowpass stitching *)

Section StitchingFacts.

Local Open Scope R_scope.

Lemma unsqueeze_last_get (t : tensor R) (idx : list nat) :
  valid_index (shape t) idx = true ->
  get (unsqueeze_last t) (idx ++ [0]%nat) = get t idx.
Proof.
  intros Hv. unfold get, unsqueeze_last. cbn [shape data].
  rewrite valid_index_app_one, Hv by assumption.
  now rewrite offset_app_one by now apply valid_index_length.
Qed.

Lemma unsqueeze_last_wf (t : tensor R) : wf t -> wf (unsqueeze_last t).
Proof.
  unfold wf, unsqueeze_last. cbn [shape data]. intros ->.
  rewrite numel_app. cbn [numel fold_right]. lia.
Qed.

Lemma rolled_lt (shift : Z) (n i : nat) : (0 < n)%nat -> (Torch.rolled shift n i < n)%nat.
Proof.
  intros Hn. unfold Torch.rolled.
  pose proof (Z.mod_pos_bound (Z.of_nat i - shift) (Z.of_nat n) ltac:(lia)). lia.
Qed.

(** Flattening the last two dimensions of a 4-d tensor. *)
Lemma flatten_from2_get (t : tensor R) (b c w h : nat) :
  shape t = [b; c; w; h]%nat -> wf t ->
  exists fl,
    flatten_from2 t = inr fl /\ shape fl = [b; c; (w * h)%nat] /\ wf fl
    /\ forall ib ic x y,
         (ib < b)%nat -> (ic < c)%nat -> (x < w)%nat -> (y < h)%nat ->
         get fl [ib; ic; (x * h + y)%nat] = get t [ib; ic; x; y]%nat.
Proof.
  intros Hs Hw. unfold flatten_from2, ndim. rewrite Hs.
  cbn [length Nat.leb firstn skipn app numel fold_right]. rewrite Nat.mul_1_r.
  eexists. split; [reflexivity|]. split; [reflexivity|]. split.
  - unfold wf in *. cbn [shape data]. rewrite Hw, Hs. cbn [numel fold_right]. lia.
  - intros ib ic x y Hib Hic Hx Hy. unfold get. cbn [shape data]. rewrite Hs.
    assert (x * h + y < w * h)%nat as Hp by nia.
    replace (valid_index [b; c; (w * h)%nat] [ib; ic; (x * h + y)%nat]) with true
      by (symmetry; solve_valid).
    replace (valid_index [b; c; w; h] [ib; ic; x; y]) with true
      by (symmetry; solve_valid).
    f_equal. cbn [offset numel fold_right]. lia.
Qed.

Lemma entry_mul_scalar (t : tensor R) (k : R) (idx : list nat) :
  entry 0 (Torch.mul_scalar t k) idx = entry 0 t idx * k.
Proof.
  unfold entry, Torch.mul_scalar. rewrite get_map_tensor.
  destruct (get t idx); cbn [option_map]; [reflexivity|ring].
Qed.

Variable self : PS.params.
Variable shrink : tensor R -> nat -> result (tensor R).

(** What [_create_lowpass_corr_tensor] returns, entry by entry, in terms of
    the downsampled lowpass [d]. *)
Lemma create_lowpass_corr_tensor_entries (lowpass d : tensor R) (b c h' w' : nat) :
  (if PS.n_scales self =? 1 then ret lowpass
   else shrink lowpass (2 ^ (PS.n_scales self - 1))) = inr d ->
  shape d = [b; c; h'; w']%nat ->
  exists up,
    PS._create_lowpass_corr_tensor self shrink lowpass = inr up
    /\ shape up = [b; c; (w' * h')%nat; 5%nat]
    /\ forall ib ic x y,
         (ib < b)%nat -> (ic < c)%nat -> (x < w')%nat -> (y < h')%nat ->
         let v := fun i j => entry 0 d [ib; ic; i; j]%nat
                             * powerRZ 2 (Z.of_nat (PS.n_scales self) - 2) in
         let p := (x * h' + y)%nat in
         get up [ib; ic; p; 0%nat] = Some (v y x)
         /\ get up [ib; ic; p; 1%nat] = Some (v y (Torch.rolled 1 w' x))
         /\ get up [ib; ic; p; 2%nat] = Some (v y (Torch.rolled (-1) w' x))
         /\ get up [ib; ic; p; 3%nat] = Some (v (Torch.rolled 1 h' y) x)
         /\ get up [ib; ic; p; 4%nat] = Some (v (Torch.rolled (-1) h' y) x).
Proof.
  intros Hd Hs. unfold PS._create_lowpass_corr_tensor. rewrite Hd. cbn [bind].
  set (D := Torch.mul_scalar d (powerRZ 2 (Z.of_nat (PS.n_scales self) - 2))).
  assert (shape D = [b; c] ++ [h'; w']%nat) as HsD
    by (unfold D, Torch.mul_scalar; now rewrite shape_map_tensor).
  unfold Torch.transpose_last2. rewrite HsD, split_last2_app. cbn [bind ret length].
  match goal with |- context [tabulate ([b; c] ++ [w'; h']%nat) ?F] =>
    set (T := tabulate ([b; c] ++ [w'; h']%nat) F) end.
  assert (shape T = [b; c] ++ [w'; h']%nat) as HsT by reflexivity.
  assert (forall ib ic x y, (ib < b)%nat -> (ic < c)%nat -> (x < w')%nat ->
            (y < h')%nat ->
            entry 0 T [ib; ic; x; y]%nat
            = entry 0 d [ib; ic; y; x]%nat
              * powerRZ 2 (Z.of_nat (PS.n_scales self) - 2)) as HT.
  { intros ib ic x y Hib Hic Hx Hy. unfold T.
    rewrite entry_tabulate by solve_valid. cbn [skipn firstn app].
    apply entry_mul_scalar. }
  unfold Torch.roll_rows, Torch.roll_cols. rewrite HsT, split_last2_app.
  cbn [bind ret length].
  repeat match goal with
  | |- context [tabulate ([b; c] ++ [w'; h']%nat) ?F] =>
      lazymatch F with
      | context [Torch.rolled] =>
          let X := fresh "Rl" in
          set (X := tabulate ([b; c] ++ [w'; h']%nat) F)
      end
  end.
  destruct (flatten_from2_get T b c w' h' eq_refl (tabulate_wf _ _))
    as (f0 & Hf0 & Hs0 & Hw0 & Hg0).
  destruct (flatten_from2_get Rl b c w' h' eq_refl (tabulate_wf _ _))
    as (f1 & Hf1 & Hs1 & Hw1 & Hg1).
  destruct (flatten_from2_get Rl0 b c w' h' eq_refl (tabulate_wf _ _))
    as (f2 & Hf2 & Hs2 & Hw2 & Hg2).
  destruct (flatten_from2_get Rl1 b c w' h' eq_refl (tabulate_wf _ _))
    as (f3 & Hf3 & Hs3 & Hw3 & Hg3).
  destruct (flatten_from2_get Rl2 b c w' h' eq_refl (tabulate_wf _ _))
    as (f4 & Hf4 & Hs4 & Hw4 & Hg4).
  rewrite Hf0, Hf1, Hf2, Hf3, Hf4. cbn [bind].
  assert (Forall (fun t => shape t = [b; c; (w' * h')%nat] /\ wf t)
                 [f0; f1; f2; f3; f4]) as Hall by (repeat constructor; assumption).
  destruct (stack_last_shape [f0; f1; f2; f3; f4] [b; c; (w' * h')%nat] Hall
              ltac:(discriminate)) as (up & Hup & Hsup).
  exists up. split; [exact Hup|]. split; [exact Hsup|].
  intros ib ic x y Hib Hic Hx Hy.
  assert (x * h' + y < w' * h')%nat as Hp by nia.
  assert (valid_index [b; c; (w' * h')%nat] [ib; ic; (x * h' + y)%nat] = true) as Hv
    by solve_valid.
  assert (forall k t, nth_error [f0; f1; f2; f3; f4] k = Some t ->
            get up [ib; ic; (x * h' + y)%nat; k]
            = get t [ib; ic; (x * h' + y)%nat]) as Hk.
  { intros k t Hkt.
    destruct (stack_last_get [f0; f1; f2; f3; f4] [b; c; (w' * h')%nat]
                [ib; ic; (x * h' + y)%nat] k t Hall Hv Hkt) as (r & Hr & _ & Hg).
    rewrite Hup in Hr. injection Hr as <-. exact Hg. }
  pose proof (rolled_lt 1 w' x ltac:(lia)) as Hr1.
  pose proof (rolled_lt (-1) w' x ltac:(lia)) as Hr2.
  pose proof (rolled_lt 1 h' y ltac:(lia)) as Hr3.
  pose proof (rolled_lt (-1) h' y ltac:(lia)) as Hr4.
  rewrite (Hk 0%nat f0 eq_refl), (Hk 1%nat f1 eq_refl), (Hk 2%nat f2 eq_refl),
    (Hk 3%nat f3 eq_refl), (Hk 4%nat f4 eq_refl).
  rewrite Hg0, Hg1, Hg2, Hg3, Hg4 by assumption.
  unfold T at 1, Rl, Rl0, Rl1, Rl2.
  rewrite !get_tabulate by solve_valid. cbn [skipn firstn app].
  rewrite !HT by assumption.
  unfold D. rewrite entry_mul_scalar. auto.
Qed.

(** The inner products [compute_crosscorrelation] returns. *)
Lemma compute_crosscorrelation_entries (ch1 ch2 : tensor R) (b c P n m N : nat) :
  shape ch1 = [b; c; P; n]%nat -> shape ch2 = [b; c; P; m]%nat ->
  exists r,
    PS.compute_crosscorrelation self ch1 ch2 N = inr r
    /\ shape r = [b; c; n; m]%nat
    /\ forall ib ic i j,
         (ib < b)%nat -> (ic < c)%nat -> (i < n)%nat -> (j < m)%nat ->
         get r [ib; ic; i; j]%nat
         = Some (Torch.sum_list
                   (map (fun q => entry 0 ch1 [ib; ic; q; i]%nat
                                  * entry 0 ch2 [ib; ic; q; j]%nat)
                        (seq 0 P))
                 / (if PS.use_true_correlations self
                    then INR N * Torch.std_all ch1 * Torch.std_all ch2
                    else INR N)).
Proof.
  intros H1 H2. unfold PS.compute_crosscorrelation, Torch.transpose_last2.
  rewrite H1. change [b; c; P; n]%nat with ([b; c] ++ [P; n])%nat.
  rewrite split_last2_app. cbn [bind ret length].
  match goal with |- context [tabulate ([b; c] ++ [n; P]%nat) ?F] =>
    set (T := tabulate ([b; c] ++ [n; P]%nat) F) end.
  unfold Torch.matmul. rewrite H2.
  change (shape T) with ([b; c] ++ [n; P])%nat.
  change [b; c; P; m]%nat with ([b; c] ++ [P; m])%nat.
  rewrite !split_last2_app, Nat.eqb_refl, broadcast_shapes_same.
  cbn [bind ret length app].
  match goal with |- context [tabulate [b; c; n; m]%nat ?F] =>
    set (M := tabulate [b; c; n; m]%nat F) end.
  assert (forall ib ic i j,
             (ib < b)%nat -> (ic < c)%nat -> (i < n)%nat -> (j < m)%nat ->
             get M [ib; ic; i; j]%nat
             = Some (Torch.sum_list
                       (map (fun q => entry 0 ch1 [ib; ic; q; i]%nat
                                      * entry 0 ch2 [ib; ic; q; j]%nat)
                            (seq 0 P)))) as HM.
  { intros ib ic i j Hib Hic Hi Hj. unfold M.
    rewrite get_tabulate by solve_valid. cbn [skipn firstn].
    rewrite (bidx_valid [b; c] [ib; ic]%nat) by solve_valid. cbn [app].
    f_equal. f_equal. apply map_ext_in. intros q Hq. apply in_seq in Hq.
    f_equal. unfold T. rewrite entry_tabulate by solve_valid. reflexivity. }
  destruct (PS.use_true_correlations self);
    (eexists; split; [reflexivity|]; split; [reflexivity|];
     intros ib ic i j Hib Hic Hi Hj; unfold Torch.div_scalar;
     rewrite get_map_tensor, (HM ib ic i j Hib Hic Hi Hj); reflexivity).
Qed.

Lemma pad_right_get (rs : list nat) (x : tensor R) (sh : list nat) :
  pad_shape rs (shape x) = inr sh ->
  exists r,
    Torch.pad_right rs x = inr r /\ shape r = sh /\ wf r
    /\ forall idx, valid_index sh idx = true ->
         get r idx = Some (if valid_index (shape x) idx then entry 0 x idx else 0).
Proof.
  intros Hsh. unfold Torch.pad_right. rewrite Hsh. cbn [bind].
  eexists. split; [reflexivity|]. split; [reflexivity|].
  split; [apply tabulate_wf|]. intros idx Hv. now rewrite get_tabulate.
Qed.

(** What [_concat_lowpass_to_cross_ori_real] returns, entry by entry. *)
Lemma concat_lowpass_to_cross_ori_real_entries
    (cross lowpass d : tensor R) (b c h w h' w' s : nat) :
  shape lowpass = [b; c; h; w]%nat ->
  (if PS.n_scales self =? 1 then ret lowpass
   else shrink lowpass (2 ^ (PS.n_scales self - 1))) = inr d ->
  shape d = [b; c; h'; w']%nat ->
  shape cross = [b; c; PS.n_orientations self; PS.n_orientations self; s]%nat ->
  exists up r,
    PS._create_lowpass_corr_tensor self shrink lowpass = inr up
    /\ PS._concat_lowpass_to_cross_ori_real self shrink cross lowpass = inr r
    /\ shape r = [b; c; PS.ori_crossed self; PS.ori_crossed self; (s + 1)%nat]
    /\ forall ib ic i j,
         (ib < b)%nat -> (ic < c)%nat ->
         (i < PS.ori_crossed self)%nat -> (j < PS.ori_crossed self)%nat ->
         (forall sc, (sc < s)%nat ->
            get r [ib; ic; i; j; sc]
            = Some (if (i <? PS.n_orientations self) && (j <? PS.n_orientations self)
                    then entry 0 cross [ib; ic; i; j; sc] else 0))
         /\ get r [ib; ic; i; j; s]
            = Some (if (i <? 5) && (j <? 5)
                    then Torch.sum_list
                           (map (fun q => entry 0 up [ib; ic; q; i]
                                          * entry 0 up [ib; ic; q; j])
                                (seq 0 (w' * h')))
                         / (if PS.use_true_correlations self
                            then INR (h * w) * Torch.std_all up * Torch.std_all up
                            else INR (h * w))
                    else 0).
Proof.
  intros Hl Hd Hsd Hc.
  destruct (create_lowpass_corr_tensor_entries lowpass d b c h' w' Hd Hsd)
    as (up & Hup & Hsup & _).
  destruct (compute_crosscorrelation_entries up up b c (w' * h') 5 5 (h * w) Hsup Hsup)
    as (cc & Hcc & Hscc & Hgcc).
  unfold PS._concat_lowpass_to_cross_ori_real, Torch.num_el_last2, PS.ori_crossed.
  rewrite Hl. cbn [split_last2 rev app bind ret]. rewrite Hup. cbn [bind].
  rewrite Hcc. cbn [bind].
  set (n_o := PS.n_orientations self) in *.
  set (dim := Nat.max (2 * n_o) 5).
  assert (pad_shape [0; dim - n_o; dim - n_o]%nat (shape cross)
          = inr [b; c; dim; dim; s]) as Hp1.
  { rewrite Hc. unfold pad_shape. cbn [rev app pad_rev ret].
    replace (n_o + (dim - n_o))%nat with dim by lia. now rewrite Nat.add_0_r. }
  assert (pad_shape [dim - 5; dim - 5]%nat (shape cc) = inr [b; c; dim; dim]) as Hp2.
  { rewrite Hscc. unfold pad_shape. cbn [rev app pad_rev ret].
    replace (5 + (dim - 5))%nat with dim by lia. reflexivity. }
  destruct (pad_right_get _ cross _ Hp1) as (pc & Hpc & Hspc & Hwpc & Hgpc).
  destruct (pad_right_get _ cc _ Hp2) as (pu & Hpu & Hspu & Hwpu & Hgpu).
  rewrite Hpc. cbn [bind]. rewrite Hpu. cbn [bind].
  assert (shape (unsqueeze_last pu) = [b; c; dim; dim] ++ [1%nat]) as Hsu
    by (unfold unsqueeze_last; cbn [shape]; now rewrite Hspu).
  destruct (cat_last_shape pc (unsqueeze_last pu) [b; c; dim; dim] s 1
              ltac:(discriminate) Hspc Hsu) as (r & Hr & Hsr).
  exists up, r. split; [reflexivity|]. split; [exact Hr|]. split; [exact Hsr|].
  intros ib ic i j Hib Hic Hi Hj.
  assert (valid_index [b; c; dim; dim] [ib; ic; i; j] = true) as Hv by solve_valid.
  assert (forall k, (k < s + 1)%nat ->
            get r [ib; ic; i; j; k]
            = if (k <? s)%nat then get pc [ib; ic; i; j; k]
              else get (unsqueeze_last pu) [ib; ic; i; j; (k - s)%nat]) as Hk.
  { intros k Hks.
    destruct (cat_last_get pc (unsqueeze_last pu) [b; c; dim; dim] [ib; ic; i; j]
                s 1 k ltac:(discriminate) Hspc Hwpc Hsu
                (unsqueeze_last_wf pu Hwpu) Hv Hks) as (r' & Hr' & _ & Hg).
    rewrite Hr in Hr'. injection Hr' as <-. exact Hg. }
  split.
  - intros sc Hsc. rewrite Hk by lia.
    replace (sc <? s)%nat with true by (symmetry; apply Nat.ltb_lt; lia).
    rewrite Hgpc by solve_valid. f_equal. rewrite Hc. cbn [valid_index].
    replace (ib <? b)%nat with true by (symmetry; apply Nat.ltb_lt; lia).
    replace (ic <? c)%nat with true by (symmetry; apply Nat.ltb_lt; lia).
    replace (sc <? s)%nat with true by (symmetry; apply Nat.ltb_lt; lia).
    cbn [andb]. now rewrite andb_true_r.
  - rewrite Hk by lia. rewrite Nat.ltb_irrefl, Nat.sub_diag.
    change [ib; ic; i; j; 0%nat] with ([ib; ic; i; j] ++ [0%nat]).
    rewrite unsqueeze_last_get by (rewrite Hspu; exact Hv).
    rewrite Hgpu by exact Hv. f_equal. rewrite Hscc. cbn [valid_index].
    replace (ib <? b)%nat with true by (symmetry; apply Nat.ltb_lt; lia).
    replace (ic <? c)%nat with true by (symmetry; apply Nat.ltb_lt; lia).
    cbn [andb]. rewrite andb_true_r.
    destruct (i <? 5)%nat eqn:Hi5; cbn [andb]; [|reflexivity].
    destruct (j <? 5)%nat eqn:Hj5; [|reflexivity].
    apply Nat.ltb_lt in Hi5, Hj5.
    apply entry_of_get. now apply Hgcc.
Qed.

End StitchingFacts.

(** Circular shifts by one position, forwards and backwards. *)
Lemma rolled_one (n i : nat) :
  i < n -> Torch.rolled 1 n i = (i + n - 1) mod n
           /\ Torch.rolled (-1) n i = (i + 1) mod n.
Proof.
  intros Hi. unfold Torch.rolled. split.
  - destruct i as [|i].
    + replace (0 + n - 1) with (n - 1) by lia. rewrite Nat.mod_small by lia.
      replace (Z.of_nat 0 - 1)%Z with (-1 + 1 * Z.of_nat n - Z.of_nat n)%Z by lia.
      replace (-1 + 1 * Z.of_nat n - Z.of_nat n)%Z
        with ((Z.of_nat n - 1) + (-1) * Z.of_nat n)%Z by lia.
      rewrite Z.mod_add by lia. rewrite Z.mod_small by lia. lia.
    + rewrite Z.mod_small by lia.
      replace (S i + n - 1) with (i + 1 * n) by lia.
      rewrite Nat.Div0.mod_add, Nat.mod_small by lia. lia.
  - replace (Z.of_nat i - -1)%Z with (Z.of_nat (i + 1)) by lia.
    rewrite <- Nat2Z.inj_mod, Nat2Z.id. reflexivity.
Qed.

Lemma decimate_shape (b c : nat) (x : tensor R) (f hh ww : nat) :
  shape x = [b; c; hh; ww] ->
  exists y, decimate x f = inr y /\ shape y = [b; c; hh / f; ww / f].
Proof.
  intros Hx. unfold decimate. rewrite Hx.
  change [b; c; hh; ww] with ([b; c] ++ [hh; ww]). rewrite split_last2_app.
  eexists. split; reflexivity.
Qed.

(** ** The geometry of the pooling windows *)

Module PG := PoolingGeometry.

Section PoolingGeometryFacts.

Local Open Scope R_scope.

Lemma sqrt_square_plus_four (s : R) :
  sqrt (s ^ 2 + 4) * sqrt (s ^ 2 + 4) = s ^ 2 + 4.
Proof. apply sqrt_sqrt. nra. Qed.

Lemma sqrt_square_plus_four_gt (s : R) : Rabs s < sqrt (s ^ 2 + 4).
Proof.
  rewrite <- (sqrt_Rsqr_abs s). apply sqrt_lt_1_alt. unfold Rsqr. split; nra.
Qed.

(** [exp(w)] for the window width [w] that belongs to the scaling [s]. *)
Lemma exp_width_of_scaling (s : R) :
  (s ^ 2 + 2 + s * sqrt (s ^ 2 + 4)) / 2 = ((sqrt (s ^ 2 + 4) + s) / 2) ^ 2
  /\ 0 < (sqrt (s ^ 2 + 4) + s) / 2.
Proof.
  pose proof (sqrt_square_plus_four s) as Hq.
  pose proof (sqrt_square_plus_four_gt s) as Hgt.
  split; [nra|]. unfold Rabs in Hgt. destruct (Rcase_abs s); lra.
Qed.

Lemma exp_half (w : R) : exp w = exp (1 / 2 * w) ^ 2.
Proof. simpl. rewrite Rmult_1_r, <- exp_plus. f_equal. lra. Qed.

Lemma exp_neg_half (w : R) : exp (- (1 / 2) * w) = / exp (1 / 2 * w).
Proof. rewrite <- exp_Ropp. f_equal. lra. Qed.

Lemma ln_square (x : R) : 0 < x -> ln (x ^ 2) = 2 * ln x.
Proof. intros Hx. simpl. rewrite Rmult_1_r, ln_mult by assumption. lra. Qed.

(** The scaling of a window width [w]: [exp(w/2) - exp(-w/2)]; the width that
    [calc_eccentricity_window_width] computes from it is [w] again. *)
Lemma width_of_scaling_of_width (w : R) :
  let s := exp (1 / 2 * w) - exp (- (1 / 2) * w) in
  ln ((s ^ 2 + 2 + s * sqrt (s ^ 2 + 4)) / 2) = w.
Proof.
  intros s. destruct (exp_width_of_scaling s) as [-> _].
  pose proof (exp_pos (1 / 2 * w)) as Ha.
  assert (Hs : s = exp (1 / 2 * w) - / exp (1 / 2 * w)).
  { unfold s. now rewrite exp_neg_half. }
  set (a := exp (1 / 2 * w)) in *.
  assert (Hq : sqrt (s ^ 2 + 4) = a + / a).
  { assert (Hi : 0 < / a) by now apply Rinv_0_lt_compat.
    replace (s ^ 2 + 4) with (Rsqr (a + / a)).
    - apply sqrt_Rsqr. lra.
    - unfold Rsqr. rewrite Hs. field. lra. }
  rewrite Hq, Hs. replace ((a + / a + (a - / a)) / 2) with a by lra.
  rewrite ln_square by assumption. unfold a. rewrite ln_exp. lra.
Qed.

(** The window width of a scaling [s] has the scaling [s]. *)
Lemma scaling_of_width_of_scaling (s : R) :
  let w := ln ((s ^ 2 + 2 + s * sqrt (s ^ 2 + 4)) / 2) in
  exp (1 / 2 * w) - exp (- (1 / 2) * w) = s /\ (s <> 0 -> w <> 0).
Proof.
  intros w. destruct (exp_width_of_scaling s) as [Hsq Hpos].
  set (r := (sqrt (s ^ 2 + 4) + s) / 2) in *.
  assert (Hw : w = 2 * ln r).
  { unfold w. rewrite Hsq. now apply ln_square. }
  assert (Ha : exp (1 / 2 * w) = r).
  { rewrite Hw. replace (1 / 2 * (2 * ln r)) with (ln r) by lra.
    now apply exp_ln. }
  pose proof (sqrt_square_plus_four s) as Hq.
  assert (Hi : / r = (sqrt (s ^ 2 + 4) - s) / 2).
  { apply Rmult_eq_reg_l with r; [|lra]. rewrite Rinv_r by lra.
    unfold r. nra. }
  split.
  - rewrite exp_neg_half, Ha, Hi. unfold r. lra.
  - intros Hs Hw0. rewrite Hw0 in Ha.
    replace (1 / 2 * 0) with 0 in Ha by lra. rewrite exp_0 in Ha.
    assert (/ r = 1) by (rewrite <- Ha; apply Rinv_1).
    unfold r in *. lra.
Qed.

Lemma exp_le (x y : R) : x <= y -> exp x <= exp y.
Proof.
  intros [H| ->]; [left; now apply exp_increasing | right; reflexivity].
Qed.

Lemma cos_square_bound (x : R) : 0 <= cos x ^ 2 <= 1.
Proof. pose proof (COS_bound x). nra. Qed.

Lemma Zceil_IZR (z : Z) : Zceil (IZR z) = z.
Proof. apply Zceil_eq. lra. Qed.

Lemma arange_length (stop : R) :
  length (PG.arange stop) = Z.to_nat (Zceil stop).
Proof. unfold PG.arange. now rewrite length_map, length_seq. Qed.

Lemma arange_ceil (stop : R) :
  PG.arange (IZR (Zceil stop)) = PG.arange stop.
Proof. unfold PG.arange. now rewrite Zceil_IZR. Qed.

Lemma between_true (a x b : R) : PG.between a x b = true <-> a < x <= b.
Proof.
  unfold PG.between. destruct (Rlt_dec a x), (Rle_dec x b); split;
    intros H; try reflexivity; try discriminate; try lra.
Qed.

Lemma between_false (a x b : R) :
  PG.between a x b = false <-> (x <= a \/ b < x).
Proof.
  unfold PG.between. destruct (Rlt_dec a x), (Rle_dec x b); split;
    intros H; try reflexivity; try discriminate; try lra.
Qed.

End PoolingGeometryFacts.

(** ** Slices *)

Lemma Zfloor_half (d : Z) : Zfloor (IZR d / 2) = (d / 2)%Z.
Proof.
  apply Zfloor_eq. pose proof (Z.div_mod d 2 ltac:(lia)) as E.
  pose proof (Z.mod_pos_bound d 2 ltac:(lia)) as B.
  assert (Hd : IZR d = (2 * IZR (d / 2) + IZR (d mod 2))%R).
  { rewrite <- mult_IZR, <- plus_IZR. now f_equal. }
  assert (0 <= IZR (d mod 2) <= 1)%R.
  { split; apply IZR_le; lia. }
  lra.
Qed.

Lemma Zceil_half (d : Z) : Zceil (IZR d / 2) = ((d + 1) / 2)%Z.
Proof.
  unfold Zceil. replace (- (IZR d / 2))%R with (IZR (- d) / 2)%R
    by (rewrite opp_IZR; lra).
  rewrite Zfloor_half.
  pose proof (Z.div_mod (- d) 2 ltac:(lia)).
  pose proof (Z.mod_pos_bound (- d) 2 ltac:(lia)).
  pose proof (Z.div_mod (d + 1) 2 ltac:(lia)).
  pose proof (Z.mod_pos_bound (d + 1) 2 ltac:(lia)).
  lia.
Qed.

(** ** Windowing and pooling in one step *)

Section PoolingForwardFacts.

Import Torch Pooling.
Local Open Scope R_scope.

Lemma mapM_inr_iff {T U : Type} (f : T -> result U) (l : list T) (r : list U) :
  mapM f l = inr r <-> Forall2 (fun a b => f a = inr b) l r.
Proof.
  revert r. induction l as [|a l IH]; intros r; cbn [mapM].
  - split; [intros [= <-]; constructor | intros H; now inversion H].
  - split.
    + intros H. destruct (f a) as [e|y] eqn:Ea; cbn [bind] in H; [discriminate|].
      destruct (mapM f l) as [e|ys] eqn:El; cbn [bind ret] in H; [discriminate|].
      injection H as <-. constructor; [assumption | now apply IH].
    + intros H. inversion H as [|? y ? ys Hy Hys]; subst.
      apply IH in Hys. rewrite Hy, Hys. reflexivity.
Qed.

(** [forward] of a tensor, entry by entry, with 3-d windows. *)
Lemma forward_tensor_entries (self : PoolingWindows) (x w0 w : tensor R)
    (idx i j nw k l : nat) :
  windows_at self 0 = inr w0 -> ndim w0 = 3%nat ->
  windows_at self idx = inr w ->
  shape w = [nw; k; l]%nat -> shape x = [i; j; k; l]%nat ->
  exists r,
    forward self (inr x) idx = inr (inr r)
    /\ shape r = [i; j; nw]%nat
    /\ forall a b c, (a < i)%nat -> (b < j)%nat -> (c < nw)%nat ->
         get r [a; b; c]%nat
         = Some (sum_list (map (fun hw => entry 0 x ([a; b]%nat ++ hw)
                                          * entry 0 w ([c]%nat ++ hw))
                               (indices [k; l]%nat))
                 / (if Req_EM_T (window_weight w [c]%nat) 0 then 1
                    else window_weight w [c]%nat)).
Proof.
  intros Hw0 Hn Hw Hsw Hsx. unfold forward, window. cbn [bind].
  rewrite (window_tensor_entries self x w0 w idx i j nw k l Hw0 Hn Hw Hsw Hsx).
  cbn [bind ret pool].
  match goal with
  | |- context [pool_tensor self ?t idx] => set (wx := t)
  end.
  destruct (pool_tensor_entries self wx w idx [i; j]%nat [nw]%nat k l k l Hw Hsw
              eq_refl) as (r & Hr & Hsr & Hget).
  rewrite Hr. cbn [bind ret]. exists r. split; [reflexivity|].
  split; [exact Hsr|]. intros a b c Ha Hb Hc.
  assert (Hab : valid_index [i; j]%nat [a; b]%nat = true) by solve_valid.
  assert (Hcv : valid_index [nw]%nat [c]%nat = true) by solve_valid.
  specialize (Hget _ _ Hab Hcv). cbn [app] in Hget. rewrite Hget.
  f_equal. f_equal. unfold summed_response, wx. rewrite shape_tabulate.
  change [i; j; nw; k; l]%nat with ([i; j; nw]%nat ++ [k; l]%nat).
  rewrite split_last2_app. f_equal. apply map_ext_in. intros hw Hhw.
  pose proof (indices_valid _ _ Hhw) as Hv.
  destruct (valid_index2 _ _ _ Hv) as (y & z & -> & Hy & Hz).
  cbn [app]. rewrite entry_tabulate by solve_valid. reflexivity.
Qed.

Lemma sum_list_le (A : Type) (f g : A -> R) (l : list A) :
  (forall a, In a l -> f a <= g a) ->
  sum_list (map f l) <= sum_list (map g l).
Proof.
  induction l as [|a l IH]; intros H; cbn [map sum_list fold_right]; [lra|].
  unfold sum_list in IH.
  pose proof (H a (or_introl eq_refl)).
  specialize (IH (fun b Hb => H b (or_intror Hb))). lra.
Qed.

Lemma sum_list_map_nonneg (A : Type) (f : A -> R) (l : list A) :
  (forall a, In a l -> 0 <= f a) -> 0 <= sum_list (map f l).
Proof.
  induction l as [|a l IH]; intros H; cbn [map sum_list fold_right]; [lra|].
  unfold sum_list in IH.
  pose proof (H a (or_introl eq_refl)).
  specialize (IH (fun b Hb => H b (or_intror Hb))). lra.
Qed.

Lemma sum_list_scale (A : Type) (c : R) (f : A -> R) (l : list A) :
  sum_list (map (fun a => c * f a) l) = c * sum_list (map f l).
Proof.
  induction l as [|a l IH]; cbn [map sum_list fold_right]; [lra|].
  unfold sum_list in IH. rewrite IH. lra.
Qed.

(** A computation of [window_einsum] that returns needs a 4-d input and a
    first window. *)
Lemma window_einsum_inr (self : PoolingWindows) (v w wx : tensor R) :
  window_einsum self v w = inr wx ->
  ndim v = 4%nat /\ exists w0, windows_at self 0 = inr w0.
Proof.
  unfold window_einsum. destruct (windows_at self 0) as [e|w0]; cbn [bind];
    [discriminate|].
  intros H. split; [|now exists w0].
  unfold einsum_ijkl_wkl, einsum_ijkl_wvkl, ndim in *.
  destruct (shape v) as [|? [|? [|? [|? [|? ?]]]]]; try reflexivity;
    destruct (length (shape w0) =? 3)%nat; try discriminate;
    destruct (length (shape w0) =? 4)%nat; discriminate.
Qed.

Lemma window_item_inr (self : PoolingWindows) (kv kw : (nat * nat) * tensor R) :
  window_item self kv = inr kw <->
  fst kw = fst kv /\ window_tensor self (snd kv) (fst (fst kv)) = inr (snd kw).
Proof.
  unfold window_item, window_tensor.
  destruct (windows_at self (fst (fst kv))) as [e|w] eqn:Ew; cbn [bind].
  - split; [discriminate|]. intros [_ H].
    destruct (windows_at self 0); cbn [bind] in H; [discriminate|].
    destruct (negb (ndim (snd kv) =? 4)%nat); discriminate.
  - destruct (window_einsum self (snd kv) w) as [e|wx] eqn:Ee; cbn [bind ret].
    + split; [discriminate|]. intros [_ H].
      destruct (windows_at self 0); cbn [bind] in H; [discriminate|].
      destruct (negb (ndim (snd kv) =? 4)%nat); [discriminate|].
      cbn [bind] in H. congruence.
    + destruct (window_einsum_inr _ _ _ _ Ee) as [Hn [w0 Hw0]].
      rewrite Hw0, Hn. cbn [bind Nat.eqb negb]. unfold ret.
      split.
      * intros [= <-]. split; reflexivity.
      * intros [Hk [= Hx]]. destruct kw as [k' x']. cbn [fst snd] in *.
        now subst.
Qed.

Lemma pool_dict_cons (self : PoolingWindows) (kv : (nat * nat) * tensor R)
    (wx r : list ((nat * nat) * tensor R)) :
  pool_dict self (kv :: wx) = inr r <->
  exists q qs,
    pool_tensor self (snd kv) (fst (fst kv)) = inr q
    /\ pool_dict self wx = inr qs /\ r = (fst kv, q) :: qs.
Proof.
  unfold pool_dict, pool_tensor. cbn [mapM].
  destruct (windows_at self (fst (fst kv))) as [e|w]; cbn [bind].
  { split; [discriminate | intros (q & qs & H & _); discriminate]. }
  destruct (sum_last2 w) as [e|d]; cbn [bind ret].
  { split; [discriminate | intros (q & qs & H & _); discriminate]. }
  match goal with
  | |- context [mapM ?g wx] => destruct (mapM g wx) as [e|ds]
  end; cbn [bind ret combine mapM fst snd].
  { split; [discriminate | intros (q & qs & _ & H & _); discriminate]. }
  destruct (sum_last2 (snd kv)) as [e|s]; cbn [bind].
  { split; [discriminate | intros (q & qs & H & _); discriminate]. }
  destruct (broadcast2 Rdiv 0 0 s (zero_to_one d)) as [e|q]; cbn [bind ret].
  { split; [discriminate | intros (q & qs & H & _); discriminate]. }
  match goal with
  | |- context [mapM ?h (combine wx ds)] =>
      destruct (mapM h (combine wx ds)) as [e|qs]
  end; cbn [bind ret].
  { split; [discriminate | intros (q' & qs & _ & H & _); discriminate]. }
  split.
  - intros [= <-]. now exists q, qs.
  - intros (q' & qs' & [= <-] & [= <-] & ->). reflexivity.
Qed.

Lemma pool_dict_inr (self : PoolingWindows)
    (wx r : list ((nat * nat) * tensor R)) :
  pool_dict self wx = inr r <->
  Forall2 (fun kv kr => fst kr = fst kv
                        /\ pool_tensor self (snd kv) (fst (fst kv))
                           = inr (snd kr)) wx r.
Proof.
  revert r. induction wx as [|kv wx IH]; intros r.
  - cbn. split; [intros [= <-]; constructor | intros H; now inversion H].
  - rewrite pool_dict_cons. split.
    + intros (q & qs & Hq & Hqs & ->). constructor; [now split | now apply IH].
    + intros H. inversion H as [|? kr ? qs [Hk Hq] Hqs]; subst.
      exists (snd kr), qs. split; [assumption|]. split; [now apply IH|].
      destruct kr; cbn [fst snd] in *. now subst.
Qed.

End PoolingForwardFacts.

(** ** Keeping scales, and the layout of the dictionary *)

Section ScaleFacts.

Context {A : Type}.
Variable self : PS.params.

Lemma filter_all {T : Type} (f : T -> bool) (l : list T) :
  (forall x, In x l -> f x = true) -> filter f l = l.
Proof.
  induction l as [|x l IH]; intros H; [reflexivity|]. cbn [filter].
  rewrite (H x (or_introl eq_refl)). f_equal. apply IH.
  intros y Hy. apply H. now right.
Qed.

(** Every label of the representation is one of [self.scales]. *)
Lemma representation_scales_in_scales (s : label) :
  In s (PS.representation_scales self) -> label_in s (PS.scales self) = true.
Proof.
  intros Hs. pose proof (representation_scales_valid self) as Hv.
  rewrite Forall_forall in Hv. specialize (Hv s Hs).
  apply label_in_In. unfold PS.scales.
  destruct Hv as [->|[->|[->|(k & Hk & ->)]]].
  - left. reflexivity.
  - right. left. reflexivity.
  - apply in_or_app. right. apply in_or_app. right. left. reflexivity.
  - apply in_or_app. right. apply in_or_app. left.
    apply in_map_iff. exists k. split; [reflexivity|].
    apply -> in_rev. apply in_seq. lia.
Qed.

Lemma in_enumerate {T : Type} (l : list T) (a i : nat) (s : T) :
  In (i, s) (combine (seq a (length l)) l)
  <-> a <= i /\ nth_error l (i - a) = Some s.
Proof.
  revert a. induction l as [|x l IH]; intros a; cbn [length seq combine].
  - split; [intros [] | intros [_ H]; destruct (i - a); discriminate].
  - cbn [In]. rewrite IH. split.
    + intros [[= <- <-]|[Ha Hn]].
      * split; [lia|]. now rewrite Nat.sub_diag.
      * split; [lia|]. replace (i - a) with (S (i - S a)) by lia. exact Hn.
    + intros [Ha Hn]. destruct (Nat.eq_dec i a) as [->|Hne].
      * left. rewrite Nat.sub_diag in Hn. cbn in Hn. congruence.
      * right. split; [lia|].
        replace (i - a) with (S (i - S a)) in Hn by lia. exact Hn.
Qed.

(** The statistic of the highpass residual is the last entry. *)
Lemma representation_scales_last :
  exists pre, PS.representation_scales self = pre ++ [PS.residual_highpass].
Proof.
  unfold PS.representation_scales, PS._get_representation_scales.
  destruct (PS.use_true_correlations self); eexists;
    repeat rewrite app_assoc; reflexivity.
Qed.

(** The positions [remove_scales] selects. *)
Lemma kept_positions (keep : list label) (i : nat) :
  In i (map fst (filter (fun '(i, s) => label_in s keep)
                        (enumerate (PS.representation_scales self))))
  <-> exists s, nth_error (PS.representation_scales self) i = Some s
                /\ label_in s keep = true.
Proof.
  unfold enumerate. rewrite in_map_iff. split.
  - intros ([i' s] & <- & H). apply filter_In in H as [Hin Hk].
    apply in_enumerate in Hin as [_ Hn]. rewrite Nat.sub_0_r in Hn.
    now exists s.
  - intros (s & Hn & Hk). exists (i, s). split; [reflexivity|].
    apply filter_In. split; [|assumption].
    apply in_enumerate. rewrite Nat.sub_0_r. split; [lia | assumption].
Qed.

Lemma kept_length (keep : list label) :
  length (map fst (filter (fun '(i, s) => label_in s keep)
                      (enumerate (PS.representation_scales self)))) = count_kept keep (PS.representation_scales self).
Proof. unfold enumerate. apply kept_indices_length. Qed.

(** With no position to keep the index tensor is not of an integer dtype. *)
Lemma remove_scales_none (v : tensor A) (keep : list label) :
  count_kept keep (PS.representation_scales self) = 0 ->
  PS.remove_scales self v keep = inl RuntimeError.
Proof.
  intros H. rewrite <- kept_length in H. apply length_zero_iff_nil in H.
  unfold PS.remove_scales. cbv zeta. rewrite H. reflexivity.
Qed.

Lemma remove_scales_some (v : tensor A) (ld : list nat) (n : nat)
    (keep : list label) :
  shape v = ld ++ [n] ->
  count_kept keep (PS.representation_scales self) <> 0 ->
  PS.remove_scales self v keep
  = if forallb (fun i => i <? n) (map fst (filter (fun '(i, s) => label_in s keep)
                      (enumerate (PS.representation_scales self))))
    then inr (mk (ld ++ [count_kept keep (PS.representation_scales self)])
                 (flat_map (fun r => flat_map (fun i => pick i r) (map fst (filter (fun '(i, s) => label_in s keep)
                      (enumerate (PS.representation_scales self)))))
                           (rows v)))
    else inl IndexError.
Proof.
  intros Hsh H. rewrite <- kept_length in *. unfold PS.remove_scales. cbv zeta.
  destruct (map fst (filter (fun '(i, s) => label_in s keep)
                      (enumerate (PS.representation_scales self)))) as [|i l] eqn:E; [contradiction H; reflexivity|].
  unfold index_select_last. cbn [tensor_of_ints fst snd].
  rewrite Hsh, split_last_app. reflexivity.
Qed.

(** The length of what [remove_scales] returns. *)
Lemma remove_scales_inr_shape (v r : tensor A) (ld : list nat) (n : nat)
    (keep : list label) :
  shape v = ld ++ [n] ->
  PS.remove_scales self v keep = inr r ->
  shape r = ld ++ [count_kept keep (PS.representation_scales self)].
Proof.
  intros Hsh Hr.
  destruct (Nat.eq_dec (count_kept keep (PS.representation_scales self)) 0)
    as [E|E].
  - rewrite (remove_scales_none v keep E) in Hr. discriminate.
  - rewrite (remove_scales_some v ld n keep Hsh E) in Hr.
    destruct (forallb _ _); [|discriminate]. injection Hr as <-. reflexivity.
Qed.

Lemma representation_scales_nonempty :
  length (PS.representation_scales self) <> 0.
Proof.
  destruct representation_scales_last as (pre & ->).
  rewrite length_app. cbn [length]. lia.
Qed.

End ScaleFacts.

Lemma sum_list_sub_const (m : R) (l : list R) :
  Torch.sum_list (map (fun x => x - m)%R l)
  = (Torch.sum_list l - INR (length l) * m)%R.
Proof.
  induction l as [|x l IH]; [simpl; lra|].
  cbn [map length]. rewrite S_INR. unfold Torch.sum_list in *.
  cbn [fold_right]. rewrite IH. lra.
Qed.

Lemma sum_list_ext_combine (l1 l2 : list R) :
  Torch.sum_list (map (fun ab => fst ab * snd ab)%R (combine l1 l2))
  = Torch.sum_list (map (fun ab => fst ab * snd ab)%R (combine l2 l1)).
Proof.
  revert l2. induction l1 as [|x l1 IH]; intros [|y l2]; try reflexivity.
  cbn [combine map fst snd]. unfold Torch.sum_list in *. cbn [fold_right].
  rewrite IH. lra.
Qed.

(** ** Well-formed tensors *)

Lemma get_entry_wf {A : Type} (d : A) (t : tensor A) (idx : list nat) :
  wf t -> valid_index (shape t) idx = true -> get t idx = Some (entry d t idx).
Proof.
  intros Hwf Hv. unfold entry, get. rewrite Hv.
  destruct (nth_error (data t) (offset (shape t) idx)) eqn:E; [reflexivity|].
  apply nth_error_None in E. pose proof (offset_lt _ _ Hv). unfold wf in Hwf. lia.
Qed.

Lemma modulus_nonneg (z : Torch.complex) : (0 <= Torch.modulus z)%R.
Proof. apply sqrt_pos. Qed.

Lemma mean_list_nonneg (l : list R) :
  Forall (fun x => 0 <= x)%R l -> (0 <= Torch.mean_list l)%R.
Proof.
  intros H. unfold Torch.mean_list.
  assert (Hs : (0 <= Torch.sum_list l)%R).
  { induction H as [|x l Hx _ IH]; cbn; [lra|]. unfold Torch.sum_list in IH. lra. }
  destruct l as [|x l].
  - cbn. lra.
  - apply Rmult_le_pos; [assumption|]. left. apply Rinv_0_lt_compat.
    apply lt_0_INR. cbn [length]. lia.
Qed.

Lemma entry_abs_complex (t : tensor Torch.complex) (idx : list nat) :
  entry 0%R (Torch.abs_complex t) idx = Torch.modulus (entry (0, 0)%R t idx).
Proof.
  unfold entry, Torch.abs_complex. rewrite get_map_tensor.
  unfold Torch.complex in *.
  destruct (get t idx); cbn [option_map]; [reflexivity|].
  unfold Torch.modulus. cbn [fst snd].
  replace (0 ^ 2 + 0 ^ 2)%R with 0%R by ring. now rewrite sqrt_0.
Qed.

(** ** Minimum and maximum of a list *)

Module ST := SignalTools.

Section MinMaxFacts.

Local Open Scope R_scope.

Lemma fold_left_Rmin (l : list R) (a : R) :
  fold_left Rmin l a <= a
  /\ (forall y, In y l -> fold_left Rmin l a <= y)
  /\ In (fold_left Rmin l a) (a :: l).
Proof.
  revert a. induction l as [|x l IH]; intros a; cbn [fold_left].
  - split; [lra|]. split; [intros y []|now left].
  - destruct (IH (Rmin a x)) as (H1 & H2 & H3).
    pose proof (Rmin_l a x). pose proof (Rmin_r a x).
    split; [lra|]. split.
    + intros y [<-|Hy]; [lra | now apply H2].
    + destruct H3 as [H3|H3]; [|now right; right].
      rewrite <- H3. unfold Rmin. destruct (Rle_dec a x); [now left|right; now left].
Qed.

Lemma fold_left_Rmax (l : list R) (a : R) :
  a <= fold_left Rmax l a
  /\ (forall y, In y l -> y <= fold_left Rmax l a)
  /\ In (fold_left Rmax l a) (a :: l).
Proof.
  revert a. induction l as [|x l IH]; intros a; cbn [fold_left].
  - split; [lra|]. split; [intros y []|now left].
  - destruct (IH (Rmax a x)) as (H1 & H2 & H3).
    pose proof (Rmax_l a x). pose proof (Rmax_r a x).
    split; [lra|]. split.
    + intros y [<-|Hy]; [lra | now apply H2].
    + destruct H3 as [H3|H3]; [|now right; right].
      rewrite <- H3. unfold Rmax. destruct (Rle_dec a x); [right; now left|now left].
Qed.

Lemma min_list_spec (l : list R) :
  l <> [] ->
  In (Torch.min_list l) l /\ forall y, In y l -> Torch.min_list l <= y.
Proof.
  destruct l as [|a l]; [congruence|]. intros _. cbn [Torch.min_list].
  destruct (fold_left_Rmin l a) as (H1 & H2 & H3). split; [assumption|].
  intros y [<-|Hy]; [assumption | now apply H2].
Qed.

Lemma max_list_spec (l : list R) :
  l <> [] ->
  In (Torch.max_list l) l /\ forall y, In y l -> y <= Torch.max_list l.
Proof.
  destruct l as [|a l]; [congruence|]. intros _. cbn [Torch.max_list].
  destruct (fold_left_Rmax l a) as (H1 & H2 & H3). split; [assumption|].
  intros y [<-|Hy]; [assumption | now apply H2].
Qed.

End MinMaxFacts.

(** ** Polar coordinates *)

Section PolarFacts.

Local Open Scope R_scope.

Lemma sqrt_sum_squares_scaled (x y : R) :
  x <> 0 ->
  sqrt (x ^ 2 + y ^ 2) = Rabs x * sqrt (1 + (y / x)²).
Proof.
  intros Hx. rewrite <- (sqrt_Rsqr_abs x), <- sqrt_mult.
  - f_equal. unfold Rsqr. field. assumption.
  - apply Rle_0_sqr.
  - pose proof (Rle_0_sqr (y / x)). lra.
Qed.

Lemma sqrt_one_plus_sqr_pos (t : R) : 0 < sqrt (1 + t²).
Proof. apply sqrt_lt_R0. pose proof (Rle_0_sqr t). lra. Qed.

Lemma cos_sin_minus_PI (x : R) :
  cos (x - PI) = - cos x /\ sin (x - PI) = - sin x.
Proof.
  rewrite cos_minus, sin_minus, cos_PI, sin_PI. split; ring.
Qed.

(** The point with modulus [sqrt(x^2 + y^2)] and angle [atan2(y, x)] is
    [(x, y)]. *)
Lemma atan2_cos_sin (x y : R) :
  x <> 0 \/ y <> 0 ->
  let a := sqrt (x ^ 2 + y ^ 2) in
  0 < a /\ a * cos (Torch.atan2 y x) = x /\ a * sin (Torch.atan2 y x) = y.
Proof.
  intros Hxy a.
  assert (Ha : 0 < a).
  { apply sqrt_lt_R0. destruct Hxy; nra. }
  split; [exact Ha|]. unfold Torch.atan2.
  pose proof (sqrt_one_plus_sqr_pos (y / x)) as Hq.
  destruct (Rlt_dec 0 x) as [Hx|Hx].
  { unfold a. rewrite sqrt_sum_squares_scaled by lra.
    rewrite Rabs_right by lra. rewrite cos_atan, sin_atan.
    split; field; repeat split; lra. }
  destruct (Rlt_dec x 0) as [Hx'|Hx'].
  { unfold a. rewrite sqrt_sum_squares_scaled by lra.
    rewrite Rabs_left by lra.
    destruct (Rle_dec 0 y).
    - rewrite neg_cos, neg_sin, cos_atan, sin_atan. split; field; repeat split; lra.
    - destruct (cos_sin_minus_PI (atan (y / x))) as [-> ->].
      rewrite cos_atan, sin_atan. split; field; repeat split; lra. }
  assert (x = 0) by lra. subst x.
  assert (Hy : y <> 0) by (destruct Hxy; [lra | assumption]).
  assert (Hay : a = Rabs y).
  { unfold a. replace (0 ^ 2 + y ^ 2) with (Rsqr y) by (unfold Rsqr; ring).
    apply sqrt_Rsqr_abs. }
  destruct (Rlt_dec 0 y) as [Hy0|Hy0].
  - rewrite cos_PI2, sin_PI2, Hay, Rabs_right by lra. split; ring.
  - destruct (Rlt_dec y 0) as [Hy1|Hy1]; [|lra].
    rewrite cos_neg, sin_neg, cos_PI2, sin_PI2, Hay, Rabs_left by lra.
    split; ring.
Qed.

(** The modulus and the angle of the point [a * (cos phi, sin phi)], for an
    angle in [(-pi, pi]]. *)
Lemma atan2_of_polar (a phi : R) :
  0 < a -> - PI < phi <= PI ->
  sqrt ((a * cos phi) ^ 2 + (a * sin phi) ^ 2) = a
  /\ Torch.atan2 (a * sin phi) (a * cos phi) = phi.
Proof.
  intros Ha Hphi. pose proof PI_RGT_0 as Hpi. split.
  { replace ((a * cos phi) ^ 2 + (a * sin phi) ^ 2)
      with (Rsqr a * (Rsqr (sin phi) + Rsqr (cos phi))) by (unfold Rsqr; ring).
    rewrite sin2_cos2, Rmult_1_r. apply sqrt_Rsqr. lra. }
  assert (Hratio : a * sin phi / (a * cos phi) = sin phi / cos phi \/ cos phi = 0).
  { destruct (Req_dec (cos phi) 0) as [E|E]; [now right|left].
    field. split; lra. }
  unfold Torch.atan2.
  destruct (Rlt_dec 0 (a * cos phi)) as [Hx|Hx].
  { assert (Hc : 0 < cos phi) by nra.
    destruct Hratio as [->|E]; [|lra].
    assert (- (PI / 2) < phi < PI / 2).
    { split.
      - destruct (Rlt_dec (- (PI / 2)) phi); [assumption|].
        assert (cos (- phi) <= 0) by (apply cos_le_0; lra).
        rewrite cos_neg in *. lra.
      - destruct (Rlt_dec phi (PI / 2)); [assumption|].
        assert (cos phi <= 0) by (apply cos_le_0; lra). lra. }
    now apply atan_tan. }
  destruct (Rlt_dec (a * cos phi) 0) as [Hx'|Hx'].
  { assert (Hc : cos phi < 0) by nra.
    destruct Hratio as [->|E]; [|lra].
    assert (Hout : PI / 2 < phi \/ phi < - (PI / 2)).
    { destruct (Rlt_dec (PI / 2) phi); [now left|].
      destruct (Rlt_dec phi (- (PI / 2))); [now right|].
      assert (0 <= cos phi) by (apply cos_ge_0; lra). lra. }
    destruct Hout as [Hhi|Hlo].
    - assert (0 <= sin phi) by (apply sin_ge_0; lra).
      destruct (Rle_dec 0 (a * sin phi)) as [_|Hn]; [|nra].
      destruct (cos_sin_minus_PI phi) as [Ec Es].
      replace (sin phi / cos phi) with (tan (phi - PI)).
      + rewrite atan_tan by lra. ring.
      + unfold tan. rewrite Ec, Es. field. lra.
    - assert (sin phi < 0) by (apply sin_lt_0_var; lra).
      destruct (Rle_dec 0 (a * sin phi)) as [Hn|_]; [nra|].
      replace (sin phi / cos phi) with (tan (phi + PI)).
      + rewrite atan_tan by lra. ring.
      + unfold tan. rewrite neg_cos, neg_sin. field. lra. }
  assert (Hc : cos phi = 0) by nra.
  assert (Hcases : phi = PI / 2 \/ phi = - (PI / 2)).
  { destruct (Rlt_dec (PI / 2) phi).
    - assert (cos phi < 0) by (apply cos_lt_0; lra). lra.
    - destruct (Rlt_dec phi (- (PI / 2))).
      + assert (cos (- phi) < 0) by (apply cos_lt_0; lra).
        rewrite cos_neg in *. lra.
      + destruct (Req_dec phi (PI / 2)) as [E|E]; [now left|].
        destruct (Req_dec phi (- (PI / 2))) as [E'|E']; [now right|].
        assert (0 < cos phi) by (apply cos_gt_0; lra). lra. }
  destruct Hcases as [-> | ->].
  - rewrite sin_PI2. destruct (Rlt_dec 0 (a * 1)); [reflexivity | lra].
  - rewrite sin_neg, sin_PI2.
    destruct (Rlt_dec 0 (a * - (1))); [lra|].
    destruct (Rlt_dec (a * - (1)) 0); [reflexivity | lra].
Qed.

Lemma existsb_nonpositive (l : list R) :
  existsb (fun a => if Rle_dec a 0 then true else false) l = true
  <-> exists a, In a l /\ a <= 0.
Proof.
  rewrite existsb_exists. split; intros (a & Hin & H); exists a;
    (split; [assumption|]); destruct (Rle_dec a 0); try assumption;
    try reflexivity; try discriminate; contradiction.
Qed.

End PolarFacts.

(** ** Moments under an affine map *)

Section AffineFacts.

Local Open Scope R_scope.

Lemma sum_list_affine (s t : R) (l : list R) :
  Torch.sum_list (map (fun x => s * x + t) l)
  = s * Torch.sum_list l + INR (length l) * t.
Proof.
  induction l as [|x l IH]; [simpl; lra|].
  cbn [map length]. rewrite S_INR. unfold Torch.sum_list in *.
  cbn [fold_right]. rewrite IH. lra.
Qed.

Lemma mean_list_affine (s t : R) (l : list R) :
  l <> [] ->
  Torch.mean_list (map (fun x => s * x + t) l) = s * Torch.mean_list l + t.
Proof.
  intros Hl. unfold Torch.mean_list. rewrite sum_list_affine, length_map.
  field. apply not_0_INR. destruct l; [congruence | discriminate].
Qed.

Lemma mean_list_scale (c : R) (f : R -> R) (l : list R) :
  Torch.mean_list (map (fun x => c * f x) l) = c * Torch.mean_list (map f l).
Proof.
  unfold Torch.mean_list. rewrite sum_list_scale, !length_map.
  unfold Rdiv. ring.
Qed.

Lemma sum_squares_nonneg (m : R) (l : list R) :
  0 <= Torch.sum_list (map (fun x => (x - m) ^ 2) l).
Proof.
  apply sum_list_map_nonneg. intros x _. apply pow2_ge_0.
Qed.

Lemma var_list_nonneg (l : list R) : 0 <= Torch.var_list l.
Proof.
  unfold Torch.var_list. pose proof (sum_squares_nonneg (Torch.mean_list l) l).
  destruct l as [|x [|y l]].
  - cbn. lra.
  - cbn [map Torch.sum_list fold_right]. unfold Torch.mean_list.
    cbn [Torch.sum_list fold_right length INR].
    replace ((x - (x + 0) / 1) ^ 2 + 0) with 0 by (field_simplify; lra).
    unfold Rdiv. lra.
  - apply Rmult_le_pos; [assumption|]. left. apply Rinv_0_lt_compat.
    cbn [length]. rewrite !S_INR. pose proof (pos_INR (length l)). lra.
Qed.

Lemma var_list_affine (s t : R) (l : list R) :
  l <> [] ->
  Torch.var_list (map (fun x => s * x + t) l) = s ^ 2 * Torch.var_list l.
Proof.
  intros Hl. unfold Torch.var_list.
  rewrite mean_list_affine by assumption. rewrite map_map, length_map.
  assert (E : map (fun x => (s * x + t - (s * Torch.mean_list l + t)) ^ 2) l
              = map (fun x => s ^ 2 * (x - Torch.mean_list l) ^ 2) l).
  { apply map_ext. intros x. ring. }
  rewrite E, sum_list_scale. unfold Rdiv. ring.
Qed.

End AffineFacts.

(** ** Rolling a tensor along an axis *)

Section RollFacts.

Lemma set_nth_length (k v : nat) (l : list nat) :
  length (ST.set_nth k v l) = length l.
Proof.
  revert k. induction l as [|x l IH]; intros [|k]; cbn; try reflexivity.
  now rewrite IH.
Qed.

Lemma nth_set_nth (k v d : nat) (l : list nat) :
  k < length l -> nth k (ST.set_nth k v l) d = v.
Proof.
  revert k. induction l as [|x l IH]; intros [|k] H; cbn in *; try lia.
  apply IH. lia.
Qed.

Lemma set_nth_set_nth (k u v : nat) (l : list nat) :
  ST.set_nth k v (ST.set_nth k u l) = ST.set_nth k v l.
Proof.
  revert k. induction l as [|x l IH]; intros [|k]; cbn; try reflexivity.
  now rewrite IH.
Qed.

Lemma set_nth_nth (k d : nat) (l : list nat) : ST.set_nth k (nth k l d) l = l.
Proof.
  revert k. induction l as [|x l IH]; intros [|k]; cbn; try reflexivity.
  now rewrite IH.
Qed.

Lemma valid_index_nth (sh idx : list nat) (k : nat) :
  valid_index sh idx = true -> k < length sh -> nth k idx 0 < nth k sh 0.
Proof.
  revert idx k. induction sh as [|d sh IH]; intros [|i idx] k Hv Hk;
    cbn in *; try discriminate; try lia.
  apply andb_true_iff in Hv as [Hi Hv]. apply Nat.ltb_lt in Hi.
  destruct k as [|k]; [assumption|]. apply IH; [assumption | lia].
Qed.

Lemma valid_index_set_nth (sh idx : list nat) (k j m : nat) :
  valid_index sh idx = true -> j < m ->
  valid_index (ST.set_nth k m sh) (ST.set_nth k j idx) = true.
Proof.
  revert idx k. induction sh as [|d sh IH]; intros [|i idx] k Hv Hj;
    cbn in *; try discriminate.
  - destruct k; reflexivity.
  - apply andb_true_iff in Hv as [Hi Hv]. destruct k as [|k]; cbn.
    + rewrite Hv, andb_true_r. now apply Nat.ltb_lt.
    + rewrite Hi. cbn. now apply IH.
Qed.

Lemma slice_bound_nat (p n : nat) : p <= n -> slice_bound (Z.of_nat p) n = p.
Proof.
  intros H. unfold slice_bound.
  destruct (Z.of_nat p <? 0)%Z eqn:E; [apply Z.ltb_lt in E; lia|]. lia.
Qed.

Lemma flat_map_seq_blocks (N a d : nat) :
  flat_map (fun i => seq (i * N) N) (seq a d) = seq (a * N) (d * N).
Proof.
  revert a. induction d as [|d IH]; intros a; [reflexivity|].
  cbn [seq flat_map]. rewrite IH.
  replace (S a * N) with (a * N + N) by lia.
  rewrite <- seq_app. reflexivity.
Qed.

Lemma map_add_seq (a s n : nat) :
  map (fun k => a + k) (seq s n) = seq (a + s) n.
Proof.
  revert s. induction n as [|n IH]; intros s; [reflexivity|].
  cbn [seq map]. f_equal. rewrite IH. f_equal. lia.
Qed.

(** The multi-indices of a shape are listed in the order of their offsets. *)
Lemma offsets_indices (sh : list nat) :
  map (offset sh) (indices sh) = seq 0 (numel sh).
Proof.
  induction sh as [|d sh IH]; [reflexivity|].
  cbn [indices numel fold_right]. fold (numel sh).
  rewrite flat_map_concat_map, concat_map, map_map, <- flat_map_concat_map.
  transitivity (flat_map (fun i => seq (i * numel sh) (numel sh)) (seq 0 d)).
  - apply flat_map_ext_in. intros i _. rewrite map_map. cbn [offset].
    rewrite <- (map_map (offset sh) (fun k => i * numel sh + k)), IH.
    rewrite map_add_seq. f_equal. lia.
  - apply (flat_map_seq_blocks (numel sh) 0 d).
Qed.

(** A well-formed tensor is the table of its entries. *)
Lemma tabulate_entry_wf (X : tensor R) :
  wf X -> tabulate (shape X) (entry 0%R X) = X.
Proof.
  intros Hwf. destruct X as [sh d]. unfold wf in Hwf. cbn [shape data] in *.
  unfold tabulate. f_equal.
  transitivity (map (fun k => nth k d 0%R) (map (offset sh) (indices sh))).
  - rewrite map_map. apply map_ext_in. intros idx Hin.
    apply (entry_nth (mk sh d)). cbn [shape]. now apply indices_valid.
  - rewrite offsets_indices, <- Hwf. clear.
    induction d as [|x d IH]; [reflexivity|].
    cbn [length seq map nth]. f_equal.
    rewrite <- seq_shift, map_map. exact IH.
Qed.

(** What [roll_n] returns for a shift between 0 and the size of the axis. *)
Lemma roll_n_tabulate (X : tensor R) (axis p : nat) :
  axis < ndim X -> p <= ST.size X axis ->
  ST.roll_n X axis (Z.of_nat p)
  = inr (tabulate (shape X)
           (fun idx => entry 0%R X
                         (ST.set_nth axis
                            ((nth axis idx 0 + p) mod ST.size X axis) idx))).
Proof.
  intros Hax Hp. unfold ST.roll_n, ST.slice_axis, ST.cat2_axis.
  unfold ndim in *. apply Nat.ltb_lt in Hax. rewrite Hax.
  apply Nat.ltb_lt in Hax.
  assert (H0 : slice_bound 0 (ST.size X axis) = 0)
    by (apply (slice_bound_nat 0); lia).
  rewrite H0, (slice_bound_nat p _ Hp), Nat.sub_0_r.
  cbn [shape tabulate]. rewrite !set_nth_length.
  apply Nat.ltb_lt in Hax. rewrite Hax. apply Nat.ltb_lt in Hax.
  rewrite !set_nth_set_nth, shape_eqb_refl.
  set (s := ST.size X axis) in *.
  match goal with
  | |- context [tabulate (ST.set_nth axis (s - p) (shape X)) ?F] =>
      set (B := tabulate (ST.set_nth axis (s - p) (shape X)) F)
  end.
  match goal with
  | |- context [tabulate (ST.set_nth axis p (shape X)) ?F] =>
      set (Fr := tabulate (ST.set_nth axis p (shape X)) F)
  end.
  assert (HsB : ST.size B axis = s - p)
    by (unfold ST.size, B; cbn [shape tabulate]; now apply nth_set_nth).
  assert (HsF : ST.size Fr axis = p)
    by (unfold ST.size, Fr; cbn [shape tabulate]; now apply nth_set_nth).
  rewrite HsB, HsF.
  replace (s - p + p) with s by lia.
  unfold ret. f_equal.
  replace (ST.set_nth axis s (shape X)) with (shape X)
    by (symmetry; apply set_nth_nth).
  apply tabulate_ext. intros idx Hv.
  pose proof (valid_index_nth _ _ axis Hv Hax) as Hi. fold (ST.size X axis) in Hi.
  fold s in Hi. set (i := nth axis idx 0) in *.
  pose proof (valid_index_length _ _ Hv) as Hlen.
  destruct (i <? s - p) eqn:E.
  - apply Nat.ltb_lt in E.
    assert (Hvb : valid_index (ST.set_nth axis (s - p) (shape X)) idx = true).
    { rewrite <- (set_nth_nth axis 0 idx). fold i.
      now apply valid_index_set_nth. }
    unfold B. rewrite entry_tabulate by exact Hvb. fold i.
    rewrite Nat.mod_small by lia. reflexivity.
  - apply Nat.ltb_ge in E.
    assert (Hvf : valid_index (ST.set_nth axis p (shape X))
                    (ST.set_nth axis (i - (s - p)) idx) = true).
    { apply valid_index_set_nth; [assumption | lia]. }
    unfold Fr. rewrite entry_tabulate by exact Hvf.
    rewrite nth_set_nth by lia. rewrite Nat.add_0_r, set_nth_set_nth.
    do 2 f_equal.
    replace (i + p) with ((i - (s - p)) + 1 * s) by lia.
    rewrite Nat.Div0.mod_add. symmetry. apply Nat.mod_small. lia.
Qed.

(** Rolling by [p] and then by [q] along the same axis is the identity when
    [p + q] is the size of the axis. *)
Lemma roll_n_roll_n (X : tensor R) (axis p q : nat) :
  wf X -> axis < ndim X -> p + q = ST.size X axis ->
  exists Y,
    ST.roll_n X axis (Z.of_nat p) = inr Y /\ shape Y = shape X /\ wf Y
    /\ ST.roll_n Y axis (Z.of_nat q) = inr X.
Proof.
  intros Hwf Hax Hpq.
  rewrite (roll_n_tabulate X axis p Hax) by lia.
  eexists. split; [reflexivity|]. split; [reflexivity|].
  split; [apply tabulate_wf|].
  unfold ST.size, ndim in *.
  rewrite roll_n_tabulate;
    [| unfold ndim; cbn [shape tabulate]; assumption
     | unfold ST.size; cbn [shape tabulate]; lia ].
  unfold ST.size. cbn [shape tabulate].
  unfold ret. f_equal.
  transitivity (tabulate (shape X) (entry 0%R X));
    [|now apply tabulate_entry_wf].
  apply tabulate_ext. intros idx Hv.
  pose proof (valid_index_nth _ _ axis Hv Hax) as Hi.
  pose proof (valid_index_length _ _ Hv) as Hlen.
  set (s := nth axis (shape X) 0) in *. set (i := nth axis idx 0) in *.
  assert (Hv' : valid_index (shape X) (ST.set_nth axis ((i + q) mod s) idx) = true).
  { rewrite <- (set_nth_nth axis 0 (shape X)). fold s.
    apply valid_index_set_nth; [assumption|]. apply Nat.mod_upper_bound. lia. }
  rewrite entry_tabulate by exact Hv'.
  rewrite nth_set_nth by lia. rewrite set_nth_set_nth.
  rewrite Nat.Div0.add_mod_idemp_l.
  replace (i + q + p) with (i + 1 * s) by lia.
  rewrite Nat.Div0.mod_add, Nat.mod_small by lia.
  unfold i. now rewrite set_nth_nth.
Qed.

Lemma ifftshift_loop_app (l1 l2 : list nat) (r i r1 i1 : tensor R) :
  ST.ifftshift_loop l1 r i = inr (r1, i1) ->
  ST.ifftshift_loop (l1 ++ l2) r i = ST.ifftshift_loop l2 r1 i1.
Proof.
  revert r i. induction l1 as [|d l1 IH]; intros r i H; cbn in *.
  - now injection H as -> ->.
  - destruct (ST.roll_n r d _) as [e|r']; cbn [bind] in *; [discriminate|].
    destruct (ST.roll_n i d _) as [e|i']; cbn [bind] in *; [discriminate|].
    now apply IH.
Qed.

Lemma half_shifts (s : nat) :
  (if negb (s mod 2 =? 0) then s / 2 + 1 else s / 2) + s / 2 = s.
Proof.
  pose proof (Nat.div_mod_eq s 2). pose proof (Nat.mod_upper_bound s 2).
  destruct (s mod 2 =? 0) eqn:E; cbn [negb].
  - apply Nat.eqb_eq in E. lia.
  - apply Nat.eqb_neq in E. lia.
Qed.

(** The loop of [batch_ifftshift2d] over the reversed dimensions undoes the
    loop of [batch_fftshift2d]. *)
Lemma shift_loops_inverse (sh dims : list nat) :
  Forall (fun d => d < length sh) dims ->
  forall r i : tensor R,
    shape r = sh -> shape i = sh -> wf r -> wf i ->
    exists r' i',
      ST.fftshift_loop dims r i = inr (r', i')
      /\ shape r' = sh /\ shape i' = sh /\ wf r' /\ wf i'
      /\ ST.ifftshift_loop (rev dims) r' i' = inr (r, i).
Proof.
  induction 1 as [|d dims Hd _ IH]; intros r i Hsr Hsi Hwr Hwi.
  - exists r, i. repeat split; assumption || reflexivity.
  - cbn [ST.fftshift_loop rev].
    set (p := if negb (ST.size r d mod 2 =? 0) then ST.size r d / 2 + 1
              else ST.size r d / 2).
    assert (Hsz : ST.size i d = ST.size r d)
      by (unfold ST.size; now rewrite Hsr, Hsi).
    assert (Hp : p + ST.size r d / 2 = ST.size r d) by apply half_shifts.
    destruct (roll_n_roll_n r d p (ST.size r d / 2) Hwr) as (r1 & Hr1 & Hsr1 & Hwr1 & Hback_r);
      [unfold ndim; rewrite Hsr; exact Hd | exact Hp |].
    destruct (roll_n_roll_n i d p (ST.size r d / 2) Hwi) as (i1 & Hi1 & Hsi1 & Hwi1 & Hback_i);
      [unfold ndim; rewrite Hsi; exact Hd | rewrite Hsz; exact Hp |].
    rewrite Hr1, Hi1. cbn [bind].
    destruct (IH r1 i1) as (r' & i' & Hloop & Hsr' & Hsi' & Hwr' & Hwi' & Hinv);
      try congruence.
    exists r', i'. repeat split; try assumption.
    rewrite (ifftshift_loop_app (rev dims) [d] r' i' r1 i1 Hinv).
    cbn [ST.ifftshift_loop].
    assert (E1 : ST.size r1 d = ST.size r d)
      by (unfold ST.size; now rewrite Hsr1).
    assert (E2 : ST.size i1 d = ST.size r d)
      by (unfold ST.size; rewrite Hsi1; exact Hsz).
    rewrite E1, E2, Hback_r. cbn [bind]. rewrite Hback_i. reflexivity.
Qed.

(** Unbinding a well-formed tensor whose last dimension has two entries, and
    stacking the two parts again. *)
Lemma stack_unbind_pair (x : tensor R) (sh : list nat) :
  shape x = sh ++ [2] -> wf x ->
  exists r i,
    ST.unbind_pair x = inr (r, i)
    /\ shape r = sh /\ shape i = sh /\ wf r /\ wf i
    /\ stack_last [r; i] = inr x.
Proof.
  intros Hs Hwf. unfold ST.unbind_pair. rewrite Hs, split_last_app.
  cbn [Nat.eqb].
  rewrite (index_last_block x sh 2 Hs 0), (index_last_block x sh 2 Hs 1) by lia.
  cbn [bind ret]. do 2 eexists. split; [reflexivity|].
  assert (Hblk : forall k, k < 2 -> wf (block sh [] k 1 x)).
  { intros k Hk. unfold wf, block. cbn [shape data]. rewrite app_nil_r.
    rewrite (flat_map_constant_length (c := 1)).
    - rewrite (rows_length x sh 2 Hs). lia.
    - intros r Hr. pose proof (rows_row_length x sh 2 Hs Hwf) as HF.
      rewrite Forall_forall in HF. specialize (HF r Hr). cbn beta in HF.
      rewrite length_firstn, length_skipn. lia. }
  split; [unfold block; cbn [shape]; apply app_nil_r|].
  split; [unfold block; cbn [shape]; apply app_nil_r|].
  split; [apply Hblk; lia|]. split; [apply Hblk; lia|].
  pose proof (stack_block x sh 2 Hs Hwf 0 2 ltac:(lia) ltac:(lia)) as Hst.
  cbn [seq map Nat.add] in Hst. rewrite Hst. f_equal.
  apply (block_full x sh 2 Hs Hwf).
Qed.

Lemma chunks_flat_map_seq {T : Type} (g : nat -> list T) (m a N : nat) :
  (forall p, In p (seq a N) -> length (g p) = m) ->
  chunks N m (flat_map g (seq a N)) = map g (seq a N).
Proof.
  revert a. induction N as [|N IH]; intros a Hlen; [reflexivity|].
  cbn [seq flat_map chunks map].
  assert (length (g a) = m) as Ha by (apply Hlen; left; reflexivity).
  rewrite firstn_app, skipn_app, Ha, Nat.sub_diag, firstn_all2, skipn_all2
    by lia.
  cbn [firstn skipn app]. rewrite app_nil_r. f_equal. apply IH.
  intros p Hp. apply Hlen. now right.
Qed.

Lemma pick_app_one (a b : list R) :
  length a = 1 -> length b = 1 ->
  pick 0 (a ++ b) = a /\ pick 1 (a ++ b) = b.
Proof.
  destruct a as [|x [|? ?]], b as [|y [|? ?]]; try discriminate.
  intros _ _. split; reflexivity.
Qed.

(** Stacking two well-formed tensors of one shape, and unbinding the
    result. *)
Lemma unbind_stack_pair (r i : tensor R) (sh : list nat) :
  shape r = sh -> shape i = sh -> wf r -> wf i ->
  exists y,
    stack_last [r; i] = inr y /\ shape y = sh ++ [2] /\ wf y
    /\ ST.unbind_pair y = inr (r, i).
Proof.
  intros Hsr Hsi Hwr Hwi. unfold stack_last.
  rewrite Hsr. cbn [forallb]. rewrite Hsr, Hsi, shape_eqb_refl. cbn [andb].
  unfold ret. eexists. split; [reflexivity|]. cbn [shape length].
  split; [reflexivity|].
  set (g := fun p : nat => flat_map (fun t : tensor R => pick p (data t)) [r; i]).
  assert (Hg : forall p, p < numel sh ->
             g p = pick p (data r) ++ pick p (data i)
             /\ length (pick p (data r)) = 1 /\ length (pick p (data i)) = 1).
  { intros p Hp. unfold g. cbn [flat_map]. rewrite app_nil_r.
    split; [reflexivity|]. unfold wf in *. rewrite Hsr in Hwr. rewrite Hsi in Hwi.
    split; apply pick_length; lia. }
  assert (Hlen : forall p, In p (seq 0 (numel sh)) -> length (g p) = 2).
  { intros p Hp. apply in_seq in Hp. destruct (Hg p) as (-> & H1 & H2); [lia|].
    rewrite length_app. lia. }
  split.
  { unfold wf. cbn [shape data]. fold g.
    rewrite (flat_map_constant_length (c := 2)) by exact Hlen.
    rewrite length_seq, numel_app. cbn [numel fold_right]. lia. }
  unfold ST.unbind_pair. cbn [shape]. rewrite split_last_app. cbn [Nat.eqb].
  unfold index_last. cbn [shape]. rewrite split_last_app. cbn [Nat.ltb Nat.leb].
  cbn [bind ret]. unfold rows. cbn [shape data]. rewrite split_last_app.
  fold g.
  assert (Hrows : chunks (numel sh) 2 (flat_map g (seq 0 (numel sh)))
                  = map g (seq 0 (numel sh)))
    by (apply chunks_flat_map_seq; exact Hlen).
  rewrite Hrows, !flat_map_after_map. unfold ret. f_equal. f_equal.
  - transitivity (mk sh (data r)); [|rewrite <- Hsr; apply tensor_eta].
    f_equal.
    transitivity (flat_map (fun p => pick p (data r)) (seq 0 (numel sh))).
    + apply flat_map_ext_in. intros p Hp. apply in_seq in Hp.
      destruct (Hg p) as (-> & H1 & H2); [lia|].
      now apply pick_app_one.
    + rewrite flat_map_pick_seq. cbn [skipn]. unfold wf in Hwr.
      rewrite Hsr in Hwr. rewrite <- Hwr. apply firstn_all.
  - transitivity (mk sh (data i)); [|rewrite <- Hsi; apply tensor_eta].
    f_equal.
    transitivity (flat_map (fun p => pick p (data i)) (seq 0 (numel sh))).
    + apply flat_map_ext_in. intros p Hp. apply in_seq in Hp.
      destruct (Hg p) as (-> & H1 & H2); [lia|].
      now apply pick_app_one.
    + rewrite flat_map_pick_seq. cbn [skipn]. unfold wf in Hwi.
      rewrite Hsi in Hwi. rewrite <- Hwi. apply firstn_all.
Qed.

End RollFacts.

(** ** The polar angle windows tile the circle *)

Section AngleWindowFacts.

Local Open Scope R_scope.

Lemma sum_list_app (l1 l2 : list R) :
  Torch.sum_list (l1 ++ l2) = Torch.sum_list l1 + Torch.sum_list l2.
Proof.
  unfold Torch.sum_list.
  induction l1 as [|x l1 IH]; cbn [app fold_right]; [lra|]. rewrite IH. lra.
Qed.

(** A sum whose terms vanish but at the positions [a] and [b]. *)
Lemma sum_seq_two (f : nat -> R) (a b N : nat) :
  a <> b ->
  (forall n, (n < N)%nat -> n <> a -> n <> b -> f n = 0) ->
  Torch.sum_list (map f (seq 0 N))
  = (if (a <? N)%nat then f a else 0) + (if (b <? N)%nat then f b else 0).
Proof.
  intros Hab. induction N as [|N IH]; intros Hz; [cbn; lra|].
  rewrite seq_S, map_app, sum_list_app. cbn [map Nat.add Torch.sum_list fold_right].
  rewrite IH by (intros n Hn; apply Hz; lia).
  destruct (Nat.eq_dec N a) as [->|Ha].
  - rewrite Nat.ltb_irrefl.
    destruct (Nat.ltb_spec a (S a)); [|lia].
    destruct (Nat.ltb_spec b a), (Nat.ltb_spec b (S a));
      try (exfalso; lia); lra.
  - destruct (Nat.eq_dec N b) as [->|Hb].
    + rewrite Nat.ltb_irrefl.
      destruct (Nat.ltb_spec b (S b)); [|lia].
      destruct (Nat.ltb_spec a b), (Nat.ltb_spec a (S b));
        try (exfalso; lia); lra.
    + rewrite (Hz N) by lia.
      destruct (Nat.ltb_spec a N), (Nat.ltb_spec a (S N)),
               (Nat.ltb_spec b N), (Nat.ltb_spec b (S N));
        try (exfalso; lia); lra.
Qed.

Lemma sum_seq_one (f : nat -> R) (a N : nat) :
  (a < N)%nat ->
  (forall n, (n < N)%nat -> n <> a -> f n = 0) ->
  Torch.sum_list (map f (seq 0 N)) = f a.
Proof.
  intros Ha Hz. rewrite (sum_seq_two f a N N) by (try lia; intros; apply Hz; lia).
  apply Nat.ltb_lt in Ha. rewrite Ha, Nat.ltb_irrefl. lra.
Qed.

Variable t : R.
Hypothesis Ht : 0 < t <= 1.

(** The window of [mother_window], moved so that it rises on [(-t, 0]], is
    1 on [(0, 1 - t]] and falls on [(1 - t, 1]]. *)
Let hv (v : R) : R := mother_window_value (v - (1 - t) / 2) t.

Lemma mother_window_total (x : R) :
  exists o, PG.mother_window x t = inr o.
Proof.
  unfold PG.mother_window. destruct (Rlt_dec 1 t); [lra|].
  destruct (Rlt_dec t 0); [lra|].
  repeat match goal with
         | |- context [if ?b then _ else _] => destruct b
         end; eexists; reflexivity.
Qed.

Lemma hv_outside (v : R) : v <= - t \/ 1 < v -> hv v = 0.
Proof.
  intros Hv. unfold hv, mother_window_value, PG.mother_window.
  destruct (Rlt_dec 1 t); [lra|]. destruct (Rlt_dec t 0); [lra|].
  rewrite (proj2 (between_false _ _ _)) by lra.
  rewrite (proj2 (between_false _ _ _)) by lra.
  rewrite (proj2 (between_false _ _ _)) by lra.
  reflexivity.
Qed.

Lemma hv_plateau (v : R) : 0 <= v <= 1 - t -> hv v = 1.
Proof.
  intros Hv. unfold hv, mother_window_value, PG.mother_window.
  destruct (Rlt_dec 1 t); [lra|]. destruct (Rlt_dec t 0); [lra|].
  destruct (Req_dec v 0) as [->|Hv0].
  - rewrite (proj2 (between_true _ _ _)) by lra. cbn [ret nan_to_zero].
    replace (PI / 2 * ((0 - (1 - t) / 2 - (t - 1) / 2) / t)) with 0
      by (field; lra).
    rewrite cos_0. lra.
  - rewrite (proj2 (between_false _ _ _)) by lra.
    rewrite (proj2 (between_true _ _ _)) by lra. reflexivity.
Qed.

Lemma hv_overlap (v : R) : 1 - t < v <= 1 -> hv v + hv (v - 1) = 1.
Proof.
  intros Hv. unfold hv, mother_window_value, PG.mother_window.
  destruct (Rlt_dec 1 t); [lra|]. destruct (Rlt_dec t 0); [lra|].
  rewrite (proj2 (between_false _ (v - (1 - t) / 2) _)) by lra.
  rewrite (proj2 (between_false _ (v - (1 - t) / 2) _)) by lra.
  rewrite (proj2 (between_true _ (v - (1 - t) / 2) _)) by lra.
  rewrite (proj2 (between_true _ (v - 1 - (1 - t) / 2) _)) by lra.
  cbn [ret nan_to_zero].
  replace ((v - 1 - (1 - t) / 2 - (t - 1) / 2) / t)
    with ((v - (1 - t) / 2 - (1 + t) / 2) / t) by (field; lra).
  lra.
Qed.

Lemma INR_succ_le (n m : nat) : (n < m)%nat -> INR n + 1 <= INR m.
Proof. intros H. rewrite <- S_INR. apply le_INR. lia. Qed.

(** The windows around the circle sum to one at every angle: [u] is the
    angle in units of the window width, and the first window reads the
    angles beyond half the circle one turn back. *)
Lemma circle_sum (N : nat) (u : R) :
  (2 <= N)%nat -> 0 <= u <= INR N ->
  Torch.sum_list
    (map (fun n => if (n =? 0)%nat
                   then hv (if Rlt_dec (INR N / 2) u then u - INR N else u)
                   else hv (u - INR n))
         (seq 0 N)) = 1.
Proof.
  intros HN Hu.
  assert (HN2 : 2 <= INR N) by (apply (le_INR 2); exact HN).
  set (f := fun n => if (n =? 0)%nat
                     then hv (if Rlt_dec (INR N / 2) u then u - INR N else u)
                     else hv (u - INR n)).
  assert (Hf : forall n, n <> 0%nat -> f n = hv (u - INR n)).
  { intros n Hn. unfold f. apply Nat.eqb_neq in Hn. now rewrite Hn. }
  destruct (Req_dec u 0) as [Hu0|Hu0].
  { (* the angle 0 *)
    rewrite (sum_seq_one f 0 N) by
      (try lia; intros n Hn Hn0; rewrite Hf by assumption;
       apply hv_outside; left;
       pose proof (INR_succ_le 0 n ltac:(lia)) as Hle; cbn [INR] in Hle; lra).
    unfold f. cbn [Nat.eqb]. destruct (Rlt_dec (INR N / 2) u); [lra|].
    apply hv_plateau. lra. }
  (* the window [m] with [m < u <= m + 1] *)
  set (m := Z.to_nat (Zceil u - 1)).
  pose proof (Zceil_bound u) as Hc.
  assert (Hcpos : (0 < Zceil u)%Z).
  { apply lt_IZR. lra. }
  assert (Hm : INR m = IZR (Zceil u) - 1).
  { unfold m. rewrite INR_IZR_INZ, Z2Nat.id by lia. now rewrite minus_IZR. }
  assert (Hmu : INR m < u <= INR m + 1) by lra.
  assert (HmN : (m < N)%nat).
  { apply INR_lt. lra. }
  assert (Hlow : forall n, (n < m)%nat -> 1 < u - INR n).
  { intros n Hn. pose proof (INR_succ_le n m Hn). lra. }
  assert (Hzero : f 0%nat = 0 \/ m = 0%nat \/ (S m = N /\ INR m + 1 - t < u)).
  { destruct (Nat.eq_dec m 0) as [E|E]; [now right; left|].
    pose proof (INR_succ_le 0 m ltac:(lia)) as H1. cbn [INR] in H1.
    destruct (Nat.eq_dec (S m) N) as [E'|E'].
    - destruct (Rle_dec u (INR m + 1 - t)) as [Hle|Hgt];
        [|right; right; split; [assumption | lra]].
      left. unfold f. cbn [Nat.eqb].
      destruct (Rlt_dec (INR N / 2) u); apply hv_outside.
      + left. rewrite <- E', S_INR. lra.
      + right. lra.
    - left. unfold f. cbn [Nat.eqb].
      pose proof (INR_succ_le (S m) N ltac:(lia)) as H2. rewrite S_INR in H2.
      destruct (Rlt_dec (INR N / 2) u); apply hv_outside.
      + left. lra.
      + right. lra. }
  destruct (Rle_dec u (INR m + 1 - t)) as [Hplat|Hfall].
  { (* on the plateau of the window [m] *)
    rewrite (sum_seq_one f m N HmN).
    - destruct (Nat.eq_dec m 0) as [E|E].
      + unfold f. rewrite E in *. cbn [Nat.eqb INR] in *.
        destruct (Rlt_dec (INR N / 2) u); [lra|]. apply hv_plateau. lra.
      + rewrite Hf by assumption. apply hv_plateau. lra.
    - intros n Hn Hnm. destruct (Nat.eq_dec n 0) as [->|Hn0].
      + destruct Hzero as [H|[H|[_ H]]]; [assumption | lia | lra].
      + rewrite Hf by assumption. apply hv_outside.
        destruct (Nat.lt_ge_cases n m) as [Hlt|Hge].
        * right. now apply Hlow.
        * left. pose proof (INR_succ_le m n ltac:(lia)). lra. }
  assert (Hfall' : INR m + 1 - t < u) by lra. clear Hfall.
  destruct (Nat.eq_dec (S m) N) as [Elast|Elast].
  - (* the last window falls while the first one rises *)
    assert (Hm1 : (1 <= m)%nat) by lia.
    rewrite (sum_seq_two f 0 m N) by
      (try lia; intros n Hn Hn0 Hnm; rewrite Hf by assumption;
       apply hv_outside; right; apply Hlow; lia).
    replace (0 <? N)%nat with true by (symmetry; apply Nat.ltb_lt; lia).
    replace (m <? N)%nat with true by (symmetry; apply Nat.ltb_lt; lia).
    rewrite (Hf m) by lia. unfold f. cbn [Nat.eqb].
    assert (HNm : INR N = INR m + 1) by (rewrite <- Elast, S_INR; reflexivity).
    pose proof (INR_succ_le 0 m ltac:(lia)) as H1. cbn [INR] in H1.
    destruct (Rlt_dec (INR N / 2) u); [|lra].
    replace (u - INR N) with (u - INR m - 1) by lra.
    rewrite Rplus_comm. apply hv_overlap. lra.
  - (* the window [m] falls while the window [m + 1] rises *)
    rewrite (sum_seq_two f m (S m) N).
    + replace (m <? N)%nat with true by (symmetry; apply Nat.ltb_lt; lia).
      replace (S m <? N)%nat with true by (symmetry; apply Nat.ltb_lt; lia).
      rewrite (Hf (S m)) by lia. rewrite S_INR.
      assert (f m = hv (u - INR m)) as ->.
      { destruct (Nat.eq_dec m 0) as [E|E]; [|now apply Hf].
        unfold f. rewrite E in *. cbn [Nat.eqb INR] in *.
        destruct (Rlt_dec (INR N / 2) u); [lra|]. f_equal. lra. }
      replace (u - (INR m + 1)) with (u - INR m - 1) by lra.
      apply hv_overlap. lra.
    + lia.
    + intros n Hn Hnm Hnm1. destruct (Nat.eq_dec n 0) as [->|Hn0].
      * destruct Hzero as [H|[H|[H _]]]; [assumption | lia | lia].
      * rewrite Hf by assumption. apply hv_outside.
        destruct (Nat.lt_ge_cases n m) as [Hlt|Hge].
        -- right. now apply Hlow.
        -- left. pose proof (INR_succ_le (S m) n ltac:(lia)) as H2.
           rewrite S_INR in H2. lra.
Qed.

End AngleWindowFacts.

Section AngleWindowList.

Local Open Scope R_scope.

Lemma mapM_pure {T U : Type} (f : T -> result U) (g : T -> U) (l : list T) :
  (forall x, In x l -> f x = inr (g x)) -> mapM f l = inr (map g l).
Proof.
  induction l as [|x l IH]; intros H; [reflexivity|]. cbn [mapM map].
  rewrite (H x (or_introl eq_refl)), IH by (intros y Hy; apply H; now right).
  reflexivity.
Qed.

(** [mother_window] of an array, for a transition region width in [0, 1]. *)
Lemma mother_window_array_total (t : R) (l : list R) :
  0 <= t <= 1 ->
  PG.mother_window_array l t
  = inr (map (fun x => match PG.mother_window x t with
                       | inr o => o
                       | inl _ => None
                       end) l).
Proof.
  intros Ht. unfold PG.mother_window_array.
  destruct (Rlt_dec 1 t); [lra|]. destruct (Rlt_dec t 0); [lra|].
  apply mapM_pure. intros x _. unfold PG.mother_window.
  destruct (Rlt_dec 1 t); [lra|]. destruct (Rlt_dec t 0); [lra|].
  repeat match goal with
         | |- context [if ?b then _ else _] => destruct b
         end; reflexivity.
Qed.

Lemma all_nan_column (w : list (option R)) (k : nat) :
  PG.all_nan w = true -> nan_to_zero (nth k w None) = 0.
Proof.
  unfold PG.all_nan. intros H. rewrite forallb_forall in H.
  destruct (nth_in_or_default k w None) as [Hin | ->]; [|reflexivity].
  specialize (H _ Hin). destruct (nth k w None); [discriminate | reflexivity].
Qed.

(** Dropping the windows that are NaN everywhere does not change the sums. *)
Lemma column_sum_filter (ws : list (list (option R))) (k : nat) :
  column_sum (filter (fun i => negb (PG.all_nan i)) ws) k = column_sum ws k.
Proof.
  unfold column_sum. induction ws as [|w ws IH]; [reflexivity|].
  cbn [filter map]. destruct (PG.all_nan w) eqn:E; cbn [negb map].
  - unfold Torch.sum_list in *. cbn [fold_right].
    rewrite (all_nan_column w k E), IH. lra.
  - unfold Torch.sum_list in *. cbn [fold_right]. now rewrite IH.
Qed.

Lemma filter_length_le {T : Type} (f : T -> bool) (l : list T) :
  (length (filter f l) <= length l)%nat.
Proof.
  induction l as [|x l IH]; [apply Nat.le_refl|]. cbn [filter].
  destruct (f x); cbn [length]; lia.
Qed.

(** The samples of [np.linspace(0, 2 pi, steps)]. *)
Lemma linspace_angle (steps k : nat) :
  (k < steps)%nat ->
  exists th, nth_error (PG.linspace 0 (2 * PI) steps) k = Some th
             /\ 0 <= th <= 2 * PI.
Proof.
  intros Hk. unfold PG.linspace. eexists. split.
  - rewrite nth_error_map, nth_error_seq.
    replace (k <? steps)%nat with true by (symmetry; apply Nat.ltb_lt; lia).
    reflexivity.
  - pose proof PI_RGT_0 as Hpi. cbn [Nat.add]. rewrite Rminus_0_r, Rplus_0_l.
    destruct k as [|k]; [cbn [INR]; lra|].
    assert (Hd : 0 < INR (steps - 1)) by (apply lt_0_INR; lia).
    assert (Hle : INR (S k) <= INR (steps - 1)) by (apply le_INR; lia).
    pose proof (pos_INR (S k)) as Hp.
    assert (0 <= INR (S k) / INR (steps - 1) <= 1).
    { split.
      - apply Rmult_le_pos; [assumption|]. left. now apply Rinv_0_lt_compat.
      - apply Rmult_le_reg_r with (INR (steps - 1)); [assumption|].
        unfold Rdiv. rewrite Rmult_assoc, Rinv_l by lra. lra. }
    replace (INR (S k) * (2 * PI / INR (steps - 1)))
      with (2 * PI * (INR (S k) / INR (steps - 1))) by (field; lra).
    nra.
Qed.

Lemma int_INR (N : nat) : PG.int (INR N) = Z.of_nat N.
Proof.
  unfold PG.int. pose proof (pos_INR N).
  destruct (Rle_dec 0 (INR N)); [|lra].
  rewrite INR_IZR_INZ. apply ZfloorZ.
Qed.

End AngleWindowList.

(** ** The windows along the eccentricity *)

Section EccentricityWindowFacts.

Local Open Scope R_scope.

Variable t : R.
Hypothesis Ht : 0 < t <= 1.

(** Windows side by side on a line sum to one between the plateau of the
    first and the plateau of the last: [u] is the position in units of the
    window width. *)
Lemma line_sum (K : nat) (u : R) :
  0 <= u <= INR K - t ->
  Torch.sum_list
    (map (fun n => mother_window_value (u - INR n - (1 - t) / 2) t) (seq 0 K))
  = 1.
Proof.
  intros Hu.
  set (f := fun n => mother_window_value (u - INR n - (1 - t) / 2) t).
  destruct (Req_dec u 0) as [Hu0|Hu0].
  { (* the left end *)
    assert (HK : (0 < K)%nat).
    { apply INR_lt. cbn [INR]. lra. }
    rewrite (sum_seq_one f 0 K HK).
    - unfold f. cbn [INR]. apply (hv_plateau t Ht). lra.
    - intros n Hn Hn0. unfold f. apply (hv_outside t Ht). left.
      pose proof (INR_succ_le 0 n ltac:(lia)) as Hle. cbn [INR] in Hle. lra. }
  (* the window [m] with [m < u <= m + 1] *)
  set (m := Z.to_nat (Zceil u - 1)).
  pose proof (Zceil_bound u) as Hc.
  assert (Hcpos : (0 < Zceil u)%Z).
  { apply lt_IZR. lra. }
  assert (Hm : INR m = IZR (Zceil u) - 1).
  { unfold m. rewrite INR_IZR_INZ, Z2Nat.id by lia. now rewrite minus_IZR. }
  assert (Hmu : INR m < u <= INR m + 1) by lra.
  assert (HmK : (m < K)%nat).
  { apply INR_lt. lra. }
  assert (Hlow : forall n, (n < m)%nat -> 1 < u - INR n).
  { intros n Hn. pose proof (INR_succ_le n m Hn). lra. }
  destruct (Rle_dec u (INR m + 1 - t)) as [Hplat|Hfall].
  - (* on the plateau of the window [m] *)
    rewrite (sum_seq_one f m K HmK).
    + unfold f. apply (hv_plateau t Ht). lra.
    + intros n Hn Hnm. unfold f. apply (hv_outside t Ht).
      destruct (Nat.lt_ge_cases n m) as [Hlt|Hge].
      * right. now apply Hlow.
      * left. pose proof (INR_succ_le m n ltac:(lia)). lra.
  - (* the window [m] falls while the window [m + 1] rises *)
    assert (Hfall' : INR m + 1 - t < u) by lra. clear Hfall.
    assert (HSm : (S m < K)%nat).
    { apply INR_lt. rewrite S_INR. lra. }
    rewrite (sum_seq_two f m (S m) K).
    + replace (m <? K)%nat with true by (symmetry; apply Nat.ltb_lt; lia).
      replace (S m <? K)%nat with true by (symmetry; apply Nat.ltb_lt; lia).
      unfold f. rewrite S_INR.
      replace (u - (INR m + 1) - (1 - t) / 2)
        with (u - INR m - 1 - (1 - t) / 2) by lra.
      apply (hv_overlap t Ht). lra.
    + lia.
    + intros n Hn Hnm Hnm1. unfold f. apply (hv_outside t Ht).
      destruct (Nat.lt_ge_cases n m) as [Hlt|Hge].
      * right. now apply Hlow.
      * left. pose proof (INR_succ_le (S m) n ltac:(lia)) as H2.
        rewrite S_INR in H2. lra.
Qed.

(** To the left of every window [mother_window] is NaN. *)
Lemma mother_window_left (x : R) :
  x <= - (1 + t) / 2 -> PG.mother_window x t = inr None.
Proof.
  intros Hx. unfold PG.mother_window.
  destruct (Rlt_dec 1 t); [lra|]. destruct (Rlt_dec t 0); [lra|].
  rewrite (proj2 (between_false _ _ _)) by lra.
  rewrite (proj2 (between_false _ _ _)) by lra.
  rewrite (proj2 (between_false _ _ _)) by lra.
  reflexivity.
Qed.

(** [mother_window] of an array with entries that are not finite. *)
Lemma mother_window_array'_total (l : list (option R)) :
  PG.mother_window_array' l t
  = inr (map (fun x => match x with
                       | Some x => match PG.mother_window x t with
                                   | inr o => o
                                   | inl _ => None
                                   end
                       | None => None
                       end) l).
Proof.
  unfold PG.mother_window_array'.
  destruct (Rlt_dec 1 t); [lra|]. destruct (Rlt_dec t 0); [lra|].
  apply mapM_pure. intros [x|] _; [|reflexivity].
  destruct (mother_window_total t Ht x) as [o ->]. reflexivity.
Qed.

End EccentricityWindowFacts.

Section LinspaceFacts.

Local Open Scope R_scope.

(** The samples of [np.linspace(0, stop, steps)] lie between 0 and [stop]. *)
Lemma linspace_from_zero (stop : R) (steps k : nat) :
  0 <= stop -> (k < steps)%nat ->
  exists e, nth_error (PG.linspace 0 stop steps) k = Some e /\ 0 <= e <= stop.
Proof.
  intros Hs Hk. unfold PG.linspace. eexists. split.
  - rewrite nth_error_map, nth_error_seq.
    replace (k <? steps)%nat with true by (symmetry; apply Nat.ltb_lt; lia).
    reflexivity.
  - cbn [Nat.add]. rewrite Rminus_0_r, Rplus_0_l.
    destruct k as [|k]; [cbn [INR]; lra|].
    assert (Hd : 0 < INR (steps - 1)) by (apply lt_0_INR; lia).
    assert (Hle : INR (S k) <= INR (steps - 1)) by (apply le_INR; lia).
    pose proof (pos_INR (S k)) as Hp.
    assert (0 <= INR (S k) / INR (steps - 1) <= 1).
    { split.
      - apply Rmult_le_pos; [assumption|]. left. now apply Rinv_0_lt_compat.
      - apply Rmult_le_reg_r with (INR (steps - 1)); [assumption|].
        unfold Rdiv. rewrite Rmult_assoc, Rinv_l by lra. lra. }
    replace (INR (S k) * (stop / INR (steps - 1)))
      with (stop * (INR (S k) / INR (steps - 1))) by (field; lra).
    nra.
Qed.

Lemma linspace_length (start stop : R) (steps : nat) :
  length (PG.linspace start stop steps) = steps.
Proof. unfold PG.linspace. now rewrite length_map, length_seq. Qed.

Lemma Zceil_INR (N : nat) : Z.to_nat (Zceil (INR N)) = N.
Proof. now rewrite INR_IZR_INZ, Zceil_IZR, Nat2Z.id. Qed.

Lemma ln_le (x y : R) : 0 < x -> x <= y -> ln x <= ln y.
Proof.
  intros Hx [H| ->]; [left; now apply ln_increasing | right; reflexivity].
Qed.

End LinspaceFacts.

(* ===================================================================== *)
(** * The claims                                                           *)
(* ===================================================================== *)

(** C1. On every full-length (non-subsetted) representation vector, of any
    batch and channel size and for every choice of the constructor
    parameters, [convert_to_dict] succeeds, and flattening the dictionary it
    returns with [convert_to_vector] gives back a tensor identical in shape and
    values to the original vector; and parsing that tensor again gives the
    same dictionary, so the two conversions are inverses of each other. *)
Theorem convert_to_vector_convert_to_dict_roundtrip
    (A : Type) (self : PS.params) (vec : tensor A) (B C : nat) :
  shape vec = [B; C; length (PS.representation_scales self)] ->
  wf vec ->
  exists d,
    PS.convert_to_dict self vec = inr d
    /\ PS.convert_to_vector d = inr vec
    /\ (forall vec', PS.convert_to_vector d = inr vec' ->
                     PS.convert_to_dict self vec' = inr d).
Proof.
  intros Hsh Hwf.
  change (shape vec = [B; C] ++ [length (PS.representation_scales self)]) in Hsh.
  exists (dict_of_blocks self [B; C] vec).
  pose proof (convert_to_dict_full self vec [B; C] _ Hsh eq_refl) as Hd.
  pose proof (convert_to_vector_blocks self vec [B; C] _ Hsh Hwf eq_refl eq_refl) as Hv.
  repeat split; try assumption.
  intros vec' Hvec'. rewrite Hv in Hvec'. injection Hvec' as <-. exact Hd.
Qed.

Lemma convert_to_vector_convert_to_dict_roundtrip_witness :
  shape vec_full = [1; 1; length (PS.representation_scales ps_small)]
  /\ wf vec_full
  /\ exists d,
       PS.convert_to_dict ps_small vec_full = inr d
       /\ PS.convert_to_vector d = inr vec_full
       /\ (forall vec', PS.convert_to_vector d = inr vec' ->
                        PS.convert_to_dict ps_small vec' = inr d).
Proof.
  split; [reflexivity|]. split; [reflexivity|].
  apply (convert_to_vector_convert_to_dict_roundtrip nat ps_small vec_full 1 1);
    reflexivity.
Defined.

(** C7. [convert_to_dict] raises the [ValueError] that names the expected
    and the actual length exactly when the last dimension of its input
    differs from [len(representation_scales)]; on a full-length vector it
    does not raise and returns the structured dictionary.  In particular a
    vector that [remove_scales] has shortened is rejected with that error. *)
Theorem convert_to_dict_raises_iff_wrong_length
    (A : Type) (self : PS.params) (vec : tensor A) (ld : list nat) (n : nat) :
  shape vec = ld ++ [n] ->
  wf vec ->
  let expected := length (PS.representation_scales self) in
  (n <> expected <->
     PS.convert_to_dict self vec
     = inl (ValueError (PS.wrong_length_message expected n)))
  /\ (n = expected ->
      PS.convert_to_dict self vec = inr (dict_of_blocks self ld vec))
  /\ (n = expected ->
      forall keep vec',
        PS.remove_scales self vec keep = inr vec' ->
        count_kept keep (PS.representation_scales self) <> expected ->
        PS.convert_to_dict self vec'
        = inl (ValueError (PS.wrong_length_message expected
                 (count_kept keep (PS.representation_scales self))))).
Proof.
  intros Hsh Hwf expected.
  assert (forall (v : tensor A) (l : list nat) (m : nat),
             shape v = l ++ [m] -> m <> expected ->
             PS.convert_to_dict self v
             = inl (ValueError (PS.wrong_length_message expected m))) as Hraise.
  { intros v l m Hv Hm. unfold PS.convert_to_dict, last_dim.
    rewrite Hv, split_last_app. cbn [bind ret].
    apply Nat.eqb_neq in Hm. fold expected. now rewrite Hm. }
  split; [split|split].
  - now apply (Hraise vec ld n).
  - intros Herr Hn.
    rewrite (convert_to_dict_full self vec ld n Hsh Hn) in Herr. discriminate.
  - now apply convert_to_dict_full.
  - intros Hn keep vec' Hrm Hcount.
    eapply Hraise; [|exact Hcount].
    exact (remove_scales_inr_shape self vec vec' ld n keep Hsh Hrm).
Qed.

Lemma convert_to_dict_raises_iff_wrong_length_witness :
  shape vec_short = [1; 1] ++ [3]
  /\ wf vec_short
  /\ PS.convert_to_dict ps_small vec_short
     = inl (ValueError (PS.wrong_length_message 82 3)).
Proof.
  split; [reflexivity|]. split; [reflexivity|].
  apply (convert_to_dict_raises_iff_wrong_length nat ps_small vec_short [1; 1] 3);
    [reflexivity | reflexivity | discriminate].
Defined.






(** C3 (as the code has it).  The first six entries of the representation
    vector that [forward] packs are, in this order, the mean, the variance,
    the skew, the kurtosis, the minimum and the maximum of each batch/channel
    slice of the input image.  The variance is the one [torch.var] computes by
    default, the unbiased sample variance: the sum of squared deviations from
    the mean divided by [N - 1] (not by [N]); it is [N / (N - 1)] times the
    population variance.  Skew and kurtosis are the third and fourth central
    moments divided by the third and fourth power of the square root of that
    variance. *)
Theorem pixel_statistics_first_six
    (self : PS.params) (image : tensor R) (b c h w : nat) :
  shape image = [b; c; h; w] -> h * w <> 0 ->
  exists pixel_stats,
    PS._compute_pixel_stats image = inr pixel_stats
    /\ shape pixel_stats = [b; c; 6]
    /\ forall (mag_means autocorr_mags skew_recon kurtosis_recon autocorr_recon
                 std_recon cross_ori_corr_mags cross_scale_corr_mags
                 cross_ori_corr_real cross_scale_corr_real
                 var_highpass_residual representation_vector : tensor R),
         Torch.pack_bc
           (PS.all_stats self pixel_stats mag_means autocorr_mags skew_recon
              kurtosis_recon autocorr_recon std_recon cross_ori_corr_mags
              cross_scale_corr_mags cross_ori_corr_real cross_scale_corr_real
              var_highpass_residual) = inr representation_vector ->
         forall i j, i < b -> j < c ->
           let xs := spatial_slice image [i; j] in
           let N := INR (length xs) in
           let mu := (Torch.sum_list xs / N)%R in
           let var := (Torch.sum_list (map (fun x => (x - mu) ^ 2) xs) / (N - 1))%R in
           get representation_vector [i; j; 0] = Some mu
           /\ get representation_vector [i; j; 1] = Some var
           /\ get representation_vector [i; j; 2]
              = Some (Torch.sum_list (map (fun x => (x - mu) ^ 3) xs) / N
                      / sqrt var ^ 3)%R
           /\ get representation_vector [i; j; 3]
              = Some (Torch.sum_list (map (fun x => (x - mu) ^ 4) xs) / N
                      / sqrt var ^ 4)%R
           /\ get representation_vector [i; j; 4] = Some (Torch.min_list xs)
           /\ get representation_vector [i; j; 5] = Some (Torch.max_list xs)
           /\ (2 <= h * w ->
               ((N - 1) * var = N * Stats.variance_list xs)%R).
Proof.
  intros Hx Hhw.
  destruct (pixel_stats_entries image b c h w Hx Hhw) as (ps & Hps & Hsps & Hget).
  exists ps. split; [exact Hps|]. split; [exact Hsps|].
  intros mm am sr kr ar sd com csm cor csr vhr v Hpack i j Hi Hj.
  assert (exists rest, PS.all_stats self ps mm am sr kr ar sd com csm cor csr vhr
                       = ps :: rest) as (rest & Hrest).
  { unfold PS.all_stats. destruct (PS.use_true_correlations self); eexists;
      reflexivity. }
  rewrite Hrest in Hpack.
  assert (forall p, p < 6 -> get v [i; j; p] = get ps [i; j; p]) as Hfirst.
  { intros p Hp. rewrite (pack_bc_first ps rest v b c 6 i j p Hsps Hpack Hi Hj Hp).
    unfold entry. destruct (get ps [i; j; p]) eqn:E; [reflexivity|].
    unfold get in E. rewrite Hsps in E.
    assert (valid_index [b; c; 6] [i; j; p] = true) as Hv by solve_valid.
    rewrite Hv in E. apply nth_error_None in E.
    destruct (Hget i j Hi Hj) as (H0 & _). unfold get in H0.
    rewrite Hsps in H0.
    assert (valid_index [b; c; 6] [i; j; 0] = true) as Hv0 by solve_valid.
    rewrite Hv0 in H0.
    exfalso.
    assert (length (data ps) = b * c * 6) as Hlen.
    { unfold PS._compute_pixel_stats in Hps.
      repeat match type of Hps with
             | bind ?c _ = _ => destruct c; cbn [bind] in Hps; [discriminate|]
             end.
      unfold Torch.pack_bc in Hps.
      repeat match type of Hps with
             | match ?x with _ => _ end = _ => destruct x; try discriminate
             end.
      injection Hps as <-.
      pose proof (tabulate_wf (A:=R)) as Hwf. unfold wf in Hwf.
      rewrite Hwf. rewrite shape_tabulate in Hsps. rewrite shape_tabulate.
      rewrite Hsps. simpl. lia. }
    cbn [offset numel fold_right] in E. nia. }
  destruct (Hget i j Hi Hj) as (H0 & H1 & H2 & H3 & H4 & H5).
  cbv zeta. rewrite !Hfirst by lia.
  unfold Torch.mean_list in H2, H3. rewrite length_map in H2, H3.
  repeat split; try assumption.
  intros HN. unfold Stats.variance_list, Torch.mean_list.
  assert (2 <= INR (length (spatial_slice image [i; j])))%R as HNR.
  { change (shape image = [b; c] ++ [h; w]) in Hx.
    rewrite (spatial_slice_length image [b; c] [i; j] h w Hx).
    change 2%R with (INR 2). now apply le_INR. }
  field. lra.
Qed.

Lemma pixel_statistics_first_six_witness :
  shape image_0004 = [1; 1; 2; 2]
  /\ 2 * 2 <> 0
  /\ exists pixel_stats,
       PS._compute_pixel_stats image_0004 = inr pixel_stats
       /\ shape pixel_stats = [1; 1; 6].
Proof.
  split; [reflexivity|]. split; [discriminate|].
  destruct (pixel_statistics_first_six ps_small image_0004 1 1 2 2 eq_refl
              ltac:(discriminate)) as (ps & H1 & H2 & _).
  exists ps. split; assumption.
Defined.

(** C3 (as stated).  The second pixel statistic is not the population
    variance: for the 2x2 image with pixels 0, 0, 0, 4 the code returns
    12 / 3 = 4, the population variance is 12 / 4 = 3. *)
Lemma pixel_variance_is_not_population : ~ spec_pixel_variance_is_population.
Proof.
  intros Hspec.
  destruct (pixel_stats_entries image_0004 1 1 2 2 eq_refl ltac:(discriminate))
    as (ps & Hps & _ & Hget).
  specialize (Hspec image_0004 ps 1 1 2 2 eq_refl eq_refl ltac:(discriminate)
                Hps 0 0 Nat.lt_0_1 Nat.lt_0_1).
  destruct (Hget 0 0 Nat.lt_0_1 Nat.lt_0_1) as (_ & H1 & _).
  rewrite H1 in Hspec. injection Hspec as E.
  assert (spatial_slice image_0004 [0; 0] = [0; 0; 0; 4]%R) as Hxs by reflexivity.
  rewrite Hxs in E.
  unfold Torch.var_list, Stats.variance_list, Torch.mean_list, Torch.sum_list in E.
  simpl in E. lra.
Qed.

(** C6 (the code at a failing input).  One image with two channels and a
    one-scale model: the band at channel 0, scale 1 has a variance equal to
    the pixel variance of its own channel (ratio 1, far above the threshold)
    and a kurtosis of 1, yet the code emits the default kurtosis 3 for it,
    because it divides the band's variance by the pixel variance of
    channel 1. *)
Theorem skew_kurtosis_recon_compares_with_wrong_channel :
  exists sk ku,
    PS._compute_skew_kurtosis_recon recon_two_channels var_recon_two_channels
      img_var_two_channels = inr (sk, ku)
    /\ get ku [0; 0; 1] = Some 3%R
    /\ (entry 0 var_recon_two_channels [0; 0; 1]%nat
        / entry 0 img_var_two_channels [0; 0]%nat > 1 / 1000000)%R
    /\ (Torch.mean_list
          (map (fun x => (x - 0) ^ 4)
               (spatial_slice recon_two_channels [0; 0; 1]%nat))
        / sqrt (entry 0 var_recon_two_channels [0; 0; 1]%nat) ^ 4 = 1)%R.
Proof.
  destruct (skew_kurtosis_recon_entries recon_two_channels var_recon_two_channels
              img_var_two_channels 2 2 2 2 eq_refl eq_refl eq_refl
              (or_intror eq_refl)) as (sk & ku & Hf & _ & _ & Hget).
  exists sk, ku. split; [exact Hf|].
  destruct (Hget 0 1 ltac:(lia) ltac:(lia)) as (_ & Hku). cbv zeta in Hku.
  assert (entry 0%R var_recon_two_channels [0; 0; 1]%nat = 1/4000 * (1/4000))%R as Hv
    by reflexivity.
  assert (entry 0%R img_var_two_channels [0; 1]%nat = 1/2 * (1/2))%R as Hi1 by reflexivity.
  assert (entry 0%R img_var_two_channels [0; 0]%nat = 1/4000 * (1/4000))%R as Hi0
    by reflexivity.
  assert (spatial_slice recon_two_channels [0; 0; 1]
          = [1/4000; 1/4000; -(1/4000); -(1/4000)]%R) as Hxs by reflexivity.
  split; [|split].
  - rewrite Hku. cbn [Nat.eqb]. rewrite Hv, Hi1.
    replace (1 / 4000 * (1 / 4000) / (1 / 2 * (1 / 2)))%R with (1 / 4000000)%R
      by field.
    destruct (Rgt_dec (1 / 4000000) (1 / 1000000)) as [Hgt|_];
      [exfalso; lra | reflexivity].
  - rewrite Hv, Hi0.
    replace (1 / 4000 * (1 / 4000) / (1 / 4000 * (1 / 4000)))%R with 1%R by field.
    lra.
  - rewrite Hv, Hxs, sqrt_square by lra.
    unfold Torch.mean_list, Torch.sum_list. simpl. field.
Qed.

(** C4 (as the code has it).  [_compute_cross_correlation], applied to two
    tensors of shape (batch, channel, scale, orientation, height, width),
    returns for each scale the full orientation-by-orientation spatial inner
    product divided by the number of spatial elements (height times width).
    When [use_true_correlations] is true every entry is further divided by
    the product of two standard deviations, one per input tensor and scale:
    each is [torch.std] over the last three dimensions, that is, over all the
    orientation bands of that scale and all their positions together (with
    Bessel's correction); there is no standard deviation per orientation
    band.  The output axes are ordered (batch, channel, orientation1,
    orientation2, scale). *)
Theorem cross_correlation_normalised_per_scale
    (self : PS.params) (x y : tensor R) (b c s o1 o2 h w : nat) :
  shape x = [b; c; s; o1; h; w] -> shape y = [b; c; s; o2; h; w] ->
  exists r,
    PS._compute_cross_correlation self x y = inr r
    /\ shape r = [b; c; o1; o2; s]
    /\ forall ib ic i1 i2 sc,
         ib < b -> ic < c -> i1 < o1 -> i2 < o2 -> sc < s ->
         get r [ib; ic; i1; i2; sc]
         = Some (if PS.use_true_correlations self
                 then (spatial_covariance x y [ib; ic; sc; i1] [ib; ic; sc; i2]
                       / (Torch.std_list (scale_slice x [ib; ic; sc])
                          * Torch.std_list (scale_slice y [ib; ic; sc])))%R
                 else spatial_covariance x y [ib; ic; sc; i1] [ib; ic; sc; i2]).
Proof. apply cross_correlation_entries. Qed.

Lemma cross_correlation_normalised_per_scale_witness :
  shape two_bands = [1; 1; 1; 2; 1; 2]
  /\ exists r,
       PS._compute_cross_correlation ps_small two_bands two_bands = inr r
       /\ shape r = [1; 1; 2; 2; 1].
Proof.
  split; [reflexivity|].
  destruct (cross_correlation_normalised_per_scale ps_small two_bands two_bands
              1 1 1 2 2 1 2 eq_refl eq_refl) as (r & H1 & H2 & _).
  exists r. split; assumption.
Defined.

(** C4 (as stated).  The entries are not normalised by the standard
    deviations of the two individual orientation bands, whether these are
    taken with or without Bessel's correction: for the bands (1, -1) and
    (2, -2) correlated with themselves, the entry of the first band with
    itself is 1 / (10/3) = 3/10, not 1 / 2 and not 1 / 1. *)
Lemma cross_correlation_not_per_band :
  ~ spec_cross_correlation_per_band Torch.std_list
  /\ ~ spec_cross_correlation_per_band population_std.
Proof.
  destruct (cross_correlation_entries ps_small two_bands two_bands
              1 1 1 2 2 1 2 eq_refl eq_refl) as (r & Hr & _ & Hget).
  specialize (Hget 0 0 0 0 0 Nat.lt_0_1 Nat.lt_0_1 Nat.lt_0_2 Nat.lt_0_2 Nat.lt_0_1).
  cbn [PS.use_true_correlations ps_small] in Hget.
  assert (scale_slice two_bands [0; 0; 0] = [1; -1; 2; -2]%R) as Hsc by reflexivity.
  assert (spatial_slice two_bands [0; 0; 0; 0] = [1; -1]%R) as Hsp by reflexivity.
  assert (Torch.var_list [1; -1; 2; -2]%R = (10 / 3)%R) as Hv4.
  { unfold Torch.var_list, Torch.mean_list, Torch.sum_list. simpl. field. }
  assert (Torch.var_list [1; -1]%R = 2%R) as Hv2.
  { unfold Torch.var_list, Torch.mean_list, Torch.sum_list. simpl. field. }
  assert (Stats.variance_list [1; -1]%R = 1%R) as Hp2.
  { unfold Stats.variance_list, Torch.mean_list, Torch.sum_list. simpl. field. }
  assert (spatial_covariance two_bands two_bands [0; 0; 0; 0] [0; 0; 0; 0] = 1%R)
    as Hcov.
  { unfold spatial_covariance. rewrite Hsp. unfold Torch.sum_list. simpl. field. }
  rewrite Hsc, Hcov in Hget. unfold Torch.std_list in Hget.
  rewrite Hv4, sqrt_sqrt in Hget by lra.
  split; intros Hspec.
  - specialize (Hspec ps_small two_bands two_bands r 1 1 1 2 2 1 2 eq_refl eq_refl
                  eq_refl eq_refl eq_refl Hr 0 0 0 0 0 Nat.lt_0_1 Nat.lt_0_1
                  Nat.lt_0_2 Nat.lt_0_2 Nat.lt_0_1).
    rewrite Hget, Hsp, Hcov in Hspec. unfold Torch.std_list in Hspec.
    rewrite Hv2, sqrt_sqrt in Hspec by lra. injection Hspec as E. lra.
  - specialize (Hspec ps_small two_bands two_bands r 1 1 1 2 2 1 2 eq_refl eq_refl
                  eq_refl eq_refl eq_refl Hr 0 0 0 0 0 Nat.lt_0_1 Nat.lt_0_1
                  Nat.lt_0_2 Nat.lt_0_2 Nat.lt_0_1).
    rewrite Hget, Hsp, Hcov in Hspec. unfold population_std in Hspec.
    rewrite Hp2, sqrt_sqrt in Hspec by lra. injection Hspec as E. lra.
Qed.

(** C9.  Phase doubling for the cross-scale correlations.  For coefficients
    of shape (b, c, n, o, h, w), [_double_phase_pyr_coeffs] returns two
    tensors with one slot per scale 1 .. n-1.  Writing [doubled] for the
    coefficient of scale [sc + 1] with its modulus kept and its phase angle
    doubled, the packed tensor has [2 * o] orientation slots, holds the
    negated real part of [doubled] at orientation [k] and its imaginary part
    at orientation [k + o]; the magnitude tensor has the shape of the bands
    it was given (scales 1 .. n-1) and holds the modulus of [doubled] minus
    the mean of that modulus over the band.  The coefficients of the finest
    scale are never read: changing them changes nothing. *)
Theorem double_phase_pyr_coeffs_spec (pyr : tensor Torch.complex)
    (b c n o h w : nat) :
  shape pyr = [b; c; n; o; h; w] ->
  exists mags sep,
    PS._double_phase_pyr_coeffs pyr = inr (mags, sep)
    /\ shape mags = [b; c; n - 1; o; h; w]
    /\ shape sep = [b; c; n - 1; 2 * o; h; w]
    /\ (forall ib ic sc k y x,
          ib < b -> ic < c -> sc < n - 1 -> k < o -> y < h -> x < w ->
          let doubled := fun hw =>
            Signal.modulate_phase_entry 2
              (entry (0, 0)%R pyr ([ib; ic; sc + 1; k] ++ hw)) in
          get sep [ib; ic; sc; k; y; x] = Some (- fst (doubled [y; x]))%R
          /\ get sep [ib; ic; sc; k + o; y; x] = Some (snd (doubled [y; x]))
          /\ get mags [ib; ic; sc; k; y; x]
             = Some (Torch.modulus (doubled [y; x])
                     - Torch.mean_list
                         (map (fun hw => Torch.modulus (doubled hw))
                              (indices [h; w])))%R)
    /\ (forall pyr' : tensor Torch.complex,
          shape pyr' = shape pyr ->
          (forall ib ic sc il, 1 <= sc ->
             get pyr' (ib :: ic :: sc :: il) = get pyr (ib :: ic :: sc :: il)) ->
          PS._double_phase_pyr_coeffs pyr' = inr (mags, sep)).
Proof.
  intros Hs.
  destruct (double_phase_entries pyr b c n o h w Hs)
    as (mags & sep & Hr & Hm & Hp & He).
  exists mags, sep. repeat split; try assumption; try (now apply He).
  intros pyr' Hs' Hget.
  rewrite (double_phase_ignores_finest pyr pyr' Hs' Hget). exact Hr.
Qed.

Lemma double_phase_pyr_coeffs_spec_witness :
  exists mags sep,
    PS._double_phase_pyr_coeffs pyr_two_scales = inr (mags, sep)
    /\ shape mags = [1; 1; 1; 1; 1; 1]
    /\ shape sep = [1; 1; 1; 2; 1; 1].
Proof.
  destruct (double_phase_pyr_coeffs_spec pyr_two_scales 1 1 2 1 1 1 eq_refl)
    as (mags & sep & Hr & Hm & Hp & _).
  exists mags, sep. repeat split; assumption.
Defined.





(** C5 (as the code has it).  In the lowpass stitching, the residual lowpass
    is shrunk (downsampled) by [2 ^ (n_scales - 1)], or left as it is when
    [n_scales = 1]; the result [d] is scaled by [2 ^ (n_scales - 2)],
    transposed, and stacked with four copies of itself, each shifted
    circularly by one position, forwards or backwards, along one of the two
    spatial axes: 5 columns (center and the four shifts), one row per
    position of [d].  The 5x5 matrix of inner products of these columns,
    divided by the number of positions of the residual lowpass (and, with
    true correlations, by the square of the standard deviation of all the
    entries of the stacked tensor), is zero-padded to
    [max(2 * n_orientations, 5)] in both orientation axes, as is the
    cross-orientation correlation tensor, and concatenated to it as its final
    scale slot. *)
Theorem lowpass_stitching_shrinks_the_lowpass
    (self : PS.params) (shrink : tensor R -> nat -> result (tensor R))
    (cross lowpass d : tensor R) (b c h w h' w' s : nat) :
  shape lowpass = [b; c; h; w] ->
  (if PS.n_scales self =? 1 then ret lowpass
   else shrink lowpass (2 ^ (PS.n_scales self - 1))) = inr d ->
  shape d = [b; c; h'; w'] ->
  shape cross = [b; c; PS.n_orientations self; PS.n_orientations self; s] ->
  exists up r,
    PS._create_lowpass_corr_tensor self shrink lowpass = inr up
    /\ shape up = [b; c; w' * h'; 5]
    /\ (forall ib ic x y,
          ib < b -> ic < c -> x < w' -> y < h' ->
          let v := fun i j => (entry 0 d [ib; ic; i; j]
                               * powerRZ 2 (Z.of_nat (PS.n_scales self) - 2))%R in
          let p := x * h' + y in
          get up [ib; ic; p; 0] = Some (v y x)
          /\ get up [ib; ic; p; 1] = Some (v y (Torch.rolled 1 w' x))
          /\ get up [ib; ic; p; 2] = Some (v y (Torch.rolled (-1) w' x))
          /\ get up [ib; ic; p; 3] = Some (v (Torch.rolled 1 h' y) x)
          /\ get up [ib; ic; p; 4] = Some (v (Torch.rolled (-1) h' y) x))
    /\ PS._concat_lowpass_to_cross_ori_real self shrink cross lowpass = inr r
    /\ shape r = [b; c; PS.ori_crossed self; PS.ori_crossed self; s + 1]
    /\ (forall ib ic i j,
          ib < b -> ic < c -> i < PS.ori_crossed self -> j < PS.ori_crossed self ->
          (forall sc, sc < s ->
             get r [ib; ic; i; j; sc]
             = Some (if (i <? PS.n_orientations self) && (j <? PS.n_orientations self)
                     then entry 0%R cross [ib; ic; i; j; sc] else 0%R))
          /\ get r [ib; ic; i; j; s]
             = Some (if (i <? 5) && (j <? 5)
                     then (Torch.sum_list
                             (map (fun q => entry 0 up [ib; ic; q; i]
                                            * entry 0 up [ib; ic; q; j])%R
                                  (seq 0 (w' * h')))
                           / (if PS.use_true_correlations self
                              then INR (h * w) * Torch.std_all up * Torch.std_all up
                              else INR (h * w)))%R
                     else 0%R)).
Proof.
  intros Hl Hd Hsd Hc.
  destruct (create_lowpass_corr_tensor_entries self shrink lowpass d b c h' w' Hd Hsd)
    as (up & Hup & Hsup & Hgup).
  destruct (concat_lowpass_to_cross_ori_real_entries self shrink cross lowpass d
              b c h w h' w' s Hl Hd Hsd Hc) as (up' & r & Hup' & Hr & Hsr & Hgr).
  rewrite Hup in Hup'. injection Hup' as <-.
  exists up, r. repeat split; try assumption; try (now apply Hgup); now apply Hgr.
Qed.

Lemma lowpass_stitching_shrinks_the_lowpass_witness :
  exists up r,
    PS._create_lowpass_corr_tensor ps_two_scales decimate lowpass_2x2 = inr up
    /\ shape up = [1; 1; 1; 5]
    /\ PS._concat_lowpass_to_cross_ori_real ps_two_scales decimate
         (mk [1; 1; 1; 1; 2] [0; 0]%R) lowpass_2x2 = inr r
    /\ shape r = [1; 1; 5; 5; 3].
Proof.
  destruct (lowpass_stitching_shrinks_the_lowpass ps_two_scales decimate
              (mk [1; 1; 1; 1; 2] [0; 0]%R) lowpass_2x2
              (mk [1; 1; 1; 1] [1%R]) 1 1 2 2 1 1 2
              eq_refl eq_refl eq_refl eq_refl)
    as (up & r & Hup & Hsup & _ & Hr & Hsr & _).
  exists up, r. repeat split; assumption.
Defined.

(** C5 (as stated).  The residual lowpass is not upsampled: with two scales
    and a 2x2 residual lowpass, the stacked tensor has the one row of the
    1x1 shrunk image, not the 16 rows of a 4x4 upsampled one. *)
Lemma lowpass_is_not_upsampled : ~ spec_lowpass_is_upsampled.
Proof.
  intros Hspec.
  destruct (create_lowpass_corr_tensor_entries ps_two_scales decimate lowpass_2x2
              (mk [1; 1; 1; 1] [1%R]) 1 1 1 1 eq_refl eq_refl)
    as (up & Hup & Hsup & _).
  specialize (Hspec ps_two_scales decimate lowpass_2x2 up 1 1 2 2
                (decimate_shape 1 1) eq_refl Hup).
  rewrite Hsup in Hspec. discriminate.
Qed.

(** * Further properties of the code *)

(** ** The pooling windows' geometry *)

(** X1. [calc_angular_window_width] and [calc_angular_n_windows] undo each
    other: the number of windows that fit the width of [n] windows is [n],
    and the other way round, for every [n] but zero. *)
Theorem angular_width_and_count_are_inverse (n : R) :
  n <> 0%R ->
  PG.calc_angular_n_windows (PG.calc_angular_window_width n) = n /\
  PG.calc_angular_window_width (PG.calc_angular_n_windows n) = n.
Proof.
  intros Hn. unfold PG.calc_angular_n_windows, PG.calc_angular_window_width.
  pose proof PI_neq0. split; field; split; assumption.
Qed.

Lemma angular_width_and_count_are_inverse_witness :
  PG.calc_angular_n_windows (PG.calc_angular_window_width 8) = 8%R /\
  PG.calc_angular_window_width (PG.calc_angular_n_windows 8) = 8%R.
Proof. apply (angular_width_and_count_are_inverse 8). lra. Defined.

(** X2. Between two eccentricities [0 < min_ecc < max_ecc] the width of [n]
    log-eccentricity windows is computed without an error, and
    [calc_eccentricity_n_windows] gives [n] back from it. *)
Theorem eccentricity_width_and_count_are_inverse (min_ecc max_ecc n : R) :
  (0 < min_ecc < max_ecc)%R -> n <> 0%R ->
  exists w,
    PG.calc_eccentricity_window_width min_ecc max_ecc (Some n) None = inr w /\
    PG.calc_eccentricity_n_windows w min_ecc max_ecc = n.
Proof.
  intros [H0 Hlt] Hn. eexists. split; [reflexivity|].
  unfold PG.calc_eccentricity_n_windows.
  assert (ln min_ecc < ln max_ecc)%R by now apply ln_increasing.
  field. split; [assumption | lra].
Qed.

Lemma eccentricity_width_and_count_are_inverse_witness :
  exists w,
    PG.calc_eccentricity_window_width 1 2 (Some 4%R) None = inr w /\
    PG.calc_eccentricity_n_windows w 1 2 = 4%R.
Proof. apply (eccentricity_width_and_count_are_inverse 1 2 4); lra. Defined.

(** X3. [calc_scaling] is a right inverse of the window width: for positive
    eccentricities and [n] other than zero, the width
    [calc_eccentricity_window_width] computes from the scaling of [n] windows
    is the width it computes from [n] itself, whatever is passed as
    [n_windows] beside the scaling. *)
Theorem width_of_scaling_is_width_of_count
    (min_ecc max_ecc n : R) (other : option R) :
  (0 < min_ecc)%R -> (0 < max_ecc)%R -> n <> 0%R ->
  PG.calc_eccentricity_window_width min_ecc max_ecc other
    (Some (PG.calc_scaling n min_ecc max_ecc))
  = PG.calc_eccentricity_window_width min_ecc max_ecc (Some n) None.
Proof.
  intros _ _ _.
  unfold PG.calc_eccentricity_window_width, PG.calc_scaling, ret.
  f_equal. apply width_of_scaling_of_width.
Qed.

Lemma width_of_scaling_is_width_of_count_witness :
  PG.calc_eccentricity_window_width 1 2 (Some 7%R)
    (Some (PG.calc_scaling 4 1 2))
  = PG.calc_eccentricity_window_width 1 2 (Some 4%R) None.
Proof.
  apply (width_of_scaling_is_width_of_count 1 2 4 (Some 7%R)); lra.
Defined.

(** X4. The other way round: between [0 < min_ecc < max_ecc], a scaling [s]
    other than zero gives a window width, that width a number of windows, and
    [calc_scaling] of that number is [s]. *)
Theorem scaling_of_width_of_scaling_is_scaling (min_ecc max_ecc s : R) :
  (0 < min_ecc < max_ecc)%R -> s <> 0%R ->
  exists w,
    PG.calc_eccentricity_window_width min_ecc max_ecc None (Some s) = inr w /\
    PG.calc_scaling (PG.calc_eccentricity_n_windows w min_ecc max_ecc)
      min_ecc max_ecc = s.
Proof.
  intros [H0 Hlt] Hs. eexists. split; [reflexivity|].
  destruct (scaling_of_width_of_scaling s) as [He Hw]. specialize (Hw Hs).
  set (w := ln _) in *.
  assert (ln min_ecc < ln max_ecc)%R by now apply ln_increasing.
  unfold PG.calc_scaling, PG.calc_eccentricity_n_windows.
  replace ((ln max_ecc - ln min_ecc) / ((ln max_ecc - ln min_ecc) / w))%R
    with w by (field; split; [assumption | lra]).
  exact He.
Qed.

Lemma scaling_of_width_of_scaling_is_scaling_witness :
  exists w,
    PG.calc_eccentricity_window_width 1 2 None (Some 1%R) = inr w /\
    PG.calc_scaling (PG.calc_eccentricity_n_windows w 1 2) 1 2 = 1%R.
Proof. apply (scaling_of_width_of_scaling_is_scaling 1 2 1); lra. Defined.

(** X5. [mother_window] raises exactly when the transition region width is
    outside [0, 1].  Otherwise it is NaN exactly outside
    [-(1+t)/2 < x <= (1+t)/2]; inside, its value lies between 0 and 1 and is
    1 wherever [|x| <= (1-t)/2]. *)
Theorem mother_window_domain_and_range (x t : R) :
  match PG.mother_window x t with
  | inl e => e = Exception PG.transition_message /\ (t < 0 \/ 1 < t)%R
  | inr None =>
      (0 <= t <= 1)%R /\ (x <= - (1 + t) / 2 \/ (1 + t) / 2 < x)%R
  | inr (Some v) =>
      (0 <= t <= 1)%R /\ (- (1 + t) / 2 < x <= (1 + t) / 2)%R /\
      (0 <= v <= 1)%R /\ (Rabs x <= (1 - t) / 2 -> v = 1)%R
  end.
Proof.
  unfold PG.mother_window.
  destruct (Rlt_dec 1 t) as [H1|H1]; [split; [reflexivity | lra]|].
  destruct (Rlt_dec t 0) as [H0|H0]; [split; [reflexivity | lra]|].
  destruct (PG.between (- (1 + t) / 2) x ((t - 1) / 2)) eqn:B1.
  { apply between_true in B1. cbn [ret].
    pose proof (cos_square_bound (PI / 2 * ((x - (t - 1) / 2) / t))).
    repeat split; try lra. intros Ha.
    assert (Hx : x = ((t - 1) / 2)%R).
    { unfold Rabs in Ha. destruct (Rcase_abs x); lra. }
    assert (Ht : t <> 0%R) by lra.
    rewrite Hx. replace (PI / 2 * (((t - 1) / 2 - (t - 1) / 2) / t))%R
      with 0%R by (field; assumption).
    rewrite cos_0. lra. }
  apply between_false in B1.
  destruct (PG.between ((t - 1) / 2) x ((1 - t) / 2)) eqn:B2.
  { apply between_true in B2. cbn [ret]. repeat split; lra. }
  apply between_false in B2.
  destruct (PG.between ((1 - t) / 2) x ((1 + t) / 2)) eqn:B3.
  { apply between_true in B3. cbn [ret].
    pose proof (cos_square_bound (PI / 2 * ((x - (1 + t) / 2) / t))).
    repeat split; try lra. intros Ha.
    unfold Rabs in Ha. destruct (Rcase_abs x); lra. }
  apply between_false in B3. cbn [ret]. split; lra.
Qed.

(** X6. Neighbouring windows sum to one where they overlap: in the falling
    flank of a window, [(1-t)/2 < x <= (1+t)/2], the window and its
    neighbour one unit to the right (whose argument is [x - 1]) are both
    defined and [mother_window x + mother_window (x - 1) = 1]. *)
Theorem mother_window_partition_of_unity (x t : R) :
  (0 < t <= 1)%R -> ((1 - t) / 2 < x <= (1 + t) / 2)%R ->
  exists v1 v2,
    PG.mother_window x t = inr (Some v1) /\
    PG.mother_window (x - 1) t = inr (Some v2) /\
    (v1 + v2 = 1)%R.
Proof.
  intros Ht Hx. unfold PG.mother_window.
  destruct (Rlt_dec 1 t) as [H1|H1]; [lra|].
  destruct (Rlt_dec t 0) as [H0|H0]; [lra|].
  assert (B1 : PG.between (- (1 + t) / 2) x ((t - 1) / 2) = false)
    by (apply between_false; lra).
  assert (B2 : PG.between ((t - 1) / 2) x ((1 - t) / 2) = false)
    by (apply between_false; lra).
  assert (B3 : PG.between ((1 - t) / 2) x ((1 + t) / 2) = true)
    by (apply between_true; lra).
  assert (B4 : PG.between (- (1 + t) / 2) (x - 1) ((t - 1) / 2) = true)
    by (apply between_true; lra).
  rewrite B1, B2, B3, B4. cbn [ret]. do 2 eexists.
  split; [reflexivity|]. split; [reflexivity|].
  replace ((x - 1 - (t - 1) / 2) / t)%R with ((x - (1 + t) / 2) / t)%R
    by (field; lra).
  lra.
Qed.

Lemma mother_window_partition_of_unity_witness :
  exists v1 v2,
    PG.mother_window (1 / 2) (1 / 2) = inr (Some v1) /\
    PG.mother_window (1 / 2 - 1) (1 / 2) = inr (Some v2) /\
    (v1 + v2 = 1)%R.
Proof. apply (mother_window_partition_of_unity (1 / 2) (1 / 2)); lra. Defined.

(** X7. The widths [calc_window_widths_actual] returns are ordered: for a
    transition region width in [0, 1], positive radial width and
    eccentricities and an angular width that is not negative, every top
    width is at least zero and at most the full width of the same window,
    radially and angularly, and the four lists have one entry per radial
    window. *)
Theorem window_top_widths_within_full_widths (aw rw min_ecc max_ecc t : R) :
  (0 <= t <= 1)%R -> (0 < rw)%R -> (0 <= aw)%R ->
  (0 < min_ecc)%R -> (0 < max_ecc)%R ->
  let '(radial_top, radial_full, angular_top, angular_full) :=
    PG.calc_window_widths_actual aw rw min_ecc max_ecc t in
  let n :=
    Z.to_nat (Zceil (PG.calc_eccentricity_n_windows rw min_ecc max_ecc)) in
  (length radial_top = n /\ length radial_full = n /\
   length angular_top = n /\ length angular_full = n) /\
  Forall (Rle 0) radial_top /\ Forall2 Rle radial_top radial_full /\
  Forall (Rle 0) angular_top /\ Forall2 Rle angular_top angular_full.
Proof.
  intros Ht Hrw' Haw Hmin' _. unfold PG.calc_window_widths_actual.
  assert (Hrw : (0 <= rw)%R) by lra. assert (Hmin : (0 <= min_ecc)%R) by lra.
  unfold PG.calc_windows_central_eccentricity.
  rewrite !arange_ceil.
  set (e := PG.calc_eccentricity_n_windows rw min_ecc max_ecc).
  split.
  { rewrite !length_map, arange_length. tauto. }
  generalize (PG.arange e). intros l.
  assert (Hexp : forall i : R,
             (0 <= exp (rw * (3 + 2 * i - t) / 2)
                   - exp (rw * (1 + 2 * i + t) / 2))%R).
  { intros i. apply Rge_le, Rge_minus, Rle_ge, exp_le. nra. }
  split; [|split; [|split]].
  - apply Forall_forall. intros v Hv. apply in_map_iff in Hv.
    destruct Hv as (i & <- & _). specialize (Hexp i). nra.
  - induction l as [|i l IH]; cbn [map]; constructor; [|exact IH].
    apply Rmult_le_compat_l; [assumption|].
    assert (exp (rw * (3 + 2 * i - t) / 2)
            <= exp (rw * (3 + 2 * i + t) / 2))%R by (apply exp_le; nra).
    assert (exp (rw * (1 + 2 * i - t) / 2)
            <= exp (rw * (1 + 2 * i + t) / 2))%R by (apply exp_le; nra).
    lra.
  - apply Forall_forall. intros v Hv. apply in_map_iff in Hv.
    destruct Hv as (ec & <- & Hec). apply in_map_iff in Hec.
    destruct Hec as (i & <- & _).
    pose proof (exp_pos (rw * (i + 1))).
    apply Rmult_le_pos; [|nra]. apply Rmult_le_pos; lra.
  - induction l as [|i l IH]; cbn [map]; constructor; [|exact IH].
    pose proof (exp_pos (rw * (i + 1))).
    apply Rmult_le_compat_r; [nra|].
    apply Rmult_le_compat_l; lra.
Qed.

Lemma window_top_widths_within_full_widths_witness :
  let '(radial_top, radial_full, angular_top, angular_full) :=
    PG.calc_window_widths_actual 1 1 1 2 (1 / 2) in
  let n := Z.to_nat (Zceil (PG.calc_eccentricity_n_windows 1 1 2)) in
  (length radial_top = n /\ length radial_full = n /\
   length angular_top = n /\ length angular_full = n) /\
  Forall (Rle 0) radial_top /\ Forall2 Rle radial_top radial_full /\
  Forall (Rle 0) angular_top /\ Forall2 Rle angular_top angular_full.
Proof.
  apply (window_top_widths_within_full_widths 1 1 1 2 (1 / 2)); lra.
Defined.

(** X8. The scaling is the ratio of a window's radial width at half its
    maximum to its central eccentricity: without a transition region the top
    and full radial widths of [calc_window_widths_actual] coincide, and for
    the window width of [n] windows between [0 < min_ecc < max_ecc] each of
    them is [calc_scaling n] times the central eccentricity of its window. *)
Theorem radial_width_is_scaling_times_eccentricity
    (aw min_ecc max_ecc n : R) :
  (0 < min_ecc < max_ecc)%R -> n <> 0%R ->
  let w := ((ln max_ecc - ln min_ecc) / n)%R in
  PG.calc_eccentricity_window_width min_ecc max_ecc (Some n) None = inr w /\
  let '(radial_top, radial_full, _, _) :=
    PG.calc_window_widths_actual aw w min_ecc max_ecc 0 in
  radial_top = radial_full /\
  radial_full =
    map (fun e_c => PG.calc_scaling n min_ecc max_ecc * e_c)%R
      (PG.calc_windows_central_eccentricity
         (PG.calc_eccentricity_n_windows w min_ecc max_ecc) w min_ecc).
Proof.
  intros _ _ w. split; [reflexivity|].
  unfold PG.calc_window_widths_actual, PG.calc_windows_central_eccentricity.
  rewrite !arange_ceil.
  set (e := PG.calc_eccentricity_n_windows w min_ecc max_ecc).
  unfold PG.calc_scaling. fold w. generalize (PG.arange e). intros l.
  split.
  - apply map_ext. intros i. do 2 f_equal; f_equal; lra.
  - rewrite map_map. apply map_ext. intros i.
    replace (w * (3 + 2 * i + 0) / 2)%R with (1 / 2 * w + w * (i + 1))%R
      by lra.
    replace (w * (1 + 2 * i - 0) / 2)%R with (- (1 / 2) * w + w * (i + 1))%R
      by lra.
    rewrite !exp_plus. lra.
Qed.

Lemma radial_width_is_scaling_times_eccentricity_witness :
  let w := ((ln 2 - ln 1) / 4)%R in
  PG.calc_eccentricity_window_width 1 2 (Some 4%R) None = inr w /\
  let '(radial_top, radial_full, _, _) :=
    PG.calc_window_widths_actual 1 w 1 2 0 in
  radial_top = radial_full /\
  radial_full =
    map (fun e_c => PG.calc_scaling 4 1 2 * e_c)%R
      (PG.calc_windows_central_eccentricity
         (PG.calc_eccentricity_n_windows w 1 2) w 1).
Proof.
  apply (radial_width_is_scaling_times_eccentricity 1 1 2 4); lra.
Defined.

(** X9. [_get_slice_vals] cuts a window of [W] entries down to the middle
    [c = ceil(img_res / 2^scale)] entries, dropping the smaller half of the
    surplus in front, as long as the surplus is not zero.  When the scaled
    image is as large as the window ([c = W]) the slice it describes is
    [0:-0], which is [0:0] and keeps nothing. *)
Theorem get_slice_vals_keeps_the_centre_or_nothing
    (W : nat) (img_res : R) (scale : nat) :
  let c := Zceil (img_res / 2 ^ scale) in
  (0 <= c <= Z.of_nat W)%Z ->
  let '(a, b) := PG._get_slice_vals (INR W) img_res scale in
  slice_positions a b W =
    if (c =? Z.of_nat W)%Z then []
    else seq (Z.to_nat ((Z.of_nat W - c) / 2)) (Z.to_nat c).
Proof.
  intros c Hc. unfold PG._get_slice_vals. fold c.
  rewrite INR_IZR_INZ, <- minus_IZR, Zfloor_half, Zceil_half.
  set (d := (Z.of_nat W - c)%Z).
  assert (Hd : (0 <= d)%Z) by (unfold d; lia).
  pose proof (Z.div_mod d 2 ltac:(lia)) as E1.
  pose proof (Z.mod_pos_bound d 2 ltac:(lia)) as B1.
  pose proof (Z.div_mod (d + 1) 2 ltac:(lia)) as E2.
  pose proof (Z.mod_pos_bound (d + 1) 2 ltac:(lia)) as B2.
  unfold slice_positions, slice_bound.
  destruct (c =? Z.of_nat W)%Z eqn:Ec.
  - apply Z.eqb_eq in Ec. assert (d = 0%Z) by (unfold d; lia).
    replace (d / 2)%Z with 0%Z by lia. replace ((d + 1) / 2)%Z with 0%Z by lia.
    cbn [Z.ltb Z.compare Z.opp]. rewrite Nat.sub_diag. reflexivity.
  - apply Z.eqb_neq in Ec. assert (1 <= d)%Z by (unfold d; lia).
    destruct (d / 2 <? 0)%Z eqn:L1; [apply Z.ltb_lt in L1; lia|].
    destruct (- ((d + 1) / 2) <? 0)%Z eqn:L2;
      [|apply Z.ltb_ge in L2; lia].
    f_equal; unfold d in *; lia.
Qed.

Lemma get_slice_vals_keeps_the_centre_or_nothing_witness :
  let c := Zceil (7 / 2 ^ 1) in
  let '(a, b) := PG._get_slice_vals (INR 4) 7 1 in
  slice_positions a b 4 =
    if (c =? Z.of_nat 4)%Z then []
    else seq (Z.to_nat ((Z.of_nat 4 - c) / 2)) (Z.to_nat c).
Proof.
  apply (get_slice_vals_keeps_the_centre_or_nothing 4 7 1).
  assert (E : Zceil (7 / 2 ^ 1) = 4%Z) by (apply Zceil_eq; simpl; lra).
  rewrite E. simpl. lia.
Defined.

(** ** Windowing and pooling *)

(** X10. [forward] is a weighted average: for a 4-d input and 3-d windows of
    the same spatial size it returns, for every batch, channel and window,
    the sum of image times window over the spatial positions, divided by the
    window's total weight (by 1 when that weight is zero). *)
Theorem pooling_forward_is_weighted_average
    (self : Pooling.PoolingWindows) (x w0 w : tensor R) (idx i j nw k l : nat) :
  Pooling.windows_at self 0 = inr w0 -> ndim w0 = 3 ->
  Pooling.windows_at self idx = inr w ->
  shape w = [nw; k; l] -> shape x = [i; j; k; l] ->
  exists r,
    Pooling.forward self (inr x) idx = inr (inr r)
    /\ shape r = [i; j; nw]
    /\ forall a b c, a < i -> b < j -> c < nw ->
         get r [a; b; c]
         = Some (Torch.sum_list
                   (map (fun hw => entry 0 x ([a; b] ++ hw)
                                   * entry 0 w ([c] ++ hw))%R
                        (indices [k; l]))
                 / (if Req_EM_T (Pooling.window_weight w [c]) 0 then 1
                    else Pooling.window_weight w [c]))%R.
Proof. exact (forward_tensor_entries self x w0 w idx i j nw k l). Qed.

Lemma pooling_forward_is_weighted_average_witness :
  exists r,
    Pooling.forward Pooling.empty_window (inr (mk [1; 1; 1; 1] [1%R])) 0
    = inr (inr r)
    /\ shape r = [1; 1; 1].
Proof.
  destruct (pooling_forward_is_weighted_average Pooling.empty_window
              (mk [1; 1; 1; 1] [1%R]) (mk [1; 1; 1] [0%R]) (mk [1; 1; 1] [0%R])
              0 1 1 1 1 1 eq_refl eq_refl eq_refl eq_refl eq_refl)
    as (r & Hr & Hs & _).
  exists r. split; assumption.
Defined.

(** X11. The pooled value stays within the range of the image: with
    non-negative window weights, if every pixel of a batch/channel slice
    lies between [lo] and [hi], so does the output of [forward] for every
    window whose total weight is not zero.  In particular a constant image
    is pooled to that constant. *)
Theorem pooling_forward_within_image_range
    (self : Pooling.PoolingWindows) (x w0 w : tensor R) (idx i j nw k l : nat)
    (a b c : nat) (lo hi : R) :
  Pooling.windows_at self 0 = inr w0 -> ndim w0 = 3 ->
  Pooling.windows_at self idx = inr w ->
  shape w = [nw; k; l] -> shape x = [i; j; k; l] ->
  a < i -> b < j -> c < nw ->
  (forall y z, y < k -> z < l -> (0 <= entry 0 w [c; y; z])%R) ->
  (forall y z, y < k -> z < l -> (lo <= entry 0 x [a; b; y; z] <= hi)%R) ->
  Pooling.window_weight w [c] <> 0%R ->
  exists r v,
    Pooling.forward self (inr x) idx = inr (inr r)
    /\ get r [a; b; c] = Some v /\ (lo <= v <= hi)%R.
Proof.
  intros Hw0 Hn Hw Hsw Hsx Ha Hb Hc Hnn Hrange Hne.
  destruct (forward_tensor_entries self x w0 w idx i j nw k l Hw0 Hn Hw Hsw Hsx)
    as (r & Hr & _ & Hget).
  exists r. eexists. split; [exact Hr|]. split; [apply Hget; assumption|].
  destruct (Req_EM_T (Pooling.window_weight w [c]) 0) as [E|_];
    [contradiction|].
  assert (HW : Pooling.window_weight w [c]
               = Torch.sum_list (map (fun hw => entry 0%R w ([c] ++ hw))
                                     (indices [k; l]))).
  { unfold Pooling.window_weight. rewrite Hsw.
    change [nw; k; l] with ([nw] ++ [k; l]). now rewrite split_last2_app. }
  assert (Hin : forall hw, In hw (indices [k; l]) ->
                  exists y z, hw = [y; z] /\ y < k /\ z < l).
  { intros hw Hhw. apply valid_index2. now apply indices_valid. }
  assert (Hpos : (0 <= Pooling.window_weight w [c])%R).
  { rewrite HW. apply sum_list_map_nonneg. intros hw Hhw.
    destruct (Hin hw Hhw) as (y & z & -> & Hy & Hz). cbn [app].
    now apply Hnn. }
  assert (Hlo : (lo * Pooling.window_weight w [c]
                 <= Torch.sum_list
                      (map (fun hw => entry 0 x ([a; b] ++ hw)
                                      * entry 0 w ([c] ++ hw))%R
                           (indices [k; l])))%R).
  { rewrite HW, <- sum_list_scale. apply sum_list_le. intros hw Hhw.
    destruct (Hin hw Hhw) as (y & z & -> & Hy & Hz). cbn [app].
    specialize (Hnn y z Hy Hz). specialize (Hrange y z Hy Hz). nra. }
  assert (Hhi : (Torch.sum_list
                   (map (fun hw => entry 0 x ([a; b] ++ hw)
                                   * entry 0 w ([c] ++ hw))%R
                        (indices [k; l]))
                 <= hi * Pooling.window_weight w [c])%R).
  { rewrite HW, <- sum_list_scale. apply sum_list_le. intros hw Hhw.
    destruct (Hin hw Hhw) as (y & z & -> & Hy & Hz). cbn [app].
    specialize (Hnn y z Hy Hz). specialize (Hrange y z Hy Hz). nra. }
  set (S := Torch.sum_list _) in *. set (W := Pooling.window_weight w [c]) in *.
  assert (0 < W)%R by lra.
  split.
  - apply Rmult_le_reg_r with W; [assumption|].
    unfold Rdiv. rewrite Rmult_assoc, Rinv_l by lra. lra.
  - apply Rmult_le_reg_r with W; [assumption|].
    unfold Rdiv. rewrite Rmult_assoc, Rinv_l by lra. lra.
Qed.

Lemma pooling_forward_within_image_range_witness :
  exists r v,
    Pooling.forward unit_window (inr image_five) 0 = inr (inr r)
    /\ get r [0; 0; 0] = Some v /\ (5 <= v <= 5)%R.
Proof.
  apply (pooling_forward_within_image_range unit_window image_five
           (mk [1; 1; 1] [1%R]) (mk [1; 1; 1] [1%R]) 0 1 1 1 1 1 0 0 0 5 5);
    try reflexivity; try lia.
  - intros y z Hy Hz. destruct y, z; try lia. unfold entry, get. simpl. lra.
  - intros y z Hy Hz. destruct y, z; try lia. unfold entry, get. simpl. lra.
  - unfold Pooling.window_weight, entry, get. simpl. lra.
Defined.

(** X12. [forward] of a dictionary pools every value by itself, with the
    windows of the scale in its key: it returns a dictionary exactly when the
    input is not empty and [forward] returns for each value as a tensor with
    [idx] the first component of its key; the result has the same keys in the
    same order and those tensors as values.  The argument [idx] plays no
    part. *)
Theorem pooling_forward_dict_is_forward_per_key
    (self : Pooling.PoolingWindows) (d r : list ((nat * nat) * tensor R))
    (idx : nat) :
  Pooling.forward self (inl d) idx = inr (inl r) <->
  d <> [] /\
  Forall2 (fun kv kr =>
             fst kr = fst kv
             /\ Pooling.forward self (inr (snd kv)) (fst (fst kv))
                = inr (inr (snd kr))) d r.
Proof.
  unfold Pooling.forward, Pooling.window. cbn [bind].
  assert (Hitem : forall kv kr,
             (fst kr = fst kv
              /\ bind (bind (Pooling.window_tensor self (snd kv) (fst (fst kv)))
                         (fun r0 => ret (inr r0)))
                   (fun windowed_x =>
                      Pooling.pool self windowed_x (fst (fst kv)))
                 = inr (@inr (list ((nat * nat) * tensor R)) _ (snd kr)))
             <-> exists kw, window_item self kv = inr kw
                            /\ fst kr = fst kw
                            /\ Pooling.pool_tensor self (snd kw) (fst (fst kw))
                               = inr (snd kr)).
  { intros kv kr. split.
    - intros [Hk H].
      destruct (Pooling.window_tensor self (snd kv) (fst (fst kv)))
        as [e|wx] eqn:Ew; cbn [bind ret Pooling.pool] in H; [discriminate|].
      destruct (Pooling.pool_tensor self wx (fst (fst kv))) as [e|q] eqn:Eq;
        cbn [bind ret] in H; [discriminate|].
      injection H as H. exists (fst kv, wx). cbn [fst snd].
      split; [apply window_item_inr; now split|]. split; [assumption|].
      now rewrite Eq, H.
    - intros (kw & Hkw & Hk & Hq). apply window_item_inr in Hkw as [Hkk Hwx].
      split; [congruence|]. rewrite Hwx. cbn [bind ret Pooling.pool].
      rewrite <- Hkk, Hq. reflexivity. }
  assert (Hall : forall d r,
             Forall2 (fun kv kr =>
                        fst kr = fst kv
                        /\ bind (bind (Pooling.window_tensor self (snd kv)
                                         (fst (fst kv)))
                                   (fun r0 => ret (inr r0)))
                             (fun windowed_x =>
                                Pooling.pool self windowed_x (fst (fst kv)))
                           = inr (@inr (list ((nat * nat) * tensor R)) _
                                    (snd kr))) d r
             <-> exists wd, mapM (window_item self) d = inr wd
                            /\ Pooling.pool_dict self wd = inr r).
  { clear d r. intros d. induction d as [|kv d IH]; intros r.
    - split.
      + intros H. inversion H. exists []. split; reflexivity.
      + intros (wd & [= <-] & [= <-]). constructor.
    - split.
      + intros H. inversion H as [|? kr ? rs Hh Ht]; subst.
        apply Hitem in Hh as (kw & Hkw & Hk & Hq).
        apply IH in Ht as (wd & Hwd & Hp).
        exists (kw :: wd). cbn [mapM]. rewrite Hkw, Hwd. cbn [bind ret].
        split; [reflexivity|]. apply pool_dict_cons.
        exists (snd kr), rs. split; [assumption|]. split; [assumption|].
        destruct kr; cbn [fst snd] in *. now subst.
      + intros (wd & Hwd & Hp). cbn [mapM] in Hwd.
        destruct (window_item self kv) as [e|kw] eqn:Ekw; cbn [bind] in Hwd;
          [discriminate|].
        destruct (mapM (window_item self) d) as [e|wd'] eqn:Ewd;
          cbn [bind ret] in Hwd; [discriminate|].
        injection Hwd as <-.
        apply pool_dict_cons in Hp as (q & qs & Hq & Hqs & ->).
        constructor.
        * apply Hitem. exists kw. cbn [fst snd]. now repeat split.
        * apply IH. now exists wd'. }
  rewrite Hall. clear Hall Hitem.
  unfold Pooling.window_dict.
  destruct d as [|[k0 v0] d].
  - split.
    + destruct (Pooling.windows_at self 0); cbn [bind]; discriminate.
    + intros [H _]. now contradiction H.
  - change (mapM _ ((k0, v0) :: d)) with (mapM (window_item self) ((k0, v0) :: d)).
    split.
    + intros H. split; [discriminate|].
      destruct (Pooling.windows_at self 0) as [e|w0]; cbn [bind] in H;
        [discriminate|].
      destruct (negb (ndim v0 =? 4)); [discriminate|].
      destruct (mapM (window_item self) ((k0, v0) :: d)) as [e|wd] eqn:Ewd;
        cbn [bind ret Pooling.pool] in H; [discriminate|].
      destruct (Pooling.pool_dict self wd) as [e|r'] eqn:Ep;
        cbn [bind ret] in H; [discriminate|].
      exists wd. split; [reflexivity|]. unfold ret in H. congruence.
    + intros [_ (wd & Hwd & Hp)].
      assert (Hfirst : exists kw, window_item self (k0, v0) = inr kw).
      { cbn [mapM] in Hwd. destruct (window_item self (k0, v0)) as [e|kw];
          [discriminate | now exists kw]. }
      destruct Hfirst as [kw Hkw]. apply window_item_inr in Hkw as [_ Hwt].
      cbn [fst snd] in Hwt. unfold Pooling.window_tensor in Hwt.
      destruct (Pooling.windows_at self 0) as [e|w0]; cbn [bind] in Hwt |- *;
        [discriminate|].
      destruct (negb (ndim v0 =? 4)); [discriminate|].
      rewrite Hwd. cbn [bind ret Pooling.pool]. rewrite Hp. reflexivity.
Qed.

(** X13. An input that is not 4-d is refused before any window is applied:
    with at least one scale of windows, [forward] of a tensor that has not
    four dimensions, or of a dictionary whose first value has not, raises the
    exception that asks to unsqueeze, whatever [idx] is, also when it names
    no scale. *)
Theorem pooling_forward_refuses_input_that_is_not_4d
    (self : Pooling.PoolingWindows) (x : tensor R)
    (k : nat * nat) (d : list ((nat * nat) * tensor R)) (idx : nat) :
  Pooling.windows self <> [] -> ndim x <> 4 ->
  Pooling.forward self (inr x) idx = inl (Exception Pooling.not_4d_message)
  /\ Pooling.forward self (inl ((k, x) :: d)) idx
     = inl (Exception Pooling.not_4d_message).
Proof.
  intros Hw Hx. unfold Pooling.forward, Pooling.window, Pooling.window_tensor,
    Pooling.window_dict, Pooling.windows_at.
  destruct (Pooling.windows self) as [|w0 ws]; [contradiction|].
  cbn [nth_error bind ret].
  apply Nat.eqb_neq in Hx. rewrite Hx. cbn [negb bind raise]. split; reflexivity.
Qed.

Lemma pooling_forward_refuses_input_that_is_not_4d_witness :
  Pooling.forward Pooling.empty_window (inr (mk [1; 1] [1%R])) 7
  = inl (Exception Pooling.not_4d_message)
  /\ Pooling.forward Pooling.empty_window (inl [((0, 0), mk [1; 1] [1%R])]) 7
     = inl (Exception Pooling.not_4d_message).
Proof.
  apply (pooling_forward_refuses_input_that_is_not_4d Pooling.empty_window
           (mk [1; 1] [1%R]) (0, 0) [] 7).
  - discriminate.
  - cbn. lia.
Defined.

(** ** The scales of the representation *)

(** X14. Keeping all the scales of the model removes nothing:
    [remove_scales(v, self.scales)] returns a full-length vector [v]
    unchanged. *)
Theorem remove_scales_keeping_all_scales_is_identity
    (A : Type) (self : PS.params) (v : tensor A) (ld : list nat) :
  shape v = ld ++ [length (PS.representation_scales self)] ->
  wf v ->
  PS.remove_scales self v (PS.scales self) = inr v.
Proof.
  intros Hsh Hwf.
  assert (Hkept : map fst (filter (fun '(i, s) => label_in s (PS.scales self))
                             (enumerate (PS.representation_scales self)))
                  = seq 0 (length (PS.representation_scales self))).
  { unfold enumerate. rewrite filter_all.
    2:{ intros [i s] Hin. apply in_combine_r in Hin.
        now apply representation_scales_in_scales. }
    apply map_fst_combine, length_seq. }
  assert (Hcount : count_kept (PS.scales self) (PS.representation_scales self)
                   = length (PS.representation_scales self)).
  { rewrite <- kept_length, Hkept. apply length_seq. }
  rewrite (remove_scales_some self v ld _ (PS.scales self) Hsh)
    by (rewrite Hcount; apply representation_scales_nonempty).
  rewrite Hkept, Hcount.
  assert (forallb (fun i => i <? length (PS.representation_scales self))
            (seq 0 (length (PS.representation_scales self))) = true) as ->.
  { apply forallb_forall. intros i Hi. apply in_seq in Hi.
    apply Nat.ltb_lt. lia. }
  f_equal.
  transitivity (mk (shape v) (data v)); [|apply tensor_eta].
  rewrite Hsh. f_equal.
  rewrite <- (concat_rows v ld _ Hsh Hwf), flat_map_concat_map.
  f_equal. rewrite <- (map_id (rows v)) at 2. apply map_ext_in. intros r Hr.
  pose proof (rows_row_length v ld _ Hsh Hwf) as Hrows.
  rewrite Forall_forall in Hrows. specialize (Hrows r Hr). cbn beta in Hrows.
  rewrite flat_map_pick_seq. cbn [skipn]. rewrite <- Hrows. apply firstn_all.
Qed.

Lemma remove_scales_keeping_all_scales_is_identity_witness :
  PS.remove_scales ps_small vec_full (PS.scales ps_small) = inr vec_full.
Proof.
  apply (remove_scales_keeping_all_scales_is_identity nat ps_small vec_full
           [1; 1]); reflexivity.
Defined.

(** X15. [remove_scales] looks the positions up in the labels of the full
    representation, whatever the length [n] of the vector it is given: it
    raises an [IndexError] exactly when one of the positions to keep is [n]
    or more, and otherwise returns as many entries as there are positions
    to keep.  The statistic of the highpass residual is the last one, so
    keeping ['residual_highpass'] on a vector that is shorter than the
    representation always raises. *)
Theorem remove_scales_raises_iff_kept_position_out_of_range
    (A : Type) (self : PS.params) (v : tensor A) (ld : list nat) (n : nat)
    (keep : list label) :
  shape v = ld ++ [n] ->
  (PS.remove_scales self v keep = inl IndexError <->
   exists i s, nth_error (PS.representation_scales self) i = Some s
               /\ label_in s keep = true /\ n <= i)
  /\ (forall r, PS.remove_scales self v keep = inr r ->
        shape r = ld ++ [count_kept keep (PS.representation_scales self)])
  /\ (label_in PS.residual_highpass keep = true ->
      n < length (PS.representation_scales self) ->
      PS.remove_scales self v keep = inl IndexError).
Proof.
  intros Hsh.
  assert (Hiff : PS.remove_scales self v keep = inl IndexError <->
                 exists i s, nth_error (PS.representation_scales self) i = Some s
                             /\ label_in s keep = true /\ n <= i).
  { destruct (Nat.eq_dec (count_kept keep (PS.representation_scales self)) 0)
      as [E0|E0].
    { rewrite (remove_scales_none self v keep E0).
      split; [discriminate|]. intros (i & s & Hn & Hk & _). exfalso.
      assert (Hin : In i (map fst (filter (fun '(i, s) => label_in s keep)
                               (enumerate (PS.representation_scales self)))))
        by (apply kept_positions; now exists s).
      rewrite <- kept_length in E0. apply length_zero_iff_nil in E0.
      rewrite E0 in Hin. contradiction. }
    rewrite (remove_scales_some self v ld n keep Hsh E0).
    match goal with
    | |- context [forallb ?f ?l] => destruct (forallb f l) eqn:E
    end.
    - split; [discriminate|]. intros (i & s & Hn & Hk & Hi).
      rewrite forallb_forall in E.
      assert (Hin : In i (map fst (filter (fun '(i, s) => label_in s keep)
                               (enumerate (PS.representation_scales self)))))
        by (apply kept_positions; now exists s).
      specialize (E i Hin). apply Nat.ltb_lt in E. lia.
    - split; [|reflexivity]. intros _.
      assert (Hex : exists i,
                 In i (map fst (filter (fun '(i, s) => label_in s keep)
                                  (enumerate (PS.representation_scales self))))
                 /\ (i <? n) = false).
      { clear -E. revert E.
        generalize (map fst (filter (fun '(i, s) => label_in s keep)
                               (enumerate (PS.representation_scales self)))).
        intros l. induction l as [|i l IH]; cbn [forallb]; [discriminate|].
        destruct (i <? n) eqn:Ei; cbn [andb].
        - intros H. destruct (IH H) as (j & Hj & Hn).
          exists j. split; [now right | assumption].
        - intros _. exists i. split; [now left | assumption]. }
      destruct Hex as (i & Hin & Hi). apply kept_positions in Hin as (s & Hn & Hk).
      apply Nat.ltb_ge in Hi. now exists i, s. }
  split; [exact Hiff|]. split.
  - intros r Hr. exact (remove_scales_inr_shape self v r ld n keep Hsh Hr).
  - intros Hk Hn. apply Hiff.
    destruct (representation_scales_last self) as (pre & Hpre).
    exists (length pre), PS.residual_highpass. split; [|split].
    + rewrite Hpre, nth_error_app2, Nat.sub_diag by lia. reflexivity.
    + assumption.
    + rewrite Hpre, length_app in Hn. cbn [length] in Hn. lia.
Qed.

Lemma remove_scales_raises_iff_kept_position_out_of_range_witness :
  PS.remove_scales ps_small vec_short [PS.residual_highpass] = inl IndexError.
Proof.
  apply (remove_scales_raises_iff_kept_position_out_of_range nat ps_small
           vec_short [1; 1] 3 [PS.residual_highpass] eq_refl);
    [reflexivity | vm_compute; lia].
Defined.

(** X16. The length of the representation, in closed form: the sizes of its
    twelve groups of statistics (eleven without true correlations) add up to
    the length of [representation_scales]; [use_true_correlations] adds the
    [n_scales + 1] standard deviations of the reconstructed images and
    nothing else. *)
Theorem representation_length_closed_form (self : PS.params) :
  let n_s := PS.n_scales self in
  let n_o := PS.n_orientations self in
  let w := PS.spatial_corr_width self in
  let oc := Nat.max (2 * n_o) 5 in
  length (PS.representation_scales self)
  = 6 + (n_s * n_o + 2) + w * w * n_s * n_o + (n_s + 1) + (n_s + 1)
    + w * w * (n_s + 1)
    + (if PS.use_true_correlations self then n_s + 1 else 0)
    + n_o * n_o * (n_s + 1) + n_o * n_o * n_s
    + oc * oc * (n_s + 1) + 2 * n_o * oc * n_s + 1.
Proof.
  intros n_s n_o w oc. rewrite representation_scales_length.
  unfold block_sizes, PS.ori_crossed. fold n_s n_o w oc.
  destruct (PS.use_true_correlations self);
    cbn [app list_sum fold_right numel]; ring.
Qed.

(** X17. The layout of the dictionary that [convert_to_dict] builds from a
    full-length vector with leading dimensions [ld]: its keys in order, with
    [std_reconstructed] present exactly when [use_true_correlations] is set,
    and the shape of every tensor in it. *)
Theorem convert_to_dict_layout
    (A : Type) (self : PS.params) (vec : tensor A) (ld : list nat) :
  shape vec = ld ++ [length (PS.representation_scales self)] ->
  let n_s := PS.n_scales self in
  let n_o := PS.n_orientations self in
  let w := PS.spatial_corr_width self in
  let oc := Nat.max (2 * n_o) 5 in
  exists d,
    PS.convert_to_dict self vec = inr d
    /\ dict_layout d
       = [ (KStr "pixel_statistics",
            inr (map (fun k => (KStr k, ld))
                     ["mean"; "var"; "skew"; "kurtosis"; "min"; "max"]%string));
           (KStr "magnitude_means",
            inr (map (fun k => (k, ld)) (PS.magnitude_means_keys self)));
           (KStr "auto_correlation_magnitude", inl (ld ++ [w; w; n_s; n_o]));
           (KStr "skew_reconstructed", inl (ld ++ [n_s + 1]));
           (KStr "kurtosis_reconstructed", inl (ld ++ [n_s + 1]));
           (KStr "auto_correlation_reconstructed", inl (ld ++ [w; w; n_s + 1])) ]
         ++ (if PS.use_true_correlations self
             then [ (KStr "std_reconstructed", inl (ld ++ [n_s + 1])) ]
             else [])
         ++ [ (KStr "cross_orientation_correlation_magnitude",
               inl (ld ++ [n_o; n_o; n_s + 1]));
              (KStr "cross_scale_correlation_magnitude",
               inl (ld ++ [n_o; n_o; n_s]));
              (KStr "cross_orientation_correlation_real",
               inl (ld ++ [oc; oc; n_s + 1]));
              (KStr "cross_scale_correlation_real",
               inl (ld ++ [2 * n_o; oc; n_s]));
              (KStr "var_highpass_residual", inl ld) ].
Proof.
  intros Hsh n_s n_o w oc.
  exists (dict_of_blocks self ld vec). split.
  - exact (convert_to_dict_full self vec ld _ Hsh eq_refl).
  - assert (Hmm : forall (F : nat -> list A),
               map (fun kv : key * tensor A => (fst kv, shape (snd kv)))
                 (map (fun ik : nat * key => (snd ik, mk ld (F (fst ik))))
                      (enumerate (PS.magnitude_means_keys self)))
               = map (fun k => (k, ld)) (PS.magnitude_means_keys self)).
    { intros F. unfold enumerate.
      transitivity
        (map (fun k => (k, ld))
             (map snd (combine (seq 0 (length (PS.magnitude_means_keys self)))
                               (PS.magnitude_means_keys self)))).
      - rewrite !map_map. reflexivity.
      - f_equal. apply map_snd_combine, length_seq. }
    unfold dict_of_blocks, dict_layout, block, PS.ori_crossed.
    fold n_s n_o w oc.
    destruct (PS.use_true_correlations self);
      cbn [map app fst snd stat_shape shape]; rewrite ?app_nil_r;
      rewrite (Hmm (fun i => flat_map (fun r => firstn 1 (skipn (6 + i) r))
                                (rows vec)));
      reflexivity.
Qed.

Lemma convert_to_dict_layout_witness :
  exists d,
    PS.convert_to_dict ps_small vec_full = inr d
    /\ map fst (dict_layout d)
       = map KStr
           ["pixel_statistics"; "magnitude_means"; "auto_correlation_magnitude";
            "skew_reconstructed"; "kurtosis_reconstructed";
            "auto_correlation_reconstructed"; "std_reconstructed";
            "cross_orientation_correlation_magnitude";
            "cross_scale_correlation_magnitude";
            "cross_orientation_correlation_real";
            "cross_scale_correlation_real"; "var_highpass_residual"]%string.
Proof.
  destruct (convert_to_dict_layout nat ps_small vec_full [1; 1] eq_refl)
    as (d & Hd & Hl).
  exists d. split; [exact Hd|]. rewrite Hl. reflexivity.
Defined.

(** ** Correlations and magnitudes *)

(** X18. [_compute_cross_correlation] is symmetric up to transposition:
    correlating [x] with [y] gives, at orientations [(i1, i2)], what
    correlating [y] with [x] gives at [(i2, i1)].  The cross-orientation
    correlations of a tensor with itself are therefore a symmetric matrix at
    every scale. *)
Theorem cross_correlation_transposes
    (self : PS.params) (x y : tensor R) (b c s o1 o2 h w : nat) :
  shape x = [b; c; s; o1; h; w] -> shape y = [b; c; s; o2; h; w] ->
  exists r r',
    PS._compute_cross_correlation self x y = inr r
    /\ PS._compute_cross_correlation self y x = inr r'
    /\ shape r = [b; c; o1; o2; s] /\ shape r' = [b; c; o2; o1; s]
    /\ forall ib ic i1 i2 sc,
         ib < b -> ic < c -> i1 < o1 -> i2 < o2 -> sc < s ->
         get r [ib; ic; i1; i2; sc] = get r' [ib; ic; i2; i1; sc].
Proof.
  intros Hx Hy.
  destruct (cross_correlation_entries self x y b c s o1 o2 h w Hx Hy)
    as (r & Hr & Hsr & Hgr).
  destruct (cross_correlation_entries self y x b c s o2 o1 h w Hy Hx)
    as (r' & Hr' & Hsr' & Hgr').
  exists r, r'. repeat split; try assumption.
  intros ib ic i1 i2 sc Hib Hic H1 H2 Hsc.
  rewrite (Hgr ib ic i1 i2 sc), (Hgr' ib ic i2 i1 sc) by assumption.
  assert (Hcov : spatial_covariance x y [ib; ic; sc; i1] [ib; ic; sc; i2]
                 = spatial_covariance y x [ib; ic; sc; i2] [ib; ic; sc; i1]).
  { unfold spatial_covariance. rewrite sum_list_ext_combine. f_equal.
    unfold spatial_slice. rewrite Hx, Hy.
    change [b; c; s; o1; h; w] with ([b; c; s; o1] ++ [h; w]).
    change [b; c; s; o2; h; w] with ([b; c; s; o2] ++ [h; w]).
    now rewrite !split_last2_app, !length_map. }
  rewrite Hcov. destruct (PS.use_true_correlations self); [|reflexivity].
  f_equal. f_equal. apply Rmult_comm.
Qed.

Lemma cross_correlation_transposes_witness :
  exists r r',
    PS._compute_cross_correlation ps_small two_bands two_bands = inr r
    /\ PS._compute_cross_correlation ps_small two_bands two_bands = inr r'
    /\ get r [0; 0; 0; 1; 0] = get r' [0; 0; 1; 0; 0].
Proof.
  destruct (cross_correlation_transposes ps_small two_bands two_bands
              1 1 1 2 2 1 2 eq_refl eq_refl) as (r & r' & Hr & Hr' & _ & _ & Hg).
  exists r, r'. repeat split; try assumption. apply Hg; lia.
Defined.

(** X19. [compute_crosscorrelation] is symmetric up to transposition as well:
    the entry [(i, j)] for [(ch1, ch2)] is the entry [(j, i)] for
    [(ch2, ch1)], with the same number of elements; the correlations of the
    shifted lowpass with itself are a symmetric matrix. *)
Theorem compute_crosscorrelation_transposes
    (self : PS.params) (ch1 ch2 : tensor R) (b c P n m N : nat) :
  shape ch1 = [b; c; P; n] -> shape ch2 = [b; c; P; m] ->
  exists r r',
    PS.compute_crosscorrelation self ch1 ch2 N = inr r
    /\ PS.compute_crosscorrelation self ch2 ch1 N = inr r'
    /\ shape r = [b; c; n; m] /\ shape r' = [b; c; m; n]
    /\ forall ib ic i j,
         ib < b -> ic < c -> i < n -> j < m ->
         get r [ib; ic; i; j] = get r' [ib; ic; j; i].
Proof.
  intros H1 H2.
  destruct (compute_crosscorrelation_entries self ch1 ch2 b c P n m N H1 H2)
    as (r & Hr & Hsr & Hgr).
  destruct (compute_crosscorrelation_entries self ch2 ch1 b c P m n N H2 H1)
    as (r' & Hr' & Hsr' & Hgr').
  exists r, r'. repeat split; try assumption.
  intros ib ic i j Hib Hic Hi Hj.
  rewrite (Hgr ib ic i j), (Hgr' ib ic j i) by assumption.
  f_equal. f_equal.
  - f_equal. apply map_ext. intros q. apply Rmult_comm.
  - destruct (PS.use_true_correlations self); [|reflexivity]. ring.
Qed.

Lemma compute_crosscorrelation_transposes_witness :
  exists r r',
    PS.compute_crosscorrelation ps_small lowpass_2x2 lowpass_2x2 4 = inr r
    /\ PS.compute_crosscorrelation ps_small lowpass_2x2 lowpass_2x2 4 = inr r'
    /\ get r [0; 0; 0; 1] = get r' [0; 0; 1; 0].
Proof.
  destruct (compute_crosscorrelation_transposes ps_small lowpass_2x2
              lowpass_2x2 1 1 2 2 2 4 eq_refl eq_refl)
    as (r & r' & Hr & Hr' & _ & _ & Hg).
  exists r, r'. repeat split; try assumption. apply Hg; lia.
Defined.

(** X20. [_compute_intermediate_representations]: for coefficients of shape
    [(b, c, s, o, h, w)] it returns the mean magnitude of every band, at
    position [sc * o + k] of a tensor of shape [(b, c, s * o)] and never
    negative, the magnitudes with that mean taken off, and the real parts.
    The demeaned magnitudes of a band that is not empty sum to zero. *)
Theorem intermediate_representations_are_demeaned
    (pyr : tensor Torch.complex) (b c s o h w : nat) :
  shape pyr = [b; c; s; o; h; w] -> wf pyr ->
  exists means mags re,
    PS._compute_intermediate_representations pyr = inr (means, mags, re)
    /\ shape means = [b; c; s * o] /\ shape mags = [b; c; s; o; h; w]
    /\ shape re = [b; c; s; o; h; w]
    /\ forall ib ic sc k,
         ib < b -> ic < c -> sc < s -> k < o ->
         let mag := fun hw =>
           Torch.modulus (entry (0, 0)%R pyr ([ib; ic; sc; k] ++ hw)) in
         let mean := Torch.mean_list (map mag (indices [h; w])) in
         get means [ib; ic; sc * o + k] = Some mean
         /\ (0 <= mean)%R
         /\ (forall y x, y < h -> x < w ->
               get mags [ib; ic; sc; k; y; x] = Some (mag [y; x] - mean)%R
               /\ get re [ib; ic; sc; k; y; x]
                  = Some (fst (entry (0, 0)%R pyr [ib; ic; sc; k; y; x])))
         /\ (h * w <> 0 ->
             Torch.sum_list
               (map (fun hw => entry 0%R mags ([ib; ic; sc; k] ++ hw))
                    (indices [h; w])) = 0%R).
Proof.
  intros Hs Hwf. unfold PS._compute_intermediate_representations.
  assert (Hsa : shape (Torch.abs_complex pyr) = [b; c; s; o] ++ [h; w])
    by (unfold Torch.abs_complex; now rewrite shape_map_tensor).
  unfold Torch.mean_last2.
  rewrite (reduce_last2_keepdim 0%R Torch.mean_list _ _ h w Hsa). cbn [bind].
  match goal with
  | |- context [Torch.sub _ (tabulate ?sh ?G)] =>
      set (M := tabulate sh G);
      destruct (broadcast2_keepdim_get Rminus (Torch.abs_complex pyr) M
                  [b; c; s; o] h w Hsa eq_refl) as (m & Hm & Hsm & Hgm)
  end.
  unfold Torch.sub. rewrite Hm. cbn [bind].
  unfold flatten_from2, ndim. cbn [shape M tabulate app length Nat.leb firstn
                                    skipn numel fold_right bind ret].
  replace (s * (o * (1 * (1 * 1)))) with (s * o) by ring.
  do 3 eexists. split; [reflexivity|]. split; [reflexivity|].
  split; [exact Hsm|].
  split; [unfold Torch.real; now rewrite shape_map_tensor|].
  intros ib ic sc k Hib Hic Hsc Hk.
  set (mag := fun hw : list nat =>
         Torch.modulus (entry (0, 0)%R pyr ([ib; ic; sc; k] ++ hw))).
  set (mean := Torch.mean_list (map mag (indices [h; w]))).
  assert (Hmean : forall G,
             entry 0%R (tabulate ([b; c; s; o] ++ [1; 1]) G)
               ([ib; ic; sc; k] ++ [0; 0]) = G [ib; ic; sc; k; 0; 0]).
  { intros G. apply entry_tabulate. solve_valid. }
  assert (HM : entry 0%R M ([ib; ic; sc; k] ++ [0; 0]) = mean).
  { unfold M. rewrite Hmean. cbn [length firstn app]. unfold mean.
    f_equal. apply map_ext. intros hw. unfold mag.
    now rewrite entry_abs_complex. }
  assert (Hmags : forall y x, y < h -> x < w ->
             get m [ib; ic; sc; k; y; x] = Some (mag [y; x] - mean)%R).
  { intros y x Hy Hx.
    assert (Hv : valid_index [b; c; s; o] [ib; ic; sc; k] = true) by solve_valid.
    specialize (Hgm [ib; ic; sc; k] y x Hv Hy Hx). cbn [app] in Hgm.
    rewrite Hgm. f_equal. cbn [app] in HM. rewrite HM.
    now rewrite entry_abs_complex. }
  split; [|split; [|split]].
  - unfold get. cbn [shape data].
    assert (sc * o + k < s * o) by nia.
    replace (valid_index [b; c; s * o] [ib; ic; sc * o + k]) with true
      by (symmetry; solve_valid).
    replace (offset [b; c; s * o] [ib; ic; sc * o + k])
      with (offset [b; c; s; o; 1; 1] [ib; ic; sc; k; 0; 0])
      by (cbn [offset numel fold_right]; ring).
    unfold M. cbn [tabulate data app].
    rewrite nth_error_map, nth_error_indices by solve_valid.
    cbn [option_map length firstn app]. f_equal. unfold mean. f_equal.
    apply map_ext. intros hw. unfold mag. now rewrite entry_abs_complex.
  - unfold mean. apply mean_list_nonneg. apply Forall_forall.
    intros v Hv. apply in_map_iff in Hv as (hw & <- & _). apply modulus_nonneg.
  - intros y x Hy Hx. split; [now apply Hmags|].
    assert (Hget : get pyr [ib; ic; sc; k; y; x]
                   = Some (entry (0, 0)%R pyr [ib; ic; sc; k; y; x])).
    { apply get_entry_wf; [assumption | rewrite Hs; solve_valid]. }
    unfold Torch.real. rewrite get_map_tensor.
    unfold Torch.complex in *. rewrite Hget. reflexivity.
  - intros Hhw.
    transitivity (Torch.sum_list (map (fun v => v - mean)%R
                                      (map mag (indices [h; w])))).
    + rewrite map_map. f_equal. apply map_ext_in. intros hw Hin.
      destruct (valid_index2 _ _ _ (indices_valid _ _ Hin))
        as (y & x & -> & Hy & Hx).
      cbn [app]. apply entry_of_get. now apply Hmags.
    + rewrite sum_list_sub_const. unfold mean, Torch.mean_list.
      rewrite !length_map, indices_length. cbn [numel fold_right].
      rewrite Nat.mul_1_r. field. apply not_0_INR. exact Hhw.
Qed.

Lemma intermediate_representations_are_demeaned_witness :
  exists means mags re,
    PS._compute_intermediate_representations pyr_two_scales
    = inr (means, mags, re)
    /\ shape means = [1; 1; 2 * 1].
Proof.
  destruct (intermediate_representations_are_demeaned pyr_two_scales
              1 1 2 1 1 1 eq_refl eq_refl)
    as (means & mags & re & H & Hs & _).
  exists means, mags, re. split; assumption.
Defined.

(** ** Signal helpers *)

(** X21. [rescale] maps a tensor onto the range [[a, b]]: for an input with
    at least one entry and [a <= b] it returns a tensor of the same shape
    whose entries all lie between [a] and [b]; when the input is not constant
    both [a] and [b] are attained, and a constant input is mapped to [a]
    everywhere. *)
Theorem rescale_maps_onto_the_range (x : tensor R) (a b : R) :
  data x <> [] -> (a <= b)%R ->
  exists r,
    ST.rescale x a b = inr r /\ shape r = shape x
    /\ length (data r) = length (data x)
    /\ Forall (fun e => a <= e <= b)%R (data r)
    /\ ((Torch.min_list (data x) < Torch.max_list (data x))%R ->
        In a (data r) /\ In b (data r))
    /\ (Torch.min_list (data x) = Torch.max_list (data x) ->
        Forall (fun e => e = a) (data r)).
Proof.
  intros Hne Hab. unfold ST.rescale.
  destruct (min_list_spec (data x) Hne) as [Hmin_in Hmin].
  destruct (max_list_spec (data x) Hne) as [Hmax_in Hmax].
  set (lo := Torch.min_list (data x)) in *.
  set (hi := Torch.max_list (data x)) in *.
  destruct (data x) as [|x0 xs] eqn:Ex; [congruence|]. rewrite <- Ex in *.
  clear Hne.
  destruct (Rlt_dec 0 (hi - lo)) as [Hv|Hv]; eexists;
    (split; [reflexivity|]); (split; [reflexivity|]);
    cbn [map_tensor data shape]; rewrite ?length_map;
    (split; [reflexivity|]).
  - rewrite !map_map. split; [|split].
    + apply Forall_forall. intros e He. apply in_map_iff in He as (y & <- & Hy).
      specialize (Hmin y Hy). specialize (Hmax y Hy).
      assert (0 <= (y - lo) / (hi - lo) <= 1)%R.
      { split.
        - apply Rmult_le_pos; [lra|]. left. now apply Rinv_0_lt_compat.
        - apply Rmult_le_reg_r with (hi - lo)%R; [assumption|].
          unfold Rdiv. rewrite Rmult_assoc, Rinv_l by lra. lra. }
      nra.
    + intros _. split.
      * apply in_map_iff. exists lo. split; [|assumption].
        replace (lo - lo)%R with 0%R by ring. unfold Rdiv. ring.
      * apply in_map_iff. exists hi. split; [|assumption]. field. lra.
    + intros E. lra.
  - rewrite !map_map.
    assert (Heq : hi = lo).
    { specialize (Hmin hi Hmax_in). lra. }
    assert (Hall : forall y, In y (data x) -> y = lo).
    { intros y Hy. specialize (Hmin y Hy). specialize (Hmax y Hy). lra. }
    split; [|split].
    + apply Forall_forall. intros e He. apply in_map_iff in He as (y & <- & Hy).
      rewrite (Hall y Hy). replace (lo - lo)%R with 0%R by ring. lra.
    + intros Hlt. lra.
    + intros _. apply Forall_forall. intros e He.
      apply in_map_iff in He as (y & <- & Hy).
      rewrite (Hall y Hy). ring.
Qed.

Lemma rescale_maps_onto_the_range_witness :
  exists r,
    ST.rescale lowpass_2x2 0 1 = inr r /\ shape r = shape lowpass_2x2
    /\ length (data r) = length (data lowpass_2x2)
    /\ Forall (fun e => 0 <= e <= 1)%R (data r).
Proof.
  destruct (rescale_maps_onto_the_range lowpass_2x2 0 1) as (r & H1 & H2 & H3 & H4 & _).
  - discriminate.
  - lra.
  - exists r. repeat split; assumption.
Defined.

(** X22. From rectangular to polar coordinates and back: for two tensors of
    the same shape, [polar_to_rectangular] of the amplitude and phase that
    [rectangular_to_polar] returns gives every entry back when no entry is
    the number zero (real and imaginary part both 0); when one is, its
    amplitude is 0 and [polar_to_rectangular] raises the [ValueError] about
    strictly positive amplitudes. *)
Theorem rectangular_to_polar_and_back (re im : tensor R) (sh : list nat) :
  shape re = sh -> shape im = sh ->
  exists amp ph,
    ST.rectangular_to_polar re im = inr (amp, ph)
    /\ shape amp = sh /\ shape ph = sh
    /\ ((exists idx, valid_index sh idx = true
                     /\ entry 0%R re idx = 0%R /\ entry 0%R im idx = 0%R) ->
        ST.polar_to_rectangular amp ph = inl (ValueError ST.amplitudes_message))
    /\ ((forall idx, valid_index sh idx = true ->
                     entry 0%R re idx <> 0%R \/ entry 0%R im idx <> 0%R) ->
        exists re' im',
          ST.polar_to_rectangular amp ph = inr (re', im')
          /\ shape re' = sh /\ shape im' = sh
          /\ forall idx, valid_index sh idx = true ->
               get re' idx = Some (entry 0%R re idx)
               /\ get im' idx = Some (entry 0%R im idx)).
Proof.
  intros Hre Him. unfold ST.rectangular_to_polar.
  destruct (broadcast2_same_get Rplus (map_tensor (fun x => x ^ 2)%R re)
              (map_tensor (fun x => x ^ 2)%R im) sh Hre Him)
    as (sq & Hsq & Hssq & Hgsq).
  destruct (broadcast2_same_get Torch.atan2 im re sh Him Hre)
    as (ph & Hph & Hsph & Hgph).
  rewrite Hsq, Hph. cbn [bind ret].
  exists (map_tensor sqrt sq), ph.
  split; [reflexivity|]. split; [exact Hssq|]. split; [exact Hsph|].
  assert (Hsqdata : data sq = map (fun idx => (entry 0 re idx ^ 2
                                               + entry 0 im idx ^ 2)%R)
                                  (indices sh)).
  { unfold broadcast2 in Hsq. cbn [shape map_tensor] in Hsq.
    rewrite Hre, Him, broadcast_shapes_same in Hsq. cbn [bind ret] in Hsq.
    injection Hsq as <-. cbn [tabulate data]. apply map_ext_in.
    intros idx Hin. pose proof (indices_valid _ _ Hin) as Hv.
    rewrite (bidx_valid _ _ Hv).
    unfold entry. rewrite !get_map_tensor.
    destruct (get re idx), (get im idx); cbn [option_map]; ring. }
  assert (Hamp : forall idx, valid_index sh idx = true ->
             entry 0%R (map_tensor sqrt sq) idx
             = sqrt (entry 0 re idx ^ 2 + entry 0 im idx ^ 2)%R).
  { intros idx Hv. unfold entry at 1. rewrite get_map_tensor, (Hgsq idx Hv).
    cbn [option_map]. f_equal. unfold entry. rewrite !get_map_tensor.
    destruct (get re idx), (get im idx); cbn [option_map]; ring. }
  split.
  - intros (idx & Hv & Hr0 & Hi0). unfold ST.polar_to_rectangular.
    assert (existsb (fun a => if Rle_dec a 0 then true else false)
              (data (map_tensor sqrt sq)) = true) as ->; [|reflexivity].
    apply existsb_nonpositive. exists 0%R. split; [|lra].
    cbn [map_tensor data]. rewrite Hsqdata, map_map. apply in_map_iff.
    exists idx. split.
    + rewrite Hr0, Hi0. replace (0 ^ 2 + 0 ^ 2)%R with 0%R by ring.
      apply sqrt_0.
    + eapply nth_error_In. apply nth_error_indices. exact Hv.
  - intros Hnz. unfold ST.polar_to_rectangular.
    assert (existsb (fun a => if Rle_dec a 0 then true else false)
              (data (map_tensor sqrt sq)) = false) as ->.
    { apply not_true_is_false. intros H. apply existsb_nonpositive in H.
      destruct H as (a & Hin & Ha). cbn [map_tensor data] in Hin.
      rewrite Hsqdata, map_map in Hin. apply in_map_iff in Hin.
      destruct Hin as (idx & <- & Hin).
      pose proof (indices_valid _ _ Hin) as Hv.
      destruct (atan2_cos_sin (entry 0%R re idx) (entry 0%R im idx)
                  (Hnz idx Hv)) as [Hpos _]. lra. }
    assert (Hsa : shape (map_tensor sqrt sq) = sh) by exact Hssq.
    assert (Hsc : shape (map_tensor cos ph) = sh) by exact Hsph.
    assert (Hss : shape (map_tensor sin ph) = sh) by exact Hsph.
    destruct (broadcast2_same_get Rmult (map_tensor sqrt sq) (map_tensor cos ph)
                sh Hsa Hsc) as (re' & Hre' & Hsre' & Hgre').
    destruct (broadcast2_same_get Rmult (map_tensor sqrt sq) (map_tensor sin ph)
                sh Hsa Hss) as (im' & Him' & Hsim' & Hgim').
    unfold Torch.mul. rewrite Hre', Him'. cbn [bind ret].
    exists re', im'. split; [reflexivity|]. split; [exact Hsre'|].
    split; [exact Hsim'|]. intros idx Hv.
    rewrite (Hgre' idx Hv), (Hgim' idx Hv), (Hamp idx Hv).
    assert (Hphase : forall g : R -> R,
               entry 0%R (map_tensor g ph) idx
               = g (Torch.atan2 (entry 0%R im idx) (entry 0%R re idx))).
    { intros g. unfold entry at 1. rewrite get_map_tensor, (Hgph idx Hv).
      reflexivity. }
    rewrite !Hphase.
    destruct (atan2_cos_sin (entry 0%R re idx) (entry 0%R im idx)
                (Hnz idx Hv)) as (_ & Hc & Hs).
    cbv zeta in Hc, Hs. rewrite Hc, Hs. split; reflexivity.
Qed.

Lemma rectangular_to_polar_and_back_witness :
  exists amp ph,
    ST.rectangular_to_polar lowpass_2x2 lowpass_2x2 = inr (amp, ph)
    /\ shape amp = [1; 1; 2; 2] /\ shape ph = [1; 1; 2; 2].
Proof.
  destruct (rectangular_to_polar_and_back lowpass_2x2 lowpass_2x2 [1; 1; 2; 2]
              eq_refl eq_refl) as (amp & ph & H & Ha & Hp & _).
  exists amp, ph. repeat split; assumption.
Defined.

(** X23. From polar to rectangular coordinates and back: for well-formed
    tensors of the same shape, when all amplitudes are strictly positive and
    every phase lies in [(-pi, pi]], [polar_to_rectangular] returns, and
    [rectangular_to_polar] of its result gives every amplitude and every
    phase back. *)
Theorem polar_to_rectangular_and_back (amp ph : tensor R) (sh : list nat) :
  shape amp = sh -> shape ph = sh -> wf amp -> wf ph ->
  Forall (fun a => 0 < a)%R (data amp) ->
  (forall idx, valid_index sh idx = true ->
     (- PI < entry 0%R ph idx <= PI)%R) ->
  exists re im amp' ph',
    ST.polar_to_rectangular amp ph = inr (re, im)
    /\ ST.rectangular_to_polar re im = inr (amp', ph')
    /\ shape amp' = sh /\ shape ph' = sh
    /\ forall idx, valid_index sh idx = true ->
         get amp' idx = get amp idx /\ get ph' idx = get ph idx.
Proof.
  intros Ha Hp Hwa Hwp Hpos Hrange. unfold ST.polar_to_rectangular.
  assert (existsb (fun a => if Rle_dec a 0 then true else false) (data amp)
          = false) as ->.
  { apply not_true_is_false. intros H. apply existsb_nonpositive in H.
    destruct H as (a & Hin & Hle). rewrite Forall_forall in Hpos.
    specialize (Hpos a Hin). cbn beta in Hpos. lra. }
  assert (Hsc : shape (map_tensor cos ph) = sh) by exact Hp.
  assert (Hss : shape (map_tensor sin ph) = sh) by exact Hp.
  destruct (broadcast2_same_get Rmult amp (map_tensor cos ph) sh Ha Hsc)
    as (re & Hre & Hsre & Hgre).
  destruct (broadcast2_same_get Rmult amp (map_tensor sin ph) sh Ha Hss)
    as (im & Him & Hsim & Hgim).
  unfold Torch.mul. rewrite Hre, Him. cbn [bind ret].
  assert (Hsre2 : shape (map_tensor (fun x => x ^ 2)%R re) = sh) by exact Hsre.
  assert (Hsim2 : shape (map_tensor (fun x => x ^ 2)%R im) = sh) by exact Hsim.
  destruct (broadcast2_same_get Rplus _ _ sh Hsre2 Hsim2)
    as (sq & Hsq & Hssq & Hgsq).
  destruct (broadcast2_same_get Torch.atan2 im re sh Hsim Hsre)
    as (ph' & Hph' & Hsph' & Hgph').
  exists re, im, (map_tensor sqrt sq), ph'.
  split; [reflexivity|]. split.
  { unfold ST.rectangular_to_polar. rewrite Hsq, Hph'. reflexivity. }
  split; [exact Hssq|].
  split; [exact Hsph'|]. intros idx Hv.
  assert (Hga : get amp idx = Some (entry 0%R amp idx))
    by (apply get_entry_wf; [assumption | now rewrite Ha]).
  assert (Hgp : get ph idx = Some (entry 0%R ph idx))
    by (apply get_entry_wf; [assumption | now rewrite Hp]).
  set (a := entry 0%R amp idx) in *. set (phi := entry 0%R ph idx) in *.
  assert (Hapos : (0 < a)%R).
  { rewrite Forall_forall in Hpos. apply Hpos.
    unfold get in Hga. rewrite Ha, Hv in Hga.
    eapply nth_error_In. exact Hga. }
  assert (Hphase : forall g : R -> R, entry 0%R (map_tensor g ph) idx = g phi).
  { intros g. unfold entry at 1. now rewrite get_map_tensor, Hgp. }
  assert (Ere : entry 0%R re idx = (a * cos phi)%R).
  { apply entry_of_get. rewrite (Hgre idx Hv). now rewrite Hphase. }
  assert (Eim : entry 0%R im idx = (a * sin phi)%R).
  { apply entry_of_get. rewrite (Hgim idx Hv). now rewrite Hphase. }
  destruct (atan2_of_polar a phi Hapos (Hrange idx Hv)) as [Hmod Hang].
  rewrite Hga, Hgp. split.
  - rewrite get_map_tensor, (Hgsq idx Hv). cbn [option_map]. f_equal.
    rewrite <- Hmod. f_equal.
    assert (forall t v, entry 0%R t idx = v ->
              get t idx <> None ->
              entry 0%R (map_tensor (fun x => x ^ 2)%R t) idx = (v ^ 2)%R) as Hsqr.
    { intros t v E Hn. unfold entry in *. rewrite get_map_tensor.
      destruct (get t idx); [cbn [option_map]; now subst | congruence]. }
    rewrite (Hsqr re _ Ere), (Hsqr im _ Eim); [reflexivity| |].
    + rewrite (Hgim idx Hv). discriminate.
    + rewrite (Hgre idx Hv). discriminate.
  - rewrite (Hgph' idx Hv), Ere, Eim, Hang. reflexivity.
Qed.

Lemma polar_to_rectangular_and_back_witness :
  exists re im amp' ph',
    ST.polar_to_rectangular lowpass_2x2 (Torch.zeros_like lowpass_2x2)
    = inr (re, im)
    /\ ST.rectangular_to_polar re im = inr (amp', ph')
    /\ shape amp' = [1; 1; 2; 2] /\ shape ph' = [1; 1; 2; 2].
Proof.
  destruct (polar_to_rectangular_and_back lowpass_2x2
              (Torch.zeros_like lowpass_2x2) [1; 1; 2; 2] eq_refl eq_refl
              eq_refl eq_refl)
    as (re & im & amp' & ph' & H1 & H2 & H3 & H4 & _).
  - unfold lowpass_2x2. cbn [data]. repeat constructor; lra.
  - intros idx Hv. pose proof PI_RGT_0.
    assert (E : entry 0%R (Torch.zeros_like lowpass_2x2) idx = 0%R).
    { unfold entry, Torch.zeros_like. rewrite get_map_tensor.
      destruct (get lowpass_2x2 idx); reflexivity. }
    rewrite E. lra.
  - exists re, im, amp', ph'. repeat split; assumption.
Defined.

(** X24. [make_disk] returns a mask with values between 0 and 1 that is
    symmetric: for an inner radius below the outer one (as with the default
    radii of an image of two pixels or more), the entry at [(y, x)] lies in
    [[0, 1]] and equals the entries at [(x, y)], at [(n-1-y, x)] and at
    [(y, n-1-x)]. *)
Theorem make_disk_range_and_symmetry
    (n : nat) (outer inner : option R) (y x : nat) :
  let o := match outer with Some r => r | None => ((INR n - 1) / 2)%R end in
  let i := match inner with Some r => r | None => (o / 2)%R end in
  (i < o)%R -> y < n -> x < n ->
  exists v,
    get (ST.make_disk n outer inner) [y; x] = Some v /\ (0 <= v <= 1)%R
    /\ get (ST.make_disk n outer inner) [x; y] = Some v
    /\ get (ST.make_disk n outer inner) [n - 1 - y; x] = Some v
    /\ get (ST.make_disk n outer inner) [y; n - 1 - x] = Some v.
Proof.
  intros o i Hio Hy Hx. unfold ST.make_disk. fold o. fold i.
  rewrite !get_tabulate by solve_valid.
  set (c := ((INR n - 1) / 2)%R).
  assert (Hflip : forall k, k < n -> (INR (n - 1 - k) - c = - (INR k - c))%R).
  { intros k Hk. rewrite !minus_INR by lia. unfold c. cbn [INR]. field. }
  rewrite (Hflip y Hy), (Hflip x Hx).
  replace ((- (INR y - c)) ^ 2)%R with ((INR y - c) ^ 2)%R by ring.
  replace ((- (INR x - c)) ^ 2)%R with ((INR x - c) ^ 2)%R by ring.
  replace ((INR x - c) ^ 2 + (INR y - c) ^ 2)%R
    with ((INR y - c) ^ 2 + (INR x - c) ^ 2)%R by ring.
  eexists. split; [reflexivity|]. split; [|repeat split; reflexivity].
  set (r := sqrt _).
  destruct (Rlt_dec o r); [lra|]. destruct (Rlt_dec r i); [lra|].
  pose proof (COS_bound (PI * (r - i) / (o - i))). lra.
Qed.

Lemma make_disk_range_and_symmetry_witness :
  exists v,
    get (ST.make_disk 3 None None) [0; 1] = Some v /\ (0 <= v <= 1)%R
    /\ get (ST.make_disk 3 None None) [1; 0] = Some v
    /\ get (ST.make_disk 3 None None) [3 - 1 - 0; 1] = Some v
    /\ get (ST.make_disk 3 None None) [0; 3 - 1 - 1] = Some v.
Proof.
  apply (make_disk_range_and_symmetry 3 None None 0 1); [|lia|lia].
  cbn [INR]. lra.
Defined.

(** X25. [kurtosis] does not change under an affine map [x -> s * x + t] of
    the entries with [s] other than zero, and [skew] does not change when
    [s > 0] and changes its sign when [s < 0], for a tensor whose variance
    is not zero. *)
Theorem skew_and_kurtosis_under_affine_maps (mtx : tensor R) (s t : R) :
  Torch.var_list (data mtx) <> 0%R -> s <> 0%R ->
  let mtx' := map_tensor (fun x => s * x + t)%R mtx in
  ST.kurtosis mtx' = ST.kurtosis mtx
  /\ ((0 < s)%R -> ST.skew mtx' = ST.skew mtx)
  /\ ((s < 0)%R -> ST.skew mtx' = (- ST.skew mtx)%R).
Proof.
  intros Hv Hs mtx'. unfold ST.kurtosis, ST.skew, mtx'. cbn [map_tensor data].
  set (l := data mtx) in *.
  assert (Hl : l <> []).
  { intros E. apply Hv. rewrite E. unfold Torch.var_list. cbn. lra. }
  pose proof (var_list_nonneg l) as Hnn.
  set (v := Torch.var_list l) in *.
  set (m := Torch.mean_list l).
  rewrite (var_list_affine s t l Hl), (mean_list_affine s t l Hl).
  fold v m. rewrite !map_map.
  assert (E4 : map (fun x => Rabs (s * x + t - (s * m + t)) ^ 4)%R l
               = map (fun x => s ^ 4 * Rabs (x - m) ^ 4)%R l).
  { apply map_ext. intros x.
    replace (s * x + t - (s * m + t))%R with (s * (x - m))%R by ring.
    rewrite Rabs_mult, Rpow_mult_distr. f_equal.
    replace (Rabs s ^ 4)%R with ((Rabs s ^ 2) ^ 2)%R by ring.
    rewrite pow2_abs. ring. }
  assert (E3 : map (fun x => (s * x + t - (s * m + t)) ^ 3)%R l
               = map (fun x => s ^ 3 * (x - m) ^ 3)%R l).
  { apply map_ext. intros x. ring. }
  rewrite E4, E3, !mean_list_scale.
  assert (Hq : (0 < sqrt v)%R) by (apply sqrt_lt_R0; lra).
  assert (Hsq : sqrt (s ^ 2 * v) = (Rabs s * sqrt v)%R).
  { rewrite sqrt_mult by (try apply pow2_ge_0; assumption).
    f_equal. replace (s ^ 2)%R with (Rsqr s) by (unfold Rsqr; ring).
    apply sqrt_Rsqr_abs. }
  rewrite Hsq. split; [|split].
  - field. split; assumption.
  - intros Hpos. rewrite Rabs_right by lra. field. repeat split; lra.
  - intros Hneg. rewrite Rabs_left by lra. field. repeat split; lra.
Qed.

Lemma skew_and_kurtosis_under_affine_maps_witness :
  let mtx' := map_tensor (fun x => 2 * x + 1)%R lowpass_2x2 in
  ST.kurtosis mtx' = ST.kurtosis lowpass_2x2
  /\ ((0 < 2)%R -> ST.skew mtx' = ST.skew lowpass_2x2)
  /\ ((2 < 0)%R -> ST.skew mtx' = (- ST.skew lowpass_2x2)%R).
Proof.
  apply (skew_and_kurtosis_under_affine_maps lowpass_2x2 2 1); [|lra].
  unfold Torch.var_list, Torch.mean_list, lowpass_2x2. cbn. lra.
Defined.

(** X26. [roll_n(X, axis, n)] rolls a well-formed tensor along [axis]: for
    [0 <= n <= X.size(axis)] the result has the shape of [X] and its entry at
    position [i] of the axis is the entry of [X] at position [i + n] modulo
    the size; rolling by 0 or by the size gives [X] back.  For an axis that
    [X] does not have, [roll_n] raises an [IndexError]. *)
Theorem roll_n_moves_entries (X : tensor R) (axis p : nat) :
  wf X -> axis < ndim X -> p <= ST.size X axis ->
  (exists Y,
     ST.roll_n X axis (Z.of_nat p) = inr Y /\ shape Y = shape X
     /\ forall idx, valid_index (shape X) idx = true ->
          get Y idx
          = get X (ST.set_nth axis ((nth axis idx 0 + p) mod ST.size X axis)
                     idx))
  /\ ST.roll_n X axis 0 = inr X
  /\ ST.roll_n X axis (Z.of_nat (ST.size X axis)) = inr X
  /\ forall axis' n, ndim X <= axis' -> ST.roll_n X axis' n = inl IndexError.
Proof.
  intros Hwf Hax Hp.
  assert (Hid : forall q, q = 0 \/ q = ST.size X axis ->
            ST.roll_n X axis (Z.of_nat q) = inr X).
  { intros q Hq. rewrite roll_n_tabulate by (try assumption; lia).
    f_equal. transitivity (tabulate (shape X) (entry 0%R X));
      [|now apply tabulate_entry_wf].
    apply tabulate_ext. intros idx Hv.
    pose proof (valid_index_nth _ _ axis Hv Hax) as Hi.
    fold (ST.size X axis) in Hi.
    assert ((nth axis idx 0 + q) mod ST.size X axis = nth axis idx 0) as ->.
    { destruct Hq as [-> | ->].
      - rewrite Nat.add_0_r. apply Nat.mod_small. lia.
      - replace (nth axis idx 0 + ST.size X axis)
          with (nth axis idx 0 + 1 * ST.size X axis) by lia.
        rewrite Nat.Div0.mod_add. apply Nat.mod_small. lia. }
    now rewrite set_nth_nth. }
  split; [|split; [|split]].
  - rewrite roll_n_tabulate by assumption. eexists.
    split; [reflexivity|]. split; [reflexivity|]. intros idx Hv.
    rewrite get_tabulate by assumption. symmetry. apply get_entry_wf;
      [assumption|].
    pose proof (valid_index_nth _ _ axis Hv Hax) as Hi.
    rewrite <- (set_nth_nth axis 0 (shape X)) at 1.
    apply valid_index_set_nth; [assumption|].
    apply Nat.mod_upper_bound. unfold ST.size. lia.
  - apply (Hid 0). now left.
  - apply Hid. now right.
  - intros axis' n Hax'. unfold ST.roll_n, ST.slice_axis, ST.cat2_axis.
    apply Nat.ltb_ge in Hax'. rewrite Hax'. rewrite Hax'. reflexivity.
Qed.

Lemma roll_n_moves_entries_witness :
  ST.roll_n lowpass_2x2 3 0 = inr lowpass_2x2
  /\ ST.roll_n lowpass_2x2 3 (Z.of_nat (ST.size lowpass_2x2 3))
     = inr lowpass_2x2
  /\ forall axis' n, ndim lowpass_2x2 <= axis' ->
       ST.roll_n lowpass_2x2 axis' n = inl IndexError.
Proof.
  apply (roll_n_moves_entries lowpass_2x2 3 1).
  - reflexivity.
  - cbn. lia.
  - cbn. lia.
Defined.

(** X27. [batch_ifftshift2d] undoes [batch_fftshift2d]: for a well-formed
    tensor whose last dimension holds the real and the imaginary part,
    [batch_fftshift2d] returns a tensor of the same shape, and
    [batch_ifftshift2d] of it is the input, whatever the sizes of the
    dimensions (odd sizes included). *)
Theorem ifftshift_undoes_fftshift (x : tensor R) (sh : list nat) :
  shape x = sh ++ [2] -> wf x ->
  exists y,
    ST.batch_fftshift2d x = inr y /\ shape y = shape x /\ wf y
    /\ ST.batch_ifftshift2d y = inr x.
Proof.
  intros Hs Hwf.
  destruct (stack_unbind_pair x sh Hs Hwf)
    as (r & i & Hun & Hsr & Hsi & Hwr & Hwi & Hst).
  assert (Hdims : Forall (fun d => d < length sh) (seq 1 (length sh - 1))).
  { apply Forall_forall. intros d Hd. apply in_seq in Hd. lia. }
  destruct (shift_loops_inverse sh _ Hdims r i Hsr Hsi Hwr Hwi)
    as (r' & i' & Hloop & Hsr' & Hsi' & Hwr' & Hwi' & Hinv).
  destruct (unbind_stack_pair r' i' sh Hsr' Hsi' Hwr' Hwi')
    as (y & Hy & Hsy & Hwy & Huny).
  exists y. split; [|split; [|split]].
  - unfold ST.batch_fftshift2d. rewrite Hun. cbn [bind].
    unfold ndim. rewrite Hsr, Hloop. cbn [bind]. exact Hy.
  - now rewrite Hsy, Hs.
  - exact Hwy.
  - unfold ST.batch_ifftshift2d. rewrite Huny. cbn [bind].
    unfold ndim. rewrite Hsr', Hinv. cbn [bind]. exact Hst.
Qed.

Lemma ifftshift_undoes_fftshift_witness :
  exists y,
    ST.batch_fftshift2d lowpass_2x2 = inr y /\ shape y = shape lowpass_2x2
    /\ wf y /\ ST.batch_ifftshift2d y = inr lowpass_2x2.
Proof.
  apply (ifftshift_undoes_fftshift lowpass_2x2 [1; 1; 2]); reflexivity.
Defined.

(** X28. The polar angle windows tile the circle: for an integer number
    [N >= 2] of windows and a transition region width [0 < t <= 1],
    [polar_angle_windows] returns the samples of [np.linspace(0, 2 pi,
    steps)] and at most [N] windows with one value per sample, and at every
    sample the values of the windows, NaN read as 0, sum to 1. *)
Theorem polar_angle_windows_tile_the_circle (N steps : nat) (t : R) :
  2 <= N -> (0 < t <= 1)%R ->
  exists windows,
    PG.polar_angle_windows (INR N) steps t
    = inr (PG.linspace 0 (2 * PI) steps, windows)
    /\ length windows <= N
    /\ Forall (fun w => length w = steps) windows
    /\ forall k, k < steps -> column_sum windows k = 1%R.
Proof.
  intros HN Ht. unfold PG.polar_angle_windows.
  assert (HN2 : (2 <= INR N)%R) by (apply (le_INR 2); exact HN).
  pose proof PI_RGT_0 as Hpi.
  rewrite int_INR, <- INR_IZR_INZ, Nat2Z.id.
  destruct (Req_EM_T (INR N) (INR N)) as [_|Hne]; [|contradiction].
  destruct (Req_EM_T (INR N) 1) as [E|_]; [lra|].
  set (w := PG.calc_angular_window_width (INR N)).
  assert (Hw : (0 < w)%R).
  { unfold w, PG.calc_angular_window_width. apply Rdiv_lt_0_compat; lra. }
  set (lin := PG.linspace 0 (2 * PI) steps).
  set (remap := fun x : R => if Rlt_dec PI x then (x - 2 * PI)%R else x).
  set (arg := fun (n : nat) (th : R) =>
                ((th - (w * INR n + w * (1 - t) / 2)) / w)%R).
  set (opt := fun x : R => match PG.mother_window x t with
                           | inr o => o
                           | inl _ => None
                           end).
  set (W := fun n : nat =>
              map opt (map (arg n) (if n =? 0 then map remap lin else lin))).
  rewrite (mapM_pure _ W).
  2:{ intros n _. unfold W. apply mother_window_array_total. lra. }
  cbn [bind ret]. eexists. split; [reflexivity|].
  assert (Hlin : length lin = steps)
    by (unfold lin, PG.linspace; now rewrite length_map, length_seq).
  assert (HWlen : forall n, length (W n) = steps).
  { intros n. unfold W. rewrite !length_map.
    destruct (n =? 0); [rewrite length_map|]; exact Hlin. }
  split; [|split].
  - etransitivity; [apply filter_length_le|].
    rewrite length_map, length_seq. apply Nat.le_refl.
  - apply Forall_forall. intros x Hx. apply filter_In in Hx as [Hx _].
    apply in_map_iff in Hx as (n & <- & _). apply HWlen.
  - intros k Hk. rewrite column_sum_filter. unfold column_sum.
    rewrite map_map.
    destruct (linspace_angle steps k Hk) as (th & Hth & Hrange).
    fold lin in Hth.
    set (u := (th / w)%R).
    assert (HuN : (u * w = th)%R) by (unfold u; field; lra).
    assert (HwN : (w * INR N = 2 * PI)%R).
    { unfold w, PG.calc_angular_window_width. field. lra. }
    assert (Hu : (0 <= u <= INR N)%R).
    { split.
      - unfold u. apply Rmult_le_pos; [lra|]. left. now apply Rinv_0_lt_compat.
      - apply Rmult_le_reg_r with w; [assumption|]. nra. }
    rewrite <- (circle_sum t Ht N u HN Hu).
    f_equal. apply map_ext_in. intros n Hn.
    assert (Hval : forall x, nan_to_zero (opt x) = mother_window_value x t).
    { intros x. unfold opt, mother_window_value.
      destruct (PG.mother_window x t); reflexivity. }
    unfold W. destruct (Nat.eqb_spec n 0) as [->|Hn0].
    + rewrite !map_map.
      rewrite (nth_error_nth _ _ None
                 (map_nth_error (fun x => opt (arg 0 (remap x))) k lin Hth)).
      rewrite Hval. f_equal. unfold arg, remap. cbn [INR].
      destruct (Rlt_dec PI th) as [Hgt|Hle], (Rlt_dec (INR N / 2) u) as [Hgt'|Hle'].
      * unfold u. field_simplify_eq; [|lra]. nra.
      * exfalso. apply Hle'. apply Rmult_lt_reg_r with w; [assumption|]. nra.
      * exfalso. apply Hle. nra.
      * unfold u. field. lra.
    + rewrite !map_map.
      rewrite (nth_error_nth _ _ None
                 (map_nth_error (fun x => opt (arg n x)) k lin Hth)).
      rewrite Hval. f_equal. unfold arg, u. field. lra.
Qed.

Lemma polar_angle_windows_tile_the_circle_witness :
  exists windows,
    PG.polar_angle_windows (INR 2) 3 (1 / 2)
    = inr (PG.linspace 0 (2 * PI) 3, windows)
    /\ length windows <= 2
    /\ Forall (fun w => length w = 3) windows
    /\ forall k, k < 3 -> column_sum windows k = 1%R.
Proof.
  apply (polar_angle_windows_tile_the_circle 2 3 (1 / 2)); [lia | lra].
Defined.

(** X29. The central eccentricities of the windows grow geometrically up to
    the largest eccentricity: for [N >= 1] windows between
    [0 < min_ecc] and [0 < max_ecc] and the window width [w] that
    [calc_eccentricity_window_width] gives for them,
    [calc_windows_central_eccentricity] returns [N] values, the value [i]
    is [min_ecc * exp(w * (i + 1))], each one is [exp(w)] times the one
    before, and the last one is [max_ecc]. *)
Theorem central_eccentricities_are_geometric (N : nat) (min_ecc max_ecc : R) :
  1 <= N -> (0 < min_ecc)%R -> (0 < max_ecc)%R ->
  let w := ((ln max_ecc - ln min_ecc) / INR N)%R in
  PG.calc_eccentricity_window_width min_ecc max_ecc (Some (INR N)) None = inr w /\
  let ecc := PG.calc_windows_central_eccentricity (INR N) w min_ecc in
  length ecc = N
  /\ (forall i, i < N ->
        nth i ecc 0%R = (min_ecc * exp (w * (INR i + 1)))%R)
  /\ (forall i, S i < N -> nth (S i) ecc 0%R = (exp w * nth i ecc 0%R)%R)
  /\ nth (N - 1) ecc 0%R = max_ecc.
Proof.
  intros HN Hmin Hmax w. split; [reflexivity|]. intros ecc.
  assert (HN1 : (1 <= INR N)%R) by (apply (le_INR 1); exact HN).
  assert (Hecc : ecc = map (fun i => (min_ecc * exp (w * (INR i + 1)))%R)
                           (seq 0 N)).
  { unfold ecc, PG.calc_windows_central_eccentricity.
    rewrite arange_ceil. unfold PG.arange. rewrite Zceil_INR.
    now rewrite map_map. }
  assert (Hnth : forall i, i < N ->
            nth i ecc 0%R = (min_ecc * exp (w * (INR i + 1)))%R).
  { intros i Hi. rewrite Hecc.
    apply nth_error_nth. rewrite nth_error_map, nth_error_seq.
    replace (i <? N) with true by (symmetry; apply Nat.ltb_lt; lia).
    reflexivity. }
  split; [|split; [|split]].
  - rewrite Hecc. now rewrite length_map, length_seq.
  - exact Hnth.
  - intros i Hi. rewrite !Hnth by lia. rewrite S_INR.
    replace (w * (INR i + 1 + 1))%R with (w + w * (INR i + 1))%R by lra.
    rewrite exp_plus. lra.
  - rewrite Hnth by lia.
    replace (INR (N - 1) + 1)%R with (INR N).
    2:{ rewrite minus_INR by lia. cbn [INR]. lra. }
    replace (w * INR N)%R with (ln max_ecc - ln min_ecc)%R
      by (unfold w; field; lra).
    unfold Rminus. rewrite exp_plus, exp_Ropp, !exp_ln by assumption.
    field. lra.
Qed.

Lemma central_eccentricities_are_geometric_witness :
  let w := ((ln 2 - ln 1) / INR 2)%R in
  PG.calc_eccentricity_window_width 1 2 (Some (INR 2)) None = inr w /\
  let ecc := PG.calc_windows_central_eccentricity (INR 2) w 1 in
  length ecc = 2
  /\ (forall i, i < 2 -> nth i ecc 0%R = (1 * exp (w * (INR i + 1)))%R)
  /\ (forall i, S i < 2 -> nth (S i) ecc 0%R = (exp w * nth i ecc 0%R)%R)
  /\ nth (2 - 1) ecc 0%R = 2%R.
Proof.
  apply (central_eccentricities_are_geometric 2 1 2); [lia | lra | lra].
Defined.

(** X30. The log-eccentricity windows sum to one between the first and the
    last plateau, and none of them reaches below [min_ecc]: for [K >= 1]
    windows between [0 < min_ecc < max_ecc] and a transition region width
    [0 < t <= 1], [log_eccentricity_windows] returns the samples of
    [np.linspace(0, max_ecc, steps)] and at most [K] windows with one value
    per sample; at a sample of eccentricity at least
    [min_ecc * exp(w * (1 + t) / 2)], with [w] the width of the windows, the
    values of the windows (NaN read as 0) sum to 1, and at a sample of
    eccentricity at most [min_ecc] every window is NaN. *)
Theorem log_eccentricity_windows_sum_to_one
    (K steps : nat) (min_ecc max_ecc t : R) :
  1 <= K -> (0 < min_ecc < max_ecc)%R -> (0 < t <= 1)%R ->
  let w := ((ln max_ecc - ln min_ecc) / INR K)%R in
  let ecc := PG.linspace 0 max_ecc steps in
  exists windows,
    PG.log_eccentricity_windows (Some (INR K)) None min_ecc max_ecc steps t
    = inr (ecc, windows)
    /\ length windows <= K
    /\ Forall (fun win => length win = steps) windows
    /\ (forall k, k < steps ->
          (min_ecc * exp (w * (1 + t) / 2) <= nth k ecc 0)%R ->
          column_sum windows k = 1%R)
    /\ (forall k, k < steps -> (nth k ecc 0 <= min_ecc)%R ->
          Forall (fun win => nth k win None = None) windows).
Proof.
  intros HK Hecc Ht w ecc. unfold PG.log_eccentricity_windows.
  assert (HK1 : (1 <= INR K)%R) by (apply (le_INR 1); exact HK).
  assert (Hln : (ln min_ecc < ln max_ecc)%R) by (apply ln_increasing; lra).
  assert (Hw : (0 < w)%R).
  { unfold w. apply Rdiv_lt_0_compat; lra. }
  assert (HwK : (w * INR K = ln max_ecc - ln min_ecc)%R).
  { unfold w. field. lra. }
  cbn [PG.calc_eccentricity_window_width bind ret fst snd].
  fold w. fold ecc. rewrite Zceil_INR.
  set (opt := fun x : option R =>
                match x with
                | Some x => match PG.mother_window x t with
                            | inr o => o
                            | inl _ => None
                            end
                | None => None
                end).
  set (arg := fun (n : nat) (e : R) =>
                if Rlt_dec 0 e
                then Some ((ln e - (ln min_ecc + w * (INR n + 1))) / w)%R
                else None).
  set (W := fun n : nat => map opt (map (arg n) ecc)).
  rewrite (mapM_pure _ W).
  2:{ intros n _. unfold W. apply (mother_window_array'_total t Ht). }
  cbn [bind ret]. eexists. split; [reflexivity|].
  assert (Hlen : length ecc = steps) by apply linspace_length.
  assert (Hcol : forall n k e, nth_error ecc k = Some e ->
            nth k (W n) None = opt (arg n e)).
  { intros n k e He. unfold W. rewrite map_map.
    apply nth_error_nth.
    exact (map_nth_error (fun x => opt (arg n x)) k ecc He). }
  split; [|split; [|split]].
  - etransitivity; [apply filter_length_le|].
    rewrite length_map, length_seq. apply Nat.le_refl.
  - apply Forall_forall. intros x Hx. apply filter_In in Hx as [Hx _].
    apply in_map_iff in Hx as (n & <- & _). unfold W.
    now rewrite !length_map.
  - intros k Hk Hlow. rewrite column_sum_filter. unfold column_sum.
    rewrite map_map.
    destruct (linspace_from_zero max_ecc steps k ltac:(lra) Hk)
      as (e & He & Hrange).
    fold ecc in He. rewrite (nth_error_nth _ _ 0%R He) in Hlow.
    assert (Hexp : (0 < exp (w * (1 + t) / 2))%R) by apply exp_pos.
    assert (Hone : (1 <= exp (w * (1 + t) / 2))%R).
    { pose proof (exp_le 0 (w * (1 + t) / 2)) as Hx. rewrite exp_0 in Hx.
      apply Hx. assert (0 <= w * (1 + t))%R by (apply Rmult_le_pos; lra).
      lra. }
    assert (He0 : (0 < e)%R) by nra.
    assert (Hlo : (ln min_ecc + w * (1 + t) / 2 <= ln e)%R).
    { rewrite <- (ln_exp (w * (1 + t) / 2)).
      rewrite <- ln_mult by lra. apply ln_le; [nra | exact Hlow]. }
    assert (Hhi : (ln e <= ln max_ecc)%R) by (apply ln_le; lra).
    set (u := ((ln e - ln min_ecc) / w - (1 + t) / 2)%R).
    assert (Huw : ((u + (1 + t) / 2) * w = ln e - ln min_ecc)%R).
    { unfold u. field. lra. }
    assert (Hu : (0 <= u <= INR K - t)%R).
    { split.
      - apply Rmult_le_reg_r with w; [assumption|]. nra.
      - apply Rmult_le_reg_r with w; [assumption|]. nra. }
    rewrite <- (line_sum t Ht K u Hu).
    f_equal. apply map_ext_in. intros n Hn.
    rewrite (Hcol n k e He). unfold arg.
    destruct (Rlt_dec 0 e) as [_|Hne]; [|contradiction].
    unfold opt, mother_window_value.
    replace ((ln e - (ln min_ecc + w * (INR n + 1))) / w)%R
      with (u - INR n - (1 - t) / 2)%R by (unfold u; field; lra).
    destruct (PG.mother_window _ t); reflexivity.
  - intros k Hk Hsmall. apply Forall_forall. intros x Hx.
    apply filter_In in Hx as [Hx _].
    apply in_map_iff in Hx as (n & <- & _).
    destruct (linspace_from_zero max_ecc steps k ltac:(lra) Hk)
      as (e & He & Hrange).
    fold ecc in He. rewrite (nth_error_nth _ _ 0%R He) in Hsmall.
    rewrite (Hcol n k e He). unfold arg.
    destruct (Rlt_dec 0 e) as [He0|_]; [|reflexivity].
    unfold opt. rewrite (mother_window_left t Ht); [reflexivity|].
    assert (Hle : (ln e <= ln min_ecc)%R) by (apply ln_le; lra).
    pose proof (pos_INR n) as Hn.
    apply Rmult_le_reg_r with w; [assumption|].
    replace ((ln e - (ln min_ecc + w * (INR n + 1))) / w * w)%R
      with (ln e - ln min_ecc - w * (INR n + 1))%R by (field; lra).
    nra.
Qed.

Lemma log_eccentricity_windows_sum_to_one_witness :
  let w := ((ln 2 - ln 1) / INR 2)%R in
  let ecc := PG.linspace 0 2 3 in
  exists windows,
    PG.log_eccentricity_windows (Some (INR 2)) None 1 2 3 (1 / 2)
    = inr (ecc, windows)
    /\ length windows <= 2
    /\ Forall (fun win => length win = 3) windows
    /\ (forall k, k < 3 ->
          (1 * exp (w * (1 + 1 / 2) / 2) <= nth k ecc 0)%R ->
          column_sum windows k = 1%R)
    /\ (forall k, k < 3 -> (nth k ecc 0 <= 1)%R ->
          Forall (fun win => nth k win None = None) windows).
Proof.
  apply (log_eccentricity_windows_sum_to_one 2 3 1 2 (1 / 2)); [lia | lra | lra].
Defined.
